(** * Register allocator of the ARM backend (src/backend/codegen/reg_alloc.cpp)

    A shallow embedding of [RegAllocator] and of the part of the ARM
    instruction model it consumes, followed by the properties of the
    allocator stated in the specification.

    Conventions of the embedding.
    - [Reg] is [uint32_t]; instruction indices are [int]; the fields of
      [Interval] are [unsigned int].  All are carried by [Z]; where the
      source converts a value that can lie outside the common range, the
      conversion is written out: [to_int] for an [unsigned] converted to
      the [int] key of [bl_points] or [point_bb_map], [to_unsigned] for the
      [int] index that [invalidate_read] compares with an [unsigned], and
      [to_int16] for the [int] stored in the [int16_t] offset of a memory
      operand.
    - [std::unordered_map] and [std::unordered_set] become [gmap] and [gset];
      [insert] on them keeps an existing entry, which is [map_insert_new].
    - [active_reg_map] is a [std::list] of pairs and stays a list.
    - exceptions, the unbounded recursion of [get_collapse_reg] and the
      decrement of [point_bb_map.begin()] in [add_reg_use_in_bb_at_point]
      are results of the monad [M].
    - logging ([LOG], [display_active_regs]) has no effect on the
      allocation and is left out; so are [bb_used_regs] and
      [write_back_regs], which the allocator only ever writes to.

    The helpers of src/arm_code/arm.cpp that name registers, conditions,
    labels and constants, and the entry point [optimize_arm] of the pass,
    are embedded after the allocator. *)

From Stdlib Require Import ZArith Lia List Bool Sorted.
From Stdlib Require Import Ascii String.
From stdpp Require Import base decidable option list gmap fin_maps fin_sets strings pretty.

Local Open Scope Z_scope.

(** ** Registers (arm.hpp, arm.cpp) *)

(** [using Reg = uint32_t] *)
Abbreviation Reg := Z (only parsing).

Definition REG_FP : Reg := 11.
Definition REG_IP : Reg := 12.
Definition REG_SP : Reg := 13.
Definition REG_LR : Reg := 14.
Definition REG_PC : Reg := 15.

Inductive RegisterKind :=
| GeneralPurpose | DoubleVector | QuadVector
| VirtualGeneralPurpose | VirtualDoubleVector | VirtualQuadVector.

(** [register_type] of arm.cpp.  [1 << 31] and [3 << 30] are compared
    against the unsigned register number, i.e. as 2^31 and 3 * 2^30. *)
Definition register_type (r : Reg) : RegisterKind :=
  if r <? 16 then GeneralPurpose
  else if r <? 48 then DoubleVector
  else if r <? 64 then QuadVector
  else if r <? 2147483648 then VirtualGeneralPurpose
  else if r <? 3221225472 then VirtualDoubleVector
  else VirtualQuadVector.

(** Modelled from the spec: [is_virtual_register] is declared in arm.hpp,
    which is not part of the sources at hand; the specification fixes it as
    "a register is virtual iff it is >= 64". *)
Definition is_virtual_register (r : Reg) : bool := 64 <=? r.

Definition is_phys (r : Reg) : Prop := r < 64.

(** ** Live intervals *)

Record Interval := mkInterval { i_start : Z; i_end : Z }.

(** [Interval(unsigned int point)] *)
Definition Interval_point (point : Z) : Interval := mkInterval point point.

(** [Interval(unsigned int start, unsigned int end)].  The body of the
    constructor assigns to its parameter [end], which shadows the member:
    the members keep the values of the initialiser list. *)
Definition Interval_range (start end_ : Z) : Interval := mkInterval start end_.

Definition add_starting_point (start_ : Z) (iv : Interval) : Interval :=
  if start_ <? i_start iv then mkInterval start_ (i_end iv) else iv.

Definition add_ending_point (end_ : Z) (iv : Interval) : Interval :=
  if end_ >? i_end iv then mkInterval (i_start iv) end_ else iv.

Definition add_point (pt : Z) (iv : Interval) : Interval :=
  add_ending_point pt (add_starting_point pt iv).

Definition with_starting_point (start_ : Z) (iv : Interval) : Interval :=
  mkInterval start_ (i_end iv).

(** [unsigned int length()]: the difference of two [unsigned int]. *)
Definition Interval_length (iv : Interval) : Z :=
  (i_end iv - i_start iv) mod 4294967296.

(** [bool overlaps(const Interval other)] *)
Definition overlaps (a other : Interval) : bool :=
  (i_end a >? i_start other) && (i_start a <? i_end other).

(** The reading of an interval as the half-open range [start, end). *)
Definition in_range (x : Z) (iv : Interval) : Prop :=
  i_start iv <= x < i_end iv.

Definition share_point (a b : Interval) : Prop :=
  exists x, in_range x a /\ in_range x b.

Definition UINT32_MAX : Z := 4294967295.

(** ** Instruction model (arm.hpp, as used by the allocator) *)

Inductive OpCode :=
| OpNop | OpB | OpBl | OpBx | OpCbz | OpCbnz
| OpMov | OpMovT | OpMvn
| OpAdd | OpSub | OpRsb | OpMul | OpSMMul | OpMla | OpSMMla | OpSDiv
| OpLsl | OpLsr | OpAsr | OpAnd | OpOrr | OpEor | OpBic
| OpCmp | OpCmn
| OpLdR | OpLdM | OpStR | OpStM | OpPush | OpPop
| Op_Label | Op_Mod.

Inductive ConditionCode :=
| Equal | NotEqual | CarrySet | CarryClear
| UnsignedGe | UnsignedLe | UnsignedGt | UnsignedLt
| MinusOrNegative | PositiveOrZero | Overflow | NoOverflow
| Ge | Lt | Gt | Le | Always.

Inductive RegisterShiftKind := Lsl | Lsr | Asr | Ror | Rrx.

Inductive MemoryAccessKind := MAK_None | PostIndex | PreIndex.

Record RegisterOperand := mkRegisterOperand {
  ro_reg : Reg;
  ro_shift : RegisterShiftKind;
  ro_shift_amount : Z
}.

(** [Operand2 = std::variant<RegisterOperand, int32_t>] *)
Inductive Operand2 :=
| O2Reg (r : RegisterOperand)
| O2Imm (v : Z).

(** The offset of a memory operand:
    [std::variant<RegisterOperand, int16_t>]. *)
Inductive MemOffset :=
| OffReg (r : RegisterOperand)
| OffImm (v : Z).

Record MemoryOperand := mkMemoryOperand {
  mo_r1 : Reg;
  mo_offset : MemOffset;
  mo_kind : MemoryAccessKind;
  mo_neg_rm : bool
}.

(** Conversion of an [int] to [int16_t]: the value modulo 2^16, in the
    range of the type. *)
Definition to_int16 (x : Z) : Z := (x + 32768) mod 65536 - 32768.

(** [MemoryOperand(REG_SP, pos + stack_offset)]: a base register and an
    immediate offset, no write-back of the base.  The [int] the allocator
    computed is stored in the [int16_t] of the operand. *)
Definition MemoryOperand_imm (r1 : Reg) (off : Z) : MemoryOperand :=
  mkMemoryOperand r1 (OffImm (to_int16 off)) MAK_None false.

(** [LoadStoreInst::mem = std::variant<std::string, MemoryOperand>] *)
Inductive LSMem :=
| MemLabel (l : string)
| MemOp (m : MemoryOperand).

(** The payload of a [CtrlInst] is a [std::any]; the allocator only ever
    asks whether it holds an [int]. *)
Inductive AnyVal :=
| AnyInt (v : Z)
| AnyOther (descr : string).

(** One constructor per concrete instruction class.  Every instruction
    carries the condition code of the base class.  Register lists of
    [PushPopInst] are [std::set<Reg>]: ascending lists without
    repetition, see [sset_insert]. *)
Inductive Inst :=
| PureInst (op : OpCode) (cond : ConditionCode)
| Arith2Inst (op : OpCode) (r1 : Reg) (r2 : Operand2) (cond : ConditionCode)
| Arith3Inst (op : OpCode) (rd r1 : Reg) (r2 : Operand2) (cond : ConditionCode)
| Arith4Inst (op : OpCode) (rd r1 r2 r3 : Reg) (cond : ConditionCode)
| BrInst (op : OpCode) (l : string) (param_cnt : Z) (cond : ConditionCode)
| LoadStoreInst (op : OpCode) (rd : Reg) (mem : LSMem) (cond : ConditionCode)
| MultLoadStoreInst (op : OpCode) (rn : Reg) (rd : list Reg) (cond : ConditionCode)
| PushPopInst (op : OpCode) (regs : list Reg) (cond : ConditionCode)
| LabelInst (label : string) (cond : ConditionCode)
| CtrlInst (key : string) (val : AnyVal) (is_asm_option : bool) (cond : ConditionCode).

Definition inst_cond (x : Inst) : ConditionCode :=
  match x with
  | PureInst _ c | Arith2Inst _ _ _ c | Arith3Inst _ _ _ _ c
  | Arith4Inst _ _ _ _ _ c | BrInst _ _ _ c | LoadStoreInst _ _ _ c
  | MultLoadStoreInst _ _ _ c | PushPopInst _ _ c | LabelInst _ c
  | CtrlInst _ _ _ c => c
  end.

#[global] Instance OpCode_eq_dec : EqDecision OpCode.
Proof. solve_decision. Defined.
#[global] Instance ConditionCode_eq_dec : EqDecision ConditionCode.
Proof. solve_decision. Defined.
#[global] Instance RegisterShiftKind_eq_dec : EqDecision RegisterShiftKind.
Proof. solve_decision. Defined.
#[global] Instance MemoryAccessKind_eq_dec : EqDecision MemoryAccessKind.
Proof. solve_decision. Defined.
#[global] Instance RegisterOperand_eq_dec : EqDecision RegisterOperand.
Proof. solve_decision. Defined.
#[global] Instance Operand2_eq_dec : EqDecision Operand2.
Proof. solve_decision. Defined.
#[global] Instance MemOffset_eq_dec : EqDecision MemOffset.
Proof. solve_decision. Defined.
#[global] Instance MemoryOperand_eq_dec : EqDecision MemoryOperand.
Proof. solve_decision. Defined.
#[global] Instance Interval_eq_dec : EqDecision Interval.
Proof. solve_decision. Defined.

(** [std::set]: ascending, without repetition. *)
Fixpoint sset_insert (x : Z) (l : list Z) : list Z :=
  match l with
  | [] => [x]
  | y :: l' =>
      if x <? y then x :: l
      else if x =? y then l
      else y :: sset_insert x l'
  end.

Fixpoint sset_erase (x : Z) (l : list Z) : list Z :=
  match l with
  | [] => []
  | y :: l' => if x =? y then l' else y :: sset_erase x l'
  end.

Definition sset_mem (x : Z) (l : list Z) : bool :=
  existsb (Z.eqb x) l.

(** Iterators of a [std::set<int>] are positions in the ascending
    sequence; [end()] is the length.  [lower_bound k] is the first position
    whose element is not less than [k], [upper_bound k] the first position
    whose element is greater than [k]. *)
Fixpoint lower_bound (k : Z) (l : list Z) : nat :=
  match l with
  | [] => O
  | y :: l' => if y <? k then S (lower_bound k l') else O
  end.

Fixpoint upper_bound (k : Z) (l : list Z) : nat :=
  match l with
  | [] => O
  | y :: l' => if y <=? k then S (upper_bound k l') else O
  end.

(** Conversion of an [unsigned int] to [int] (two's complement). *)
Definition to_int (x : Z) : Z :=
  if x <? 2147483648 then x else x - 4294967296.

(** Conversion of an [int] to [unsigned int], as in the comparison of an
    [unsigned int] with an [int]. *)
Definition to_unsigned (x : Z) : Z := x mod 4294967296.

(** [std::string::find(char)]: position of the first occurrence,
    [None] is [npos]. *)
Fixpoint string_find_char (c : ascii) (s : string) : option nat :=
  match s with
  | EmptyString => None
  | String a s' =>
      if Ascii.eqb a c then Some O
      else match string_find_char c s' with
           | Some n => Some (S n)
           | None => None
           end
  end.

(** [label.find(pat) == 0]: the label starts with [pat]. *)
Definition starts_with (pat s : string) : bool := String.prefix pat s.

(** A [size_t] used as a condition: true unless it is zero; [npos] is the
    largest value of the type. *)
Definition size_t_truth (pos : option nat) : bool :=
  match pos with
  | Some O => false
  | _ => true
  end.

(** ** Allocator state (class [RegAllocator]) *)

Inductive ReplaceWriteKind := Phys | Graph | Spill | Transient.

Record ReplaceWriteAction := mkAction {
  from : Reg;
  replace_with : Reg;
  kind : ReplaceWriteKind
}.

Record State := mkState {
  used_regs : list Reg;                      (* std::set<Reg> *)
  used_regs_temp : list Reg;                 (* std::set<Reg> *)
  live_intervals : gmap Reg Interval;
  reg_map : gmap Reg Reg;
  reg_reverse_map : list (Reg * Reg);        (* unordered_multimap *)
  active : gmap Reg Interval;
  active_reg_map : list (Reg * Reg);         (* std::list, front = oldest *)
  spilled_regs : gmap Reg Interval;
  spill_positions : gmap Reg Z;
  spilled_cross_block_reg : gset Reg;
  reg_assign_count : gmap Reg Z;
  reg_affine : list (Reg * Reg);             (* unordered_map, keys unique *)
  reg_collapse : gmap Reg Reg;
  inst_sink : list Inst;
  bl_points : list Z;                        (* std::set<int> *)
  wrote_to : gset Reg;
  stack_size : Z;
  stack_offset : Z;
  delayed_store : option (Reg * Reg);
  bb_reset : bool;
  is_leaf_func : bool;
  cur_cond : ConditionCode;
  point_bb_map : list (Z * Z)                (* std::map<int, uint32_t> *)
}.

(** The state built by the constructor from [f.stack_size]. *)
Definition init_state (f_stack_size : Z) : State :=
  mkState [] [] ∅ ∅ [] ∅ [] ∅ ∅ ∅ ∅ [] ∅ [] [] ∅ f_stack_size 0 None true true Always [].

Definition set_used_regs v s := mkState v (used_regs_temp s) (live_intervals s) (reg_map s) (reg_reverse_map s) (active s) (active_reg_map s) (spilled_regs s) (spill_positions s) (spilled_cross_block_reg s) (reg_assign_count s) (reg_affine s) (reg_collapse s) (inst_sink s) (bl_points s) (wrote_to s) (stack_size s) (stack_offset s) (delayed_store s) (bb_reset s) (is_leaf_func s) (cur_cond s) (point_bb_map s).
Definition set_used_regs_temp v s := mkState (used_regs s) v (live_intervals s) (reg_map s) (reg_reverse_map s) (active s) (active_reg_map s) (spilled_regs s) (spill_positions s) (spilled_cross_block_reg s) (reg_assign_count s) (reg_affine s) (reg_collapse s) (inst_sink s) (bl_points s) (wrote_to s) (stack_size s) (stack_offset s) (delayed_store s) (bb_reset s) (is_leaf_func s) (cur_cond s) (point_bb_map s).
Definition set_live_intervals v s := mkState (used_regs s) (used_regs_temp s) v (reg_map s) (reg_reverse_map s) (active s) (active_reg_map s) (spilled_regs s) (spill_positions s) (spilled_cross_block_reg s) (reg_assign_count s) (reg_affine s) (reg_collapse s) (inst_sink s) (bl_points s) (wrote_to s) (stack_size s) (stack_offset s) (delayed_store s) (bb_reset s) (is_leaf_func s) (cur_cond s) (point_bb_map s).
Definition set_reg_map v s := mkState (used_regs s) (used_regs_temp s) (live_intervals s) v (reg_reverse_map s) (active s) (active_reg_map s) (spilled_regs s) (spill_positions s) (spilled_cross_block_reg s) (reg_assign_count s) (reg_affine s) (reg_collapse s) (inst_sink s) (bl_points s) (wrote_to s) (stack_size s) (stack_offset s) (delayed_store s) (bb_reset s) (is_leaf_func s) (cur_cond s) (point_bb_map s).
Definition set_reg_reverse_map v s := mkState (used_regs s) (used_regs_temp s) (live_intervals s) (reg_map s) v (active s) (active_reg_map s) (spilled_regs s) (spill_positions s) (spilled_cross_block_reg s) (reg_assign_count s) (reg_affine s) (reg_collapse s) (inst_sink s) (bl_points s) (wrote_to s) (stack_size s) (stack_offset s) (delayed_store s) (bb_reset s) (is_leaf_func s) (cur_cond s) (point_bb_map s).
Definition set_active v s := mkState (used_regs s) (used_regs_temp s) (live_intervals s) (reg_map s) (reg_reverse_map s) v (active_reg_map s) (spilled_regs s) (spill_positions s) (spilled_cross_block_reg s) (reg_assign_count s) (reg_affine s) (reg_collapse s) (inst_sink s) (bl_points s) (wrote_to s) (stack_size s) (stack_offset s) (delayed_store s) (bb_reset s) (is_leaf_func s) (cur_cond s) (point_bb_map s).
Definition set_active_reg_map v s := mkState (used_regs s) (used_regs_temp s) (live_intervals s) (reg_map s) (reg_reverse_map s) (active s) v (spilled_regs s) (spill_positions s) (spilled_cross_block_reg s) (reg_assign_count s) (reg_affine s) (reg_collapse s) (inst_sink s) (bl_points s) (wrote_to s) (stack_size s) (stack_offset s) (delayed_store s) (bb_reset s) (is_leaf_func s) (cur_cond s) (point_bb_map s).
Definition set_spilled_regs v s := mkState (used_regs s) (used_regs_temp s) (live_intervals s) (reg_map s) (reg_reverse_map s) (active s) (active_reg_map s) v (spill_positions s) (spilled_cross_block_reg s) (reg_assign_count s) (reg_affine s) (reg_collapse s) (inst_sink s) (bl_points s) (wrote_to s) (stack_size s) (stack_offset s) (delayed_store s) (bb_reset s) (is_leaf_func s) (cur_cond s) (point_bb_map s).
Definition set_spill_positions v s := mkState (used_regs s) (used_regs_temp s) (live_intervals s) (reg_map s) (reg_reverse_map s) (active s) (active_reg_map s) (spilled_regs s) v (spilled_cross_block_reg s) (reg_assign_count s) (reg_affine s) (reg_collapse s) (inst_sink s) (bl_points s) (wrote_to s) (stack_size s) (stack_offset s) (delayed_store s) (bb_reset s) (is_leaf_func s) (cur_cond s) (point_bb_map s).
Definition set_spilled_cross_block_reg v s := mkState (used_regs s) (used_regs_temp s) (live_intervals s) (reg_map s) (reg_reverse_map s) (active s) (active_reg_map s) (spilled_regs s) (spill_positions s) v (reg_assign_count s) (reg_affine s) (reg_collapse s) (inst_sink s) (bl_points s) (wrote_to s) (stack_size s) (stack_offset s) (delayed_store s) (bb_reset s) (is_leaf_func s) (cur_cond s) (point_bb_map s).
Definition set_reg_assign_count v s := mkState (used_regs s) (used_regs_temp s) (live_intervals s) (reg_map s) (reg_reverse_map s) (active s) (active_reg_map s) (spilled_regs s) (spill_positions s) (spilled_cross_block_reg s) v (reg_affine s) (reg_collapse s) (inst_sink s) (bl_points s) (wrote_to s) (stack_size s) (stack_offset s) (delayed_store s) (bb_reset s) (is_leaf_func s) (cur_cond s) (point_bb_map s).
Definition set_reg_affine v s := mkState (used_regs s) (used_regs_temp s) (live_intervals s) (reg_map s) (reg_reverse_map s) (active s) (active_reg_map s) (spilled_regs s) (spill_positions s) (spilled_cross_block_reg s) (reg_assign_count s) v (reg_collapse s) (inst_sink s) (bl_points s) (wrote_to s) (stack_size s) (stack_offset s) (delayed_store s) (bb_reset s) (is_leaf_func s) (cur_cond s) (point_bb_map s).
Definition set_reg_collapse v s := mkState (used_regs s) (used_regs_temp s) (live_intervals s) (reg_map s) (reg_reverse_map s) (active s) (active_reg_map s) (spilled_regs s) (spill_positions s) (spilled_cross_block_reg s) (reg_assign_count s) (reg_affine s) v (inst_sink s) (bl_points s) (wrote_to s) (stack_size s) (stack_offset s) (delayed_store s) (bb_reset s) (is_leaf_func s) (cur_cond s) (point_bb_map s).
Definition set_inst_sink v s := mkState (used_regs s) (used_regs_temp s) (live_intervals s) (reg_map s) (reg_reverse_map s) (active s) (active_reg_map s) (spilled_regs s) (spill_positions s) (spilled_cross_block_reg s) (reg_assign_count s) (reg_affine s) (reg_collapse s) v (bl_points s) (wrote_to s) (stack_size s) (stack_offset s) (delayed_store s) (bb_reset s) (is_leaf_func s) (cur_cond s) (point_bb_map s).
Definition set_bl_points v s := mkState (used_regs s) (used_regs_temp s) (live_intervals s) (reg_map s) (reg_reverse_map s) (active s) (active_reg_map s) (spilled_regs s) (spill_positions s) (spilled_cross_block_reg s) (reg_assign_count s) (reg_affine s) (reg_collapse s) (inst_sink s) v (wrote_to s) (stack_size s) (stack_offset s) (delayed_store s) (bb_reset s) (is_leaf_func s) (cur_cond s) (point_bb_map s).
Definition set_wrote_to v s := mkState (used_regs s) (used_regs_temp s) (live_intervals s) (reg_map s) (reg_reverse_map s) (active s) (active_reg_map s) (spilled_regs s) (spill_positions s) (spilled_cross_block_reg s) (reg_assign_count s) (reg_affine s) (reg_collapse s) (inst_sink s) (bl_points s) v (stack_size s) (stack_offset s) (delayed_store s) (bb_reset s) (is_leaf_func s) (cur_cond s) (point_bb_map s).
Definition set_stack_size v s := mkState (used_regs s) (used_regs_temp s) (live_intervals s) (reg_map s) (reg_reverse_map s) (active s) (active_reg_map s) (spilled_regs s) (spill_positions s) (spilled_cross_block_reg s) (reg_assign_count s) (reg_affine s) (reg_collapse s) (inst_sink s) (bl_points s) (wrote_to s) v (stack_offset s) (delayed_store s) (bb_reset s) (is_leaf_func s) (cur_cond s) (point_bb_map s).
Definition set_stack_offset v s := mkState (used_regs s) (used_regs_temp s) (live_intervals s) (reg_map s) (reg_reverse_map s) (active s) (active_reg_map s) (spilled_regs s) (spill_positions s) (spilled_cross_block_reg s) (reg_assign_count s) (reg_affine s) (reg_collapse s) (inst_sink s) (bl_points s) (wrote_to s) (stack_size s) v (delayed_store s) (bb_reset s) (is_leaf_func s) (cur_cond s) (point_bb_map s).
Definition set_delayed_store v s := mkState (used_regs s) (used_regs_temp s) (live_intervals s) (reg_map s) (reg_reverse_map s) (active s) (active_reg_map s) (spilled_regs s) (spill_positions s) (spilled_cross_block_reg s) (reg_assign_count s) (reg_affine s) (reg_collapse s) (inst_sink s) (bl_points s) (wrote_to s) (stack_size s) (stack_offset s) v (bb_reset s) (is_leaf_func s) (cur_cond s) (point_bb_map s).
Definition set_bb_reset v s := mkState (used_regs s) (used_regs_temp s) (live_intervals s) (reg_map s) (reg_reverse_map s) (active s) (active_reg_map s) (spilled_regs s) (spill_positions s) (spilled_cross_block_reg s) (reg_assign_count s) (reg_affine s) (reg_collapse s) (inst_sink s) (bl_points s) (wrote_to s) (stack_size s) (stack_offset s) (delayed_store s) v (is_leaf_func s) (cur_cond s) (point_bb_map s).
Definition set_is_leaf_func v s := mkState (used_regs s) (used_regs_temp s) (live_intervals s) (reg_map s) (reg_reverse_map s) (active s) (active_reg_map s) (spilled_regs s) (spill_positions s) (spilled_cross_block_reg s) (reg_assign_count s) (reg_affine s) (reg_collapse s) (inst_sink s) (bl_points s) (wrote_to s) (stack_size s) (stack_offset s) (delayed_store s) (bb_reset s) v (cur_cond s) (point_bb_map s).
Definition set_cur_cond v s := mkState (used_regs s) (used_regs_temp s) (live_intervals s) (reg_map s) (reg_reverse_map s) (active s) (active_reg_map s) (spilled_regs s) (spill_positions s) (spilled_cross_block_reg s) (reg_assign_count s) (reg_affine s) (reg_collapse s) (inst_sink s) (bl_points s) (wrote_to s) (stack_size s) (stack_offset s) (delayed_store s) (bb_reset s) (is_leaf_func s) v (point_bb_map s).
Definition set_point_bb_map v s := mkState (used_regs s) (used_regs_temp s) (live_intervals s) (reg_map s) (reg_reverse_map s) (active s) (active_reg_map s) (spilled_regs s) (spill_positions s) (spilled_cross_block_reg s) (reg_assign_count s) (reg_affine s) (reg_collapse s) (inst_sink s) (bl_points s) (wrote_to s) (stack_size s) (stack_offset s) (delayed_store s) (bb_reset s) (is_leaf_func s) (cur_cond s) v.

(** [insert] of the standard associative containers: an existing entry is
    kept. *)
Definition map_insert_new {V} (k : Z) (v : V) (m : gmap Z V) : gmap Z V :=
  match m !! k with
  | Some _ => m
  | None => <[k := v]> m
  end.

(** ** Results: values, exceptions, unbounded recursion *)

Inductive exn :=
| RuntimeError (dump : list (Reg * Interval))
    (* "Failed to allocate: all active registers are temporary!" with the
       dump of [active] *)
| OutOfRange                 (* [std::out_of_range] of [at] *)
| NotImplemented             (* [prelude::NotImplementedException] *)
| BadAnyCast                 (* [std::bad_any_cast] *)
| Undefined (what : string). (* behaviour the language leaves undefined *)

Inductive Result (A : Type) :=
| Ok (a : A)
| Throw (e : exn)
| Diverge.
Arguments Ok {A} a.
Arguments Throw {A} e.
Arguments Diverge {A}.

Definition M (A : Type) : Type := State -> Result (A * State).

Definition ret {A} (a : A) : M A := fun s => Ok (a, s).

Definition bind {A B} (m : M A) (k : A -> M B) : M B :=
  fun s =>
    match m s with
    | Ok (a, s') => k a s'
    | Throw e => Throw e
    | Diverge => Diverge
    end.

Definition throw {A} (e : exn) : M A := fun _ => Throw e.
Definition diverge {A} : M A := fun _ => Diverge.
Definition gets {A} (f : State -> A) : M A := fun s => Ok (f s, s).
Definition modify (f : State -> State) : M unit := fun s => Ok (tt, f s).

Notation "'let*' x ':=' m 'in' k" := (bind m (fun x => k))
  (at level 10, x pattern, m at level 100, k at level 200).
Notation "m '>>' k" := (bind m (fun _ => k))
  (at level 90, right associativity).

(** [at] of a map. *)
Definition map_at {V} (m : gmap Z V) (k : Z) : M V :=
  match m !! k with
  | Some v => ret v
  | None => throw OutOfRange
  end.

Definition emit (x : Inst) : M unit :=
  modify (fun s => set_inst_sink (inst_sink s ++ [x]) s).

(** ** Liveness ([calc_live_intervals] and its helpers) *)

(** [std::map<int, uint32_t>]: ascending by key; [insert] keeps an
    existing entry. *)
Fixpoint smap_insert (k v : Z) (l : list (Z * Z)) : list (Z * Z) :=
  match l with
  | [] => [(k, v)]
  | (k', v') :: l' =>
      if k <? k' then (k, v) :: l
      else if k =? k' then l
      else (k', v') :: smap_insert k v l'
  end.

(** [std::string::find_last_of(c)]: position of the last occurrence,
    [None] is [npos]. *)
Fixpoint string_rfind_char (c : ascii) (s : string) : option nat :=
  match s with
  | EmptyString => None
  | String a s' =>
      match string_rfind_char c s' with
      | Some n => Some (S n)
      | None => if Ascii.eqb a c then Some O else None
      end
  end.

(** [s.substr(n)] for [n <= s.size()] *)
Fixpoint string_drop (n : nat) (s : string) : string :=
  match n, s with
  | O, _ => s
  | S n', String _ s' => string_drop n' s'
  | S _, EmptyString => EmptyString
  end.

(** [isspace] in the C locale *)
Definition is_space (c : ascii) : bool :=
  let n := nat_of_ascii c in
  (n =? 32)%nat || ((9 <=? n)%nat && (n <=? 13)%nat).

Fixpoint skip_spaces (s : string) : string :=
  match s with
  | String c s' => if is_space c then skip_spaces s' else s
  | EmptyString => s
  end.

Definition digit_value (c : ascii) : option Z :=
  let n := nat_of_ascii c in
  if (48 <=? n)%nat && (n <=? 57)%nat then Some (Z.of_nat n - 48) else None.

(** The decimal digits a string starts with. *)
Fixpoint leading_digits (s : string) : list Z :=
  match s with
  | String c s' =>
      match digit_value c with
      | Some d => d :: leading_digits s'
      | None => []
      end
  | EmptyString => []
  end.

(** [std::stoi]: white space, an optional sign, decimal digits; what
    follows the digits is ignored.  [None] stands for the two exceptions,
    [std::invalid_argument] when there is no digit and [std::out_of_range]
    when the number is no [int]. *)
Definition stoi (s : string) : option Z :=
  let s1 := skip_spaces s in
  let '(neg, s2) :=
    match s1 with
    | String c r =>
        if Ascii.eqb c "-"%char then (true, r)
        else if Ascii.eqb c "+"%char then (false, r)
        else (false, s1)
    | EmptyString => (false, s1)
    end in
  match leading_digits s2 with
  | [] => None
  | ds =>
      let v := fold_left (fun acc d => 10 * acc + d) ds 0 in
      let v := if neg : bool then - v else v in
      if (-2147483648 <=? v) && (v <=? 2147483647) then Some v else None
  end.

(** What a label at index [i] does to [point_bb_map]: a label that starts
    with [.bb_] and has a number after its last [$] (after its start, when
    it has no [$]) records that number for [i]; the exceptions of [stoi]
    are caught and leave the map as it is. *)
Definition record_bb (label : string) (i : Z) (m : list (Z * Z)) : list (Z * Z) :=
  if starts_with ".bb_" label then
    let id_str :=
      match string_rfind_char "$"%char label with
      | Some n => string_drop (S n) label
      | None => label
      end in
    match stoi id_str with
    | Some bb_id => smap_insert i (bb_id mod 4294967296) m
    | None => m
    end
  else m.

(** [add_reg_use_in_bb_at_point]: a graph-coloured register that occurs in
    the code marks its physical register as used.  [lower_bound(point)]
    is a position in [point_bb_map]; decrementing it is undefined when it is
    [begin()], that is when no label was recorded before [point].  The set
    [bb_used_regs], which the entry found is used for, is only ever
    written to and is left out. *)
Definition add_reg_use_in_bb_at_point (reg : Reg) (point : Z) : M unit :=
  let* s := gets id in
  match reg_map s !! reg with
  | Some mapped =>
      match lower_bound (to_int point) (map fst (point_bb_map s)) with
      | O => throw (Undefined "decrement of begin()")
      | S _ => modify (fun s => set_used_regs (sset_insert mapped (used_regs s)) s)
      end
  | None => ret tt
  end.

Definition add_reg_read (reg : Reg) (point : Z) : M unit :=
  modify (fun s =>
    let li :=
      match live_intervals s !! reg with
      | Some iv => <[reg := add_ending_point point iv]> (live_intervals s)
      | None => <[reg := Interval_point point]> (live_intervals s)
      end in
    set_live_intervals li s) >>
  add_reg_use_in_bb_at_point reg point.

Definition add_reg_write (reg : Reg) (point : Z) : M unit :=
  modify (fun s =>
    let li :=
      match live_intervals s !! reg with
      | Some iv => <[reg := add_starting_point point iv]> (live_intervals s)
      | None => <[reg := Interval_point point]> (live_intervals s)
      end in
    let cnt :=
      match reg_assign_count s !! reg with
      | Some c => <[reg := c + 1]> (reg_assign_count s)
      | None => <[reg := 1]> (reg_assign_count s)
      end in
    set_reg_assign_count cnt (set_live_intervals li s)) >>
  add_reg_use_in_bb_at_point reg point.

Definition add_reg_read_op2 (o : Operand2) (point : Z) : M unit :=
  match o with
  | O2Reg x => add_reg_read (ro_reg x) point
  | O2Imm _ => ret tt
  end.

Definition add_reg_read_mem (m : MemoryOperand) (point : Z) : M unit :=
  add_reg_read (mo_r1 m) point >>
  match mo_offset m with
  | OffReg x => add_reg_read (ro_reg x) point
  | OffImm _ => ret tt
  end.

(** The [for (auto rd : regs) ...] loops, in the order of the container. *)
Fixpoint add_reg_writes (regs : list Reg) (point : Z) : M unit :=
  match regs with
  | [] => ret tt
  | rd :: rest => add_reg_write rd point >> add_reg_writes rest point
  end.

Fixpoint add_reg_reads (regs : list Reg) (point : Z) : M unit :=
  match regs with
  | [] => ret tt
  | rd :: rest => add_reg_read rd point >> add_reg_reads rest point
  end.

Definition affine_insert (k v : Reg) (l : list (Reg * Reg)) : list (Reg * Reg) :=
  if existsb (fun e : Reg * Reg => Z.eqb (fst e) k) l then l else l ++ [(k, v)].

(** The body of the loop of [calc_live_intervals] for the instruction at
    index [i]. *)
Definition live_step (x : Inst) (i : Z) : M unit :=
  match x with
  | PureInst _ _ => ret tt
  | Arith4Inst _ rd r1 r2 r3 _ =>
      add_reg_read r1 i >> add_reg_read r2 i >> add_reg_read r3 i >> add_reg_write rd i
  | Arith3Inst _ rd r1 r2 _ =>
      add_reg_read r1 i >> add_reg_read_op2 r2 i >> add_reg_write rd i
  | Arith2Inst op r1 r2 _ =>
      (if bool_decide (op = OpMov \/ op = OpMovT \/ op = OpMvn) then
         add_reg_write r1 i >>
         match r2 with
         | O2Reg ro =>
             if bool_decide (op = OpMov) && (ro_shift_amount ro =? 0) then
               if negb (is_virtual_register r1) &&
                  negb (is_virtual_register (ro_reg ro))
               then modify (fun s =>
                      set_reg_affine (affine_insert r1 (ro_reg ro) (reg_affine s)) s)
               else ret tt
             else ret tt
         | O2Imm _ => ret tt
         end
       else add_reg_read r1 i) >>
      add_reg_read_op2 r2 i
  | BrInst op _ _ _ =>
      if bool_decide (op = OpBl)
      then modify (fun s => set_bl_points (sset_insert i (bl_points s)) s)
      else ret tt
  | LoadStoreInst op rd mem _ =>
      (if bool_decide (op = OpLdR) then add_reg_write rd i
       else add_reg_read rd i) >>
      match mem with
      | MemOp m => add_reg_read_mem m i
      | MemLabel _ => ret tt
      end
  | MultLoadStoreInst op rn rd _ =>
      (if bool_decide (op = OpLdM) then add_reg_writes rd i
       else add_reg_reads rd i) >>
      add_reg_read rn i
  | PushPopInst op regs _ =>
      if bool_decide (op = OpPush) then add_reg_writes regs i
      else add_reg_reads regs i
  | LabelInst label _ =>
      modify (fun s => set_point_bb_map (record_bb label i (point_bb_map s)) s)
  | CtrlInst _ _ _ _ => ret tt
  end.

Fixpoint live_loop (insts : list Inst) (i : Z) : M unit :=
  match insts with
  | [] => ret tt
  | x :: rest => live_step x i >> live_loop rest (i + 1)
  end.

Definition calc_live_intervals (insts : list Inst) : M unit :=
  live_loop insts 0.

(** *** The state the analysis leaves

    The functions above either return or stop at the undefined decrement;
    when they return, the state is the one given by the functions below,
    which are the same updates without the test
    ([calc_live_intervals_returns]). *)

Definition add_reg_use_in_bb_at_point_state (reg : Reg) (point : Z) (s : State) : State :=
  match reg_map s !! reg with
  | Some mapped => set_used_regs (sset_insert mapped (used_regs s)) s
  | None => s
  end.

Definition add_reg_read_state (reg : Reg) (point : Z) (s : State) : State :=
  let li :=
    match live_intervals s !! reg with
    | Some iv => <[reg := add_ending_point point iv]> (live_intervals s)
    | None => <[reg := Interval_point point]> (live_intervals s)
    end in
  add_reg_use_in_bb_at_point_state reg point (set_live_intervals li s).

Definition add_reg_write_state (reg : Reg) (point : Z) (s : State) : State :=
  let li :=
    match live_intervals s !! reg with
    | Some iv => <[reg := add_starting_point point iv]> (live_intervals s)
    | None => <[reg := Interval_point point]> (live_intervals s)
    end in
  let cnt :=
    match reg_assign_count s !! reg with
    | Some c => <[reg := c + 1]> (reg_assign_count s)
    | None => <[reg := 1]> (reg_assign_count s)
    end in
  add_reg_use_in_bb_at_point_state reg point
    (set_reg_assign_count cnt (set_live_intervals li s)).

Definition add_reg_read_op2_state (o : Operand2) (point : Z) (s : State) : State :=
  match o with
  | O2Reg x => add_reg_read_state (ro_reg x) point s
  | O2Imm _ => s
  end.

Definition add_reg_read_mem_state (m : MemoryOperand) (point : Z) (s : State) : State :=
  let s1 := add_reg_read_state (mo_r1 m) point s in
  match mo_offset m with
  | OffReg x => add_reg_read_state (ro_reg x) point s1
  | OffImm _ => s1
  end.

Definition add_reg_writes_state (regs : list Reg) (point : Z) (s : State) : State :=
  fold_left (fun acc rd => add_reg_write_state rd point acc) regs s.

Definition add_reg_reads_state (regs : list Reg) (point : Z) (s : State) : State :=
  fold_left (fun acc rd => add_reg_read_state rd point acc) regs s.

Definition live_step_state (x : Inst) (i : Z) (s : State) : State :=
  match x with
  | PureInst _ _ => s
  | Arith4Inst _ rd r1 r2 r3 _ =>
      add_reg_write_state rd i (add_reg_read_state r3 i (add_reg_read_state r2 i (add_reg_read_state r1 i s)))
  | Arith3Inst _ rd r1 r2 _ =>
      add_reg_write_state rd i (add_reg_read_op2_state r2 i (add_reg_read_state r1 i s))
  | Arith2Inst op r1 r2 _ =>
      let s1 :=
        if bool_decide (op = OpMov \/ op = OpMovT \/ op = OpMvn) then
          let s' := add_reg_write_state r1 i s in
          match r2 with
          | O2Reg ro =>
              if bool_decide (op = OpMov) && (ro_shift_amount ro =? 0) then
                if negb (is_virtual_register r1) &&
                   negb (is_virtual_register (ro_reg ro))
                then set_reg_affine (affine_insert r1 (ro_reg ro) (reg_affine s')) s'
                else s'
              else s'
          | O2Imm _ => s'
          end
        else add_reg_read_state r1 i s in
      add_reg_read_op2_state r2 i s1
  | BrInst op _ _ _ =>
      if bool_decide (op = OpBl) then set_bl_points (sset_insert i (bl_points s)) s
      else s
  | LoadStoreInst op rd mem _ =>
      let s1 :=
        if bool_decide (op = OpLdR) then add_reg_write_state rd i s
        else add_reg_read_state rd i s in
      match mem with
      | MemOp m => add_reg_read_mem_state m i s1
      | MemLabel _ => s1
      end
  | MultLoadStoreInst op rn rd _ =>
      let s1 :=
        if bool_decide (op = OpLdM) then add_reg_writes_state rd i s
        else add_reg_reads_state rd i s in
      add_reg_read_state rn i s1
  | PushPopInst op regs _ =>
      if bool_decide (op = OpPush) then add_reg_writes_state regs i s
      else add_reg_reads_state regs i s
  | LabelInst label _ => set_point_bb_map (record_bb label i (point_bb_map s)) s
  | CtrlInst _ _ _ _ => s
  end.

Fixpoint live_loop_state (insts : list Inst) (i : Z) (s : State) : State :=
  match insts with
  | [] => s
  | x :: rest => live_loop_state rest (i + 1) (live_step_state x i s)
  end.

Definition calc_live_intervals_state (insts : list Inst) (s : State) : State :=
  live_loop_state insts 0 s.

(** ** Copy coalescing ([get_collapse_reg], [calc_reg_affinity]) *)

(** The recursion of [get_collapse_reg], cut after [n] calls. *)
Fixpoint get_collapse_reg_fuel (n : nat) (rc : gmap Reg Reg) (r : Reg) : option Reg :=
  match n with
  | O => None
  | S n' =>
      match rc !! r with
      | None => Some r
      | Some rd => get_collapse_reg_fuel n' rc rd
      end
  end.

(** A chase that has not ended after more calls than the map has entries
    has come back to a register it already visited and never ends
    ([get_collapse_reg_fuel_enough], [get_collapse_reg_Diverge]). *)
Definition get_collapse_reg (r : Reg) : M Reg :=
  fun s =>
    match get_collapse_reg_fuel (S (size (reg_collapse s))) (reg_collapse s) r with
    | Some r' => Ok (r', s)
    | None => Diverge
    end.

(** The scan of [reg_reverse_map.equal_range(phys)]: [Ok true] when a
    register other than [skip] with the same colour has an interval
    overlapping [li]. *)
Fixpoint colour_conflict (rev : list (Reg * Reg)) (phys skip : Reg) (li : Interval) : M bool :=
  match rev with
  | [] => ret false
  | (p, vr) :: rest =>
      if negb (p =? phys) then colour_conflict rest phys skip li
      else if vr =? skip then colour_conflict rest phys skip li
      else
        let* interval := (fun s => map_at (live_intervals s) vr s) in
        if overlaps interval li then ret true
        else colour_conflict rest phys skip li
  end.

Definition has_key {V} (m : gmap Z V) (k : Z) : bool :=
  match m !! k with Some _ => true | None => false end.

Definition is_cross_block (s : State) (r : Reg) : bool :=
  bool_decide (r ∈ spilled_cross_block_reg s).

(** The body of the loop of [calc_reg_affinity] for one entry of
    [reg_affine]. *)
Definition affinity_step (e : Reg * Reg) : M unit :=
  let '(reg_dst, reg_src) := e in
  let* s := gets id in
  let branch2 : M unit :=
    match reg_map s !! reg_dst with
    | Some phys =>
        if negb (has_key (reg_map s) reg_src) && negb (is_cross_block s reg_src) then
          let* li_src := map_at (live_intervals s) reg_src in
          let* ov := colour_conflict (reg_reverse_map s) phys reg_src li_src in
          if ov then ret tt
          else modify (fun s => set_reg_collapse (map_insert_new reg_src reg_dst (reg_collapse s)) s)
        else ret tt
    | None =>
        if negb (has_key (reg_map s) reg_src) && negb (is_cross_block s reg_src) &&
           negb (is_cross_block s reg_dst)
        then
          let* reg_src_ := get_collapse_reg reg_src in
          let* reg_dst_ := get_collapse_reg reg_dst in
          let* li_src := map_at (live_intervals s) reg_src_ in
          let* li_dst := map_at (live_intervals s) reg_dst_ in
          if overlaps li_src li_dst then ret tt
          else
            let li_src' :=
              add_ending_point (i_end li_dst) (add_starting_point (i_start li_dst) li_src) in
            modify (fun s =>
              set_reg_collapse (map_insert_new reg_dst_ reg_src_ (reg_collapse s))
                (set_live_intervals (<[reg_src_ := li_src']> (live_intervals s)) s))
        else ret tt
    end in
  match reg_map s !! reg_src with
  | Some phys =>
      if negb (has_key (reg_map s) reg_dst) && negb (is_cross_block s reg_dst) then
        let* cnt := map_at (reg_assign_count s) reg_dst in
        if cnt =? 1 then
          let* li_dst := map_at (live_intervals s) reg_dst in
          let* ov := colour_conflict (reg_reverse_map s) phys reg_src li_dst in
          if ov then ret tt
          else modify (fun s => set_reg_collapse (map_insert_new reg_dst reg_src (reg_collapse s)) s)
        else branch2
      else branch2
  | None => branch2
  end.

Fixpoint affinity_loop (l : list (Reg * Reg)) : M unit :=
  match l with
  | [] => ret tt
  | e :: rest => affinity_step e >> affinity_loop rest
  end.

(** ** Linear-scan rewriting *)

Definition find_virt (v : Reg) (l : list (Reg * Reg)) : option (Reg * Reg) :=
  find (fun e : Reg * Reg => Z.eqb (fst e) v) l.

Definition find_phys (p : Reg) (l : list (Reg * Reg)) : option (Reg * Reg) :=
  find (fun e : Reg * Reg => Z.eqb (snd e) p) l.

(** Erase the first entry whose virtual register is [v]. *)
Fixpoint remove_first_virt (v : Reg) (l : list (Reg * Reg)) : list (Reg * Reg) :=
  match l with
  | [] => []
  | e :: l' => if fst e =? v then l' else e :: remove_first_virt v l'
  end.

(** Erase the first entry whose physical register is [p]. *)
Fixpoint remove_first_phys (p : Reg) (l : list (Reg * Reg)) : list (Reg * Reg) :=
  match l with
  | [] => []
  | e :: l' => if snd e =? p then l' else e :: remove_first_phys p l'
  end.

(** [invalidate_read]: every physical register whose window ended at or
    before [pos] leaves [active], and the first entry of [active_reg_map]
    that points to it is erased.  The test [it->second.end <= pos] compares
    an [unsigned int] with the [int] [pos], which is converted to
    [unsigned int].  The erasures for different registers do not
    interfere, so the order in which [active] is walked is immaterial. *)
Definition invalidate_read (pos : Z) : M unit :=
  modify (fun s =>
    let dead :=
      filter (fun kv => i_end kv.2 <= to_unsigned pos) (map_to_list (active s)) in
    set_active (filter (fun kv => ~ (i_end kv.2 <= to_unsigned pos)) (active s))
      (set_active_reg_map
         (fold_left (fun arm kv => remove_first_phys kv.1 arm) dead (active_reg_map s)) s)).

Definition get_or_alloc_spill_pos (r : Reg) : M Z :=
  fun s =>
    match spill_positions s !! r with
    | Some pos => Ok (pos, s)
    | None =>
        let pos := stack_size s in
        Ok (pos, set_spill_positions (<[r := pos]> (spill_positions s))
                   (set_stack_size (pos + 4) s))
    end.

Definition str_sp (rd : Reg) (off : Z) (c : ConditionCode) : Inst :=
  LoadStoreInst OpStR rd (MemOp (MemoryOperand_imm REG_SP off)) c.

Definition ldr_sp (rd : Reg) (off : Z) (c : ConditionCode) : Inst :=
  LoadStoreInst OpLdR rd (MemOp (MemoryOperand_imm REG_SP off)) c.

(** [force_free] *)
Definition force_free (r : Reg) (also_erase_map write_back : bool) : M unit :=
  let* s := gets id in
  match active s !! r with
  | Some x =>
      match find_phys r (active_reg_map s) with
      | Some y =>
          let* stack_pos := get_or_alloc_spill_pos (fst y) in
          (if write_back
           then let* s1 := gets id in
                emit (str_sp r (stack_pos + stack_offset s1) (cur_cond s1))
           else ret tt) >>
          modify (fun s => set_spilled_regs (map_insert_new (fst y) x (spilled_regs s)) s) >>
          modify (fun s => set_active (delete r (active s)) s) >>
          (if also_erase_map
           then modify (fun s =>
                  set_active_reg_map (remove_first_virt (fst y) (active_reg_map s)) s)
           else ret tt)
      | None => ret tt
      end
  | None => ret tt
  end.

(** [Reg r = -1] *)
Definition NO_REG : Reg := 4294967295.

Section Pools.

(** [TEMP_REGS] and [GLOB_REGS] are constants of arm.hpp; they are taken
    as parameters here. *)
Variable TEMP_REGS : list Reg.
Variable GLOB_REGS : list Reg.

(** The search of the loop in [alloc_using_temp]: the first register of
    [TEMP_REGS] that is not in [active]. *)
Definition first_free_temp (s : State) : option Reg :=
  find (fun reg => negb (has_key (active s) reg)) TEMP_REGS.

(** The search of the loop in [alloc_using_glob]: the first register of
    [GLOB_REGS] that is neither in [active] nor in [used_regs]. *)
Definition first_free_glob (s : State) : option Reg :=
  find (fun reg => negb (has_key (active s) reg) &&
                   negb (sset_mem reg (used_regs s))) GLOB_REGS.

(** The lambda [alloc_using_temp] *)
Definition alloc_using_temp (rs : Reg * State) : Reg * State :=
  let '(r, s) := rs in
  if r =? NO_REG then
    match first_free_temp s with
    | Some reg => (reg, s)
    | None => (r, s)
    end
  else (r, s).

(** The lambda [alloc_using_glob] *)
Definition alloc_using_glob (rs : Reg * State) : Reg * State :=
  let '(r, s) := rs in
  if r =? NO_REG then
    match first_free_glob s with
    | Some reg => (reg, set_used_regs_temp (sset_insert reg (used_regs_temp s)) s)
    | None => (r, s)
    end
  else (r, s).

(** The test [lower_bound != upper_bound] on [bl_points]. *)
Definition crosses_bl (i : Interval) (s : State) : bool :=
  negb (Nat.eqb (lower_bound (to_int (i_start i)) (bl_points s))
                (upper_bound (to_int (i_end i)) (bl_points s))).

(** The last part of [alloc_transient_reg], entered with [r == -1]:
    spill the earliest-allocated entry of [active_reg_map]. *)
Definition evict (i : Interval) (orig : option Reg) : M Reg :=
  let* s := gets id in
  match active_reg_map s with
  | [] => throw (RuntimeError (map_to_list (active s)))
  | (spill_virt, spill_phys) :: rest =>
      modify (set_active_reg_map rest) >>
      let* interval := map_at (active s) spill_phys in
      let interval := mkInterval (i_start i) (i_end interval) in
      let* spill_pos := get_or_alloc_spill_pos spill_virt in
      let* s1 := gets id in
      emit (str_sp spill_phys (spill_pos + stack_offset s1) (cur_cond s1)) >>
      modify (fun s => set_spilled_regs (map_insert_new spill_virt interval (spilled_regs s)) s) >>
      (match orig with
       | Some o => modify (fun s =>
                     set_active_reg_map (remove_first_virt o (active_reg_map s)) s)
       | None => ret tt
       end) >>
      modify (fun s => set_active (delete spill_phys (active s)) s) >>
      ret spill_phys
  end.

Definition alloc_transient_reg (i : Interval) (orig : option Reg) : M Reg :=
  let* s := gets id in
  match match orig with
        | Some o => find_virt o (active_reg_map s)
        | None => None
        end with
  | Some x =>
      modify (set_active_reg_map (remove_first_virt (fst x) (active_reg_map s) ++ [x])) >>
      ret (snd x)
  | None =>
      let '(r, s1) :=
        if crosses_bl i s
        then alloc_using_temp (alloc_using_glob (NO_REG, s))
        else alloc_using_glob (alloc_using_temp (NO_REG, s)) in
      modify (fun _ => s1) >>
      let* r := (if r =? NO_REG then evict i orig else ret r) in
      modify (fun s => set_active (map_insert_new r i (active s)) s) >>
      (match orig with
       | Some o => modify (fun s => set_active_reg_map (active_reg_map s ++ [(o, r)]) s)
       | None => ret tt
       end) >>
      ret r
  end.

(** The peephole test of [replace_read]: is the last emitted instruction
    the store of [rd] to the slot at [off] under the current condition?
    A store whose address is a label makes the test dereference a null
    pointer. *)
Definition last_is_store_read (rd : Reg) (off : Z) (s : State) : Result bool :=
  match last (inst_sink s) with
  | Some (LoadStoreInst op rd' mem c) =>
      if bool_decide (op = OpStR) && (rd' =? rd) then
        match mem with
        | MemOp m =>
            Ok (bool_decide (m = MemoryOperand_imm REG_SP off) &&
                bool_decide (c = cur_cond s))
        | MemLabel _ => Throw (Undefined "null MemoryOperand")
        end
      else Ok false
  | _ => Ok false
  end.

(** The peephole test of [replace_write]; it compares the base register of
    the address ([x__->r1]) with [rd]. *)
Definition last_is_store_write (rd : Reg) (off : Z) (s : State) : Result bool :=
  match last (inst_sink s) with
  | Some (LoadStoreInst op rd' mem c) =>
      if bool_decide (op = OpStR) then
        match mem with
        | MemOp m =>
            Ok ((mo_r1 m =? rd) && bool_decide (c = cur_cond s) &&
                bool_decide (m = MemoryOperand_imm REG_SP off))
        | MemLabel _ => Throw (Undefined "null MemoryOperand")
        end
      else Ok false
  | _ => Ok false
  end.

Definition lift_result {A} (f : State -> Result A) : M A :=
  fun s =>
    match f s with
    | Ok a => Ok (a, s)
    | Throw e => Throw e
    | Diverge => Diverge
    end.

Definition pop_back : M unit :=
  modify (fun s => set_inst_sink (removelast (inst_sink s)) s).

(** [replace_read(Reg &r, int i, std::optional<Reg> pre_alloc_transient)];
    the result is the new value of [r]. *)
Definition replace_read (r : Reg) (i : Z) (pre_alloc_transient : option Reg) : M Reg :=
  let* r := get_collapse_reg r in
  if negb (is_virtual_register r) then ret r
  else
    let* s := gets id in
    match reg_map s !! r with
    | Some phys => ret phys
    | None =>
        match spilled_regs s !! r with
        | Some spill_r =>
            let* spill_pos := get_or_alloc_spill_pos r in
            let interval := mkInterval i (i_end spill_r) in
            modify (fun s => set_spilled_regs (delete r (spilled_regs s)) s) >>
            let* rd := (match pre_alloc_transient with
                        | Some p => ret p
                        | None => alloc_transient_reg interval (Some r)
                        end) in
            let* off := gets (fun s => spill_pos + stack_offset s) in
            let* del := lift_result (last_is_store_read rd off) in
            (if del : bool
             then pop_back >> modify (set_delayed_store (Some (r, rd)))
             else let* c := gets cur_cond in emit (ldr_sp rd off c)) >>
            ret rd
        | None =>
            let* live_interval := map_at (live_intervals s) r in
            alloc_transient_reg live_interval (Some r)
        end
    end.

Definition replace_read_op2 (o : Operand2) (i : Z) : M Operand2 :=
  match o with
  | O2Reg rop =>
      let* r := replace_read (ro_reg rop) i None in
      ret (O2Reg (mkRegisterOperand r (ro_shift rop) (ro_shift_amount rop)))
  | O2Imm v => ret (O2Imm v)
  end.

Definition replace_read_mem (m : MemoryOperand) (i : Z) : M MemoryOperand :=
  let* r1 := replace_read (mo_r1 m) i None in
  match mo_offset m with
  | OffReg rop =>
      let* r := replace_read (ro_reg rop) i None in
      ret (mkMemoryOperand r1
             (OffReg (mkRegisterOperand r (ro_shift rop) (ro_shift_amount rop)))
             (mo_kind m) (mo_neg_rm m))
  | OffImm v => ret (mkMemoryOperand r1 (OffImm v) (mo_kind m) (mo_neg_rm m))
  end.

(** [pre_replace_write]; the new value of [r] is [replace_with] of the
    action in each of the branches. *)
Definition pre_replace_write (r : Reg) (i : Z) (pre_alloc_transient : option Reg)
  : M ReplaceWriteAction :=
  let* r := get_collapse_reg r in
  let r_ := r in
  if negb (is_virtual_register r) then
    force_free r true true >> ret (mkAction r r Phys)
  else
    let* s := gets id in
    match reg_map s !! r with
    | Some phys => ret (mkAction r_ phys Graph)
    | None =>
        if is_cross_block s r then
          let* rd :=
            (match pre_alloc_transient with
             | Some p => ret p
             | None =>
                 match find_virt r_ (active_reg_map s) with
                 | Some x =>
                     modify (set_active_reg_map
                               (remove_first_virt (fst x) (active_reg_map s) ++ [x])) >>
                     ret (snd x)
                 | None =>
                     let* li := map_at (live_intervals s) r in
                     alloc_transient_reg (with_starting_point i li) (Some r)
                 end
             end) in
          ret (mkAction r_ rd Spill)
        else
          match spilled_regs s !! r with
          | Some spill_r =>
              let* pos := get_or_alloc_spill_pos r in
              let interval := mkInterval i (i_end spill_r) in
              modify (fun s => set_spilled_regs (delete r (spilled_regs s)) s) >>
              let* rd := (match pre_alloc_transient with
                          | Some p => ret p
                          | None => alloc_transient_reg interval (Some r)
                          end) in
              ret (mkAction r_ rd Spill)
          | None =>
              let* live_interval := map_at (live_intervals s) r in
              let* rd := alloc_transient_reg live_interval (Some r) in
              ret (mkAction r_ rd Transient)
          end
    end.

(** [replace_write] *)
Definition replace_write (a : ReplaceWriteAction) (i : Z) : M unit :=
  match kind a with
  | Phys =>
      modify (fun s =>
        set_active (map_insert_new (replace_with a) (Interval_range i UINT32_MAX) (active s)) s)
  | Graph => ret tt
  | Spill =>
      let rd := replace_with a in
      let* pos := get_or_alloc_spill_pos (from a) in
      let* off := gets (fun s => pos + stack_offset s) in
      let* del := lift_result (last_is_store_write rd off) in
      (if del : bool then ret tt
       else let* c := gets cur_cond in emit (str_sp rd off c)) >>
      modify (fun s => set_wrote_to (wrote_to s ∖ {[from a]}) s)
  | Transient => ret tt
  end.

(** The loop run at an unconditional branch when [bb_reset] is set.  [kept]
    are the entries the iterator has passed, [rest] those from the iterator
    on; [force_free] is called with [also_erase_map = false], so
    [active_reg_map] is [kept ++ rest] whenever the loop body starts. *)
Fixpoint bb_reset_loop (kept rest : list (Reg * Reg)) : M unit :=
  match rest with
  | [] => ret tt
  | (v, p) :: rest' =>
      let* s := gets id in
      if is_cross_block s v then
        force_free p false (bool_decide (v ∈ wrote_to s)) >>
        modify (fun s => set_active (delete p (active s)) s) >>
        modify (set_active_reg_map (kept ++ rest')) >>
        bb_reset_loop kept rest'
      else bb_reset_loop (kept ++ [(v, p)]) rest'
  end.

(** The body of [if (bb_reset) { ... }]. *)
Definition bb_reset_block : M unit :=
  let* arm := gets active_reg_map in
  bb_reset_loop [] arm >>
  modify (set_wrote_to ∅) >>
  modify (set_bb_reset false).

Definition commit_delayed_store (i : Z) : M unit :=
  let* d := gets delayed_store in
  match d with
  | Some (r, rd) =>
      replace_write (mkAction r rd Spill) i >> modify (set_delayed_store None)
  | None => ret tt
  end.

Fixpoint force_free_all (rs : list Reg) : M unit :=
  match rs with
  | [] => ret tt
  | r :: rest => force_free r true true >> force_free_all rest
  end.

Definition active_erase_all (rs : list Reg) : M unit :=
  modify (fun s => set_active (fold_left (fun m r => delete r m) rs (active s)) s).

(** [Reg(i)] for an [int i]. *)
Definition to_Reg (i : Z) : Reg := i mod 4294967296.

(** [std::swap] of the last two elements of [inst_sink]. *)
Definition swap_last_two (l : list Inst) : list Inst :=
  match rev l with
  | a :: b :: r => rev r ++ [a; b]
  | _ => l
  end.

Definition is_LoadStoreInst (x : Inst) : bool :=
  match x with LoadStoreInst _ _ _ _ => true | _ => false end.

Definition wrote_to_insert (r : Reg) : M unit :=
  modify (fun s => set_wrote_to ({[r]} ∪ wrote_to s) s).

(** The body of the loop of [perform_load_stores] for the instruction [x]
    at index [i]. *)
Definition rewrite_step (x : Inst) (i : Z) : M unit :=
  modify (set_cur_cond (inst_cond x)) >>
  (match x with
   | Arith3Inst op rd r1 r2 c =>
       let* r1' := replace_read r1 i None in
       let* r2' := replace_read_op2 r2 i in
       invalidate_read i >>
       wrote_to_insert rd >>
       let* prw := pre_replace_write rd i None in
       emit (Arith3Inst op (replace_with prw) r1' r2' c) >>
       replace_write prw i
   | Arith4Inst op rd r1 r2 r3 c =>
       let* r1' := replace_read r1 i None in
       let* r2' := replace_read r2 i None in
       let* r3' := replace_read r3 i None in
       invalidate_read i >>
       wrote_to_insert rd >>
       let* prw := pre_replace_write rd i None in
       emit (Arith4Inst op (replace_with prw) r1' r2' r3' c) >>
       replace_write prw i
   | Arith2Inst op r1 r2 c =>
       if bool_decide (op = OpMov \/ op = OpMvn) then
         let* r2' := replace_read_op2 r2 i in
         invalidate_read i >>
         wrote_to_insert r1 >>
         let* prw := pre_replace_write r1 i None in
         emit (Arith2Inst op (replace_with prw) r2' c) >>
         replace_write prw i
       else if bool_decide (op = OpMovT) then
         let r := r1 in
         let* r1' := replace_read r1 i None in
         invalidate_read i >>
         wrote_to_insert r1' >>
         let* prw := pre_replace_write r i (Some r1') in
         emit (Arith2Inst op r1' r2 c) >>
         replace_write prw i
       else
         let* r1' := replace_read r1 i None in
         let* r2' := replace_read_op2 r2 i in
         invalidate_read i >>
         emit (Arith2Inst op r1' r2' c)
   | LoadStoreInst op rd mem c =>
       let* mem' := (match mem with
                     | MemOp m => let* m' := replace_read_mem m i in ret (MemOp m')
                     | MemLabel l => ret (MemLabel l)
                     end) in
       if bool_decide (op = OpLdR) then
         invalidate_read i >>
         wrote_to_insert rd >>
         let* prw := pre_replace_write rd i None in
         emit (LoadStoreInst op (replace_with prw) mem' c) >>
         replace_write prw i
       else
         let* rd' := replace_read rd i None in
         invalidate_read i >>
         emit (LoadStoreInst op rd' mem' c)
   | MultLoadStoreInst _ _ _ _ => throw NotImplemented
   | PushPopInst _ _ _ =>
       invalidate_read i >> emit x
   | LabelInst label _ =>
       invalidate_read i >>
       emit x >>
       modify (fun s =>
         let sink := inst_sink s in
         if starts_with ".ld_pc" label && (2 <=? length sink)%nat &&
            match rev sink with
            | _ :: b :: _ => is_LoadStoreInst b
            | _ => false
            end
         then set_inst_sink (swap_last_two sink) s
         else s) >>
       (if size_t_truth (string_find_char "000"%char label)
        then modify (set_bb_reset true)
        else ret tt)
   | BrInst op l param_cnt c =>
       commit_delayed_store i >>
       invalidate_read i >>
       if bool_decide (op = OpBl) then
         modify (set_is_leaf_func false) >>
         let reg_cnt := Z.min param_cnt 4 in
         active_erase_all (map to_Reg (seqZ 0 reg_cnt)) >>
         force_free_all (map to_Reg (seqZ reg_cnt (4 - reg_cnt))) >>
         force_free 12 true true >>
         force_free REG_LR true true >>
         emit x >>
         active_erase_all [0; 1; 2; 3; 12; REG_LR]
       else if bool_decide (op = OpB) then
         let* reset := gets bb_reset in
         (if reset : bool then bb_reset_block else ret tt) >>
         emit x
       else emit x
   | CtrlInst key val _ _ =>
       (if String.eqb key "offset_stack" then
          match val with
          | AnyInt offset => modify (fun s => set_stack_offset (stack_offset s + offset) s)
          | AnyOther _ => throw BadAnyCast
          end
        else ret tt) >>
       invalidate_read i >>
       emit x
   | PureInst _ _ =>
       invalidate_read i >> emit x
   end) >>
  commit_delayed_store i.

Fixpoint rewrite_loop (insts : list Inst) (i : Z) : M unit :=
  match insts with
  | [] => ret tt
  | x :: rest => rewrite_step x i >> rewrite_loop rest (i + 1)
  end.

Definition perform_load_stores (insts : list Inst) : M unit :=
  rewrite_loop insts 0.

(** ** Register-map construction *)

(** One entry [(var_id, vreg_id)] of [mir_to_arm]; [color_map] maps
    variable ids to colours, [-1] for "spilled". *)
Definition construct_step (color_map : gmap Z Z) (item : Z * Reg) : M unit :=
  let '(var_id, vreg_id) := item in
  match color_map !! var_id with
  | Some color =>
      if negb (color =? -1) then
        match (if 0 <=? color then GLOB_REGS !! Z.to_nat color else None) with
        | Some reg =>
            modify (fun s =>
              set_used_regs (sset_insert reg (used_regs s))
                (set_reg_reverse_map (reg_reverse_map s ++ [(reg, vreg_id)])
                   (set_reg_map (map_insert_new vreg_id reg (reg_map s)) s)))
        | None => throw (Undefined "GLOB_REGS index")
        end
      else
        modify (fun s =>
          set_spilled_cross_block_reg ({[vreg_id]} ∪ spilled_cross_block_reg s)
            (set_stack_size (stack_size s + 4)
               (set_spill_positions
                  (map_insert_new vreg_id (stack_size s) (spill_positions s)) s)))
  | None => ret tt
  end.

Fixpoint construct_reg_map (color_map : gmap Z Z) (mir_to_arm : list (Z * Reg)) : M unit :=
  match mir_to_arm with
  | [] => ret tt
  | item :: rest => construct_step color_map item >> construct_reg_map color_map rest
  end.

(** ** Prologue and epilogue patching (second half of [alloc_regs]) *)

(** [static_cast<PushPopInst *>] followed by an update of [regs]. *)
Definition with_regs (f : list Reg -> list Reg) (x : Inst) : Result Inst :=
  match x with
  | PushPopInst op regs c => Ok (PushPopInst op (f regs) c)
  | _ => Throw (Undefined "static_cast<PushPopInst*>")
  end.

Definition regs_of (x : Inst) : Result (list Reg) :=
  match x with
  | PushPopInst _ regs _ => Ok regs
  | _ => Throw (Undefined "static_cast<PushPopInst*>")
  end.

Definition rbind {A B} (m : Result A) (k : A -> Result B) : Result B :=
  match m with
  | Ok a => k a
  | Throw e => Throw e
  | Diverge => Diverge
  end.

Notation "'let+' x ':=' m 'in' k" := (rbind m (fun x => k))
  (at level 10, x pattern, m at level 100, k at level 200).

(** Update of the object at position [n] of the vector. *)
Definition update_at (n : nat) (f : Inst -> Result Inst) (l : list Inst) : Result (list Inst) :=
  match l !! n with
  | Some x => let+ x' := f x in Ok (<[n := x']> l)
  | None => Throw (Undefined "element access out of range")
  end.

(** [insert(begin() + n, x)] *)
Definition insert_at (n : nat) (x : Inst) (l : list Inst) : Result (list Inst) :=
  if (n <=? length l)%nat then Ok (take n l ++ x :: drop n l)
  else Throw (Undefined "iterator out of range").

(** [erase(begin() + n)] *)
Definition erase_at (n : nat) (l : list Inst) : Result (list Inst) :=
  if (n <? length l)%nat then Ok (take n l ++ drop (S n) l)
  else Throw (Undefined "iterator out of range").

(** [end() - k] as a position. *)
Definition from_end (k : nat) (l : list Inst) : Result nat :=
  if (k <=? length l)%nat then Ok (length l - k)%nat
  else Throw (Undefined "iterator out of range").

Definition sset_insert_all (xs l : list Reg) : list Reg :=
  fold_left (fun acc r => sset_insert r acc) xs l.

Definition add_fp (offset_size : Z) : Inst :=
  Arith3Inst OpAdd REG_FP REG_FP (O2Imm offset_size) Always.
Definition sub_fp (offset_size : Z) : Inst :=
  Arith3Inst OpSub REG_FP REG_FP (O2Imm offset_size) Always.
Definition sub_sp_imm (sz : Z) : Inst :=
  Arith3Inst OpSub REG_SP REG_SP (O2Imm sz) Always.
Definition mov_ip_imm (sz : Z) : Inst :=
  Arith2Inst OpMov 12 (O2Imm sz) Always.
Definition sub_sp_ip : Inst :=
  Arith3Inst OpSub REG_SP REG_SP (O2Reg (mkRegisterOperand 12 Lsl 0)) Always.

(** The block of [alloc_regs] after [f.inst = std::move(inst_sink)], in
    the order of the source.  [used], [used_temp] and [stack_size] are the
    members of the allocator at that point, [use_stack_param] is
    [f.ty->params.size() > 4]. *)

Definition front_regs (inst : list Inst) : Result (list Reg) :=
  match inst with
  | x :: _ => regs_of x
  | [] => Throw (Undefined "front() of an empty vector")
  end.

Definition back_regs (inst : list Inst) : Result (list Reg) :=
  match last inst with
  | Some x => regs_of x
  | None => Throw (Undefined "back() of an empty vector")
  end.

(** The used registers join both lists; [offset_size] is taken; [fp]
    leaves both lists when neither stack parameters nor a frame need it.
    The result is the instruction list and [offset_size]. *)
Definition patch_lists (used used_temp : list Reg) (stack_size : Z)
    (use_stack_param : bool) (inst : list Inst) : Result (list Inst * Z) :=
  let add_used regs := sset_insert_all used_temp (sset_insert_all used regs) in
  let+ inst := update_at 0 (with_regs add_used) inst in
  let+ inst := update_at (length inst - 1) (with_regs add_used) inst in
  let+ first_regs := front_regs inst in
  let offset_size := Z.of_nat (length first_regs) * 4 in
  let+ inst :=
    (if negb use_stack_param && (stack_size =? 0) then
       let+ inst := update_at 0 (with_regs (sset_erase REG_FP)) inst in
       update_at (length inst - 1) (with_regs (sset_erase REG_FP)) inst
     else Ok inst) in
  Ok (inst, offset_size).

(** The instructions placed after the leading [push]. *)
Definition patch_prologue (stack_size : Z) (use_stack_param : bool)
    (offset_size : Z) (inst : list Inst) : Result (list Inst) :=
  let+ inst := (if use_stack_param then insert_at 2 (add_fp offset_size) inst
                else Ok inst) in
  if stack_size =? 0 then
    if negb use_stack_param then erase_at 1 inst else Ok inst
  else if stack_size <? 1024 then insert_at 2 (sub_sp_imm stack_size) inst
  else
    let+ inst := insert_at 2 (mov_ip_imm stack_size) inst in
    insert_at 3 sub_sp_ip inst.

(** The instructions before the trailing [pop]. *)
Definition patch_epilogue (stack_size : Z) (use_stack_param : bool)
    (offset_size : Z) (inst : list Inst) : Result (list Inst) :=
  let+ inst := (if stack_size =? 0 then
                  let+ n := from_end 2 inst in erase_at n inst
                else Ok inst) in
  if use_stack_param then
    let+ n := from_end 2 inst in insert_at n (sub_fp offset_size) inst
  else Ok inst.

(** A [push] or [pop] whose list ended up empty is dropped. *)
Definition drop_empty_lists (inst : list Inst) : Result (list Inst) :=
  let+ first_regs := front_regs inst in
  let+ last_regs := back_regs inst in
  let+ inst := (match first_regs with
                | [] => erase_at 0 inst
                | _ => Ok inst
                end) in
  match last_regs with
  | [] => let+ n := from_end 1 inst in erase_at n inst
  | _ => Ok inst
  end.

Definition patch_frame (used used_temp : list Reg) (stack_size : Z)
    (use_stack_param : bool) (inst : list Inst) : Result (list Inst) :=
  let+ patched := patch_lists used used_temp stack_size use_stack_param inst in
  let '(inst, offset_size) := patched in
  let+ inst := patch_prologue stack_size use_stack_param offset_size inst in
  let+ inst := patch_epilogue stack_size use_stack_param offset_size inst in
  drop_empty_lists inst.

Record Function := mkFunction {
  f_params : nat;          (* f.ty->params.size() *)
  f_stack_size : Z;
  f_inst : list Inst
}.

(** The order in which [calc_reg_affinity] meets the entries of the
    unordered map [reg_affine] is not fixed by the language; it is a
    parameter. *)
Variable affine_order : list (Reg * Reg) -> list (Reg * Reg).

Definition calc_reg_affinity : M unit :=
  let* l := gets reg_affine in affinity_loop (affine_order l).

(** The allocation proper: everything of [alloc_regs] up to and including
    [perform_load_stores]. *)
Definition allocate (f : Function) (color_map : gmap Z Z) (mir_to_arm : list (Z * Reg))
  : M unit :=
  construct_reg_map color_map mir_to_arm >>
  calc_live_intervals (f_inst f) >>
  calc_reg_affinity >>
  perform_load_stores (f_inst f).

(** [RegAllocator::alloc_regs]; the result is the new [f.inst] together
    with the final state of the allocator. *)
Definition alloc_regs (f : Function) (color_map : gmap Z Z) (mir_to_arm : list (Z * Reg))
  : Result (list Inst * State) :=
  match allocate f color_map mir_to_arm (init_state (f_stack_size f)) with
  | Ok (_, s) =>
      let+ inst := patch_frame (used_regs s) (used_regs_temp s) (stack_size s)
                     (4 <? f_params f)%nat (inst_sink s) in
      Ok (inst, s)
  | Throw e => Throw e
  | Diverge => Diverge
  end.

End Pools.

(** * Auxiliary notions used in the statements *)

(** The interval a register has after a write at [point]. *)
Definition written_interval (old : option Interval) (point : Z) : Interval :=
  match old with
  | Some iv => mkInterval (Z.min (i_start iv) point) (i_end iv)
  | None => mkInterval point point
  end.

(** The interval a register has after a read at [point]. *)
Definition read_interval (old : option Interval) (point : Z) : Interval :=
  match old with
  | Some iv => mkInterval (i_start iv) (Z.max (i_end iv) point)
  | None => mkInterval point point
  end.


(** The use of [reg] at [point] is defined: the register has no colour, or
    a block label is recorded before [point], so that
    [add_reg_use_in_bb_at_point] has an entry to step back to. *)
Definition use_defined (reg : Reg) (point : Z) (s : State) : Prop :=
  reg_map s !! reg = None \/
  lower_bound (to_int point) (map fst (point_bb_map s)) <> O.

(** The registers a chase through a forwarding map visits before it ends
    at a register without an entry. *)
Inductive chase (rc : gmap Reg Reg) : Reg -> list Reg -> Reg -> Prop :=
| chase_end r : rc !! r = None -> chase rc r [] r
| chase_step r rd p r' :
    rc !! r = Some rd -> chase rc rd p r' -> chase rc r (r :: p) r'.

(** The computation has returned with the state [s'], or it has stopped at
    undefined behaviour. *)
Definition as_state (r : Result (unit * State)) (s' : State) : Prop :=
  r = Ok (tt, s') \/ exists what, r = Throw (Undefined what).

(** Partial correctness of a computation of [M]: if it returns, the result
    and the final state satisfy [Q]. *)
Definition wp {A} (m : M A) (Q : A -> State -> Prop) (s : State) : Prop :=
  match m s with
  | Ok (a, s') => Q a s'
  | Throw _ => True
  | Diverge => True
  end.

(** Modelled from the spec: the register pools of arm.hpp, which is not
    among the sources.  The specification gives CALLEE_SAVED_GLOBAL as
    r4..r10 and names r0..r3 and r12 as the caller-saved registers; these
    are the pools the allocator is run with on concrete code below. *)
Definition TEMP_REGS_arm : list Reg := [0; 1; 2; 3; 12].
Definition GLOB_REGS_arm : list Reg := [4; 5; 6; 7; 8; 9; 10].

(** The allocator on a function, with these pools and [reg_affine] walked
    in the order in which its entries were inserted. *)
Definition run_alloc_regs (f : Function) (color_map : gmap Z Z)
    (mir_to_arm : list (Z * Reg)) : Result (list Inst * State) :=
  alloc_regs TEMP_REGS_arm GLOB_REGS_arm (fun l => l) f color_map mir_to_arm.

(** The state after the three analyses that precede the rewriting. *)
Definition run_analyses (f : Function) (color_map : gmap Z Z)
    (mir_to_arm : list (Z * Reg)) : Result (unit * State) :=
  (construct_reg_map GLOB_REGS_arm color_map mir_to_arm >>
   calc_live_intervals (f_inst f) >>
   calc_reg_affinity (fun l => l)) (init_state (f_stack_size f)).

Definition reg_op (r : Reg) : Operand2 := O2Reg (mkRegisterOperand r Lsl 0).

(** [push {fp, lr}; mov fp, sp; mov r5, r5; mov sp, fp; pop {fp, pc}] *)
Definition self_copy_function : Function :=
  mkFunction 0 0
    [ PushPopInst OpPush [REG_FP; REG_LR] Always;
      Arith2Inst OpMov REG_FP (reg_op REG_SP) Always;
      Arith2Inst OpMov 5 (reg_op 5) Always;
      Arith2Inst OpMov REG_SP (reg_op REG_FP) Always;
      PushPopInst OpPop [REG_FP; REG_PC] Always ].

(** [mov r6, #0; mov r5, r6; cmp r6, #0]: the copy lies between two other
    accesses of its source. *)
Definition copy_between_uses_function : Function :=
  mkFunction 0 0
    [ Arith2Inst OpMov 6 (O2Imm 0) Always;
      Arith2Inst OpMov 5 (reg_op 6) Always;
      Arith2Inst OpCmp 6 (O2Imm 0) Always ].

(** [push {fp, lr}; mov fp, sp; cmp v64, #0; b .L; .L:; mov v64, #1;
     add v64, v64, #1; mov sp, fp; pop {fp, pc}], where [v64] is the
    register of a variable the colouring pass spilled. *)
Definition dup_store_function : Function :=
  mkFunction 0 0
    [ PushPopInst OpPush [REG_FP; REG_LR] Always;
      Arith2Inst OpMov REG_FP (reg_op REG_SP) Always;
      Arith2Inst OpCmp 64 (O2Imm 0) Always;
      BrInst OpB ".L" 0 Always;
      LabelInst ".L" Always;
      Arith2Inst OpMov 64 (O2Imm 1) Always;
      Arith3Inst OpAdd 64 64 (O2Imm 1) Always;
      Arith2Inst OpMov REG_SP (reg_op REG_FP) Always;
      PushPopInst OpPop [REG_FP; REG_PC] Always ].

(** A state in which the last emitted instruction is the store of [r4] to
    the slot 0 of [v64]. *)
Definition state_after_store : State :=
  set_inst_sink [str_sp 4 0 Always]
    (set_spill_positions {[ 64 := 0 ]} (set_stack_size 4 (init_state 0))).

(** The interval, read as the closed range of indices [start, end],
    contains the index of a call. *)
Definition contains_call_point (i : Interval) (s : State) : Prop :=
  exists x, x ∈ bl_points s /\ i_start i <= x <= i_end i.

(** The virtual register on whose behalf a register is requested holds no
    register yet. *)
Definition not_in_arm (orig : option Reg) (s : State) : Prop :=
  match orig with
  | Some o => find_virt o (active_reg_map s) = None
  | None => True
  end.

(** The state after the free register [r] has been handed out for [orig]
    over the window [i]. *)
Definition allocated (r : Reg) (i : Interval) (orig : option Reg) (s : State) : State :=
  set_active_reg_map
    (match orig with
     | Some o => active_reg_map s ++ [(o, r)]
     | None => active_reg_map s
     end)
    (set_active (<[r := i]> (active s)) s).

(** [push {fp, lr}; mov fp, sp; cmp v64, #0; bl foo; mov v64, #1;
     mov sp, fp; pop {fp, pc}], where [v64] is the register of a variable
    the colouring pass spilled: its last read (index 2) precedes the call
    (index 3), its write (index 4) follows it. *)
Definition write_after_call_function : Function :=
  mkFunction 0 0
    [ PushPopInst OpPush [REG_FP; REG_LR] Always;
      Arith2Inst OpMov REG_FP (reg_op REG_SP) Always;
      Arith2Inst OpCmp 64 (O2Imm 0) Always;
      BrInst OpBl "foo" 0 Always;
      Arith2Inst OpMov 64 (O2Imm 1) Always;
      Arith2Inst OpMov REG_SP (reg_op REG_FP) Always;
      PushPopInst OpPop [REG_FP; REG_PC] Always ].

(** [mov v64, #1; b .L; .L:; mov v64, #2; mov v65, #0; ...; mov v76, #0;
     cmp v65, #0; ...; cmp v76, #0; cmp v64, #0], where [v64] is the
    register of a variable the colouring pass spilled: twelve registers
    are live across the write of [v76] at index 15. *)
Definition stale_record_function : Function :=
  mkFunction 0 0
    ([ Arith2Inst OpMov 64 (O2Imm 1) Always;
       BrInst OpB ".L" 0 Always;
       LabelInst ".L" Always;
       Arith2Inst OpMov 64 (O2Imm 2) Always ] ++
     map (fun v => Arith2Inst OpMov v (O2Imm 0) Always) (seqZ 65 12) ++
     map (fun v => Arith2Inst OpCmp v (O2Imm 0) Always) (seqZ 65 12) ++
     [ Arith2Inst OpCmp 64 (O2Imm 0) Always ]).

(** The list of a [push] or [pop] after the patching: the used registers
    joined in, [fp] taken out when neither stack parameters nor a frame
    need it. *)
Definition patched_regs (used used_temp : list Reg) (stack_size : Z)
    (use_stack_param : bool) (regs : list Reg) : list Reg :=
  let joined := sset_insert_all used_temp (sset_insert_all used regs) in
  if negb use_stack_param && (stack_size =? 0) then sset_erase REG_FP joined
  else joined.

(** A [push] or [pop] with its list; nothing when the list is empty. *)
Definition opt_pushpop (op : OpCode) (regs : list Reg) (c : ConditionCode) : list Inst :=
  match regs with
  | [] => []
  | _ => [PushPopInst op regs c]
  end.

(** [x] placed before the last element of [l]. *)
Definition insert_before_last (x : Inst) (l : list Inst) : list Inst :=
  match rev l with
  | [] => [x]
  | y :: r => rev r ++ [x; y]
  end.

(** [x] when the function has stack parameters, nothing otherwise. *)
Definition when_stack_param (use_stack_param : bool) (x : Inst) : list Inst :=
  if use_stack_param then [x] else [].

(** The instructions between the patched [push] and [pop] of the final
    code, for a body [body] that the rewriting left between the
    placeholder [ph] and the frame restore [restore]. *)
Definition framed_body (stack_size : Z) (use_stack_param : bool) (offset_size : Z)
    (ph : Inst) (body : list Inst) (restore : Inst) : list Inst :=
  if stack_size =? 0 then
    if use_stack_param
    then insert_before_last (sub_fp offset_size) ([ph; add_fp offset_size] ++ body)
    else body
  else
    [ph] ++
    (if stack_size <? 1024 then [sub_sp_imm stack_size]
     else [mov_ip_imm stack_size; sub_sp_ip]) ++
    when_stack_param use_stack_param (add_fp offset_size) ++
    body ++
    when_stack_param use_stack_param (sub_fp offset_size) ++
    [restore].

(** [push {fp, lr}; mov fp, sp; mov r0, #1; mov sp, fp; pop {fp, pc}] for
    a function of five parameters. *)
Definition five_param_function : Function :=
  mkFunction 5 0
    [ PushPopInst OpPush [REG_FP; REG_LR] Always;
      Arith2Inst OpMov REG_FP (reg_op REG_SP) Always;
      Arith2Inst OpMov 0 (O2Imm 1) Always;
      Arith2Inst OpMov REG_SP (reg_op REG_FP) Always;
      PushPopInst OpPop [REG_FP; REG_PC] Always ].

(** The members of the allocator that the freeing of registers at a block
    boundary leaves alone. *)
Definition same_frame (s s' : State) : Prop :=
  wrote_to s' = wrote_to s /\
  cur_cond s' = cur_cond s /\
  stack_offset s' = stack_offset s /\
  spilled_cross_block_reg s' = spilled_cross_block_reg s /\
  bb_reset s' = bb_reset s /\
  delayed_store s' = delayed_store s /\
  (forall v pos, spill_positions s !! v = Some pos -> spill_positions s' !! v = Some pos).

(** The virtual register [v] is the one the allocator regards as the
    occupant of the physical register [p]: [p] has an active window and the
    first entry of [active_reg_map] that points to [p] is [(v, p)]. *)
Definition live_in (s : State) (v p : Reg) : Prop :=
  is_Some (active s !! p) /\ find_phys p (active_reg_map s) = Some (v, p).

(** A store of a physical register to a stack slot under the condition
    code [c]. *)
Definition is_spill_store (c : ConditionCode) (x : Inst) : Prop :=
  exists p off, x = str_sp p off c.






(** ** Physical operands *)

Definition phys_op2 (o : Operand2) : Prop :=
  match o with
  | O2Reg r => is_phys (ro_reg r)
  | O2Imm _ => True
  end.

Definition phys_mem (m : MemoryOperand) : Prop :=
  is_phys (mo_r1 m) /\
  match mo_offset m with
  | OffReg r => is_phys (ro_reg r)
  | OffImm _ => True
  end.

Definition phys_lsmem (m : LSMem) : Prop :=
  match m with
  | MemOp m => phys_mem m
  | MemLabel _ => True
  end.

(** Every register operand of the instruction is a physical register. *)
Definition phys_inst (x : Inst) : Prop :=
  match x with
  | PureInst _ _ => True
  | Arith2Inst _ r1 r2 _ => is_phys r1 /\ phys_op2 r2
  | Arith3Inst _ rd r1 r2 _ => is_phys rd /\ is_phys r1 /\ phys_op2 r2
  | Arith4Inst _ rd r1 r2 r3 _ => is_phys rd /\ is_phys r1 /\ is_phys r2 /\ is_phys r3
  | BrInst _ _ _ _ => True
  | LoadStoreInst _ rd mem _ => is_phys rd /\ phys_lsmem mem
  | MultLoadStoreInst _ rn rd _ => is_phys rn /\ Forall is_phys rd
  | PushPopInst _ regs _ => Forall is_phys regs
  | LabelInst _ _ => True
  | CtrlInst _ _ _ _ => True
  end.

(** The operands of the input that the rewriting does not touch: the
    register lists of [push] and [pop] ("push pop only use gpr") and the
    second operand of [movt]. *)
Definition untouched_phys (x : Inst) : Prop :=
  match x with
  | PushPopInst _ regs _ => Forall is_phys regs
  | Arith2Inst op _ r2 _ => op = OpMovT -> phys_op2 r2
  | _ => True
  end.

(** The registers the allocator hands out and the instructions it has
    emitted are physical. *)
Definition phys_state (s : State) : Prop :=
  Forall (fun e : Reg * Reg => is_phys e.2) (active_reg_map s) /\
  map_Forall (fun _ p => is_phys p) (reg_map s) /\
  Forall phys_inst (inst_sink s) /\
  (forall r rd, delayed_store s = Some (r, rd) -> is_phys rd) /\
  Forall is_phys (used_regs s) /\
  Forall is_phys (used_regs_temp s).

(** [push {fp, lr}; mov fp, sp; mov v64, #1; push {v64}; mov sp, fp;
     pop {fp, pc}] *)
Definition push_virtual_function : Function :=
  mkFunction 0 0
    [ PushPopInst OpPush [REG_FP; REG_LR] Always;
      Arith2Inst OpMov REG_FP (reg_op REG_SP) Always;
      Arith2Inst OpMov 64 (O2Imm 1) Always;
      PushPopInst OpPush [64] Always;
      Arith2Inst OpMov REG_SP (reg_op REG_FP) Always;
      PushPopInst OpPop [REG_FP; REG_PC] Always ].

(** Two states that agree on every member [phys_state] speaks of. *)
Definition same_phys (s s' : State) : Prop :=
  active_reg_map s' = active_reg_map s /\ reg_map s' = reg_map s /\
  inst_sink s' = inst_sink s /\ delayed_store s' = delayed_store s /\
  used_regs s' = used_regs s /\ used_regs_temp s' = used_regs_temp s.


(** * Register names, condition codes and immediates (src/arm_code/arm.cpp) *)

(** What a function writes to its [std::ostream] is the string it returns;
    [operator<<] on an integer writes its decimal digits ([pretty]). *)
Definition endl : string := String "010"%char EmptyString.
Definition tab : string := String "009"%char EmptyString.

(** [register_num]; the subtractions never wrap, the tests before them
    bound the register number from below. *)
Definition register_num (r : Reg) : Z :=
  if r <? 16 then r
  else if r <? 48 then r - 16
  else if r <? 64 then r - 48
  else if r <? 2147483648 then r - 64
  else if r <? 3221225472 then r - 2147483648
  else r - 3221225472.

Definition display_reg_name (r : Reg) : string :=
  if r =? REG_SP then "sp"
  else if r =? REG_LR then "lr"
  else if r =? REG_PC then "pc"
  else
    match register_type r with
    | GeneralPurpose => "r" +:+ pretty (register_num r)
    | DoubleVector => "d" +:+ pretty (register_num r)
    | QuadVector => "q" +:+ pretty (register_num r)
    | VirtualGeneralPurpose => "v" +:+ pretty (register_num r)
    | VirtualDoubleVector => "vd" +:+ pretty (register_num r)
    | VirtualQuadVector => "vq" +:+ pretty (register_num r)
    end.

Definition display_cond (cond : ConditionCode) : string :=
  match cond with
  | Equal => "eq"
  | NotEqual => "ne"
  | CarrySet => "cs"
  | CarryClear => "cc"
  | UnsignedGe => "hs"
  | UnsignedLe => "ls"
  | UnsignedGt => "hi"
  | UnsignedLt => "lo"
  | MinusOrNegative => "mn"
  | PositiveOrZero => "pl"
  | Overflow => "vs"
  | NoOverflow => "vc"
  | Ge => "ge"
  | Lt => "lt"
  | Gt => "gt"
  | Le => "le"
  | Always => EmptyString
  end.

Definition invert_cond (cond : ConditionCode) : ConditionCode :=
  match cond with
  | Equal => NotEqual
  | NotEqual => Equal
  | CarrySet => CarryClear
  | CarryClear => CarrySet
  | UnsignedGe => UnsignedLt
  | UnsignedLt => UnsignedGe
  | UnsignedGt => UnsignedLe
  | UnsignedLe => UnsignedGt
  | MinusOrNegative => PositiveOrZero
  | PositiveOrZero => MinusOrNegative
  | Overflow => NoOverflow
  | NoOverflow => Overflow
  | Ge => Lt
  | Lt => Ge
  | Gt => Le
  | Le => Gt
  | Always => Always
  end.

Definition reverse_cond (cond : ConditionCode) : ConditionCode :=
  match cond with
  | Equal | NotEqual | CarrySet | CarryClear | MinusOrNegative | PositiveOrZero
  | Overflow | NoOverflow | Always => cond
  | UnsignedGe => UnsignedLe
  | UnsignedLt => UnsignedGt
  | UnsignedGt => UnsignedLt
  | UnsignedLe => UnsignedGe
  | Ge => Le
  | Lt => Gt
  | Gt => Lt
  | Le => Ge
  end.

(** [format_bb_name]: the name of the function, ["_$bb"], the number of
    the block. *)
Definition format_bb_name (func_name : string) (bb_id : Z) : string :=
  func_name +:+ "_$bb" +:+ pretty bb_id.

Section Immediate.

(** [prelude::rotl32] is not among the sources; it is a parameter. *)
Variable rotl32 : Z -> Z -> Z.

(** The two statements shared by the second and the third branch of
    [is_valid_immediate]:

    [int highest_bit = log2(val & -val) + 1;
     return (val & ~(0xff << highest_bit)) == 0 && highest_bit % 2 == 0;]

    [val] is a [uint32_t], so [-val] is taken modulo 2^32.  [log2] is the
    logarithm of a [double]; its argument is zero or a power of two, for
    which [Z.log2] is the exact value; for zero the result is minus
    infinity, whose conversion to [int] the language leaves undefined, as
    it does a shift of an [int] by 32.  [0xff << highest_bit] is a shift of
    an [int]: its bits beyond the 32nd are dropped when the complement is
    converted to the unsigned type of [val]. *)
Definition rotation_test (val : Z) : Result bool :=
  let low := Z.land val ((- val) mod 4294967296) in
  if low =? 0 then Throw (Undefined "conversion of an infinite value to int")
  else
    let highest_bit := Z.log2 low + 1 in
    if 32 <=? highest_bit then Throw (Undefined "shift by the width of int")
    else
      Ok ((Z.land val (Z.lnot (Z.shiftl 255 highest_bit) mod 4294967296) =? 0)
          && (highest_bit mod 2 =? 0)).

Definition is_valid_immediate (val : Z) : Result bool :=
  if val <=? 255 then Ok true
  else if val <=? 16777215 then rotation_test val
  else rotation_test (rotl32 val 8).

End Immediate.

(** Rotation of a 32-bit word to the left, the reading of [rotl32] used
    for running [is_valid_immediate] on concrete values. *)
Definition rotl32_word (v n : Z) : Z :=
  (Z.shiftl v n mod 4294967296) + Z.shiftr v (32 - n).

(** The [std::vector<uint32_t>] alternative of [ConstValue::display]:
    the state of its loop is the text written so far, [last],
    [repeat_count] and [newline]. *)
Record WordsLoop := mkWordsLoop {
  wl_out : string;
  wl_last : Z;
  wl_repeat_count : Z;
  wl_newline : bool
}.

Definition words_step (st : WordsLoop) (new_item : Z) : WordsLoop :=
  let '(mkWordsLoop o last repeat_count newline) := st in
  if newline then
    if new_item =? last then mkWordsLoop o new_item (repeat_count + 1) false
    else mkWordsLoop (o +:+ endl +:+ tab +:+ ".word " +:+ pretty last) new_item
           repeat_count false
  else
    if new_item =? last then mkWordsLoop o new_item (repeat_count + 1) newline
    else if repeat_count >? 1 then
      mkWordsLoop (o +:+ endl +:+ tab +:+ ".fill " +:+ pretty repeat_count +:+ ", 4, "
                     +:+ pretty last) new_item 1 true
    else mkWordsLoop (o +:+ ", " +:+ pretty last) new_item repeat_count newline.

(** [len] is the optional length of the constant; [x->front()] of an empty
    vector is undefined. *)
Definition display_words (len : option Z) (x : list Z) : Result string :=
  match x with
  | [] => Throw (Undefined "front() of an empty vector")
  | first :: rest =>
      let st := fold_left words_step rest (mkWordsLoop EmptyString first 1 true) in
      let o :=
        if wl_repeat_count st >? 1 then
          wl_out st +:+ endl +:+ tab +:+ ".fill " +:+ pretty (wl_repeat_count st)
            +:+ ", 4, " +:+ pretty (wl_last st) +:+ endl
        else wl_out st +:+ ", " +:+ pretty (wl_last st) +:+ endl in
      Ok (match len with
          | Some n =>
              if Z.of_nat (length x) <? n then
                o +:+ tab +:+ ".fill " +:+ pretty (n - Z.of_nat (length x)) +:+ ", 4, "
                  +:+ pretty (wl_last st) +:+ endl
              else o
          | None => o
          end)
  end.

(** The decimal digits. *)
Definition is_digit (c : ascii) : bool :=
  match Ascii.is_nat c with Some _ => true | None => false end.

(** A non-empty string of decimal digits. *)
Fixpoint digits (s : string) : bool :=
  match s with
  | EmptyString => false
  | String c EmptyString => is_digit c
  | String c s' => is_digit c && digits s'
  end.

(** [", x1, x2, ..."] *)
Definition comma_words (l : list Z) : string :=
  fold_right (fun y acc => ", " +:+ pretty y +:+ acc) EmptyString l.

(** No two neighbours of the list are equal. *)
Fixpoint adjacent_distinct (l : list Z) : bool :=
  match l with
  | x :: (y :: _) as l' => negb (x =? y) && adjacent_distinct l'
  | _ => true
  end.

(** [.fill count, 4, value], on a line of its own. *)
Definition fill_line (count value : Z) : string :=
  tab +:+ ".fill " +:+ pretty count +:+ ", 4, " +:+ pretty value +:+ endl.

(** * Further notions of the allocator (reg_alloc.cpp) *)

(** [struct SpillOperation] and its [operator<]. *)
Record SpillOperation := mkSpillOperation {
  so_index : Z;
  so_is_store : bool;
  so_reg : Reg
}.

Definition SpillOperation_lt (a other : SpillOperation) : bool :=
  if negb (so_index a =? so_index other) then so_index a <? so_index other
  else if negb (Bool.eqb (so_is_store a) (so_is_store other)) then so_is_store a
  else so_reg a <? so_reg other.

(** [Interval::with_ending_point]: the assignment goes to the member
    [end] of the receiver, after the copy [that] was taken; the result is
    the copy and the receiver as it is left. *)
Definition with_ending_point (end_ : Z) (iv : Interval) : Interval * Interval :=
  (iv, mkInterval (i_start iv) end_).

(** [RegAllocator::make_space] *)
Definition make_space (r : Reg) (i : Interval) : M Reg := throw NotImplemented.

(** ** The accesses [calc_live_intervals] records *)

Inductive Access := Read | Write.

#[global] Instance Access_eq_dec : EqDecision Access.
Proof. solve_decision. Defined.

Definition op2_accesses (o : Operand2) : list (Access * Reg) :=
  match o with
  | O2Reg x => [(Read, ro_reg x)]
  | O2Imm _ => []
  end.

Definition mem_accesses (m : MemoryOperand) : list (Access * Reg) :=
  (Read, mo_r1 m) ::
  match mo_offset m with
  | OffReg x => [(Read, ro_reg x)]
  | OffImm _ => []
  end.

(** The calls of [add_reg_read] and [add_reg_write] that
    [calc_live_intervals] makes for an instruction, in the order of the
    source. *)
Definition accesses_of (x : Inst) : list (Access * Reg) :=
  match x with
  | PureInst _ _ => []
  | Arith4Inst _ rd r1 r2 r3 _ => [(Read, r1); (Read, r2); (Read, r3); (Write, rd)]
  | Arith3Inst _ rd r1 r2 _ => (Read, r1) :: op2_accesses r2 ++ [(Write, rd)]
  | Arith2Inst op r1 r2 _ =>
      (if bool_decide (op = OpMov \/ op = OpMovT \/ op = OpMvn) then Write else Read, r1)
      :: op2_accesses r2
  | BrInst _ _ _ _ => []
  | LoadStoreInst op rd mem _ =>
      (if bool_decide (op = OpLdR) then Write else Read, rd) ::
      match mem with
      | MemOp m => mem_accesses m
      | MemLabel _ => []
      end
  | MultLoadStoreInst op rn rd _ =>
      map (pair (if bool_decide (op = OpLdM) then Write else Read)) rd ++ [(Read, rn)]
  | PushPopInst op regs _ =>
      map (pair (if bool_decide (op = OpPush) then Write else Read)) regs
  | LabelInst _ _ => []
  | CtrlInst _ _ _ _ => []
  end.

Definition mentions (r : Reg) (x : Inst) : bool :=
  bool_decide (r ∈ map snd (accesses_of x)).

Definition reads (r : Reg) (x : Inst) : bool :=
  bool_decide ((Read, r) ∈ accesses_of x).

Definition writes (r : Reg) (x : Inst) : bool :=
  bool_decide ((Write, r) ∈ accesses_of x).

(** The index of the first instruction that mentions [r]; [i] is the index
    of the head of the list. *)
Fixpoint first_mention (r : Reg) (insts : list Inst) (i : Z) : option Z :=
  match insts with
  | [] => None
  | x :: rest => if mentions r x then Some i else first_mention r rest (i + 1)
  end.

(** The index of the last instruction that reads [r]. *)
Fixpoint last_read (r : Reg) (insts : list Inst) (i : Z) : option Z :=
  match insts with
  | [] => None
  | x :: rest =>
      match last_read r rest (i + 1) with
      | Some j => Some j
      | None => if reads r x then Some i else None
      end
  end.

(** From the first mention to the last read; to the first mention itself
    when nothing reads the register. *)
Definition mention_interval (r : Reg) (insts : list Inst) : option Interval :=
  match first_mention r insts 0 with
  | Some a => Some (mkInterval a (default a (last_read r insts 0)))
  | None => None
  end.

(** The number of writes of [r] the analysis records. *)
Definition write_count (r : Reg) (insts : list Inst) : Z :=
  Z.of_nat (length (filter (fun e : Access * Reg => e = (Write, r))
                      (concat (map accesses_of insts)))).

(** The indices of the [bl] instructions; [i] is the index of the head of
    the list. *)
Fixpoint bl_indices (insts : list Inst) (i : Z) : list Z :=
  match insts with
  | [] => []
  | BrInst OpBl _ _ _ :: rest => i :: bl_indices rest (i + 1)
  | _ :: rest => bl_indices rest (i + 1)
  end.

(** The effect of one recorded access at index [i] on the interval of
    [r]. *)
Definition access_lookup (i : Z) (r : Reg) (old : option Interval) (e : Access * Reg)
  : option Interval :=
  if decide (r = e.2) then
    Some (match e.1 with
          | Read => read_interval old i
          | Write => written_interval old i
          end)
  else old.

(** The effect of one recorded access on the assignment count of [r]. *)
Definition count_step (r : Reg) (old : option Z) (e : Access * Reg) : option Z :=
  if decide (e = (Write, r)) then Some (default 0 old + 1) else old.

(** A plain copy between two registers: [mov d, s] without a shift. *)
Definition is_plain_copy (d src : Reg) (x : Inst) : Prop :=
  exists ro c, x = Arith2Inst OpMov d (O2Reg ro) c /\ ro_reg ro = src /\
               ro_shift_amount ro = 0.

(** Both registers of every entry are physical. *)
Definition phys_pairs (m : gmap Reg Reg) : Prop :=
  map_Forall (fun k v => is_phys k /\ is_phys v) m.

(** [alloc_regs] up to and including [calc_reg_affinity]. *)
Definition analyses (GLOB_REGS : list Reg)
    (affine_order : list (Reg * Reg) -> list (Reg * Reg))
    (insts : list Inst) (color_map : gmap Z Z) (mir_to_arm : list (Z * Reg)) : M unit :=
  construct_reg_map GLOB_REGS color_map mir_to_arm >>
  calc_live_intervals insts >>
  calc_reg_affinity affine_order.

(** [.bb_f$1:; mov v64, #1; add v65, v64, v66; mov v64, #3] *)
Definition labelled_code : list Inst :=
  [ LabelInst ".bb_f$1" Always;
    Arith2Inst OpMov 64 (O2Imm 1) Always;
    Arith3Inst OpAdd 65 64 (reg_op 66) Always;
    Arith2Inst OpMov 64 (O2Imm 3) Always ].

(** The state before the liveness analysis in which the colouring has
    given [v66] the register [r4]. *)
Definition coloured_66 : State := set_reg_map {[ 66 := 4 ]} (init_state 0).

(** [mov r5, r6; mov r6, r7] *)
Definition chain_function : Function :=
  mkFunction 0 0
    [ Arith2Inst OpMov 5 (reg_op 6) Always;
      Arith2Inst OpMov 6 (reg_op 7) Always ].

(** [mov v64, #0; ...; mov v76, #0; cmp v64, #0; ...; cmp v76, #0]:
    thirteen registers are live at once. *)
Definition pressure_function : Function :=
  mkFunction 0 0
    (map (fun v => Arith2Inst OpMov v (O2Imm 0) Always) (seqZ 64 13) ++
     map (fun v => Arith2Inst OpCmp v (O2Imm 0) Always) (seqZ 64 13)).

(** [mov v64, #0; ...; mov v71, #0; bl f; cmp v64, #0; ...; cmp v71, #0]:
    eight registers are live across the call. *)
Definition call_function : Function :=
  mkFunction 0 0
    (map (fun v => Arith2Inst OpMov v (O2Imm 0) Always) (seqZ 64 8) ++
     [ BrInst OpBl "f" 0 Always ] ++
     map (fun v => Arith2Inst OpCmp v (O2Imm 0) Always) (seqZ 64 8)).


(** Spill slots are four bytes wide: the slots of different registers do
    not overlap, and every slot lies between [base] and the current
    [stack_size]. *)
Definition slots_ok (base : Z) (s : State) : Prop :=
  base <= stack_size s /\
  (forall r p, spill_positions s !! r = Some p -> base <= p /\ p + 4 <= stack_size s) /\
  (forall r r' p p', r <> r' ->
     spill_positions s !! r = Some p -> spill_positions s !! r' = Some p' ->
     p + 4 <= p' \/ p' + 4 <= p).

(** What the rewriting pass only reads: the results of the analyses. *)
Definition analysis_results (s : State)
  : gmap Reg Interval * gmap Reg Reg * list (Reg * Reg) * gmap Reg Reg *
    gmap Reg Z * list (Reg * Reg) * list Z * gset Reg * list Reg :=
  (live_intervals s, reg_map s, reg_reverse_map s, reg_collapse s,
   reg_assign_count s, reg_affine s, bl_points s, spilled_cross_block_reg s,
   used_regs s).

(** Total correctness of a computation of [M]: it returns, and the result
    and the final state satisfy [Q]. *)
Definition tp {A} (m : M A) (Q : A -> State -> Prop) (s : State) : Prop :=
  match m s with
  | Ok (a, s') => Q a s'
  | Throw _ => False
  | Diverge => False
  end.

(** ** Rewriting by the colouring alone *)

(** A register as the graph colouring [sigma] renames it: a virtual
    register becomes its colour, a physical register stays. *)
Definition colour (sigma : gmap Reg Reg) (r : Reg) : Reg :=
  if is_virtual_register r then default r (sigma !! r) else r.

Definition colour_op2 (sigma : gmap Reg Reg) (o : Operand2) : Operand2 :=
  match o with
  | O2Reg ro => O2Reg (mkRegisterOperand (colour sigma (ro_reg ro)) (ro_shift ro)
                         (ro_shift_amount ro))
  | O2Imm v => O2Imm v
  end.

Definition colour_mem (sigma : gmap Reg Reg) (m : MemoryOperand) : MemoryOperand :=
  mkMemoryOperand (colour sigma (mo_r1 m))
    match mo_offset m with
    | OffReg ro => OffReg (mkRegisterOperand (colour sigma (ro_reg ro)) (ro_shift ro)
                             (ro_shift_amount ro))
    | OffImm v => OffImm v
    end
    (mo_kind m) (mo_neg_rm m).

(** The instruction with every register renamed by [sigma]. *)
Definition colour_inst (sigma : gmap Reg Reg) (x : Inst) : Inst :=
  match x with
  | Arith2Inst op r1 r2 c =>
      Arith2Inst op (colour sigma r1) (colour_op2 sigma r2) c
  | Arith3Inst op rd r1 r2 c =>
      Arith3Inst op (colour sigma rd) (colour sigma r1) (colour_op2 sigma r2) c
  | Arith4Inst op rd r1 r2 r3 c =>
      Arith4Inst op (colour sigma rd) (colour sigma r1) (colour sigma r2)
        (colour sigma r3) c
  | LoadStoreInst op rd mem c =>
      LoadStoreInst op (colour sigma rd)
        match mem with
        | MemOp m => MemOp (colour_mem sigma m)
        | MemLabel l => MemLabel l
        end c
  | MultLoadStoreInst op rn rd c =>
      MultLoadStoreInst op (colour sigma rn) (map (colour sigma) rd) c
  | PushPopInst op regs c => PushPopInst op (map (colour sigma) regs) c
  | PureInst _ _ | BrInst _ _ _ _ | LabelInst _ _ | CtrlInst _ _ _ _ => x
  end.

(** The operand holds no virtual register. *)
Definition op2_physical (o : Operand2) : Prop :=
  match o with
  | O2Reg ro => is_virtual_register (ro_reg ro) = false
  | O2Imm _ => True
  end.

(** The register is physical or has a colour. *)
Definition coloured (sigma : gmap Reg Reg) (r : Reg) : Prop :=
  is_virtual_register r = true -> is_Some (sigma !! r).

(** An instruction all of whose registers are physical or coloured and
    that is none of the special cases of the rewriting: no [ldm] or [stm],
    no [.ld_pc] label, an [int] as the operand of [offset_stack], and no
    virtual register where the rewriting leaves the operands alone, which
    is in the list of a [push] or [pop] and in the second operand of a
    [movt]. *)
Definition colourable (sigma : gmap Reg Reg) (x : Inst) : Prop :=
  Forall (coloured sigma) (map snd (accesses_of x)) /\
  match x with
  | MultLoadStoreInst _ _ _ _ => False
  | LabelInst label _ => starts_with ".ld_pc" label = false
  | CtrlInst key val _ _ =>
      String.eqb key "offset_stack" = true -> exists v, val = AnyInt v
  | PushPopInst _ regs _ => Forall (fun r => is_virtual_register r = false) regs
  | Arith2Inst op _ r2 _ => op = OpMovT -> op2_physical r2
  | _ => True
  end.

(** A state in which no register is collapsed, no virtual register holds
    a transient register and no store is pending. *)
Definition quiet (sigma : gmap Reg Reg) (s : State) : Prop :=
  reg_map s = sigma /\ reg_collapse s = ∅ /\ active_reg_map s = [] /\
  delayed_store s = None.

(** A state in which the colouring has given [v64] the register [r4]. *)
Definition state_coloured : State := set_reg_map {[ 64 := 4 ]} (init_state 0).

(** [push {r4}; mov v64, #1; movt v64, #2; add r0, v64, #2; bl f; b .L;
     .L:; pop {r4}] *)
Definition coloured_code : list Inst :=
  [ PushPopInst OpPush [4] Always;
    Arith2Inst OpMov 64 (O2Imm 1) Always;
    Arith2Inst OpMovT 64 (O2Imm 2) Always;
    Arith3Inst OpAdd 0 64 (O2Imm 2) Always;
    BrInst OpBl "f" 1 Always;
    BrInst OpB ".L" 0 Always;
    LabelInst ".L" Always;
    PushPopInst OpPop [4] Always ].

(** What the two pool searches of [alloc_transient_reg] may come back
    with, starting from the state [s]: no register, or a register of a
    pool that is not active; [active] and [active_reg_map] are as in
    [s]. *)
Definition selected (TEMP_REGS GLOB_REGS : list Reg) (s : State) (rs : Reg * State) : Prop :=
  active rs.2 = active s /\ active_reg_map rs.2 = active_reg_map s /\
  (rs.1 = NO_REG \/
   ((rs.1 ∈ TEMP_REGS \/ rs.1 ∈ GLOB_REGS) /\ active s !! rs.1 = None)).


(** ** The pass ([RegAllocatePass::optimize_arm], [optimize_func]) *)

(** What an entry of [extra_data_repo], a [std::any], may hold: the
    mapping from MIR variables to virtual registers of every function
    ([MirVariableToArmVRegType], the inner maps in the order of their
    keys), the colourings of the functions, or a value of another type.
    The shared pointers of the colourings are taken to be non-null. *)
Inductive RepoEntry :=
| VarMappingData (m : gmap string (list (Z * Reg)))
| ColoringData (m : gmap string (gmap Z Z))
| OtherData.

(** [arm::Function], with its name. *)
Record NamedFunction := mkNamedFunction {
  nf_name : string;
  nf_body : Function
}.

Section Pass.

Variable TEMP_REGS GLOB_REGS : list Reg.
Variable affine_order : list (Reg * Reg) -> list (Reg * Reg).

(** [optimize_func]: the two entries are fetched with [at] and
    [any_cast], in this order; the results of the two [find] calls are
    dereferenced without a test.  The allocator replaces [f.inst] and
    leaves the rest of the function as it is. *)
Definition optimize_func (f : NamedFunction) (repo : gmap string RepoEntry)
  : Result NamedFunction :=
  match repo !! "mir_variable_to_vreg" with
  | None => Throw OutOfRange
  | Some (VarMappingData var_mapping_data) =>
      match repo !! "graph_color" with
      | None => Throw OutOfRange
      | Some (ColoringData coloring_data) =>
          match coloring_data !! nf_name f, var_mapping_data !! nf_name f with
          | Some color_map, Some mir_to_arm =>
              match alloc_regs TEMP_REGS GLOB_REGS affine_order (nf_body f)
                      color_map mir_to_arm with
              | Ok (inst, _) =>
                  Ok (mkNamedFunction (nf_name f)
                        (mkFunction (f_params (nf_body f)) (f_stack_size (nf_body f)) inst))
              | Throw e => Throw e
              | Diverge => Diverge
              end
          | _, _ => Throw (Undefined "dereference of end()")
          end
      | Some _ => Throw BadAnyCast
      end
  | Some _ => Throw BadAnyCast
  end.

(** [optimize_arm]: the functions of the program, one after the other. *)
Fixpoint optimize_arm (functions : list NamedFunction) (repo : gmap string RepoEntry)
  : Result (list NamedFunction) :=
  match functions with
  | [] => Ok []
  | f :: rest =>
      match optimize_func f repo with
      | Ok f' =>
          match optimize_arm rest repo with
          | Ok rest' => Ok (f' :: rest')
          | Throw e => Throw e
          | Diverge => Diverge
          end
      | Throw e => Throw e
      | Diverge => Diverge
      end
  end.

End Pass.

(** The registers [perform_load_stores] frees with write-back before a
    call with [param_cnt] parameters: those of [r0]..[r3] that carry no
    argument, [r12] and [lr]. *)
Definition freed_at_call (param_cnt : Z) : list Reg :=
  map to_Reg (seqZ (Z.min param_cnt 4) (4 - Z.min param_cnt 4)) ++ [12; REG_LR].

(** ** Outcome of the register-map construction *)

(** What [construct_reg_map] has recorded for the virtual register
    [vreg] of the variable [var]. *)
Definition recorded (GLOB_REGS : list Reg) (color_map : gmap Z Z) (base : Z) (s' : State) (var : Z) (vreg : Reg) : Prop :=
  match color_map !! var with
  | Some color =>
      if color =? -1 then
        vreg ∈ spilled_cross_block_reg s' /\
        exists pos, spill_positions s' !! vreg = Some pos /\
                    base <= pos /\ pos + 4 <= stack_size s'
      else
        exists reg, 0 <= color /\ GLOB_REGS !! Z.to_nat color = Some reg /\
                    reg_map s' !! vreg = Some reg /\ reg ∈ used_regs s' /\
                    (reg, vreg) ∈ reg_reverse_map s'
  | None => True
  end.

(** * Properties *)

(** ** Intervals *)

Lemma overlaps_true (a b : Interval) :
  overlaps a b = true <-> i_start b < i_end a /\ i_start a < i_end b.
Proof. unfold overlaps. rewrite andb_true_iff. lia. Qed.

Lemma overlaps_false (a b : Interval) :
  overlaps a b = false <-> i_end a <= i_start b \/ i_end b <= i_start a.
Proof.
  destruct (overlaps a b) eqn:E.
  - apply overlaps_true in E. split; [discriminate | lia].
  - split; [intros _ | reflexivity].
    destruct (Z_le_gt_dec (i_end a) (i_start b)); [lia |].
    destruct (Z_le_gt_dec (i_end b) (i_start a)); [lia |].
    assert (overlaps a b = true) by (apply overlaps_true; lia). congruence.
Qed.

Lemma overlaps_sym (a b : Interval) : overlaps a b = overlaps b a.
Proof.
  destruct (overlaps b a) eqn:E.
  - apply overlaps_true. apply overlaps_true in E. lia.
  - apply overlaps_false. apply overlaps_false in E. lia.
Qed.

Lemma share_point_overlaps (a b : Interval) :
  share_point a b -> overlaps a b = true.
Proof. intros (x & Ha & Hb). unfold in_range in *. apply overlaps_true. lia. Qed.

Lemma overlaps_share_point (a b : Interval) :
  i_start a < i_end a -> i_start b < i_end b ->
  overlaps a b = true -> share_point a b.
Proof.
  intros Ha Hb Ho. apply overlaps_true in Ho.
  exists (Z.max (i_start a) (i_start b)). unfold in_range. lia.
Qed.

Lemma get_collapse_reg_unmapped (r : Reg) (s : State) :
  reg_collapse s !! r = None -> get_collapse_reg r s = Ok (r, s).
Proof. intros E. unfold get_collapse_reg. cbn. rewrite E. reflexivity. Qed.

Lemma affinity_step_sees_overlap (s : State) (dst src : Reg) (a b : Interval) :
  reg_map s !! src = None -> reg_map s !! dst = None ->
  src ∉ spilled_cross_block_reg s -> dst ∉ spilled_cross_block_reg s ->
  reg_collapse s !! src = None -> reg_collapse s !! dst = None ->
  live_intervals s !! dst = Some a -> live_intervals s !! src = Some b ->
  overlaps b a = true ->
  affinity_step (dst, src) s = Ok (tt, s).
Proof.
  intros Hms Hmd Hcs Hcd Hrs Hrd Hla Hlb Ho.
  unfold affinity_step, bind, gets, id, has_key, is_cross_block. cbn.
  rewrite Hms, Hmd.
  rewrite !bool_decide_eq_false_2 by assumption. cbn.
  rewrite (get_collapse_reg_unmapped _ _ Hrs), (get_collapse_reg_unmapped _ _ Hrd).
  unfold map_at. rewrite Hlb, Hla. unfold ret. rewrite Ho. reflexivity.
Qed.

(** C10, the claim as stated fails: the zero-length interval [5,5) shares no
    point with [0,10), yet [overlaps] holds for the pair; and the coalescing
    pass meets such a pair.  In [mov r6, #0; mov r5, r6; cmp r6, #0] the
    destination [r5] of the copy gets the zero-length interval [1,1], the
    source [r6] gets [0,2], the two overlap and the copy is not coalesced;
    the copy [mov r5, r6] alone is coalesced. *)
Lemma overlaps_empty_counterexample :
  i_start (mkInterval 5 5) = i_end (mkInterval 5 5) /\
  overlaps (mkInterval 5 5) (mkInterval 0 10) = true /\
  ~ share_point (mkInterval 5 5) (mkInterval 0 10) /\
  (exists s,
     run_analyses copy_between_uses_function ∅ [] = Ok (tt, s) /\
     reg_affine s = [(5, 6)] /\
     live_intervals s !! 5 = Some (mkInterval 1 1) /\
     live_intervals s !! 6 = Some (mkInterval 0 2) /\
     overlaps (mkInterval 0 2) (mkInterval 1 1) = true /\
     reg_collapse s = ∅) /\
  (exists s,
     run_analyses (mkFunction 0 0 [Arith2Inst OpMov 5 (reg_op 6) Always]) ∅ []
       = Ok (tt, s) /\
     reg_collapse s = {[ 5 := 6 ]}).
Proof.
  split; [reflexivity |]. split; [reflexivity |].
  split; [intros (x & Ha & _); unfold in_range in Ha; simpl in Ha; lia |].
  split.
  - eexists. split; [vm_compute; reflexivity |].
    split; [reflexivity |]. split; [reflexivity |]. split; [reflexivity |].
    split; reflexivity.
  - eexists. split; [vm_compute; reflexivity |]. reflexivity.
Qed.

(** C10 (amended): [overlaps a b] holds exactly when [a.end > b.start] and
    [a.start < b.end]; it is symmetric; two intervals that share a point of
    their half-open ranges overlap, and for two non-empty intervals
    overlapping is the same as sharing a point; a zero-length interval does
    not overlap itself, and it overlaps [b] exactly when its point lies
    strictly inside [b].  The coalescing pass does see such overlaps: for
    a copy between two registers without colour, cross-block slot or
    earlier coalescing, where the destination has a zero-length interval
    whose point lies strictly inside the interval of the source,
    [calc_reg_affinity] finds the two overlapping and leaves the copy
    alone. *)
Theorem overlaps_spec (a b : Interval) :
  (overlaps a b = true <-> i_start b < i_end a /\ i_start a < i_end b) /\
  overlaps a b = overlaps b a /\
  (share_point a b -> overlaps a b = true) /\
  (i_start a < i_end a /\ i_start b < i_end b ->
     (overlaps a b = true <-> share_point a b)) /\
  (i_start a = i_end a ->
     overlaps a a = false /\
     (overlaps a b = true <-> i_start b < i_start a < i_end b)) /\
  (forall (s : State) (dst src : Reg),
     i_start a = i_end a -> i_start b < i_start a < i_end b ->
     live_intervals s !! dst = Some a -> live_intervals s !! src = Some b ->
     reg_map s !! src = None -> reg_map s !! dst = None ->
     src ∉ spilled_cross_block_reg s -> dst ∉ spilled_cross_block_reg s ->
     reg_collapse s !! src = None -> reg_collapse s !! dst = None ->
     affinity_step (dst, src) s = Ok (tt, s)).
Proof.
  split; [apply overlaps_true |].
  split; [apply overlaps_sym |].
  split; [apply share_point_overlaps |].
  split; [| split].
  - intros [Ha Hb]. split; [apply overlaps_share_point; assumption
                           | apply share_point_overlaps].
  - intros He. split.
    + apply overlaps_false. lia.
    + rewrite overlaps_true. lia.
  - intros s dst src He Hin Hla Hlb Hms Hmd Hcs Hcd Hrs Hrd.
    eapply affinity_step_sees_overlap; try eassumption.
    apply overlaps_true. lia.
Qed.

(** The copy of [copy_between_uses_function], in the state the liveness
    analysis leaves. *)
Lemma overlaps_spec_witness :
  exists s,
    calc_live_intervals (f_inst copy_between_uses_function) (init_state 0) = Ok (tt, s) /\
    live_intervals s !! 5 = Some (mkInterval 1 1) /\
    live_intervals s !! 6 = Some (mkInterval 0 2) /\
    affinity_step (5, 6) s = Ok (tt, s).
Proof.
  eexists. split; [vm_compute; reflexivity |].
  split; [reflexivity |]. split; [reflexivity |].
  apply (proj2 (proj2 (proj2 (proj2 (proj2
           (overlaps_spec (mkInterval 1 1) (mkInterval 0 2)))))));
    try reflexivity; try apply not_elem_of_empty.
  cbn. lia.
Defined.

(** ** The liveness analysis returns or stops at the undefined decrement *)

Lemma as_state_bind (m k : M unit) (s s1 s2 : State) :
  as_state (m s) s1 -> as_state (k s1) s2 -> as_state ((m >> k) s) s2.
Proof.
  unfold as_state, bind. intros [-> | [w ->]] H; [exact H |].
  right. exists w. reflexivity.
Qed.

Lemma as_state_ret (s : State) : as_state (ret tt s) s.
Proof. left. reflexivity. Qed.

Lemma as_state_modify (f : State -> State) (s : State) : as_state (modify f s) (f s).
Proof. left. reflexivity. Qed.

Lemma as_state_Ok (r : Result (unit * State)) (s1 s' : State) :
  as_state r s1 -> r = Ok (tt, s') -> s' = s1.
Proof. intros [-> | [w ->]] E; [injection E as <-; reflexivity | discriminate]. Qed.

Lemma add_reg_use_returns reg point s :
  as_state (add_reg_use_in_bb_at_point reg point s)
           (add_reg_use_in_bb_at_point_state reg point s).
Proof.
  unfold add_reg_use_in_bb_at_point, add_reg_use_in_bb_at_point_state, bind, gets, id.
  destruct (reg_map s !! reg) as [mapped|]; [| apply as_state_ret].
  destruct (lower_bound _ _); [right; eexists; reflexivity | left; reflexivity].
Qed.

Lemma add_reg_read_returns reg point s :
  as_state (add_reg_read reg point s) (add_reg_read_state reg point s).
Proof.
  unfold add_reg_read, add_reg_read_state.
  eapply as_state_bind; [left; reflexivity | apply add_reg_use_returns].
Qed.

Lemma add_reg_write_returns reg point s :
  as_state (add_reg_write reg point s) (add_reg_write_state reg point s).
Proof.
  unfold add_reg_write, add_reg_write_state.
  eapply as_state_bind; [left; reflexivity | apply add_reg_use_returns].
Qed.

Lemma add_reg_read_op2_returns o point s :
  as_state (add_reg_read_op2 o point s) (add_reg_read_op2_state o point s).
Proof. destruct o; [apply add_reg_read_returns | apply as_state_ret]. Qed.

Lemma add_reg_read_mem_returns m point s :
  as_state (add_reg_read_mem m point s) (add_reg_read_mem_state m point s).
Proof.
  unfold add_reg_read_mem, add_reg_read_mem_state.
  eapply as_state_bind; [apply add_reg_read_returns |].
  destruct (mo_offset m); [apply add_reg_read_returns | apply as_state_ret].
Qed.

Lemma add_reg_writes_returns regs point : forall s,
  as_state (add_reg_writes regs point s) (add_reg_writes_state regs point s).
Proof.
  unfold add_reg_writes_state.
  induction regs as [|r regs IH]; intros s; [apply as_state_ret |].
  cbn [add_reg_writes fold_left].
  eapply as_state_bind; [apply add_reg_write_returns | apply IH].
Qed.

Lemma add_reg_reads_returns regs point : forall s,
  as_state (add_reg_reads regs point s) (add_reg_reads_state regs point s).
Proof.
  unfold add_reg_reads_state.
  induction regs as [|r regs IH]; intros s; [apply as_state_ret |].
  cbn [add_reg_reads fold_left].
  eapply as_state_bind; [apply add_reg_read_returns | apply IH].
Qed.

Lemma live_step_returns x i s :
  as_state (live_step x i s) (live_step_state x i s).
Proof.
  destruct x; cbn [live_step live_step_state].
  - apply as_state_ret.
  - (* Arith2Inst *)
    eapply as_state_bind; [| apply add_reg_read_op2_returns].
    destruct (bool_decide (op = OpMov \/ op = OpMovT \/ op = OpMvn));
      [| apply add_reg_read_returns].
    eapply as_state_bind; [apply add_reg_write_returns |].
    destruct r2 as [ro | v]; [| apply as_state_ret].
    destruct (bool_decide (op = OpMov) && (ro_shift_amount ro =? 0)); [| apply as_state_ret].
    destruct (negb (is_virtual_register r1) && negb (is_virtual_register (ro_reg ro)));
      [left; reflexivity | apply as_state_ret].
  - (* Arith3Inst *)
    eapply as_state_bind; [apply add_reg_read_returns |].
    eapply as_state_bind; [apply add_reg_read_op2_returns | apply add_reg_write_returns].
  - (* Arith4Inst *)
    eapply as_state_bind; [apply add_reg_read_returns |].
    eapply as_state_bind; [apply add_reg_read_returns |].
    eapply as_state_bind; [apply add_reg_read_returns | apply add_reg_write_returns].
  - (* BrInst *)
    destruct (bool_decide (op = OpBl)); [left; reflexivity | apply as_state_ret].
  - (* LoadStoreInst *)
    eapply as_state_bind
      with (s1 := if bool_decide (op = OpLdR) then add_reg_write_state rd i s
                  else add_reg_read_state rd i s).
    + destruct (bool_decide (op = OpLdR));
        [apply add_reg_write_returns | apply add_reg_read_returns].
    + destruct mem; [apply as_state_ret | apply add_reg_read_mem_returns].
  - (* MultLoadStoreInst *)
    eapply as_state_bind; [| apply add_reg_read_returns].
    destruct (bool_decide (op = OpLdM));
      [apply add_reg_writes_returns | apply add_reg_reads_returns].
  - (* PushPopInst *)
    destruct (bool_decide (op = OpPush));
      [apply add_reg_writes_returns | apply add_reg_reads_returns].
  - left. reflexivity.
  - apply as_state_ret.
Qed.

Lemma live_loop_returns insts : forall i s,
  as_state (live_loop insts i s) (live_loop_state insts i s).
Proof.
  induction insts as [|x rest IH]; intros i s; [apply as_state_ret |].
  cbn [live_loop live_loop_state].
  eapply as_state_bind; [apply live_step_returns | apply IH].
Qed.

Lemma calc_live_intervals_returns insts s :
  as_state (calc_live_intervals insts s) (calc_live_intervals_state insts s).
Proof. apply live_loop_returns. Qed.

Lemma calc_live_intervals_Ok insts s s' :
  calc_live_intervals insts s = Ok (tt, s') -> s' = calc_live_intervals_state insts s.
Proof. apply as_state_Ok, calc_live_intervals_returns. Qed.

(** ** Liveness of register lists *)

Lemma add_reg_use_live_intervals reg point s :
  live_intervals (add_reg_use_in_bb_at_point_state reg point s) = live_intervals s.
Proof. unfold add_reg_use_in_bb_at_point_state. destruct (reg_map s !! reg); reflexivity. Qed.

Lemma add_reg_use_assign_count reg point s :
  reg_assign_count (add_reg_use_in_bb_at_point_state reg point s) = reg_assign_count s.
Proof. unfold add_reg_use_in_bb_at_point_state. destruct (reg_map s !! reg); reflexivity. Qed.

Lemma add_starting_point_eq p iv :
  add_starting_point p iv = mkInterval (Z.min (i_start iv) p) (i_end iv).
Proof.
  unfold add_starting_point. destruct iv as [a b]; simpl.
  destruct (Z.ltb_spec p a); f_equal; lia.
Qed.

Lemma add_ending_point_eq p iv :
  add_ending_point p iv = mkInterval (i_start iv) (Z.max (i_end iv) p).
Proof.
  unfold add_ending_point. destruct iv as [a b]; simpl.
  destruct (Z.gtb_spec p b); f_equal; lia.
Qed.

Lemma add_reg_write_lookup reg point s r :
  live_intervals (add_reg_write_state reg point s) !! r =
    if decide (r = reg) then Some (written_interval (live_intervals s !! reg) point)
    else live_intervals s !! r.
Proof.
  unfold add_reg_write_state. rewrite add_reg_use_live_intervals. simpl.
  destruct (live_intervals s !! reg) as [iv|] eqn:E; simpl;
    rewrite lookup_insert; repeat case_decide; subst; try congruence;
    rewrite ?add_starting_point_eq; reflexivity.
Qed.

Lemma add_reg_read_lookup reg point s r :
  live_intervals (add_reg_read_state reg point s) !! r =
    if decide (r = reg) then Some (read_interval (live_intervals s !! reg) point)
    else live_intervals s !! r.
Proof.
  unfold add_reg_read_state. rewrite add_reg_use_live_intervals. simpl.
  destruct (live_intervals s !! reg) as [iv|] eqn:E; simpl;
    rewrite lookup_insert; repeat case_decide; subst; try congruence;
    rewrite ?add_ending_point_eq; reflexivity.
Qed.

Lemma written_interval_idem old p :
  written_interval (Some (written_interval old p)) p = written_interval old p.
Proof. destruct old as [[a b]|]; simpl; f_equal; lia. Qed.

Lemma read_interval_idem old p :
  read_interval (Some (read_interval old p)) p = read_interval old p.
Proof. destruct old as [[a b]|]; simpl; f_equal; lia. Qed.

Lemma add_reg_writes_lookup regs point s r :
  live_intervals (add_reg_writes_state regs point s) !! r =
    if decide (r ∈ regs) then Some (written_interval (live_intervals s !! r) point)
    else live_intervals s !! r.
Proof.
  unfold add_reg_writes_state. revert s.
  induction regs as [|x regs IH]; intros s; simpl.
  - destruct (decide (r ∈ [])) as [H|H]; [by apply not_elem_of_nil in H | reflexivity].
  - rewrite IH, !add_reg_write_lookup.
    destruct (decide (r = x)) as [->|Hne].
    + rewrite written_interval_idem.
      destruct (decide (x ∈ x :: regs)) as [_|H]; [| exfalso; apply H; left].
      destruct (decide (x ∈ regs)); reflexivity.
    + destruct (decide (r ∈ regs)) as [Hin|Hnin];
        destruct (decide (r ∈ x :: regs)) as [Hin'|Hnin']; try reflexivity.
      * exfalso; apply Hnin'; right; assumption.
      * apply elem_of_cons in Hin'. tauto.
Qed.

Lemma add_reg_reads_lookup regs point s r :
  live_intervals (add_reg_reads_state regs point s) !! r =
    if decide (r ∈ regs) then Some (read_interval (live_intervals s !! r) point)
    else live_intervals s !! r.
Proof.
  unfold add_reg_reads_state. revert s.
  induction regs as [|x regs IH]; intros s; simpl.
  - destruct (decide (r ∈ [])) as [H|H]; [by apply not_elem_of_nil in H | reflexivity].
  - rewrite IH, !add_reg_read_lookup.
    destruct (decide (r = x)) as [->|Hne].
    + rewrite read_interval_idem.
      destruct (decide (x ∈ x :: regs)) as [_|H]; [| exfalso; apply H; left].
      destruct (decide (x ∈ regs)); reflexivity.
    + destruct (decide (r ∈ regs)) as [Hin|Hnin];
        destruct (decide (r ∈ x :: regs)) as [Hin'|Hnin']; try reflexivity.
      * exfalso; apply Hnin'; right; assumption.
      * apply elem_of_cons in Hin'. tauto.
Qed.

Lemma add_reg_use_defined reg point s :
  use_defined reg point s ->
  add_reg_use_in_bb_at_point reg point s
    = Ok (tt, add_reg_use_in_bb_at_point_state reg point s).
Proof.
  unfold use_defined, add_reg_use_in_bb_at_point, add_reg_use_in_bb_at_point_state,
    bind, gets, id.
  intros [-> | Hlb]; [reflexivity |].
  destruct (reg_map s !! reg); [| reflexivity].
  destruct (lower_bound _ _); [contradiction | reflexivity].
Qed.

Lemma add_reg_use_undefined reg point s :
  ~ use_defined reg point s ->
  exists what, add_reg_use_in_bb_at_point reg point s = Throw (Undefined what).
Proof.
  unfold use_defined, add_reg_use_in_bb_at_point, bind, gets, id. intros H.
  destruct (reg_map s !! reg); [| exfalso; apply H; left; reflexivity].
  destruct (lower_bound _ _) eqn:E; [eexists; reflexivity |].
  exfalso. apply H. right. discriminate.
Qed.

Lemma add_reg_use_frame reg point s :
  reg_map (add_reg_use_in_bb_at_point_state reg point s) = reg_map s /\
  point_bb_map (add_reg_use_in_bb_at_point_state reg point s) = point_bb_map s.
Proof.
  unfold add_reg_use_in_bb_at_point_state. destruct (reg_map s !! reg); split; reflexivity.
Qed.

Lemma add_reg_read_frame reg point s :
  reg_map (add_reg_read_state reg point s) = reg_map s /\
  point_bb_map (add_reg_read_state reg point s) = point_bb_map s /\
  reg_assign_count (add_reg_read_state reg point s) = reg_assign_count s.
Proof.
  unfold add_reg_read_state.
  rewrite add_reg_use_assign_count, !(proj1 (add_reg_use_frame _ _ _)),
    !(proj2 (add_reg_use_frame _ _ _)).
  repeat split.
Qed.

Lemma add_reg_write_frame reg point s :
  reg_map (add_reg_write_state reg point s) = reg_map s /\
  point_bb_map (add_reg_write_state reg point s) = point_bb_map s.
Proof.
  unfold add_reg_write_state.
  rewrite !(proj1 (add_reg_use_frame _ _ _)), !(proj2 (add_reg_use_frame _ _ _)).
  split; reflexivity.
Qed.

Lemma use_defined_frame reg point s s' :
  reg_map s' = reg_map s -> point_bb_map s' = point_bb_map s ->
  use_defined reg point s' <-> use_defined reg point s.
Proof. unfold use_defined. intros -> ->. reflexivity. Qed.

Lemma add_reg_read_defined reg point s :
  use_defined reg point s ->
  add_reg_read reg point s = Ok (tt, add_reg_read_state reg point s).
Proof.
  intros H. unfold add_reg_read, add_reg_read_state, bind, modify.
  apply add_reg_use_defined. exact H.
Qed.

Lemma add_reg_write_defined reg point s :
  use_defined reg point s ->
  add_reg_write reg point s = Ok (tt, add_reg_write_state reg point s).
Proof.
  intros H. unfold add_reg_write, add_reg_write_state, bind, modify.
  apply add_reg_use_defined. exact H.
Qed.

Lemma add_reg_read_undefined reg point s :
  ~ use_defined reg point s ->
  exists what, add_reg_read reg point s = Throw (Undefined what).
Proof.
  intros H. unfold add_reg_read, bind, modify.
  destruct (add_reg_use_undefined reg point
              (set_live_intervals
                 match live_intervals s !! reg with
                 | Some iv => <[reg := add_ending_point point iv]> (live_intervals s)
                 | None => <[reg := Interval_point point]> (live_intervals s)
                 end s)) as [w E]; [exact H |].
  exists w. cbv zeta. rewrite E. reflexivity.
Qed.

Lemma add_reg_write_undefined reg point s :
  ~ use_defined reg point s ->
  exists what, add_reg_write reg point s = Throw (Undefined what).
Proof.
  intros H. unfold add_reg_write, bind, modify. cbv zeta.
  match goal with
  | |- context [add_reg_use_in_bb_at_point reg point ?s1] =>
      destruct (add_reg_use_undefined reg point s1) as [w E]; [exact H |]
  end.
  exists w. rewrite E. reflexivity.
Qed.

Lemma add_reg_writes_defined regs point : forall s,
  (forall r, r ∈ regs -> use_defined r point s) ->
  add_reg_writes regs point s = Ok (tt, add_reg_writes_state regs point s).
Proof.
  unfold add_reg_writes_state.
  induction regs as [|x regs IH]; intros s H; [reflexivity |].
  cbn [add_reg_writes fold_left]. unfold bind.
  rewrite add_reg_write_defined by (apply H; left).
  apply IH. intros r Hr.
  destruct (add_reg_write_frame x point s) as [E1 E2].
  apply (use_defined_frame _ _ _ _ E1 E2), H. right. exact Hr.
Qed.

Lemma add_reg_reads_defined regs point : forall s,
  (forall r, r ∈ regs -> use_defined r point s) ->
  add_reg_reads regs point s = Ok (tt, add_reg_reads_state regs point s).
Proof.
  unfold add_reg_reads_state.
  induction regs as [|x regs IH]; intros s H; [reflexivity |].
  cbn [add_reg_reads fold_left]. unfold bind.
  rewrite add_reg_read_defined by (apply H; left).
  apply IH. intros r Hr.
  destruct (add_reg_read_frame x point s) as (E1 & E2 & _).
  apply (use_defined_frame _ _ _ _ E1 E2), H. right. exact Hr.
Qed.

Lemma add_reg_writes_undefined regs point : forall s r,
  r ∈ regs -> ~ use_defined r point s ->
  exists what, add_reg_writes regs point s = Throw (Undefined what).
Proof.
  induction regs as [|x regs IH]; intros s r Hin Hr; [inversion Hin |].
  cbn [add_reg_writes]. unfold bind.
  destruct (add_reg_write_returns x point s) as [E | [w E]]; rewrite E;
    [| exists w; reflexivity].
  apply elem_of_cons in Hin as [-> | Hin].
  - destruct (add_reg_write_undefined x point s Hr) as [w E']. congruence.
  - apply (IH _ r Hin). intros Hd. apply Hr.
    destruct (add_reg_write_frame x point s) as [E1 E2].
    apply (use_defined_frame _ _ _ _ E1 E2). exact Hd.
Qed.

Lemma add_reg_reads_undefined regs point : forall s r,
  r ∈ regs -> ~ use_defined r point s ->
  exists what, add_reg_reads regs point s = Throw (Undefined what).
Proof.
  induction regs as [|x regs IH]; intros s r Hin Hr; [inversion Hin |].
  cbn [add_reg_reads]. unfold bind.
  destruct (add_reg_read_returns x point s) as [E | [w E]]; rewrite E;
    [| exists w; reflexivity].
  apply elem_of_cons in Hin as [-> | Hin].
  - destruct (add_reg_read_undefined x point s Hr) as [w E']. congruence.
  - apply (IH _ r Hin). intros Hd. apply Hr.
    destruct (add_reg_read_frame x point s) as (E1 & E2 & _).
    apply (use_defined_frame _ _ _ _ E1 E2). exact Hd.
Qed.

Lemma add_reg_write_assign_count reg point s r :
  reg_assign_count (add_reg_write_state reg point s) !! r =
    if decide (r = reg) then Some (default 0 (reg_assign_count s !! reg) + 1)
    else reg_assign_count s !! r.
Proof.
  unfold add_reg_write_state. rewrite add_reg_use_assign_count. cbn.
  destruct (reg_assign_count s !! reg) as [c|] eqn:E; cbn;
    rewrite lookup_insert; repeat case_decide; subst; try congruence; reflexivity.
Qed.

Lemma add_reg_writes_assign_count regs point r : forall s,
  NoDup regs ->
  reg_assign_count (add_reg_writes_state regs point s) !! r =
    if decide (r ∈ regs) then Some (default 0 (reg_assign_count s !! r) + 1)
    else reg_assign_count s !! r.
Proof.
  unfold add_reg_writes_state.
  induction regs as [|x regs IH]; intros s Hnd; cbn [fold_left].
  - rewrite decide_False by apply not_elem_of_nil. reflexivity.
  - apply NoDup_cons in Hnd as [Hx Hnd]. rewrite (IH _ Hnd), add_reg_write_assign_count.
    destruct (decide (r = x)) as [-> | Hne].
    + rewrite (decide_False (P := x ∈ regs)) by exact Hx.
      rewrite decide_True by left. reflexivity.
    + destruct (decide (r ∈ regs)) as [Hin | Hnin].
      * rewrite decide_True by (right; exact Hin). reflexivity.
      * rewrite decide_False; [reflexivity |].
        intros H. apply elem_of_cons in H as [? | ?]; contradiction.
Qed.

Lemma add_reg_reads_assign_count regs point : forall s,
  reg_assign_count (add_reg_reads_state regs point s) = reg_assign_count s.
Proof.
  unfold add_reg_reads_state.
  induction regs as [|x regs IH]; intros s; cbn [fold_left]; [reflexivity |].
  rewrite IH. apply add_reg_read_frame.
Qed.

(** C4, the claim as stated fails: with [r4] live on [5,7], a [push {r4}]
    at index 3 moves the start of the interval down to 3 and counts an
    assignment, which is what a write does and not what a read does; a
    [pop {r4}] at index 9 moves the end up to 9 and counts nothing, which
    is what a read does and not what a write does. *)
Lemma push_pop_liveness_counterexample :
  let s := set_live_intervals {[ 4 := mkInterval 5 7 ]} (init_state 0) in
  exists s1 s2 s3 s4,
    live_step (PushPopInst OpPush [4] Always) 3 s = Ok (tt, s1) /\
    live_intervals s1 !! 4 = Some (mkInterval 3 7) /\
    reg_assign_count s1 !! 4 = Some 1 /\
    add_reg_read 4 3 s = Ok (tt, s2) /\
    live_intervals s2 !! 4 = Some (mkInterval 5 7) /\
    reg_assign_count s2 !! 4 = None /\
    live_step (PushPopInst OpPop [4] Always) 9 s = Ok (tt, s3) /\
    live_intervals s3 !! 4 = Some (mkInterval 5 9) /\
    reg_assign_count s3 !! 4 = None /\
    add_reg_write 4 9 s = Ok (tt, s4) /\
    live_intervals s4 !! 4 = Some (mkInterval 5 7) /\
    reg_assign_count s4 !! 4 = Some 1.
Proof.
  cbv zeta. do 4 eexists.
  split; [vm_compute; reflexivity |]. split; [vm_compute; reflexivity |].
  split; [vm_compute; reflexivity |]. split; [vm_compute; reflexivity |].
  split; [vm_compute; reflexivity |]. split; [vm_compute; reflexivity |].
  split; [vm_compute; reflexivity |]. split; [vm_compute; reflexivity |].
  split; [vm_compute; reflexivity |]. split; [vm_compute; reflexivity |].
  split; vm_compute; reflexivity.
Qed.

(** C4 (amended): during liveness analysis a [push] records each register
    of its list as a write (the start of the interval moves down to the
    current index, the end is kept, the assignment counter goes up by one),
    and a [pop] records each register of its list as a read (the end of the
    interval moves up to the current index, the start and the assignment
    counter are kept); a register seen for the first time gets the interval
    [i, i]; the registers outside the list keep their interval and their
    counter.  This is so when every coloured register of the list has a
    block label recorded before the index; when one has not, the step
    decrements [begin()] of [point_bb_map], which is undefined. *)
Theorem push_pop_liveness (regs : list Reg) (c : ConditionCode) (i : Z) (s : State) :
  NoDup regs ->
  ((forall r, r ∈ regs -> use_defined r i s) ->
   exists s1 s2,
     live_step (PushPopInst OpPush regs c) i s = Ok (tt, s1) /\
     live_step (PushPopInst OpPop regs c) i s = Ok (tt, s2) /\
     (forall r, r ∈ regs ->
        live_intervals s1 !! r = Some (written_interval (live_intervals s !! r) i) /\
        reg_assign_count s1 !! r = Some (default 0 (reg_assign_count s !! r) + 1) /\
        live_intervals s2 !! r = Some (read_interval (live_intervals s !! r) i) /\
        reg_assign_count s2 !! r = reg_assign_count s !! r) /\
     (forall r, r ∉ regs ->
        live_intervals s1 !! r = live_intervals s !! r /\
        reg_assign_count s1 !! r = reg_assign_count s !! r /\
        live_intervals s2 !! r = live_intervals s !! r /\
        reg_assign_count s2 !! r = reg_assign_count s !! r)) /\
  (forall r, r ∈ regs -> ~ use_defined r i s ->
   exists what what',
     live_step (PushPopInst OpPush regs c) i s = Throw (Undefined what) /\
     live_step (PushPopInst OpPop regs c) i s = Throw (Undefined what')).
Proof.
  intros Hnd. split.
  - intros Hdef.
    exists (add_reg_writes_state regs i s), (add_reg_reads_state regs i s).
    cbn [live_step].
    rewrite bool_decide_eq_true_2 by reflexivity.
    rewrite bool_decide_eq_false_2 by discriminate.
    split; [apply add_reg_writes_defined; exact Hdef |].
    split; [apply add_reg_reads_defined; exact Hdef |].
    split; intros r Hr;
      rewrite add_reg_writes_lookup, add_reg_reads_lookup,
        (add_reg_writes_assign_count _ _ _ _ Hnd), add_reg_reads_assign_count.
    + rewrite !decide_True by assumption. repeat split.
    + rewrite !decide_False by assumption. repeat split.
  - intros r Hr Hundef. cbn [live_step].
    rewrite bool_decide_eq_true_2 by reflexivity.
    rewrite bool_decide_eq_false_2 by discriminate.
    destruct (add_reg_writes_undefined regs i s r Hr Hundef) as [w Ew].
    destruct (add_reg_reads_undefined regs i s r Hr Hundef) as [w' Ew'].
    exists w, w'. split; assumption.
Qed.

(** With [v64] coloured [r4] and the label [.bb_f$1] recorded at index 0,
    a [push {r5, v64}] and a [pop {r5, v64}] at index 3. *)
Lemma push_pop_liveness_witness :
  let s := set_point_bb_map [(0, 1)] (set_reg_map {[ 64 := 4 ]} (init_state 0)) in
  NoDup [5; 64] /\
  (forall r, r ∈ [5; 64] -> use_defined r 3 s) /\
  exists s1 s2,
    live_step (PushPopInst OpPush [5; 64] Always) 3 s = Ok (tt, s1) /\
    live_step (PushPopInst OpPop [5; 64] Always) 3 s = Ok (tt, s2) /\
    live_intervals s1 !! 64 = Some (mkInterval 3 3) /\
    reg_assign_count s1 !! 64 = Some 1 /\
    live_intervals s2 !! 64 = Some (mkInterval 3 3) /\
    reg_assign_count s2 !! 64 = None.
Proof.
  cbv zeta.
  assert (Hnd : NoDup [5; 64]).
  { apply NoDup_cons. split; [| apply NoDup_singleton].
    intros H. apply list_elem_of_singleton in H. discriminate H. }
  assert (Hdef : forall r, r ∈ [5; 64] ->
            use_defined r 3
              (set_point_bb_map [(0, 1)] (set_reg_map {[ 64 := 4 ]} (init_state 0)))).
  { intros r _. right. vm_compute. discriminate. }
  split; [exact Hnd |]. split; [exact Hdef |].
  destruct (proj1 (push_pop_liveness [5; 64] Always 3 _ Hnd) Hdef)
    as (s1 & s2 & E1 & E2 & Hin & _).
  exists s1, s2. split; [exact E1 |]. split; [exact E2 |].
  destruct (Hin 64) as (H1 & H2 & H3 & H4); [right; left |].
  rewrite H1, H2, H3, H4. repeat split.
Defined.

(** ** The forwarding map of coalesced copies *)

Lemma get_collapse_reg_fuel_mono n m rc r r' :
  get_collapse_reg_fuel n rc r = Some r' -> (n <= m)%nat ->
  get_collapse_reg_fuel m rc r = Some r'.
Proof.
  revert m r. induction n as [|n IH]; intros m r H Hle; [discriminate |].
  destruct m as [|m]; [lia |]. simpl in *.
  destruct (rc !! r); [| assumption]. apply IH; [assumption | lia].
Qed.

Lemma fuel_chase n rc r r' :
  get_collapse_reg_fuel n rc r = Some r' ->
  exists p, chase rc r p r' /\ (length p < n)%nat.
Proof.
  revert r. induction n as [|n IH]; intros r H; [discriminate |].
  simpl in H. destruct (rc !! r) as [rd|] eqn:E.
  - destruct (IH _ H) as (p & Hp & Hl).
    exists (r :: p). split; [econstructor; eassumption | simpl; lia].
  - injection H as <-. exists []. split; [constructor; assumption | simpl; lia].
Qed.

Lemma chase_fuel rc r p r' :
  chase rc r p r' -> get_collapse_reg_fuel (S (length p)) rc r = Some r'.
Proof.
  induction 1 as [r H | r rd p r' H Hc IH].
  - simpl. rewrite H. reflexivity.
  - change (get_collapse_reg_fuel (S (length (r :: p))) rc r)
      with (match rc !! r with
            | None => Some r
            | Some rd => get_collapse_reg_fuel (S (length p)) rc rd
            end).
    rewrite H. exact IH.
Qed.

Lemma chase_det rc r p q r1 r2 :
  chase rc r p r1 -> chase rc r q r2 -> p = q /\ r1 = r2.
Proof.
  intros Hp. revert q r2.
  induction Hp as [r H | r rd p r1 H Hc IH]; intros q r2 Hq; inversion Hq; subst.
  - split; reflexivity.
  - congruence.
  - congruence.
  - assert (rd0 = rd) by congruence. subst rd0.
    destruct (IH _ _ H1) as [-> ->]. split; reflexivity.
Qed.

Lemma chase_suffix rc r p1 x p2 r' :
  chase rc r (p1 ++ x :: p2) r' -> chase rc x (x :: p2) r'.
Proof.
  revert r. induction p1 as [|y p1 IH]; intros r H; simpl in H.
  - inversion H; subst. assumption.
  - inversion H; subst. eapply IH. eassumption.
Qed.

Lemma chase_head rc r p r' x :
  chase rc r p r' -> head p = Some x -> x = r.
Proof. intros H. inversion H; subst; simpl; congruence. Qed.

Lemma chase_NoDup rc r p r' : chase rc r p r' -> NoDup p.
Proof.
  induction 1 as [r H | r rd p r' H Hc IH]; [constructor |].
  constructor; [| assumption].
  intros Hin. apply list_elem_of_split in Hin as (p1 & p2 & ->).
  assert (Hshort : chase rc r (r :: p2) r') by (eapply chase_suffix; eassumption).
  assert (Hlong : chase rc r (r :: p1 ++ r :: p2) r')
    by (econstructor; eassumption).
  destruct (chase_det _ _ _ _ _ _ Hshort Hlong) as [Heq _].
  apply (f_equal length) in Heq. simpl in Heq.
  rewrite length_app in Heq. simpl in Heq. lia.
Qed.

Lemma chase_dom rc r p r' x :
  chase rc r p r' -> x ∈ p -> x ∈ dom rc.
Proof.
  induction 1 as [r H | r rd p r' H Hc IH]; intros Hin.
  - by apply not_elem_of_nil in Hin.
  - apply elem_of_cons in Hin as [-> | Hin]; [| auto].
    apply elem_of_dom. eauto.
Qed.

Lemma chase_length rc r p r' : chase rc r p r' -> (length p <= size rc)%nat.
Proof.
  intros H.
  rewrite <- size_dom.
  rewrite <- (size_list_to_set (C := gset Reg) p) by (eapply chase_NoDup; eassumption).
  apply subseteq_size. intros x Hx. apply elem_of_list_to_set in Hx.
  eapply chase_dom; eassumption.
Qed.

(** A chase that ends at all ends within [size rc + 1] calls. *)
Lemma get_collapse_reg_fuel_enough n rc r r' :
  get_collapse_reg_fuel n rc r = Some r' ->
  get_collapse_reg_fuel (S (size rc)) rc r = Some r'.
Proof.
  intros H. apply fuel_chase in H as (p & Hp & _).
  eapply get_collapse_reg_fuel_mono; [apply chase_fuel; eassumption |].
  apply chase_length in Hp. lia.
Qed.

(** [get_collapse_reg] returns [Diverge] exactly when the recursion of the
    source never ends, and otherwise the register the recursion ends at. *)
Lemma get_collapse_reg_Diverge r s :
  get_collapse_reg r s = Diverge <->
  forall n, get_collapse_reg_fuel n (reg_collapse s) r = None.
Proof.
  unfold get_collapse_reg. split.
  - intros H n.
    destruct (get_collapse_reg_fuel (S (size (reg_collapse s))) (reg_collapse s) r)
      eqn:E; [discriminate |].
    destruct (get_collapse_reg_fuel n (reg_collapse s) r) eqn:E'; [| reflexivity].
    apply get_collapse_reg_fuel_enough in E'. congruence.
  - intros H. rewrite H. reflexivity.
Qed.

Lemma get_collapse_reg_Ok r s r' s' :
  get_collapse_reg r s = Ok (r', s') <->
  s' = s /\ exists n, get_collapse_reg_fuel n (reg_collapse s) r = Some r'.
Proof.
  unfold get_collapse_reg. split.
  - destruct (get_collapse_reg_fuel (S (size (reg_collapse s))) (reg_collapse s) r)
      eqn:E; [| discriminate].
    intros [= <- <-]. split; [reflexivity | eauto].
  - intros [-> [n Hn]]. apply get_collapse_reg_fuel_enough in Hn.
    rewrite Hn. reflexivity.
Qed.

Lemma self_loop_never_ends (rc : gmap Reg Reg) r :
  rc !! r = Some r -> forall n, get_collapse_reg_fuel n rc r = None.
Proof.
  intros H n. induction n as [|n IH]; [reflexivity |].
  simpl. rewrite H. exact IH.
Qed.

(** C9, the code breaks the claim: for a function that contains the copy
    [mov r5, r5] of a register used nowhere else, [calc_live_intervals]
    gives [r5] the zero-length interval [2,2], which does not overlap
    itself, so [calc_reg_affinity] records [reg_collapse[r5] = r5]; the
    recursion of [get_collapse_reg] on [r5] never ends, and the allocator
    does not return. *)
Theorem self_copy_collapse_cycle :
  (exists s,
     run_analyses self_copy_function ∅ [] = Ok (tt, s) /\
     live_intervals s !! 5 = Some (mkInterval 2 2) /\
     reg_collapse s !! 5 = Some 5 /\
     (forall n, get_collapse_reg_fuel n (reg_collapse s) 5 = None) /\
     get_collapse_reg 5 s = Diverge) /\
  run_alloc_regs self_copy_function ∅ [] = Diverge.
Proof.
  split.
  - eexists. split; [vm_compute; reflexivity |].
    split; [vm_compute; reflexivity |].
    assert (H : forall rc : gmap Reg Reg, rc !! 5 = Some 5 ->
                forall n, get_collapse_reg_fuel n rc 5 = None)
      by (intros rc; apply self_loop_never_ends).
    split; [vm_compute; reflexivity |].
    split; [apply H; vm_compute; reflexivity |].
    apply get_collapse_reg_Diverge. apply H. vm_compute; reflexivity.
  - vm_compute. reflexivity.
Qed.
(** ** The peephole of [replace_write] and the block-boundary flag *)

(** Whenever the register to store is not [sp] and the last emitted
    instruction is not a store to a label, committing a [Spill] write
    appends the store, whatever the last emitted instruction is. *)
Lemma replace_write_spill_emits (r rd : Reg) (i : Z) (s : State) :
  rd <> REG_SP ->
  (forall rd' l c, last (inst_sink s) <> Some (LoadStoreInst OpStR rd' (MemLabel l) c)) ->
  exists s' pos,
    replace_write (mkAction r rd Spill) i s = Ok (tt, s') /\
    inst_sink s' = inst_sink s ++ [str_sp rd (pos + stack_offset s) (cur_cond s)] /\
    spill_positions s' !! r = Some pos.
Proof.
  intros Hsp Hlab.
  unfold replace_write; simpl.
  unfold bind at 1. unfold get_or_alloc_spill_pos.
  assert (Hno : forall s1 off, inst_sink s1 = inst_sink s -> cur_cond s1 = cur_cond s ->
                  last_is_store_write rd off s1 = Ok false).
  { intros s1 off Hs Hc. unfold last_is_store_write. rewrite Hs.
    destruct (last (inst_sink s)) as [x|] eqn:El; [| reflexivity].
    destruct x; try reflexivity.
    case_bool_decide as Hop; [| reflexivity]. subst op.
    destruct mem as [l|m].
    - exfalso. eapply Hlab. reflexivity.
    - f_equal.
      destruct (mo_r1 m =? rd) eqn:Er; [| reflexivity].
      apply Z.eqb_eq in Er.
      rewrite andb_true_l.
      apply andb_false_iff. right. apply bool_decide_eq_false.
      intros ->. simpl in Er. congruence. }
  destruct (spill_positions s !! r) as [pos|] eqn:E.
  - eexists _, pos.
    unfold bind, gets, lift_result, modify, emit; simpl.
    rewrite Hno by reflexivity. simpl.
    split; [reflexivity |]. split; [reflexivity | assumption].
  - eexists _, (stack_size s).
    unfold bind, gets, lift_result, modify, emit; simpl.
    rewrite Hno by reflexivity. simpl.
    split; [reflexivity |]. split; [reflexivity |].
    apply lookup_insert_eq.
Qed.

(** C3, the code breaks the claim.  The test that should recognise an
    identical previous store compares the base register of its address
    (always [sp]) with the register to store, not the stored register as
    the sibling test of [replace_read] does.  So with [str r4, [sp, #0]]
    the last emitted instruction, committing the [Spill] write of [v64]
    held in [r4] with slot 0 emits the same store again; and on
    [dup_store_function] the allocator emits [add r0, r0, #1] followed by
    the store of [r0] to the slot of [v64] twice. *)
Theorem spill_commit_duplicate_store :
  (exists s',
     last (inst_sink state_after_store) = Some (str_sp 4 0 Always) /\
     cur_cond state_after_store = Always /\
     stack_offset state_after_store = 0 /\
     spill_positions state_after_store !! 64 = Some 0 /\
     replace_write (mkAction 64 4 Spill) 7 state_after_store = Ok (tt, s') /\
     inst_sink s' = [str_sp 4 0 Always; str_sp 4 0 Always]) /\
  (exists out s pre post,
     run_alloc_regs dup_store_function {[ 1 := -1 ]} [(1, 64)] = Ok (out, s) /\
     spill_positions s !! 64 = Some 0 /\
     out = pre ++ [Arith3Inst OpAdd 0 0 (O2Imm 1) Always;
                   str_sp 0 0 Always; str_sp 0 0 Always] ++ post).
Proof.
  split.
  - eexists. repeat (split; [vm_compute; reflexivity |]).
    vm_compute; reflexivity.
  - eexists _, _,
      [PushPopInst OpPush [11; 14] Always;
       Arith2Inst OpMov 11 (reg_op 13) Always;
       Arith3Inst OpSub 13 13 (O2Imm 4) Always;
       Arith2Inst OpCmp 0 (O2Imm 0) Always;
       BrInst OpB ".L" 0 Always;
       LabelInst ".L" Always;
       Arith2Inst OpMov 0 (O2Imm 1) Always],
      [Arith2Inst OpMov 13 (reg_op 11) Always;
       PushPopInst OpPop [11; 15] Always].
    split; [vm_compute; reflexivity |].
    split; vm_compute; reflexivity.
Qed.

(** Every label that does not begin with the NUL character sets
    [bb_reset]: the condition of the source searches the label for the
    character [(char)false]. *)
Lemma label_sets_bb_reset TEMP GLOB (a : ascii) (label : string) c i s :
  a <> "000"%char ->
  delayed_store s = None ->
  exists s', rewrite_step TEMP GLOB (LabelInst (String a label) c) i s = Ok (tt, s') /\
             bb_reset s' = true.
Proof.
  intros Ha Hd.
  assert (Ht : size_t_truth (string_find_char "000"%char (String a label)) = true).
  { simpl. destruct (Ascii.eqb_spec a "000"%char) as [->|_]; [congruence |].
    destruct (string_find_char "000"%char label); reflexivity. }
  unfold rewrite_step. rewrite Ht.
  unfold bind, modify, emit, invalidate_read, commit_delayed_store, gets, ret. simpl.
  match goal with
  | |- context [if ?b then _ else _] => destruct b
  end; cbn; rewrite Hd; eexists; (split; [reflexivity |]); reflexivity.
Qed.

(** C5, the code breaks the claim: the label [.L1] does not begin with
    [.bb], and processing it with [bb_reset = false] sets [bb_reset]. *)
Theorem non_bb_label_sets_bb_reset :
  starts_with ".bb" ".L1" = false /\
  bb_reset (set_bb_reset false (init_state 0)) = false /\
  exists s',
    rewrite_step TEMP_REGS_arm GLOB_REGS_arm (LabelInst ".L1" Always) 7
      (set_bb_reset false (init_state 0)) = Ok (tt, s') /\
    bb_reset s' = true.
Proof.
  split; [reflexivity |]. split; [reflexivity |].
  eexists. split; vm_compute; reflexivity.
Qed.
(** ** Transient allocation *)


(** For an interval whose start lies after its end the test holds when a
    call lies strictly between the two. *)
Lemma lower_upper_bound_inverted (l : list Z) (a b : Z) :
  StronglySorted Z.lt l -> b < a ->
  (lower_bound a l <> upper_bound b l <-> exists x, x ∈ l /\ b < x < a).
Proof.
  intros Hs Hab. induction Hs as [|y l Hs IH Hall]; simpl.
  - split; [congruence |]. intros (x & Hx & _). by apply not_elem_of_nil in Hx.
  - destruct (Z.ltb_spec y a) as [Hya|Hya].
    + destruct (Z.leb_spec y b) as [Hyb|Hyb].
      * split.
        -- intros H. destruct IH as [IH _].
           destruct IH as (x & Hx & Hr); [congruence |].
           exists x. split; [right; assumption | assumption].
        -- intros (x & Hx & Hr). apply elem_of_cons in Hx as [-> | Hx]; [lia |].
           intros Heq. injection Heq as Heq. apply IH; eauto.
      * split; [| discriminate]. intros _. exists y. split; [left | lia].
    + destruct (Z.leb_spec y b) as [Hyb|Hyb]; [lia |].
      split; [congruence |].
      intros (x & Hx & Hr). apply elem_of_cons in Hx as [-> | Hx]; [lia |].
      rewrite Forall_forall in Hall. specialize (Hall _ Hx). lia.
Qed.


Lemma remove_first_virt_absent o l :
  find_virt o l = None -> remove_first_virt o l = l.
Proof.
  unfold find_virt. induction l as [|e l IH]; simpl; [reflexivity |].
  destruct (fst e =? o); [discriminate |]. intros H. f_equal. auto.
Qed.

Lemma map_insert_new_absent {V} k (v : V) (m : gmap Z V) :
  m !! k = None -> map_insert_new k v m = <[k := v]> m.
Proof. intros H. unfold map_insert_new. rewrite H. reflexivity. Qed.

Section Transient.

Variable TEMP_REGS GLOB_REGS : list Reg.


Lemma first_free_temp_Some s t :
  first_free_temp TEMP_REGS s = Some t -> t ∈ TEMP_REGS /\ active s !! t = None.
Proof.
  unfold first_free_temp. intros H. apply find_some in H as [Hin Hf].
  split; [by apply list_elem_of_In |].
  unfold has_key in Hf. destruct (active s !! t); [discriminate | reflexivity].
Qed.

Lemma first_free_temp_None s :
  first_free_temp TEMP_REGS s = None <->
  forall t, t ∈ TEMP_REGS -> is_Some (active s !! t).
Proof.
  unfold first_free_temp. split.
  - intros H t Ht. apply list_elem_of_In in Ht.
    pose proof (find_none _ _ H t Ht) as Hf. unfold has_key in Hf.
    destruct (active s !! t); simpl in Hf; [eauto | discriminate].
  - intros H. destruct (find _ TEMP_REGS) as [t|] eqn:E; [| reflexivity].
    apply find_some in E as [Hin Hf]. apply list_elem_of_In in Hin.
    destruct (H t Hin) as [iv Hiv]. unfold has_key in Hf. rewrite Hiv in Hf.
    simpl in Hf. discriminate.
Qed.

Lemma sset_mem_true x l : sset_mem x l = true <-> x ∈ l.
Proof.
  unfold sset_mem. rewrite existsb_exists. split.
  - intros (y & Hy & He). apply Z.eqb_eq in He. subst. by apply list_elem_of_In.
  - intros H. exists x. split; [by apply list_elem_of_In | apply Z.eqb_refl].
Qed.

Lemma first_free_glob_Some s g :
  first_free_glob GLOB_REGS s = Some g ->
  g ∈ GLOB_REGS /\ active s !! g = None /\ g ∉ used_regs s.
Proof.
  unfold first_free_glob. intros H. apply find_some in H as [Hin Hf].
  apply andb_true_iff in Hf as [Ha Hu].
  split; [by apply list_elem_of_In |]. split.
  - unfold has_key in Ha. destruct (active s !! g); simpl in Ha; [discriminate | reflexivity].
  - intros Hm. apply sset_mem_true in Hm. rewrite Hm in Hu. simpl in Hu. discriminate.
Qed.

Lemma first_free_glob_None s :
  first_free_glob GLOB_REGS s = None <->
  forall g, g ∈ GLOB_REGS -> is_Some (active s !! g) \/ g ∈ used_regs s.
Proof.
  unfold first_free_glob. split.
  - intros H g Hg. apply list_elem_of_In in Hg.
    pose proof (find_none _ _ H g Hg) as Hf. unfold has_key in Hf.
    destruct (active s !! g); simpl in Hf; [left; eauto |].
    right. apply sset_mem_true.
    destruct (sset_mem g (used_regs s)); [reflexivity | discriminate].
  - intros H. destruct (find _ GLOB_REGS) as [g|] eqn:E; [| reflexivity].
    apply find_some in E as [Hin Hf]. apply list_elem_of_In in Hin.
    apply andb_true_iff in Hf as [Ha Hu]. unfold has_key in Ha.
    destruct (H g Hin) as [[iv Hiv] | Hm].
    + rewrite Hiv in Ha. simpl in Ha. discriminate.
    + apply sset_mem_true in Hm. rewrite Hm in Hu. simpl in Hu. discriminate.
Qed.


Hypothesis TEMP_phys : Forall is_phys TEMP_REGS.
Hypothesis GLOB_phys : Forall is_phys GLOB_REGS.







End Transient.
(** C6, a defect of the code.  The test for a call point,
    [bl_points.lower_bound(I.start) != bl_points.upper_bound(I.end)],
    compares two positions and also holds when the first lies after the
    second.  [pre_replace_write] requests a register for the window
    [live_intervals.at(r).with_starting_point(i)], whose start can lie after
    its end.  For the window (5, 3) and a call at index 4 no call point lies
    in [5, 3] and [r0] of TEMP is free, yet the allocator enters the branch
    for a register that crosses a call and takes [r4] of
    CALLEE_SAVED_GLOBAL, recording it in [used_regs_temp]; on
    [write_after_call_function] the write of [v64] after the call goes to
    [r4] for this reason. *)
Lemma inverted_window_takes_callee_saved :
  ~ contains_call_point (mkInterval 5 3) (set_bl_points [4] (init_state 0)) /\
  first_free_temp TEMP_REGS_arm (set_bl_points [4] (init_state 0)) = Some 0 /\
  (exists s',
     alloc_transient_reg TEMP_REGS_arm GLOB_REGS_arm (mkInterval 5 3) (Some 64)
       (set_bl_points [4] (init_state 0)) = Ok (4, s') /\
     used_regs_temp s' = [4]) /\
  (exists out s,
     run_alloc_regs write_after_call_function {[ 1 := -1 ]} [(1, 64)] = Ok (out, s) /\
     live_intervals s !! 64 = Some (mkInterval 2 2) /\
     bl_points s = [3] /\
     Arith2Inst OpMov 4 (O2Imm 1) Always ∈ out).
Proof.
  split.
  { intros (x & _ & Hx). simpl in Hx. lia. }
  split; [vm_compute; reflexivity |].
  split.
  - eexists. split; vm_compute; reflexivity.
  - eexists _, _. split; [vm_compute; reflexivity |].
    split; [vm_compute; reflexivity |].
    split; [vm_compute; reflexivity |].
    apply list_elem_of_In. vm_compute. tauto.
Qed.


Section Eviction.

Variable TEMP_REGS GLOB_REGS : list Reg.

(** C8 (amended): when [alloc_transient_reg] finds no free register in
    either pool for a virtual register that holds none yet, then: with
    [active_reg_map] empty it throws the runtime error that carries the dump
    of [active]; otherwise, the physical register of the front entry being
    in [active], it removes the front entry, gives its virtual register a
    spill slot (the one it has, or a new one at [stack_size]), emits the
    store of the evicted physical register to that slot (the offset
    [slot + stack_offset] stored as an [int16_t]) under the current
    condition code, and returns the evicted physical register, now occupied
    over [I] on behalf of [orig].  The virtual register is inserted into
    [spilled_regs] with the window of the evicted register restarted at
    [I.start] only when [spilled_regs] has no record of it; a record it
    already has is kept as it is. *)
Theorem alloc_transient_reg_evicts (i : Interval) (orig : option Reg) (s : State) :
  first_free_temp TEMP_REGS s = None ->
  first_free_glob GLOB_REGS s = None ->
  not_in_arm orig s ->
  (active_reg_map s = [] ->
     alloc_transient_reg TEMP_REGS GLOB_REGS i orig s
       = Throw (RuntimeError (map_to_list (active s)))) /\
  (forall spill_virt spill_phys rest iv,
     active_reg_map s = (spill_virt, spill_phys) :: rest ->
     active s !! spill_phys = Some iv ->
     exists s' pos,
       alloc_transient_reg TEMP_REGS GLOB_REGS i orig s = Ok (spill_phys, s') /\
       spill_positions s' !! spill_virt = Some pos /\
       (spill_positions s !! spill_virt = Some pos /\ stack_size s' = stack_size s \/
        spill_positions s !! spill_virt = None /\ pos = stack_size s /\
        stack_size s' = stack_size s + 4) /\
       inst_sink s' =
         inst_sink s ++ [str_sp spill_phys (pos + stack_offset s) (cur_cond s)] /\
       spilled_regs s' =
         map_insert_new spill_virt (mkInterval (i_start i) (i_end iv)) (spilled_regs s) /\
       (spilled_regs s !! spill_virt = None ->
        spilled_regs s' !! spill_virt = Some (mkInterval (i_start i) (i_end iv))) /\
       (forall old, spilled_regs s !! spill_virt = Some old ->
        spilled_regs s' !! spill_virt = Some old) /\
       active_reg_map s' =
         match orig with
         | Some o => rest ++ [(o, spill_phys)]
         | None => rest
         end /\
       active s' = <[spill_phys := i]> (active s)).
Proof.
  intros Ht Hg Hni.
  assert (Hsel : (if crosses_bl i s
                  then alloc_using_temp TEMP_REGS (alloc_using_glob GLOB_REGS (NO_REG, s))
                  else alloc_using_glob GLOB_REGS (alloc_using_temp TEMP_REGS (NO_REG, s)))
                 = (NO_REG, s)).
  { unfold alloc_using_temp, alloc_using_glob.
    repeat (rewrite ?Z.eqb_refl, ?Ht, ?Hg; cbv beta iota).
    destruct (crosses_bl i s); reflexivity. }
  assert (Hf : match orig with
               | Some o => find_virt o (active_reg_map s)
               | None => None
               end = None) by (destruct orig; [exact Hni | reflexivity]).
  split.
  - intros Harm.
    unfold alloc_transient_reg. unfold bind at 1, gets at 1, id. cbv beta iota.
    rewrite Hf, Hsel. unfold evict, bind, gets, modify, throw, id. cbn.
    rewrite Harm. reflexivity.
  - intros spill_virt spill_phys rest iv Harm Hact.
    assert (Hrm : match orig with
                  | Some o => remove_first_virt o rest
                  | None => rest
                  end = rest).
    { destruct orig as [o|]; [| reflexivity]. simpl in Hni. rewrite Harm in Hni.
      unfold find_virt in Hni. simpl in Hni.
      destruct (spill_virt =? o); [discriminate |].
      apply remove_first_virt_absent. exact Hni. }
    unfold alloc_transient_reg. unfold bind at 1, gets at 1, id. cbv beta iota.
    rewrite Hf, Hsel.
    unfold evict, get_or_alloc_spill_pos, map_at, bind, gets, modify, emit, ret, id.
    cbn. rewrite Harm. cbn. rewrite Hact. cbn.
    destruct (spill_positions s !! spill_virt) as [pos|] eqn:Epos; cbn.
    + destruct orig as [o|]; cbn; rewrite ?Hrm;
        (eexists _, pos; split; [reflexivity |]; cbn;
         split; [exact Epos |]; split; [left; split; reflexivity |];
         split; [reflexivity |]; split; [reflexivity |];
         split; [intros Hn; rewrite (map_insert_new_absent _ _ _ Hn);
                 apply lookup_insert_eq |];
         split; [intros old Ho; unfold map_insert_new; rewrite Ho; exact Ho |];
         split; [reflexivity |];
         rewrite map_insert_new_absent by apply lookup_delete_eq;
         apply insert_delete_eq).
    + destruct orig as [o|]; cbn; rewrite ?Hrm;
        (eexists _, (stack_size s); split; [reflexivity |]; cbn;
         split; [apply lookup_insert_eq |];
         split; [right; split; [reflexivity | split; reflexivity] |];
         split; [reflexivity |]; split; [reflexivity |];
         split; [intros Hn; rewrite (map_insert_new_absent _ _ _ Hn);
                 apply lookup_insert_eq |];
         split; [intros old Ho; unfold map_insert_new; rewrite Ho; exact Ho |];
         split; [reflexivity |];
         rewrite map_insert_new_absent by apply lookup_delete_eq;
         apply insert_delete_eq).
Qed.

End Eviction.

(** In [pressure_function] twelve registers are live when [v76] is
    written at index 12: the request for [v76] evicts [v64], the oldest
    entry, from [r0]. *)
Lemma alloc_transient_reg_evicts_witness :
  exists s1 s2 s s',
    run_analyses pressure_function ∅ [] = Ok (tt, s1) /\
    rewrite_loop TEMP_REGS_arm GLOB_REGS_arm (take 12 (f_inst pressure_function)) 0 s1
      = Ok (tt, s2) /\
    f_inst pressure_function !! 12%nat = Some (Arith2Inst OpMov 76 (O2Imm 0) Always) /\
    (invalidate_read 12 >> wrote_to_insert 76) (set_cur_cond Always s2) = Ok (tt, s) /\
    live_intervals s !! 76 = Some (mkInterval 12 25) /\
    active_reg_map s =
      [(64, 0); (65, 1); (66, 2); (67, 3); (68, 12); (69, 4); (70, 5); (71, 6);
       (72, 7); (73, 8); (74, 9); (75, 10)] /\
    alloc_transient_reg TEMP_REGS_arm GLOB_REGS_arm (mkInterval 12 25) (Some 76) s
      = Ok (0, s') /\
    spill_positions s' !! 64 = Some 0 /\
    stack_size s' = 4 /\
    inst_sink s' = inst_sink s ++ [str_sp 0 0 Always] /\
    spilled_regs s' !! 64 = Some (mkInterval 12 13) /\
    active_reg_map s' =
      [(65, 1); (66, 2); (67, 3); (68, 12); (69, 4); (70, 5); (71, 6);
       (72, 7); (73, 8); (74, 9); (75, 10); (76, 0)].
Proof.
  assert (Hrun : exists s1 s2 s,
            run_analyses pressure_function ∅ [] = Ok (tt, s1) /\
            rewrite_loop TEMP_REGS_arm GLOB_REGS_arm (take 12 (f_inst pressure_function)) 0 s1
              = Ok (tt, s2) /\
            (invalidate_read 12 >> wrote_to_insert 76) (set_cur_cond Always s2)
              = Ok (tt, s) /\
            live_intervals s !! 76 = Some (mkInterval 12 25) /\
            active_reg_map s =
              (64, 0) :: [(65, 1); (66, 2); (67, 3); (68, 12); (69, 4); (70, 5); (71, 6);
                          (72, 7); (73, 8); (74, 9); (75, 10)] /\
            first_free_temp TEMP_REGS_arm s = None /\
            first_free_glob GLOB_REGS_arm s = None /\
            active s !! 0 = Some (mkInterval 0 13) /\
            spilled_regs s !! 64 = None /\
            spill_positions s !! 64 = None /\
            stack_size s = 0 /\ stack_offset s = 0 /\ cur_cond s = Always).
  { eexists _, _, _. split; [vm_compute; reflexivity |]. split; [vm_compute; reflexivity |].
    split; [vm_compute; reflexivity |]. split; [vm_compute; reflexivity |].
    split; [reflexivity |]. split; [vm_compute; reflexivity |].
    split; [vm_compute; reflexivity |]. split; [vm_compute; reflexivity |].
    split; [vm_compute; reflexivity |]. split; [vm_compute; reflexivity |].
    split; [reflexivity |]. split; reflexivity. }
  destruct Hrun as (s1 & s2 & s & Hrun & Hloop & Hs & Hlive & Harm & Ht & Hg & Hact &
                    Hsp & Hpos & Hsz & Hso & Hcc).
  assert (Hnot : not_in_arm (Some 76) s) by (cbn; rewrite Harm; reflexivity).
  destruct (proj2 (alloc_transient_reg_evicts TEMP_REGS_arm GLOB_REGS_arm
                     (mkInterval 12 25) (Some 76) s Ht Hg Hnot)
              64 0 _ (mkInterval 0 13) Harm Hact)
    as (s' & pos & H1 & H2 & H3 & H4 & _ & H6 & _ & H7 & _).
  destruct H3 as [[H3 _] | (_ & -> & H3)]; [congruence |].
  exists s1, s2, s, s'.
  split; [exact Hrun |]. split; [exact Hloop |]. split; [reflexivity |].
  split; [exact Hs |]. split; [exact Hlive |]. split; [exact Harm |].
  split; [exact H1 |].
  split; [rewrite H2, Hsz; reflexivity |].
  split; [rewrite H3, Hsz; reflexivity |].
  split; [rewrite H4, Hsz, Hso, Hcc; reflexivity |].
  split; [apply H6; exact Hsp | exact H7].
Defined.

(** C8, the claim as stated fails.  In [stale_record_function] the
    cross-block register [v64] is written, freed at the branch (which
    records it in [spilled_regs] with the window [0, 28]) and written
    again, which gives it [r0] without touching the record; eleven more
    registers fill both pools.  The request for [v76] over [15, 27] then
    evicts [v64] from [r0], and the record of [v64] still starts at 0
    and not at 15. *)
Lemma evict_keeps_record_counterexample :
  exists s1 s2 s3 rest,
    run_analyses stale_record_function {[ 1 := -1 ]} [(1, 64)] = Ok (tt, s1) /\
    rewrite_loop TEMP_REGS_arm GLOB_REGS_arm (take 15 (f_inst stale_record_function)) 0 s1
      = Ok (tt, s2) /\
    f_inst stale_record_function !! 15%nat = Some (Arith2Inst OpMov 76 (O2Imm 0) Always) /\
    live_intervals s2 !! 76 = Some (mkInterval 15 27) /\
    first_free_temp TEMP_REGS_arm s2 = None /\
    first_free_glob GLOB_REGS_arm s2 = None /\
    active_reg_map s2 = (64, 0) :: rest /\
    active s2 !! 0 = Some (mkInterval 3 28) /\
    spilled_regs s2 !! 64 = Some (mkInterval 0 28) /\
    alloc_transient_reg TEMP_REGS_arm GLOB_REGS_arm (mkInterval 15 27) (Some 76) s2
      = Ok (0, s3) /\
    spilled_regs s3 !! 64 = Some (mkInterval 0 28) /\
    spilled_regs s3 !! 64 <> Some (mkInterval 15 28).
Proof.
  eexists _, _, _, _.
  split; [vm_compute; reflexivity |]. split; [vm_compute; reflexivity |].
  split; [reflexivity |]. split; [reflexivity |].
  split; [vm_compute; reflexivity |]. split; [vm_compute; reflexivity |].
  split; [vm_compute; reflexivity |]. split; [reflexivity |].
  split; [reflexivity |]. split; [vm_compute; reflexivity |].
  split; [reflexivity |]. vm_compute. discriminate.
Qed.

(** ** Prologue and epilogue patching *)

Lemma update_at_head g op regs c l :
  update_at 0 (with_regs g) (PushPopInst op regs c :: l)
  = Ok (PushPopInst op (g regs) c :: l).
Proof. reflexivity. Qed.

Lemma update_at_last g l op regs c :
  update_at (length (l ++ [PushPopInst op regs c]) - 1) (with_regs g)
    (l ++ [PushPopInst op regs c])
  = Ok (l ++ [PushPopInst op (g regs) c]).
Proof.
  unfold update_at.
  replace (length (l ++ [PushPopInst op regs c]) - 1)%nat with (length l + 0)%nat
    by (rewrite length_app; simpl; lia).
  rewrite lookup_app_r by lia.
  replace (length l + 0 - length l)%nat with O by lia. simpl.
  f_equal. rewrite insert_app_r. reflexivity.
Qed.

Lemma insert_at_app l r x : insert_at (length l) x (l ++ r) = Ok (l ++ x :: r).
Proof.
  unfold insert_at.
  destruct (Nat.leb_spec (length l) (length (l ++ r))) as [_|H];
    [| rewrite length_app in H; lia].
  rewrite take_app_length, drop_app_length. reflexivity.
Qed.

Lemma erase_at_app l x r : erase_at (length l) (l ++ x :: r) = Ok (l ++ r).
Proof.
  unfold erase_at.
  destruct (Nat.ltb_spec (length l) (length (l ++ x :: r))) as [_|H];
    [| rewrite length_app in H; simpl in H; lia].
  rewrite take_app_length.
  change (l ++ x :: r) with (l ++ [x] ++ r). rewrite app_assoc.
  replace (S (length l)) with (length (l ++ [x])) by (rewrite length_app; simpl; lia).
  rewrite drop_app_length. reflexivity.
Qed.

Lemma from_end_app l r : from_end (length r) (l ++ r) = Ok (length l).
Proof.
  unfold from_end. rewrite length_app.
  destruct (Nat.leb_spec (length r) (length l + length r)); [| lia].
  f_equal. lia.
Qed.

Lemma from_end_2 l a b : from_end 2 (l ++ [a; b]) = Ok (length l).
Proof. apply (from_end_app l [a; b]). Qed.

Lemma from_end_1 l a : from_end 1 (l ++ [a]) = Ok (length l).
Proof. apply (from_end_app l [a]). Qed.

Lemma patch_lists_spec used used_temp ss usp op1 r1 c1 mid op2 r2 c2 :
  patch_lists used used_temp ss usp
    (PushPopInst op1 r1 c1 :: mid ++ [PushPopInst op2 r2 c2])
  = Ok (PushPopInst op1 (patched_regs used used_temp ss usp r1) c1 ::
          mid ++ [PushPopInst op2 (patched_regs used used_temp ss usp r2) c2],
        Z.of_nat (length (sset_insert_all used_temp (sset_insert_all used r1))) * 4).
Proof.
  unfold patch_lists, patched_regs.
  rewrite update_at_head. cbn [rbind].
  rewrite app_comm_cons, update_at_last. cbn [rbind].
  rewrite <- app_comm_cons. cbn [front_regs regs_of rbind].
  destruct (negb usp && (ss =? 0)).
  - rewrite update_at_head. cbn [rbind].
    rewrite app_comm_cons, update_at_last. reflexivity.
  - reflexivity.
Qed.

Lemma patch_epilogue_spec ss usp off pre y restore q :
  patch_epilogue ss usp off ((pre ++ [y]) ++ [restore; q])
  = Ok (if ss =? 0
        then (if usp then pre ++ [sub_fp off; y] else pre ++ [y]) ++ [q]
        else (pre ++ [y]) ++ when_stack_param usp (sub_fp off) ++ [restore; q]).
Proof.
  unfold patch_epilogue, when_stack_param.
  destruct (ss =? 0).
  - rewrite from_end_2. cbn [rbind].
    rewrite erase_at_app. cbn [rbind].
    destruct usp; [| reflexivity].
    rewrite <- app_assoc. cbn [app]. rewrite from_end_2. cbn [rbind].
    rewrite insert_at_app. f_equal. rewrite <- app_assoc. reflexivity.
  - cbn [rbind]. destruct usp; [| reflexivity].
    rewrite from_end_2. cbn [rbind].
    rewrite insert_at_app. reflexivity.
Qed.

Lemma last_snoc_inst (l : list Inst) x : last (l ++ [x]) = Some x.
Proof. apply last_snoc. Qed.

Lemma drop_empty_lists_spec op1 r1 c1 mid op2 r2 c2 :
  drop_empty_lists (PushPopInst op1 r1 c1 :: mid ++ [PushPopInst op2 r2 c2])
  = Ok (opt_pushpop op1 r1 c1 ++ mid ++ opt_pushpop op2 r2 c2).
Proof.
  unfold drop_empty_lists, back_regs. cbn [front_regs regs_of rbind].
  rewrite app_comm_cons, last_snoc_inst. cbn [regs_of rbind].
  assert (Hlast : forall l : list Inst,
            rbind (from_end 1 (l ++ [PushPopInst op2 r2 c2]))
              (fun n => erase_at n (l ++ [PushPopInst op2 r2 c2])) = Ok l).
  { intros l. rewrite from_end_1. cbn [rbind].
    rewrite erase_at_app. rewrite app_nil_r. reflexivity. }
  assert (H0 : forall (x : Inst) l, erase_at 0 (x :: l) = Ok l) by reflexivity.
  destruct r1 as [|a r1]; destruct r2 as [|b r2]; cbn [opt_pushpop app].
  - rewrite H0. cbn [rbind]. rewrite Hlast, app_nil_r. reflexivity.
  - rewrite H0. reflexivity.
  - cbn [rbind]. rewrite app_comm_cons, Hlast, app_nil_r. reflexivity.
  - reflexivity.
Qed.

Lemma insert_before_last_snoc x l y :
  insert_before_last x (l ++ [y]) = l ++ [x; y].
Proof.
  unfold insert_before_last. rewrite rev_app_distr. simpl.
  rewrite rev_involutive. reflexivity.
Qed.

Lemma insert_before_last_cons x p l :
  l <> [] -> insert_before_last x (p :: l) = p :: insert_before_last x l.
Proof.
  intros Hne. destruct (exists_last Hne) as (l' & y & ->).
  rewrite app_comm_cons, !insert_before_last_snoc. reflexivity.
Qed.

Lemma patch_epilogue_nonempty ss usp off pre restore q :
  pre <> [] ->
  patch_epilogue ss usp off (pre ++ [restore; q])
  = Ok (if ss =? 0
        then (if usp then insert_before_last (sub_fp off) pre else pre) ++ [q]
        else pre ++ when_stack_param usp (sub_fp off) ++ [restore; q]).
Proof.
  intros Hne. destruct (exists_last Hne) as (pre' & y & ->).
  rewrite patch_epilogue_spec, insert_before_last_snoc. reflexivity.
Qed.

Lemma patch_prologue_spec ss usp off p ph rest :
  patch_prologue ss usp off (p :: ph :: rest)
  = Ok (p :: (if ss =? 0 then (if usp then [ph; add_fp off] else [])
              else [ph] ++
                   (if ss <? 1024 then [sub_sp_imm ss]
                    else [mov_ip_imm ss; sub_sp_ip]) ++
                   when_stack_param usp (add_fp off)) ++ rest).
Proof.
  unfold patch_prologue, when_stack_param.
  destruct usp; destruct (ss =? 0); destruct (ss <? 1024); reflexivity.
Qed.

Lemma patch_frame_spec used used_temp ss usp op1 r1 c1 ph body restore op2 r2 c2 :
  patch_frame used used_temp ss usp
    (PushPopInst op1 r1 c1 :: ph :: body ++ [restore; PushPopInst op2 r2 c2])
  = Ok (opt_pushpop op1 (patched_regs used used_temp ss usp r1) c1 ++
        framed_body ss usp
          (Z.of_nat (length (sset_insert_all used_temp (sset_insert_all used r1))) * 4)
          ph body restore ++
        opt_pushpop op2 (patched_regs used used_temp ss usp r2) c2).
Proof.
  set (off := Z.of_nat (length (sset_insert_all used_temp (sset_insert_all used r1))) * 4).
  unfold patch_frame.
  replace (ph :: body ++ [restore; PushPopInst op2 r2 c2])
    with ((ph :: body ++ [restore]) ++ [PushPopInst op2 r2 c2])
    by (simpl; rewrite <- app_assoc; reflexivity).
  rewrite patch_lists_spec. fold off. cbn [rbind].
  set (P := PushPopInst op1 (patched_regs used used_temp ss usp r1) c1).
  set (Q := PushPopInst op2 (patched_regs used used_temp ss usp r2) c2).
  rewrite <- app_comm_cons, patch_prologue_spec. cbn [rbind].
  set (code := if ss =? 0 then (if usp then [ph; add_fp off] else [])
               else [ph] ++ (if ss <? 1024 then [sub_sp_imm ss]
                             else [mov_ip_imm ss; sub_sp_ip]) ++
                    when_stack_param usp (add_fp off)).
  replace (P :: code ++ (body ++ [restore]) ++ [Q])
    with ((P :: code ++ body) ++ [restore; Q])
    by (simpl; rewrite <- !app_assoc; reflexivity).
  rewrite patch_epilogue_nonempty by discriminate. cbn [rbind].
  unfold framed_body, code, P, Q. clear code.
  destruct (ss =? 0).
  - destruct usp.
    + rewrite insert_before_last_cons by discriminate.
      rewrite <- app_comm_cons. rewrite drop_empty_lists_spec. reflexivity.
    + rewrite <- app_comm_cons. cbn [app]. rewrite drop_empty_lists_spec. reflexivity.
  - replace ((PushPopInst op1 (patched_regs used used_temp ss usp r1) c1
              :: ([ph] ++ (if ss <? 1024 then [sub_sp_imm ss]
                           else [mov_ip_imm ss; sub_sp_ip]) ++
                  when_stack_param usp (add_fp off)) ++ body) ++
             when_stack_param usp (sub_fp off) ++
             [restore; PushPopInst op2 (patched_regs used used_temp ss usp r2) c2])
      with (PushPopInst op1 (patched_regs used used_temp ss usp r1) c1 ::
            ([ph] ++ (if ss <? 1024 then [sub_sp_imm ss]
                      else [mov_ip_imm ss; sub_sp_ip]) ++
             when_stack_param usp (add_fp off) ++ body ++
             when_stack_param usp (sub_fp off) ++ [restore]) ++
            [PushPopInst op2 (patched_regs used used_temp ss usp r2) c2]).
    + rewrite drop_empty_lists_spec. reflexivity.
    + simpl. rewrite <- !app_assoc. simpl. reflexivity.
Qed.

(** C7, the claim as stated fails: for a function with five parameters the
    final [stack_size] is 0, and the placeholder [mov fp, sp] is still the
    second instruction of the output. *)
Lemma frame_placeholder_kept_counterexample :
  exists out s,
    run_alloc_regs five_param_function ∅ [] = Ok (out, s) /\
    stack_size s = 0 /\
    out !! 1%nat = Some (Arith2Inst OpMov REG_FP (reg_op REG_SP) Always).
Proof.
  eexists _, _. split; [vm_compute; reflexivity |].
  split; vm_compute; reflexivity.
Qed.

Section Frame.

Variable TEMP_REGS GLOB_REGS : list Reg.
Variable affine_order : list (Reg * Reg) -> list (Reg * Reg).

(** C7 (amended): let [stack_size] be the member of the allocator after the
    rewriting, i.e. after all spill slots have been allocated, and let the
    rewritten code be [push; ph; body; restore; pop].  The final code is
    the patched [push] (if its list is not empty), the instructions
    [framed_body], and the patched [pop] (if its list is not empty), where
    [framed_body] is
    - [body] when [stack_size = 0] and the function has at most four
      parameters: nothing is emitted and the placeholder [ph] is erased;
    - with [stack_size = 0] and more than four parameters, the placeholder
      followed by [add fp, fp, #offset_size] and [body], with
      [sub fp, fp, #offset_size] before the last of these;
    - [ph; sub sp, sp, #stack_size] before the body when
      [0 < stack_size < 1024];
    - [ph; mov ip, #stack_size; sub sp, sp, ip] before the body when
      [stack_size >= 1024];
    in the last two cases followed by the [add fp] of a function with stack
    parameters, the body, the matching [sub fp] and [restore]. *)
Theorem frame_allocation_code (f : Function) (color_map : gmap Z Z)
    (mir_to_arm : list (Z * Reg)) (s : State)
    (op1 : OpCode) (r1 : list Reg) (c1 : ConditionCode) (ph : Inst)
    (body : list Inst) (restore : Inst)
    (op2 : OpCode) (r2 : list Reg) (c2 : ConditionCode) :
  allocate TEMP_REGS GLOB_REGS affine_order f color_map mir_to_arm
    (init_state (f_stack_size f)) = Ok (tt, s) ->
  inst_sink s =
    PushPopInst op1 r1 c1 :: ph :: body ++ [restore; PushPopInst op2 r2 c2] ->
  let usp := (4 <? f_params f)%nat in
  let ss := stack_size s in
  let off :=
    Z.of_nat (length (sset_insert_all (used_regs_temp s)
                        (sset_insert_all (used_regs s) r1))) * 4 in
  alloc_regs TEMP_REGS GLOB_REGS affine_order f color_map mir_to_arm
    = Ok (opt_pushpop op1 (patched_regs (used_regs s) (used_regs_temp s) ss usp r1) c1 ++
          framed_body ss usp off ph body restore ++
          opt_pushpop op2 (patched_regs (used_regs s) (used_regs_temp s) ss usp r2) c2,
          s) /\
  (ss = 0 -> usp = false -> framed_body ss usp off ph body restore = body) /\
  (ss = 0 -> usp = true ->
     framed_body ss usp off ph body restore
     = insert_before_last (sub_fp off) ([ph; add_fp off] ++ body)) /\
  (0 < ss < 1024 ->
     framed_body ss usp off ph body restore
     = [ph; sub_sp_imm ss] ++ when_stack_param usp (add_fp off) ++ body ++
       when_stack_param usp (sub_fp off) ++ [restore]) /\
  (1024 <= ss ->
     framed_body ss usp off ph body restore
     = [ph; mov_ip_imm ss; sub_sp_ip] ++ when_stack_param usp (add_fp off) ++ body ++
       when_stack_param usp (sub_fp off) ++ [restore]).
Proof.
  intros Hrun Hsink usp ss off.
  split; [| repeat split].
  - unfold alloc_regs. rewrite Hrun, Hsink.
    fold usp ss. rewrite patch_frame_spec. reflexivity.
  - intros H0 Hu. unfold framed_body. rewrite H0, Hu. reflexivity.
  - intros H0 Hu. unfold framed_body. rewrite H0, Hu. reflexivity.
  - intros Hr. unfold framed_body.
    destruct (Z.eqb_spec ss 0); [lia |].
    destruct (Z.ltb_spec ss 1024); [reflexivity | lia].
  - intros Hr. unfold framed_body.
    destruct (Z.eqb_spec ss 0); [lia |].
    destruct (Z.ltb_spec ss 1024); [lia | reflexivity].
Qed.

End Frame.

Lemma frame_allocation_code_witness :
  exists out s,
    run_alloc_regs dup_store_function {[ 1 := -1 ]} [(1, 64)] = Ok (out, s) /\
    stack_size s = 4 /\
    firstn 3 out = [PushPopInst OpPush [REG_FP; REG_LR] Always;
                    Arith2Inst OpMov REG_FP (reg_op REG_SP) Always;
                    sub_sp_imm 4].
Proof.
  assert (Hrun : exists s,
            allocate TEMP_REGS_arm GLOB_REGS_arm (fun l => l) dup_store_function
              {[ 1 := -1 ]} [(1, 64)] (init_state 0) = Ok (tt, s) /\
            stack_size s = 4 /\ used_regs s = [] /\ used_regs_temp s = [] /\
            inst_sink s =
              PushPopInst OpPush [REG_FP; REG_LR] Always ::
              Arith2Inst OpMov REG_FP (reg_op REG_SP) Always ::
              [Arith2Inst OpCmp 0 (O2Imm 0) Always; BrInst OpB ".L" 0 Always;
               LabelInst ".L" Always; Arith2Inst OpMov 0 (O2Imm 1) Always;
               Arith3Inst OpAdd 0 0 (O2Imm 1) Always;
               str_sp 0 0 Always; str_sp 0 0 Always] ++
              [Arith2Inst OpMov REG_SP (reg_op REG_FP) Always;
               PushPopInst OpPop [REG_FP; REG_PC] Always]).
  { eexists. split; [vm_compute; reflexivity |].
    split; [vm_compute; reflexivity |]. split; [vm_compute; reflexivity |].
    split; vm_compute; reflexivity. }
  destruct Hrun as (s & Hrun & Hss & Hu & Hut & Hsink).
  destruct (frame_allocation_code TEMP_REGS_arm GLOB_REGS_arm (fun l => l)
              dup_store_function {[ 1 := -1 ]} [(1, 64)] s
              _ _ _ _ _ _ _ _ _ Hrun Hsink) as (Hout & _ & _ & Hsmall & _).
  eexists _, s. split; [exact Hout |]. split; [exact Hss |].
  rewrite Hsmall by (rewrite Hss; lia).
  rewrite Hss, Hu, Hut. reflexivity.
Defined.
(** ** Block boundaries *)

Lemma same_frame_refl s : same_frame s s.
Proof. unfold same_frame. repeat split; auto. Qed.

Lemma same_frame_trans s1 s2 s3 :
  same_frame s1 s2 -> same_frame s2 s3 -> same_frame s1 s3.
Proof.
  unfold same_frame.
  intros (A1 & A2 & A3 & A4 & A5 & A6 & A7) (B1 & B2 & B3 & B4 & B5 & B6 & B7).
  repeat split; try congruence. auto.
Qed.

Lemma find_phys_snd p l y : find_phys p l = Some y -> snd y = p.
Proof.
  unfold find_phys. intros H. apply find_some in H as [_ H].
  apply Z.eqb_eq in H. exact H.
Qed.





Lemma find_phys_elem p l e : find_phys p l = Some e -> e ∈ l.
Proof.
  unfold find_phys. intros H. apply find_some in H as [H _].
  by apply list_elem_of_In.
Qed.


Section Boundary.

Variable TEMP_REGS GLOB_REGS : list Reg.


End Boundary.

(** ** No virtual register survives the allocation *)

Lemma wp_bind {A B} (m : M A) (k : A -> M B) Q s :
  wp m (fun a s' => wp (k a) Q s') s -> wp (bind m k) Q s.
Proof. unfold wp, bind. destruct (m s) as [[a s']| |]; auto. Qed.

Lemma wp_mono {A} (m : M A) (Q Q' : A -> State -> Prop) s :
  wp m Q s -> (forall a s', Q a s' -> Q' a s') -> wp m Q' s.
Proof. unfold wp. destruct (m s) as [[a s']| |]; auto. Qed.

Lemma wp_ret {A} (a : A) (Q : A -> State -> Prop) s : Q a s -> wp (ret a) Q s.
Proof. auto. Qed.

Lemma wp_gets {A} (f : State -> A) (Q : A -> State -> Prop) s :
  Q (f s) s -> wp (gets f) Q s.
Proof. auto. Qed.

Lemma wp_modify (f : State -> State) (Q : unit -> State -> Prop) s :
  Q tt (f s) -> wp (modify f) Q s.
Proof. auto. Qed.

Lemma wp_throw {A} e (Q : A -> State -> Prop) s : wp (throw e) Q s.
Proof. exact I. Qed.

Lemma wp_map_at {V} (m : gmap Z V) k (Q : V -> State -> Prop) s :
  (forall v, m !! k = Some v -> Q v s) -> wp (map_at m k) Q s.
Proof.
  unfold map_at. destruct (m !! k); intros H; [| exact I].
  apply wp_ret, H. reflexivity.
Qed.

Lemma wp_lift_result {A} (f : State -> Result A) (Q : A -> State -> Prop) s :
  (forall a, Q a s) -> wp (lift_result f) Q s.
Proof. unfold wp, lift_result. destruct (f s); auto. Qed.

Lemma wp_get_collapse_reg r (Q : Reg -> State -> Prop) s :
  (forall r', Q r' s) -> wp (get_collapse_reg r) Q s.
Proof. unfold wp, get_collapse_reg. destruct get_collapse_reg_fuel; auto. Qed.

Lemma is_virtual_register_false r : is_virtual_register r = false -> is_phys r.
Proof. unfold is_virtual_register, is_phys. intros H. apply Z.leb_gt in H. exact H. Qed.

Lemma phys_str_sp r off c : is_phys r -> phys_inst (str_sp r off c).
Proof. intros H. cbn. unfold phys_mem, is_phys in *. cbn. unfold REG_SP. lia. Qed.

Lemma phys_ldr_sp r off c : is_phys r -> phys_inst (ldr_sp r off c).
Proof. intros H. cbn. unfold phys_mem, is_phys in *. cbn. unfold REG_SP. lia. Qed.

Lemma Forall_remove_first_virt (P : Reg * Reg -> Prop) v l :
  Forall P l -> Forall P (remove_first_virt v l).
Proof.
  induction 1 as [|e l He Hl IH]; simpl; [constructor |].
  destruct (e.1 =? v); [assumption | constructor; assumption].
Qed.

Lemma Forall_remove_first_phys (P : Reg * Reg -> Prop) p l :
  Forall P l -> Forall P (remove_first_phys p l).
Proof.
  induction 1 as [|e l He Hl IH]; simpl; [constructor |].
  destruct (e.2 =? p); [assumption | constructor; assumption].
Qed.

Lemma Forall_sset_insert (P : Z -> Prop) x l :
  P x -> Forall P l -> Forall P (sset_insert x l).
Proof.
  intros Hx. induction 1 as [|y l Hy Hl IH]; simpl; [repeat constructor; assumption |].
  destruct (x <? y); [repeat constructor; assumption |].
  destruct (x =? y); constructor; assumption.
Qed.

Lemma Forall_sset_erase (P : Z -> Prop) x l :
  Forall P l -> Forall P (sset_erase x l).
Proof.
  induction 1 as [|y l Hy Hl IH]; simpl; [constructor |].
  destruct (x =? y); [assumption | constructor; assumption].
Qed.

Lemma Forall_removelast {A} (P : A -> Prop) l : Forall P l -> Forall P (removelast l).
Proof.
  induction 1 as [|y l Hy Hl IH]; simpl; [constructor |].
  destruct l; [constructor | constructor; assumption].
Qed.

Lemma find_virt_elem v l e : find_virt v l = Some e -> e ∈ l.
Proof.
  unfold find_virt. intros H. apply find_some in H as [H _].
  by apply list_elem_of_In.
Qed.

(** Ways of keeping [phys_state] *)

Lemma phys_state_emit s x :
  phys_state s -> phys_inst x ->
  phys_state (set_inst_sink (inst_sink s ++ [x]) s).
Proof.
  unfold phys_state. cbn. intros (H1 & H2 & H3 & H4 & H5 & H6) Hx.
  repeat split; try assumption. apply Forall_app. split; [assumption |].
  constructor; [assumption | constructor].
Qed.

Lemma phys_state_arm s arm :
  phys_state s -> Forall (fun e : Reg * Reg => is_phys e.2) arm ->
  phys_state (set_active_reg_map arm s).
Proof.
  unfold phys_state. cbn. intros (H1 & H2 & H3 & H4 & H5 & H6) Hx.
  repeat split; assumption.
Qed.

Lemma phys_state_same s s' : same_phys s s' -> phys_state s -> phys_state s'.
Proof.
  unfold same_phys, phys_state.
  intros (E1 & E2 & E3 & E4 & E5 & E6). rewrite E1, E2, E3, E4, E5, E6. auto.
Qed.

Ltac same_phys := unfold same_phys; cbn; repeat split; reflexivity.

Lemma wp_emit x (Q : unit -> State -> Prop) s :
  Q tt (set_inst_sink (inst_sink s ++ [x]) s) -> wp (emit x) Q s.
Proof. auto. Qed.

Lemma get_or_alloc_spill_pos_phys r s :
  phys_state s -> wp (get_or_alloc_spill_pos r) (fun _ s' => phys_state s' /\
    stack_offset s' = stack_offset s /\ cur_cond s' = cur_cond s /\
    active_reg_map s' = active_reg_map s /\ inst_sink s' = inst_sink s) s.
Proof.
  intros H. unfold wp, get_or_alloc_spill_pos.
  destruct (spill_positions s !! r); cbn; [auto 6 |].
  split; [| auto]. eapply phys_state_same; [| exact H]. same_phys.
Qed.
Ltac wp_step :=
  cbv beta;
  lazymatch goal with
  | |- wp (bind _ _) _ _ => apply wp_bind
  | |- wp (ret _) _ _ => apply wp_ret
  | |- wp (gets _) _ _ => apply wp_gets
  | |- wp (modify _) _ _ => apply wp_modify
  | |- wp (emit _) _ _ => apply wp_emit
  | |- wp (throw _) _ _ => apply wp_throw
  | |- wp (map_at _ _) _ _ => apply wp_map_at; intros ? ?
  | |- wp (get_collapse_reg _) _ _ => apply wp_get_collapse_reg; intros ?
  | |- wp (lift_result _) _ _ => apply wp_lift_result; intros ?
  | |- wp pop_back _ _ => apply wp_modify
  end.

Ltac wp_steps := repeat wp_step; cbv beta.

(** Splits [phys_state] in the hypotheses and in the goal. *)
Ltac phys_open :=
  repeat match goal with
         | H : phys_state _ |- _ =>
             let H1 := fresh "Harm" in let H2 := fresh "Hmap" in
             let H3 := fresh "Hsink" in let H4 := fresh "Hdel" in
             let H5 := fresh "Hused" in let H6 := fresh "Htemp" in
             destruct H as (H1 & H2 & H3 & H4 & H5 & H6); cbn in H1, H2, H3, H4, H5, H6
         end;
  unfold phys_state; cbn;
  repeat match goal with |- _ /\ _ => split end;
  try assumption.

Lemma Forall_snoc {A} (P : A -> Prop) l x : Forall P l -> P x -> Forall P (l ++ [x]).
Proof. intros Hl Hx. apply Forall_app. split; [assumption | repeat constructor; assumption]. Qed.

Lemma find_phys_is_phys s r y :
  phys_state s -> find_phys r (active_reg_map s) = Some y -> is_phys r.
Proof.
  intros (Harm & _) Hf. pose proof (find_phys_snd _ _ _ Hf) as <-.
  apply find_phys_elem in Hf. rewrite Forall_forall in Harm. exact (Harm _ Hf).
Qed.

Lemma force_free_phys r e wb s :
  phys_state s -> wp (force_free r e wb) (fun _ s' => phys_state s') s.
Proof.
  intros H. unfold force_free. wp_steps. unfold id.
  destruct (active s !! r); [| wp_steps; exact H].
  destruct (find_phys r (active_reg_map s)) as [y|] eqn:Ef; [| wp_steps; exact H].
  pose proof (find_phys_is_phys _ _ _ H Ef) as Hr.
  wp_step. eapply wp_mono; [apply get_or_alloc_spill_pos_phys; exact H |].
  intros pos s1 (H1 & _). cbv beta.
  destruct wb, e; wp_steps; phys_open;
    auto using Forall_snoc, phys_str_sp, Forall_remove_first_virt.
Qed.

Section NoVirtual.

Variable TEMP_REGS GLOB_REGS : list Reg.
Hypothesis TEMP_phys : Forall is_phys TEMP_REGS.
Hypothesis GLOB_phys : Forall is_phys GLOB_REGS.

Lemma alloc_using_temp_phys r s r' s' :
  alloc_using_temp TEMP_REGS (r, s) = (r', s') ->
  s' = s /\ (r' = r \/ is_phys r').
Proof.
  unfold alloc_using_temp. destruct (r =? NO_REG); [| intros [= <- <-]; auto].
  destruct (first_free_temp TEMP_REGS s) as [t|] eqn:E; intros [= <- <-]; [| auto].
  split; [reflexivity |]. right.
  apply first_free_temp_Some in E as [Hin _].
  rewrite Forall_forall in TEMP_phys. auto.
Qed.

Lemma alloc_using_glob_phys r s r' s' :
  phys_state s ->
  alloc_using_glob GLOB_REGS (r, s) = (r', s') ->
  phys_state s' /\ (r' = r \/ is_phys r').
Proof.
  intros H. unfold alloc_using_glob. destruct (r =? NO_REG); [| intros [= <- <-]; auto].
  destruct (first_free_glob GLOB_REGS s) as [g|] eqn:E; intros [= <- <-]; [| auto].
  apply first_free_glob_Some in E as [Hin _].
  rewrite Forall_forall in GLOB_phys. specialize (GLOB_phys _ Hin).
  split; [| auto]. phys_open. apply Forall_sset_insert; assumption.
Qed.

Lemma evict_phys i orig s :
  phys_state s -> wp (evict i orig) (fun r s' => phys_state s' /\ is_phys r) s.
Proof.
  intros H. unfold evict. wp_steps. unfold id.
  destruct (active_reg_map s) as [|[spill_virt spill_phys] rest] eqn:Ea; [wp_steps; exact I |].
  assert (Hp : is_phys spill_phys /\ Forall (fun e : Reg * Reg => is_phys e.2) rest).
  { destruct H as (Harm & _). rewrite Ea in Harm. inversion Harm; subst. auto. }
  destruct Hp as [Hp Hrest].
  wp_steps.
  eapply wp_mono.
  { apply get_or_alloc_spill_pos_phys. apply phys_state_arm; assumption. }
  intros pos s1 (H1 & _ & _ & Harm1 & _). cbv beta.
  wp_steps. destruct orig; wp_steps; (split; [| exact Hp]); phys_open;
    auto using Forall_snoc, phys_str_sp, Forall_remove_first_virt.
Qed.

Lemma alloc_transient_reg_phys i orig s :
  phys_state s ->
  wp (alloc_transient_reg TEMP_REGS GLOB_REGS i orig)
     (fun r s' => phys_state s' /\ is_phys r) s.
Proof.
  intros H. unfold alloc_transient_reg. wp_steps. unfold id.
  destruct (match orig with
            | Some o => find_virt o (active_reg_map s)
            | None => None
            end) as [x|] eqn:Ef.
  - assert (Hx : x ∈ active_reg_map s).
    { destruct orig; [| discriminate]. eapply find_virt_elem; eassumption. }
    assert (Hpx : is_phys x.2).
    { destruct H as (Harm & _). rewrite Forall_forall in Harm. auto. }
    wp_steps. split; [| exact Hpx]. phys_open.
    apply Forall_snoc; [apply Forall_remove_first_virt; assumption | exact Hpx].
  - destruct (if crosses_bl i s
              then alloc_using_temp TEMP_REGS (alloc_using_glob GLOB_REGS (NO_REG, s))
              else alloc_using_glob GLOB_REGS (alloc_using_temp TEMP_REGS (NO_REG, s)))
      as [r s1] eqn:Esel.
    assert (Hsel : phys_state s1 /\ (r = NO_REG \/ is_phys r)).
    { destruct (crosses_bl i s).
      - destruct (alloc_using_glob GLOB_REGS (NO_REG, s)) as [r0 s0] eqn:E0.
        apply alloc_using_glob_phys in E0 as [Hs0 Hr0]; [| exact H].
        apply alloc_using_temp_phys in Esel as [-> Hr]. split; [exact Hs0 |].
        destruct Hr as [-> | Hr]; auto.
      - destruct (alloc_using_temp TEMP_REGS (NO_REG, s)) as [r0 s0] eqn:E0.
        apply alloc_using_temp_phys in E0 as [-> Hr0].
        apply alloc_using_glob_phys in Esel as [Hs1 Hr]; [| exact H]. split; [exact Hs1 |].
        destruct Hr as [-> | Hr]; auto. }
    destruct Hsel as [Hs1 Hr].
    wp_steps.
    destruct (Z.eqb_spec r NO_REG) as [-> | Hne].
    + eapply wp_mono; [apply evict_phys; exact Hs1 |].
      intros r' s2 [Hs2 Hr']. cbv beta.
      wp_steps. destruct orig; wp_steps; (split; [| exact Hr']); phys_open.
      apply Forall_snoc; assumption.
    + destruct Hr as [-> | Hr]; [congruence |].
      wp_steps. destruct orig; wp_steps; (split; [| exact Hr]); phys_open.
      apply Forall_snoc; assumption.
Qed.

Lemma replace_read_phys r i pre s :
  phys_state s ->
  (forall p, pre = Some p -> is_phys p) ->
  wp (replace_read TEMP_REGS GLOB_REGS r i pre)
     (fun r' s' => phys_state s' /\ is_phys r') s.
Proof.
  intros H Hpre. unfold replace_read. wp_steps.
  destruct (is_virtual_register r') eqn:Ev; cbn [negb].
  2:{ wp_steps. split; [exact H | apply is_virtual_register_false; exact Ev]. }
  wp_steps. unfold id.
  destruct (reg_map s !! r') as [phys|] eqn:Em.
  { wp_steps. split; [exact H |]. destruct H as (_ & Hmap & _). exact (Hmap _ _ Em). }
  destruct (spilled_regs s !! r') as [spill_r|] eqn:Es.
  - wp_step. eapply wp_mono; [apply get_or_alloc_spill_pos_phys; exact H |].
    intros spill_pos s1 (H1 & _). cbv beta.
    wp_steps.
    assert (H2 : phys_state (set_spilled_regs (delete r' (spilled_regs s1)) s1))
      by (eapply phys_state_same; [| exact H1]; same_phys).
    eapply wp_mono with (Q := fun rd s' => phys_state s' /\ is_phys rd).
    { destruct pre as [p|]; [wp_steps; auto |].
      apply alloc_transient_reg_phys; assumption. }
    intros rd s2 [Hs2 Hrd]. cbv beta.
    wp_steps. destruct a; wp_steps; (split; [| exact Hrd]); phys_open.
    + apply Forall_removelast; assumption.
    + intros r0 rd0 [= _ <-]. exact Hrd.
    + apply Forall_snoc; [assumption | apply phys_ldr_sp; exact Hrd].
  - wp_steps. apply alloc_transient_reg_phys; assumption.
Qed.

Lemma replace_read_op2_phys o i s :
  phys_state s ->
  wp (replace_read_op2 TEMP_REGS GLOB_REGS o i)
     (fun o' s' => phys_state s' /\ phys_op2 o') s.
Proof.
  intros H. unfold replace_read_op2. destruct o as [rop|v].
  - wp_step. eapply wp_mono; [apply replace_read_phys; [exact H | discriminate] |].
    intros r s1 [Hs1 Hr]. wp_steps. auto.
  - wp_steps. cbn. auto.
Qed.

Lemma replace_read_mem_phys m i s :
  phys_state s ->
  wp (replace_read_mem TEMP_REGS GLOB_REGS m i)
     (fun m' s' => phys_state s' /\ phys_mem m') s.
Proof.
  intros H. unfold replace_read_mem.
  wp_step. eapply wp_mono; [apply replace_read_phys; [exact H | discriminate] |].
  intros r1 s1 [Hs1 Hr1]. cbv beta.
  destruct (mo_offset m) as [rop|v].
  - wp_step. eapply wp_mono; [apply replace_read_phys; [exact Hs1 | discriminate] |].
    intros r s2 [Hs2 Hr]. wp_steps. unfold phys_mem. cbn. auto.
  - wp_steps. unfold phys_mem. cbn. auto.
Qed.

Lemma pre_replace_write_phys r i pre s :
  phys_state s ->
  (forall p, pre = Some p -> is_phys p) ->
  wp (pre_replace_write TEMP_REGS GLOB_REGS r i pre)
     (fun a s' => phys_state s' /\ is_phys (replace_with a)) s.
Proof.
  intros H Hpre. unfold pre_replace_write. wp_steps.
  destruct (is_virtual_register r') eqn:Ev; cbn [negb].
  2:{ wp_step. eapply wp_mono; [apply force_free_phys; exact H |].
      intros [] s1 Hs1. wp_steps. cbn.
      split; [exact Hs1 | apply is_virtual_register_false; exact Ev]. }
  wp_steps. unfold id.
  destruct (reg_map s !! r') as [phys|] eqn:Em.
  { wp_steps. cbn. split; [exact H |]. destruct H as (_ & Hmap & _). exact (Hmap _ _ Em). }
  destruct (is_cross_block s r').
  - wp_step.
    eapply wp_mono with (Q := fun rd s' => phys_state s' /\ is_phys rd).
    { destruct pre as [p|]; [wp_steps; auto |].
      destruct (find_virt r' (active_reg_map s)) as [x|] eqn:Ef.
      - assert (Hx : is_phys x.2).
        { apply find_virt_elem in Ef. destruct H as (Harm & _).
          rewrite Forall_forall in Harm. auto. }
        wp_steps. split; [| exact Hx]. phys_open.
        apply Forall_snoc; [apply Forall_remove_first_virt; assumption | exact Hx].
      - wp_steps. apply alloc_transient_reg_phys; assumption. }
    intros rd s1 [Hs1 Hrd]. wp_steps. cbn. auto.
  - destruct (spilled_regs s !! r') as [spill_r|] eqn:Es.
    + wp_step. eapply wp_mono; [apply get_or_alloc_spill_pos_phys; exact H |].
      intros pos s1 (H1 & _). cbv beta.
      wp_steps.
      assert (H2 : phys_state (set_spilled_regs (delete r' (spilled_regs s1)) s1))
        by (eapply phys_state_same; [| exact H1]; same_phys).
      eapply wp_mono with (Q := fun rd s' => phys_state s' /\ is_phys rd).
      { destruct pre as [p|]; [wp_steps; auto |].
        apply alloc_transient_reg_phys; assumption. }
      intros rd s2 [Hs2 Hrd]. wp_steps. cbn. auto.
    + wp_steps.
      eapply wp_mono; [apply alloc_transient_reg_phys; assumption |].
      intros rd s2 [Hs2 Hrd]. wp_steps. cbn. auto.
Qed.

Lemma replace_write_phys a i s :
  phys_state s -> is_phys (replace_with a) ->
  wp (replace_write a i) (fun _ s' => phys_state s') s.
Proof.
  intros H Ha. unfold replace_write. destruct (kind a).
  - wp_steps. eapply phys_state_same; [| exact H]. same_phys.
  - wp_steps. exact H.
  - wp_step. eapply wp_mono; [apply get_or_alloc_spill_pos_phys; exact H |].
    intros pos s1 (H1 & _). cbv beta.
    wp_steps. destruct a0; wp_steps; phys_open.
    apply Forall_snoc; [assumption | apply phys_str_sp; exact Ha].
  - wp_steps. exact H.
Qed.

Lemma invalidate_read_phys pos s :
  phys_state s -> wp (invalidate_read pos) (fun _ s' => phys_state s') s.
Proof.
  intros H. unfold invalidate_read. wp_steps. phys_open.
  clear - Harm.
  generalize (filter (fun kv : Z * Interval => i_end kv.2 <= to_unsigned pos)
                (map_to_list (active s))).
  intros dead. revert Harm. generalize (active_reg_map s).
  induction dead as [|kv dead IH]; intros arm Harm; simpl; [exact Harm |].
  apply IH. apply Forall_remove_first_phys. exact Harm.
Qed.

Lemma commit_delayed_store_phys i s :
  phys_state s ->
  wp (commit_delayed_store i) (fun _ s' => phys_state s') s.
Proof.
  intros H. unfold commit_delayed_store. wp_steps.
  destruct (delayed_store s) as [[r rd]|] eqn:Ed; [| wp_steps; exact H].
  wp_step. eapply wp_mono.
  { apply replace_write_phys; [exact H |]. cbn.
    destruct H as (_ & _ & _ & Hd & _). eapply Hd. exact Ed. }
  intros [] s1 H1. wp_steps. phys_open. discriminate.
Qed.

Lemma bb_reset_loop_phys rest : forall kept s,
  phys_state s ->
  Forall (fun e : Reg * Reg => is_phys e.2) kept ->
  Forall (fun e : Reg * Reg => is_phys e.2) rest ->
  wp (bb_reset_loop kept rest) (fun _ s' => phys_state s') s.
Proof.
  induction rest as [|[v p] rest IH]; intros kept s H Hkept Hrest.
  - cbn. wp_steps. exact H.
  - cbn [bb_reset_loop]. wp_steps. unfold id.
    inversion Hrest as [|? ? Hp Hrest']; subst.
    destruct (is_cross_block s v).
    + wp_step. eapply wp_mono; [apply force_free_phys; exact H |].
      intros [] s1 H1. cbv beta. wp_steps.
      apply IH; [| assumption | assumption].
      apply phys_state_arm; [| apply Forall_app; auto].
      eapply phys_state_same; [| exact H1]. same_phys.
    + apply IH; [exact H | | assumption].
      apply Forall_snoc; assumption.
Qed.

Lemma bb_reset_block_phys s :
  phys_state s -> wp bb_reset_block (fun _ s' => phys_state s') s.
Proof.
  intros H. unfold bb_reset_block. wp_steps.
  eapply wp_mono.
  { apply bb_reset_loop_phys; [exact H | constructor |]. destruct H as (Harm & _). exact Harm. }
  intros [] s1 H1. wp_steps. eapply phys_state_same; [| exact H1]. same_phys.
Qed.

Lemma force_free_all_phys rs : forall s,
  phys_state s -> wp (force_free_all rs) (fun _ s' => phys_state s') s.
Proof.
  induction rs as [|r rs IH]; intros s H; cbn.
  - wp_steps. exact H.
  - wp_step. eapply wp_mono; [apply force_free_phys; exact H |].
    intros [] s1 H1. apply IH. exact H1.
Qed.

Lemma active_erase_all_phys rs s :
  phys_state s -> wp (active_erase_all rs) (fun _ s' => phys_state s') s.
Proof.
  intros H. unfold active_erase_all. wp_steps.
  eapply phys_state_same; [| exact H]. same_phys.
Qed.

Lemma wrote_to_insert_phys r s :
  phys_state s -> wp (wrote_to_insert r) (fun _ s' => phys_state s') s.
Proof.
  intros H. unfold wrote_to_insert. wp_steps.
  eapply phys_state_same; [| exact H]. same_phys.
Qed.

Lemma emit_phys x s :
  phys_state s -> phys_inst x -> wp (emit x) (fun _ s' => phys_state s') s.
Proof. intros H Hx. wp_steps. apply phys_state_emit; assumption. Qed.

Lemma modify_same_phys f s :
  phys_state s -> same_phys s (f s) -> wp (modify f) (fun _ s' => phys_state s') s.
Proof. intros H Hf. wp_steps. eapply phys_state_same; eassumption. Qed.

(** One call of a function whose effect on [phys_state] is known. *)
Ltac wp_call :=
  cbv beta;
  lazymatch goal with
  | |- wp (bind _ _) _ _ => apply wp_bind
  | |- _ => idtac
  end;
  eapply wp_mono;
  [ first [ apply replace_read_phys | apply replace_read_op2_phys
          | apply replace_read_mem_phys | apply invalidate_read_phys
          | apply wrote_to_insert_phys | apply pre_replace_write_phys
          | apply replace_write_phys | apply emit_phys
          | apply commit_delayed_store_phys | apply force_free_phys
          | apply force_free_all_phys | apply active_erase_all_phys
          | apply bb_reset_block_phys ];
    try first [ eassumption | discriminate | exact I | solve [cbn; auto] ]
  | cbv beta;
    let a := fresh "a" in let s' := fresh "s" in let Hpost := fresh "Hpost" in
    intros a s' Hpost;
    lazymatch type of Hpost with
    | _ /\ _ => destruct Hpost as [? ?]
    | _ => idtac
    end;
    try assumption ].

Lemma swap_last_two_Forall (P : Inst -> Prop) l :
  Forall P l -> Forall P (swap_last_two l).
Proof.
  intros H. unfold swap_last_two.
  destruct (rev l) as [|a [|b r]] eqn:E; try assumption.
  assert (Hr : Forall P (rev l)) by (apply Forall_rev; exact H).
  rewrite E in Hr. inversion Hr as [|? ? Ha Hr']; subst.
  inversion Hr' as [|? ? Hb Hr'']; subst.
  apply Forall_app. split; [apply Forall_rev; assumption |].
  repeat constructor; assumption.
Qed.

Lemma rewrite_step_phys x i s :
  phys_state s -> untouched_phys x ->
  wp (rewrite_step TEMP_REGS GLOB_REGS x i) (fun _ s' => phys_state s') s.
Proof.
  intros H Hx. unfold rewrite_step.
  apply wp_bind, wp_modify.
  assert (H0 : phys_state (set_cur_cond (inst_cond x) s))
    by (eapply phys_state_same; [| exact H]; same_phys).
  clear H. revert H0. generalize (set_cur_cond (inst_cond x) s). clear s.
  intros s H.
  apply wp_bind.
  eapply wp_mono with (Q := fun _ s' => phys_state s');
    [| intros [] s1 H1; apply commit_delayed_store_phys; exact H1].
  destruct x; cbn in Hx.
  - (* PureInst *)
    wp_call. wp_call.
  - (* Arith2Inst *)
    case_bool_decide as Hmov.
    + do 6 wp_call.
    + case_bool_decide as Hmovt.
      * wp_call. wp_call. wp_call. wp_call; [intros p [= <-]; assumption |].
        wp_call. wp_call.
      * do 4 wp_call.
  - (* Arith3Inst *)
    do 7 wp_call.
  - (* Arith4Inst *)
    do 8 wp_call.
  - (* BrInst *)
    wp_call. wp_call.
    case_bool_decide as Hbl.
    + wp_step.
      eapply wp_mono; [apply modify_same_phys; [eassumption | same_phys] |].
      intros [] s2 H2. cbv beta.
      do 6 wp_call.
    + case_bool_decide as Hb.
      * wp_steps. destruct (bb_reset s1).
        -- wp_call. wp_call.
        -- wp_steps. apply phys_state_emit; [assumption | exact I].
      * wp_call.
  - (* LoadStoreInst *)
    apply wp_bind.
    eapply wp_mono with (Q := fun mem' s' => phys_state s' /\ phys_lsmem mem').
    { destruct mem as [l|m].
      - wp_steps. split; [assumption | exact I].
      - wp_call. wp_steps. auto. }
    intros mem' s1 [H1 Hmem]. cbv beta.
    case_bool_decide as Hld.
    + do 5 wp_call.
    + do 3 wp_call.
  - (* MultLoadStoreInst *)
    exact I.
  - (* PushPopInst *)
    wp_call. wp_call.
  - (* LabelInst *)
    wp_call. wp_call.
    wp_step. wp_step.
    match goal with
    | |- wp _ _ ?st =>
        assert (H2 : phys_state st)
    end.
    { match goal with |- phys_state (if ?b then _ else _) => destruct b end;
        [| assumption].
      phys_open. apply swap_last_two_Forall. assumption. }
    revert H2. match goal with |- phys_state ?st -> _ => generalize st end.
    intros s3 H3.
    destruct (size_t_truth _); wp_steps; [| assumption].
    eapply phys_state_same; [| exact H3]. same_phys.
  - (* CtrlInst *)
    apply wp_bind.
    eapply wp_mono with (Q := fun _ s' => phys_state s').
    { destruct (String.eqb key "offset_stack"); [| wp_steps; assumption].
      destruct val; [| exact I].
      apply modify_same_phys; [assumption | same_phys]. }
    intros [] s1 H1. cbv beta.
    wp_call. wp_call.
Qed.

Lemma rewrite_loop_phys insts : forall i s,
  phys_state s -> Forall untouched_phys insts ->
  wp (rewrite_loop TEMP_REGS GLOB_REGS insts i) (fun _ s' => phys_state s') s.
Proof.
  induction insts as [|x insts IH]; intros i s H Hin; cbn.
  - wp_steps. exact H.
  - inversion Hin; subst. wp_step.
    eapply wp_mono; [apply rewrite_step_phys; assumption |].
    intros [] s1 H1. apply IH; assumption.
Qed.

(** The analyses before the rewriting *)

Lemma map_Forall_insert_new (P : Z -> Z -> Prop) k v (m : gmap Z Z) :
  P k v -> map_Forall P m -> map_Forall P (map_insert_new k v m).
Proof.
  intros Hv Hm. unfold map_insert_new. destruct (m !! k) eqn:E; [exact Hm |].
  apply map_Forall_insert; auto.
Qed.

Lemma construct_step_phys color_map item s :
  phys_state s ->
  wp (construct_step GLOB_REGS color_map item) (fun _ s' => phys_state s') s.
Proof.
  intros H. unfold construct_step. destruct item as [var_id vreg_id].
  destruct (color_map !! var_id) as [color|]; [| wp_steps; exact H].
  destruct (negb (color =? -1)).
  - destruct (if 0 <=? color then GLOB_REGS !! Z.to_nat color else None) as [reg|] eqn:E;
      [| exact I].
    assert (Hreg : is_phys reg).
    { destruct (0 <=? color); [| discriminate].
      apply list_elem_of_lookup_2 in E. rewrite Forall_forall in GLOB_phys. auto. }
    wp_steps. phys_open.
    + apply map_Forall_insert_new; assumption.
    + apply Forall_sset_insert; assumption.
  - wp_steps. eapply phys_state_same; [| exact H]. same_phys.
Qed.

Lemma construct_reg_map_phys color_map mir_to_arm : forall s,
  phys_state s ->
  wp (construct_reg_map GLOB_REGS color_map mir_to_arm) (fun _ s' => phys_state s') s.
Proof.
  induction mir_to_arm as [|item rest IH]; intros s H; cbn.
  - wp_steps. exact H.
  - wp_step. eapply wp_mono; [apply construct_step_phys; exact H |].
    intros [] s1 H1. apply IH. exact H1.
Qed.

Lemma add_reg_use_phys reg point s :
  phys_state s -> phys_state (add_reg_use_in_bb_at_point_state reg point s).
Proof.
  intros H. unfold add_reg_use_in_bb_at_point_state.
  destruct (reg_map s !! reg) as [mapped|] eqn:E; [| exact H].
  assert (is_phys mapped) by (destruct H as (_ & Hmap & _); exact (Hmap _ _ E)).
  phys_open. apply Forall_sset_insert; assumption.
Qed.

Lemma add_reg_read_phys reg point s :
  phys_state s -> phys_state (add_reg_read_state reg point s).
Proof.
  intros H. unfold add_reg_read_state. apply add_reg_use_phys.
  eapply phys_state_same; [| exact H]. same_phys.
Qed.

Lemma add_reg_write_phys reg point s :
  phys_state s -> phys_state (add_reg_write_state reg point s).
Proof.
  intros H. unfold add_reg_write_state. apply add_reg_use_phys.
  eapply phys_state_same; [| exact H]. same_phys.
Qed.

Lemma add_reg_reads_phys regs point : forall s,
  phys_state s -> phys_state (add_reg_reads_state regs point s).
Proof.
  unfold add_reg_reads_state. induction regs as [|r regs IH]; intros s H; cbn; [exact H |].
  apply IH, add_reg_read_phys, H.
Qed.

Lemma add_reg_writes_phys regs point : forall s,
  phys_state s -> phys_state (add_reg_writes_state regs point s).
Proof.
  unfold add_reg_writes_state. induction regs as [|r regs IH]; intros s H; cbn; [exact H |].
  apply IH, add_reg_write_phys, H.
Qed.

Lemma add_reg_read_op2_phys o point s :
  phys_state s -> phys_state (add_reg_read_op2_state o point s).
Proof. intros H. destruct o; cbn; [apply add_reg_read_phys |]; exact H. Qed.

Lemma add_reg_read_mem_phys m point s :
  phys_state s -> phys_state (add_reg_read_mem_state m point s).
Proof.
  intros H. unfold add_reg_read_mem_state.
  destruct (mo_offset m); repeat apply add_reg_read_phys; exact H.
Qed.

Lemma live_step_phys x i s : phys_state s -> phys_state (live_step_state x i s).
Proof.
  intros H. destruct x; cbn [live_step_state]; try exact H.
  - apply add_reg_read_op2_phys.
    case_bool_decide; [| apply add_reg_read_phys; exact H].
    pose proof (add_reg_write_phys r1 i s H) as Hw.
    destruct r2 as [ro|v]; [| exact Hw].
    destruct (bool_decide (op = OpMov) && (ro_shift_amount ro =? 0)); [| exact Hw].
    destruct (negb (is_virtual_register r1) && negb (is_virtual_register (ro_reg ro)));
      [| exact Hw].
    eapply phys_state_same; [| exact Hw]. same_phys.
  - apply add_reg_write_phys, add_reg_read_op2_phys, add_reg_read_phys, H.
  - repeat first [apply add_reg_write_phys | apply add_reg_read_phys]. exact H.
  - case_bool_decide; [| exact H]. eapply phys_state_same; [| exact H]. same_phys.
  - assert (H1 : phys_state (if bool_decide (op = OpLdR) then add_reg_write_state rd i s
                             else add_reg_read_state rd i s))
      by (case_bool_decide; [apply add_reg_write_phys | apply add_reg_read_phys]; exact H).
    destruct mem; [exact H1 | apply add_reg_read_mem_phys; exact H1].
  - apply add_reg_read_phys.
    case_bool_decide; [apply add_reg_writes_phys | apply add_reg_reads_phys]; exact H.
  - case_bool_decide; [apply add_reg_writes_phys | apply add_reg_reads_phys]; exact H.
Qed.

Lemma live_loop_phys insts : forall i s,
  phys_state s -> phys_state (live_loop_state insts i s).
Proof.
  induction insts as [|x insts IH]; intros i s H; cbn; [exact H |].
  apply IH, live_step_phys, H.
Qed.

Lemma colour_conflict_state rev phys skip li (Q : bool -> State -> Prop) s :
  (forall b, Q b s) -> wp (colour_conflict rev phys skip li) Q s.
Proof.
  intros HQ. induction rev as [|[p vr] rev IH]; cbn.
  - wp_steps. auto.
  - destruct (negb (p =? phys)); [exact IH |].
    destruct (vr =? skip); [exact IH |].
    apply wp_bind. unfold wp at 1, map_at.
    destruct (live_intervals s !! vr) as [iv|]; cbn; [| exact I].
    destruct (overlaps iv li); [wp_steps; auto | exact IH].
Qed.

Lemma affinity_step_phys e s :
  phys_state s -> wp (affinity_step e) (fun _ s' => phys_state s') s.
Proof.
  intros H. unfold affinity_step. destruct e as [reg_dst reg_src].
  wp_steps. unfold id.
  assert (Hb2 : wp
    match reg_map s !! reg_dst with
    | Some phys =>
        if negb (has_key (reg_map s) reg_src) && negb (is_cross_block s reg_src)
        then
          let* li_src := map_at (live_intervals s) reg_src in
          let* ov := colour_conflict (reg_reverse_map s) phys reg_src li_src in
          if ov then ret tt
          else modify (fun s0 =>
                 set_reg_collapse (map_insert_new reg_src reg_dst (reg_collapse s0)) s0)
        else ret tt
    | None =>
        if negb (has_key (reg_map s) reg_src) && negb (is_cross_block s reg_src) &&
           negb (is_cross_block s reg_dst)
        then
          let* reg_src_ := get_collapse_reg reg_src in
          let* reg_dst_ := get_collapse_reg reg_dst in
          let* li_src := map_at (live_intervals s) reg_src_ in
          let* li_dst := map_at (live_intervals s) reg_dst_ in
          if overlaps li_src li_dst then ret tt
          else
            modify (fun s0 =>
              set_reg_collapse (map_insert_new reg_dst_ reg_src_ (reg_collapse s0))
                (set_live_intervals
                   (<[reg_src_ :=
                        add_ending_point (i_end li_dst)
                          (add_starting_point (i_start li_dst) li_src)]>
                      (live_intervals s0)) s0))
        else ret tt
    end (fun _ s' => phys_state s') s).
  { destruct (reg_map s !! reg_dst) as [phys|].
    - destruct (negb (has_key (reg_map s) reg_src) && negb (is_cross_block s reg_src));
        [| wp_steps; exact H].
      wp_steps. apply colour_conflict_state. intros ov.
      destruct ov; wp_steps; [exact H |].
      eapply phys_state_same; [| exact H]. same_phys.
    - destruct (negb (has_key (reg_map s) reg_src) && negb (is_cross_block s reg_src) &&
                negb (is_cross_block s reg_dst)); [| wp_steps; exact H].
      wp_steps. destruct (overlaps v v0); wp_steps; [exact H |].
      eapply phys_state_same; [| exact H]. same_phys. }
  destruct (reg_map s !! reg_src) as [phys|]; [| exact Hb2].
  destruct (negb (has_key (reg_map s) reg_dst) && negb (is_cross_block s reg_dst));
    [| exact Hb2].
  wp_steps. destruct (v =? 1); [| exact Hb2].
  wp_steps. apply colour_conflict_state. intros ov.
  destruct ov; wp_steps; [exact H |].
  eapply phys_state_same; [| exact H]. same_phys.
Qed.

Lemma affinity_loop_phys l : forall s,
  phys_state s -> wp (affinity_loop l) (fun _ s' => phys_state s') s.
Proof.
  induction l as [|e l IH]; intros s H; cbn.
  - wp_steps. exact H.
  - wp_step. eapply wp_mono; [apply affinity_step_phys; exact H |].
    intros [] s1 H1. apply IH. exact H1.
Qed.

Variable affine_order : list (Reg * Reg) -> list (Reg * Reg).

Lemma init_state_phys sz : phys_state (init_state sz).
Proof.
  unfold phys_state, init_state. cbn.
  split; [constructor |]. split; [apply map_Forall_empty |].
  split; [constructor |]. split; [discriminate |]. split; constructor.
Qed.

Lemma wp_as_state (m : M unit) (s s1 : State) (Q : unit -> State -> Prop) :
  as_state (m s) s1 -> Q tt s1 -> wp m Q s.
Proof. unfold wp. intros [-> | [w ->]] H; [exact H | exact I]. Qed.

Lemma allocate_phys f color_map mir_to_arm s :
  phys_state s -> Forall untouched_phys (f_inst f) ->
  wp (allocate TEMP_REGS GLOB_REGS affine_order f color_map mir_to_arm)
     (fun _ s' => phys_state s') s.
Proof.
  intros H Hin. unfold allocate.
  wp_step. eapply wp_mono; [apply construct_reg_map_phys; exact H |].
  intros [] s1 H1. cbv beta.
  wp_step.
  assert (H2 : phys_state (calc_live_intervals_state (f_inst f) s1))
    by (apply live_loop_phys; exact H1).
  eapply wp_as_state; [apply calc_live_intervals_returns |].
  wp_step. unfold calc_reg_affinity.
  eapply wp_mono with (Q := fun _ s' => phys_state s').
  { wp_steps. apply affinity_loop_phys. exact H2. }
  intros [] s3 H3.
  apply rewrite_loop_phys; assumption.
Qed.

End NoVirtual.
(** The patching of prologue and epilogue *)

Lemma update_at_phys n g l l' :
  (forall regs, Forall is_phys regs -> Forall is_phys (g regs)) ->
  Forall phys_inst l -> update_at n (with_regs g) l = Ok l' -> Forall phys_inst l'.
Proof.
  intros Hg Hl. unfold update_at.
  destruct (l !! n) as [x|] eqn:E; [| discriminate].
  destruct x; cbn; try discriminate.
  intros [= <-]. apply Forall_insert; [exact Hl |].
  cbn. apply Hg. rewrite Forall_forall in Hl.
  apply (Hl (PushPopInst op regs cond)). eapply list_elem_of_lookup_2. exact E.
Qed.

Lemma insert_at_phys n x l l' :
  Forall phys_inst l -> phys_inst x -> insert_at n x l = Ok l' -> Forall phys_inst l'.
Proof.
  intros Hl Hx. unfold insert_at. destruct (n <=? length l)%nat; [| discriminate].
  intros [= <-]. apply Forall_app. split; [apply Forall_take; exact Hl |].
  constructor; [exact Hx | apply Forall_drop; exact Hl].
Qed.

Lemma erase_at_phys n l l' :
  Forall phys_inst l -> erase_at n l = Ok l' -> Forall phys_inst l'.
Proof.
  intros Hl. unfold erase_at. destruct (n <? length l)%nat; [| discriminate].
  intros [= <-]. apply Forall_app. split; [apply Forall_take | apply Forall_drop]; exact Hl.
Qed.

Lemma Forall_sset_insert_all (P : Z -> Prop) xs l :
  Forall P xs -> Forall P l -> Forall P (sset_insert_all xs l).
Proof.
  unfold sset_insert_all. intros Hxs. revert l.
  induction Hxs as [|x xs Hx Hxs IH]; intros l Hl; cbn; [exact Hl |].
  apply IH. apply Forall_sset_insert; assumption.
Qed.

Lemma patch_lists_phys used used_temp ss usp inst inst' off :
  Forall is_phys used -> Forall is_phys used_temp -> Forall phys_inst inst ->
  patch_lists used used_temp ss usp inst = Ok (inst', off) -> Forall phys_inst inst'.
Proof.
  intros Hu Ht Hi. unfold patch_lists.
  assert (Hadd : forall regs, Forall is_phys regs ->
            Forall is_phys (sset_insert_all used_temp (sset_insert_all used regs)))
    by (intros regs Hr; repeat apply Forall_sset_insert_all; assumption).
  destruct (update_at 0 _ inst) as [i1| |] eqn:E1; cbn [rbind]; try discriminate.
  apply update_at_phys in E1; [| exact Hadd | exact Hi].
  destruct (update_at (length i1 - 1) _ i1) as [i2| |] eqn:E2; cbn [rbind]; try discriminate.
  apply update_at_phys in E2; [| exact Hadd | exact E1].
  destruct (front_regs i2) as [fr| |]; cbn [rbind]; try discriminate.
  destruct (negb usp && (ss =? 0)); cbn [rbind].
  - destruct (update_at 0 _ i2) as [i3| |] eqn:E3; cbn [rbind]; try discriminate.
    apply update_at_phys in E3; [| apply Forall_sset_erase | exact E2].
    destruct (update_at (length i3 - 1) _ i3) as [i4| |] eqn:E4; cbn [rbind];
      try discriminate.
    apply update_at_phys in E4; [| apply Forall_sset_erase | exact E3].
    intros [= <- _]. exact E4.
  - intros [= <- _]. exact E2.
Qed.

Lemma phys_frame_insts off ss :
  phys_inst (add_fp off) /\ phys_inst (sub_fp off) /\ phys_inst (sub_sp_imm ss) /\
  phys_inst (mov_ip_imm ss) /\ phys_inst sub_sp_ip.
Proof. cbn. unfold is_phys, REG_FP, REG_SP. repeat split; lia. Qed.

Lemma patch_prologue_phys ss usp off inst inst' :
  Forall phys_inst inst ->
  patch_prologue ss usp off inst = Ok inst' -> Forall phys_inst inst'.
Proof.
  intros Hi. unfold patch_prologue.
  destruct (phys_frame_insts off ss) as (Hadd & _ & Hsub & Hmov & Hip).
  assert (H1 : forall i1, (if usp then insert_at 2 (add_fp off) inst else Ok inst) = Ok i1 ->
                          Forall phys_inst i1).
  { intros i1. destruct usp; [apply insert_at_phys; assumption | intros [= <-]; exact Hi]. }
  destruct (if usp then insert_at 2 (add_fp off) inst else Ok inst) as [i1| |];
    cbn [rbind]; try discriminate.
  specialize (H1 i1 eq_refl).
  destruct (ss =? 0).
  - destruct (negb usp); [apply erase_at_phys; exact H1 | intros [= <-]; exact H1].
  - destruct (ss <? 1024); [apply insert_at_phys; assumption |].
    destruct (insert_at 2 (mov_ip_imm ss) i1) as [i2| |] eqn:E2; cbn [rbind];
      try discriminate.
    apply insert_at_phys in E2; [| exact H1 | exact Hmov].
    apply insert_at_phys; assumption.
Qed.

Lemma patch_epilogue_phys ss usp off inst inst' :
  Forall phys_inst inst ->
  patch_epilogue ss usp off inst = Ok inst' -> Forall phys_inst inst'.
Proof.
  intros Hi. unfold patch_epilogue.
  destruct (phys_frame_insts off ss) as (_ & Hsub & _).
  assert (H1 : forall i1,
            (if ss =? 0 then rbind (from_end 2 inst) (fun n => erase_at n inst)
             else Ok inst) = Ok i1 -> Forall phys_inst i1).
  { intros i1. destruct (ss =? 0); [| intros [= <-]; exact Hi].
    destruct (from_end 2 inst); cbn [rbind]; try discriminate.
    apply erase_at_phys; exact Hi. }
  destruct (if ss =? 0 then _ else _) as [i1| |]; cbn [rbind]; try discriminate.
  specialize (H1 i1 eq_refl).
  destruct usp; [| intros [= <-]; exact H1].
  destruct (from_end 2 i1); cbn [rbind]; try discriminate.
  apply insert_at_phys; assumption.
Qed.

Lemma drop_empty_lists_phys inst inst' :
  Forall phys_inst inst ->
  drop_empty_lists inst = Ok inst' -> Forall phys_inst inst'.
Proof.
  intros Hi. unfold drop_empty_lists.
  destruct (front_regs inst) as [fr| |]; cbn [rbind]; try discriminate.
  destruct (back_regs inst) as [br| |]; cbn [rbind]; try discriminate.
  assert (H1 : forall i1,
            match fr with [] => erase_at 0 inst | _ => Ok inst end = Ok i1 ->
            Forall phys_inst i1).
  { intros i1. destruct fr; [apply erase_at_phys; exact Hi | intros [= <-]; exact Hi]. }
  destruct (match fr with [] => erase_at 0 inst | _ => Ok inst end) as [i1| |];
    cbn [rbind]; try discriminate.
  specialize (H1 i1 eq_refl).
  destruct br; [| intros [= <-]; exact H1].
  destruct (from_end 1 i1); cbn [rbind]; try discriminate.
  apply erase_at_phys; exact H1.
Qed.

Lemma patch_frame_phys used used_temp ss usp inst inst' :
  Forall is_phys used -> Forall is_phys used_temp -> Forall phys_inst inst ->
  patch_frame used used_temp ss usp inst = Ok inst' -> Forall phys_inst inst'.
Proof.
  intros Hu Ht Hi. unfold patch_frame.
  destruct (patch_lists used used_temp ss usp inst) as [[i1 off]| |] eqn:E1;
    cbn [rbind]; try discriminate.
  apply patch_lists_phys in E1; try assumption.
  destruct (patch_prologue ss usp off i1) as [i2| |] eqn:E2; cbn [rbind]; try discriminate.
  apply patch_prologue_phys in E2; [| exact E1].
  destruct (patch_epilogue ss usp off i2) as [i3| |] eqn:E3; cbn [rbind]; try discriminate.
  apply patch_epilogue_phys in E3; [| exact E2].
  apply drop_empty_lists_phys; exact E3.
Qed.

(** C1, the claim as stated fails: the rewriting passes the register list
    of a [push] on as it is, so the virtual register [v64] of
    [push {v64}] is an operand of the output. *)
Lemma push_virtual_counterexample :
  exists out s,
    run_alloc_regs push_virtual_function ∅ [] = Ok (out, s) /\
    PushPopInst OpPush [64] Always ∈ out /\
    is_virtual_register 64 = true /\
    ~ Forall phys_inst out.
Proof.
  eexists _, _. split; [vm_compute; reflexivity |].
  assert (Hin : PushPopInst OpPush [64] Always ∈
                [PushPopInst OpPush [14] Always; Arith2Inst OpMov 0 (O2Imm 1) Always;
                 PushPopInst OpPush [64] Always; PushPopInst OpPop [15] Always]).
  { right. right. left. }
  split; [exact Hin |]. split; [reflexivity |].
  intros Hall. rewrite Forall_forall in Hall. specialize (Hall _ Hin).
  cbn in Hall. inversion Hall as [|? ? Hv _]; subst. unfold is_phys in Hv. lia.
Qed.

Section NoVirtualOperands.

Variable TEMP_REGS GLOB_REGS : list Reg.
Variable affine_order : list (Reg * Reg) -> list (Reg * Reg).
Hypothesis TEMP_phys : Forall is_phys TEMP_REGS.
Hypothesis GLOB_phys : Forall is_phys GLOB_REGS.

(** C1 (amended): provided the register lists of the [push] and [pop]
    instructions of the input hold physical registers only and no [movt]
    of the input has a virtual register as its second operand (the
    rewriting leaves these operands as they are), whenever the allocator
    returns, every register operand of every instruction of the output is a
    physical register (id < 64). *)
Theorem no_virtual_operands (f : Function) (color_map : gmap Z Z)
    (mir_to_arm : list (Z * Reg)) (out : list Inst) (s : State) :
  Forall untouched_phys (f_inst f) ->
  alloc_regs TEMP_REGS GLOB_REGS affine_order f color_map mir_to_arm = Ok (out, s) ->
  Forall phys_inst out.
Proof.
  intros Hin. unfold alloc_regs.
  pose proof (allocate_phys TEMP_REGS GLOB_REGS TEMP_phys GLOB_phys affine_order
                f color_map mir_to_arm _ (init_state_phys (f_stack_size f)) Hin) as Hwp.
  unfold wp in Hwp.
  destruct (allocate TEMP_REGS GLOB_REGS affine_order f color_map mir_to_arm
              (init_state (f_stack_size f))) as [[[] s1]| |]; try discriminate.
  destruct Hwp as (_ & _ & Hsink & _ & Hused & Htemp).
  destruct (patch_frame _ _ _ _ _) as [inst| |] eqn:Ep; cbn [rbind]; try discriminate.
  intros [= <- <-].
  exact (patch_frame_phys _ _ _ _ _ _ Hused Htemp Hsink Ep).
Qed.

End NoVirtualOperands.

Lemma no_virtual_operands_witness :
  exists out s,
    run_alloc_regs dup_store_function {[ 1 := -1 ]} [(1, 64)] = Ok (out, s) /\
    Forall phys_inst out.
Proof.
  assert (Hrun : exists out s,
            run_alloc_regs dup_store_function {[ 1 := -1 ]} [(1, 64)] = Ok (out, s))
    by (eexists _, _; vm_compute; reflexivity).
  destruct Hrun as (out & s & Hrun).
  exists out, s. split; [exact Hrun |].
  refine (no_virtual_operands TEMP_REGS_arm GLOB_REGS_arm (fun l => l) _ _
            dup_store_function {[ 1 := -1 ]} [(1, 64)] out s _ Hrun).
  - repeat constructor; unfold is_phys; lia.
  - repeat constructor; unfold is_phys; lia.
  - repeat constructor; unfold is_phys, REG_FP, REG_LR, REG_PC; try lia; discriminate.
Defined.
(** * Properties of the instruction model (arm.cpp) *)

(** ** Register kinds and numbers *)

(** X1: The kind and the number of a register determine the register:
    [register_type] and [register_num] together lose no information. *)
Theorem register_kind_num_inj (r r' : Reg) :
  register_type r = register_type r' ->
  register_num r = register_num r' ->
  r = r'.
Proof.
  unfold register_type, register_num.
  repeat match goal with
         | |- context [?a <? ?b] => destruct (Z.ltb_spec a b)
         end; intros Hk Hn; try discriminate Hk; lia.
Qed.

Lemma register_kind_num_inj_witness : (17 : Z) = 17.
Proof. apply (register_kind_num_inj 17 17); reflexivity. Defined.

(** ** Condition codes *)

(** X2: [invert_cond] is an involution, and [Always] is the only condition
    it leaves in place. *)
Theorem invert_cond_involutive (c : ConditionCode) :
  invert_cond (invert_cond c) = c /\ (invert_cond c = c <-> c = Always).
Proof. destruct c; cbn; (split; [reflexivity | split; intros H; congruence]). Qed.

(** X3: [reverse_cond] is an involution, it commutes with [invert_cond], and
    it leaves exactly the conditions in place that do not order two
    operands. *)
Theorem reverse_cond_involutive (c : ConditionCode) :
  reverse_cond (reverse_cond c) = c /\
  reverse_cond (invert_cond c) = invert_cond (reverse_cond c) /\
  (reverse_cond c = c <->
   c ∉ [UnsignedGe; UnsignedLe; UnsignedGt; UnsignedLt; Ge; Lt; Gt; Le]).
Proof.
  destruct c; cbn; (split; [reflexivity | split; [reflexivity |]]);
    (split; [ intros H; try discriminate H; intros Hin;
              repeat (apply elem_of_cons in Hin as [Hin|Hin]; [discriminate Hin |]);
              inversion Hin
            | intros Hn; try reflexivity; exfalso; apply Hn;
              repeat first [ left; reflexivity | right ] ]).
Qed.

(** X4: Distinct condition codes are written as distinct suffixes. *)
Theorem display_cond_inj (c c' : ConditionCode) :
  display_cond c = display_cond c' -> c = c'.
Proof. destruct c, c'; cbn; intros H; first [reflexivity | discriminate H]. Qed.

Lemma display_cond_inj_witness : Ge = Ge.
Proof. apply (display_cond_inj Ge Ge); reflexivity. Defined.

(** ** Decimal output *)

Lemma digits_cons c s : is_digit c = true -> (s = EmptyString \/ digits s = true) ->
  digits (String c s) = true.
Proof. intros Hc [-> | Hs]; cbn; [exact Hc |]. destruct s; [exact Hc |]. rewrite Hc. exact Hs. Qed.

Lemma pretty_N_char_digit x : is_digit (pretty_N_char x) = true.
Proof. unfold pretty_N_char. repeat case_match; reflexivity. Qed.

Lemma pretty_N_go_digits x : forall s,
  (s = EmptyString \/ digits s = true) -> (0 < x)%N -> digits (pretty_N_go x s) = true.
Proof.
  induction (N.lt_wf_0 x) as [x _ IH]. intros s Hs Hx.
  rewrite pretty_N_go_step by exact Hx.
  pose proof (digits_cons _ _ (pretty_N_char_digit (x `mod` 10)%N) Hs) as Hd.
  destruct (decide (x `div` 10 = 0)%N) as [-> | Hne].
  - rewrite pretty_N_go_0. exact Hd.
  - apply IH; [apply N.div_lt; lia | right; exact Hd | apply N.neq_0_lt_0; exact Hne].
Qed.

Lemma pretty_Z_digits (n : Z) : 0 <= n -> digits (pretty n) = true.
Proof.
  intros Hn. destruct n as [|p|p]; [reflexivity | | lia].
  unfold pretty, pretty_Z, pretty, pretty_positive, pretty, pretty_N.
  rewrite decide_False by discriminate.
  apply pretty_N_go_digits; [left; reflexivity | lia].
Qed.

Lemma digits_head s : digits s = true ->
  exists c s', s = String c s' /\ is_digit c = true.
Proof.
  destruct s as [|c s']; [discriminate |]. intros H. exists c, s'. split; [reflexivity |].
  cbn in H. destruct s'; [exact H |]. apply andb_true_iff in H as [H _]. exact H.
Qed.

(** ** Register names *)

Lemma display_reg_name_cases r :
  0 <= r ->
  (r = 13 /\ display_reg_name r = "sp") \/
  (r = 14 /\ display_reg_name r = "lr") \/
  (r = 15 /\ display_reg_name r = "pc") \/
  exists pre c rest,
    display_reg_name r = pre +:+ String c rest /\
    String c rest = pretty (register_num r) /\ is_digit c = true /\
    ((pre = "r" /\ register_type r = GeneralPurpose) \/
     (pre = "d" /\ register_type r = DoubleVector) \/
     (pre = "q" /\ register_type r = QuadVector) \/
     (pre = "v" /\ register_type r = VirtualGeneralPurpose) \/
     (pre = "vd" /\ register_type r = VirtualDoubleVector) \/
     (pre = "vq" /\ register_type r = VirtualQuadVector)).
Proof.
  intros Hr. unfold display_reg_name, REG_SP, REG_LR, REG_PC.
  destruct (Z.eqb_spec r 13) as [-> | H13]; [left; split; reflexivity |].
  destruct (Z.eqb_spec r 14) as [-> | H14]; [right; left; split; reflexivity |].
  destruct (Z.eqb_spec r 15) as [-> | H15]; [right; right; left; split; reflexivity |].
  right. right. right.
  assert (Hnum : 0 <= register_num r).
  { unfold register_num.
    repeat match goal with
           | |- context [?a <? ?b] => destruct (Z.ltb_spec a b)
           end; lia. }
  destruct (digits_head _ (pretty_Z_digits _ Hnum)) as (c & rest & E & Hc).
  rewrite E.
  destruct (register_type r);
    [ exists "r" | exists "d" | exists "q" | exists "v" | exists "vd" | exists "vq" ];
    exists c, rest; (split; [reflexivity |]); (split; [reflexivity |]);
    (split; [exact Hc |]); tauto.
Qed.

(** X5: Distinct registers have distinct names. *)
Theorem display_reg_name_inj (r r' : Reg) :
  0 <= r -> 0 <= r' ->
  display_reg_name r = display_reg_name r' -> r = r'.
Proof.
  intros Hr Hr' E.
  destruct (display_reg_name_cases r Hr)
    as [[-> E1] | [[-> E1] | [[-> E1] | (pre & c & rest & E1 & Ep & Hc & Hk)]]];
  destruct (display_reg_name_cases r' Hr')
    as [[-> E2] | [[-> E2] | [[-> E2] | (pre' & c' & rest' & E2 & Ep' & Hc' & Hk')]]];
  try reflexivity; rewrite E1, E2 in E; try discriminate E.
  - decompose [and or] Hk'; subst pre'; cbn in E; discriminate E.
  - decompose [and or] Hk'; subst pre'; cbn in E; discriminate E.
  - decompose [and or] Hk'; subst pre'; cbn in E; discriminate E.
  - decompose [and or] Hk; subst pre; cbn in E; discriminate E.
  - decompose [and or] Hk; subst pre; cbn in E; discriminate E.
  - decompose [and or] Hk; subst pre; cbn in E; discriminate E.
  - assert (Hsame : register_type r = register_type r' /\ String c rest = String c' rest').
    { decompose [and or] Hk; decompose [and or] Hk'; subst pre pre';
        unfold String.append in E; try discriminate E;
        try (injection E as -> ->; split; [congruence | reflexivity]);
        exfalso; injection E as E; subst; discriminate. }
    destruct Hsame as [Hty Hs]. rewrite Ep, Ep' in Hs.
    apply (inj pretty) in Hs.
    unfold register_type, register_num in *.
    repeat match goal with
           | H : context [?a <? ?b] |- _ => destruct (Z.ltb_spec a b)
           end; try discriminate Hty; lia.
Qed.

Lemma display_reg_name_inj_witness : (70 : Z) = 70.
Proof. apply (display_reg_name_inj 70 70); [lia | lia | reflexivity]. Defined.

(** ** Block labels *)

Lemma list_ascii_of_string_app a b :
  list_ascii_of_string (a +:+ b) = list_ascii_of_string a ++ list_ascii_of_string b.
Proof.
  induction a as [|c a IH]; [reflexivity |].
  change (String c a +:+ b) with (String c (a +:+ b)). cbn. f_equal. exact IH.
Qed.

Lemma digits_Forall s :
  digits s = true -> Forall (fun c => is_digit c = true) (list_ascii_of_string s).
Proof.
  induction s as [|c s IH]; [discriminate |]. intros H. cbn in H.
  destruct s as [|c' s'].
  - repeat constructor. exact H.
  - apply andb_true_iff in H as [Hc Hs]. constructor; [exact Hc | apply IH; exact Hs].
Qed.

(** Two lists that end in a run of [D]-elements preceded by the same
    non-[D] element agree on the run and on what precedes it. *)
Lemma split_at_last {A} (D : A -> Prop) (x : A) (a b t1 t2 : list A) :
  ~ D x -> Forall D a -> Forall D b ->
  t1 ++ x :: a = t2 ++ x :: b -> t1 = t2 /\ a = b.
Proof.
  intros Hx Ha Hb E.
  assert (Hrev : rev a ++ x :: rev t1 = rev b ++ x :: rev t2).
  { apply (f_equal (@rev A)) in E. rewrite !rev_app_distr in E. cbn in E.
    rewrite <- !app_assoc in E. exact E. }
  assert (Hgen : forall u v w1 w2, Forall D u -> Forall D v ->
            u ++ x :: w1 = v ++ x :: w2 -> u = v /\ w1 = w2).
  { clear -Hx. induction u as [|y u IH]; intros [|z v] w1 w2 Hu Hv E'; cbn in E'.
    - injection E' as ->. split; reflexivity.
    - injection E' as <- _. inversion Hv; subst. contradiction.
    - injection E' as -> _. inversion Hu; subst. contradiction.
    - injection E' as -> E'. inversion Hu; inversion Hv; subst.
      destruct (IH v w1 w2) as [-> ->]; try assumption. split; reflexivity. }
  destruct (Hgen (rev a) (rev b) (rev t1) (rev t2)) as [E1 E2];
    [apply Forall_rev; exact Ha | apply Forall_rev; exact Hb | exact Hrev |].
  apply (f_equal (@rev A)) in E1, E2. rewrite !rev_involutive in E1, E2.
  split; assumption.
Qed.

(** X6: Distinct pairs of a function name and a block number have distinct
    labels, whatever the names of the functions are. *)
Theorem format_bb_name_inj (f f' : string) (b b' : Z) :
  0 <= b -> 0 <= b' ->
  format_bb_name f b = format_bb_name f' b' ->
  f = f' /\ b = b'.
Proof.
  intros Hb Hb' E. unfold format_bb_name in E.
  apply (f_equal list_ascii_of_string) in E.
  rewrite !list_ascii_of_string_app in E.
  change (list_ascii_of_string "_$bb") with (["_"; "$"; "b"]%char ++ ["b"%char]) in E.
  rewrite <- !app_assoc in E. rewrite !(app_assoc _ ["_"; "$"; "b"]%char) in E. cbn in E.
  apply (split_at_last (fun c => is_digit c = true)) in E;
    [| cbn; discriminate
     | apply digits_Forall, pretty_Z_digits; exact Hb
     | apply digits_Forall, pretty_Z_digits; exact Hb' ].
  destruct E as [E1 E2].
  apply app_inv_tail in E1.
  apply (f_equal string_of_list_ascii) in E1, E2.
  rewrite !string_of_list_ascii_of_string in E1, E2.
  split; [exact E1 | apply (inj pretty); exact E2].
Qed.

Lemma format_bb_name_inj_witness : "main"%string = "main"%string /\ (3 : Z) = 3.
Proof. apply (format_bb_name_inj "main" "main" 3 3); [lia | lia | reflexivity]. Defined.

(** ** Immediates *)

Lemma lowest_bit_decomp (v : Z) :
  0 < v -> exists k m, 0 <= k /\ 0 <= m /\ v = 2 ^ k * (2 * m + 1).
Proof.
  destruct v as [|p|p]; try lia. intros _.
  induction p as [p IH | p IH |].
  - exists 0, (Z.pos p). repeat split; lia.
  - destruct IH as (k & m & Hk & Hm & E). exists (k + 1), m.
    repeat split; try lia. rewrite Z.pow_add_r by lia.
    change (Z.pos p~0) with (2 * Z.pos p). rewrite E. ring.
  - exists 0, 0. repeat split; lia.
Qed.

Lemma odd_opp (m : Z) : - (2 * m + 1) = 2 * Z.lnot m + 1.
Proof. unfold Z.lnot. lia. Qed.

Lemma land_opp_lowest (k m : Z) :
  0 <= k < 32 -> 0 <= m ->
  Z.land (2 ^ k * (2 * m + 1)) ((- (2 ^ k * (2 * m + 1))) mod 4294967296) = 2 ^ k.
Proof.
  intros Hk Hm. apply Z.bits_inj'. intros n Hn.
  rewrite Z.land_spec, Z.pow2_bits_eqb by lia.
  replace (- (2 ^ k * (2 * m + 1))) with ((2 * Z.lnot m + 1) * 2 ^ k)
    by (rewrite <- odd_opp; ring).
  replace (2 ^ k * (2 * m + 1)) with ((2 * m + 1) * 2 ^ k) by ring.
  change 4294967296 with (2 ^ 32).
  destruct (Z.lt_trichotomy n k) as [Hlt | [-> | Hgt]].
  - rewrite Z.mul_pow2_bits_low by lia.
    destruct (Z.eqb_spec k n); [lia | reflexivity].
  - rewrite Z.mod_pow2_bits_low by lia.
    rewrite !Z.mul_pow2_bits by lia. rewrite Z.sub_diag, !Z.testbit_odd_0.
    rewrite Z.eqb_refl. reflexivity.
  - destruct (Z.eqb_spec k n); [lia |].
    destruct (Z_lt_le_dec n 32) as [Hn32 | Hn32].
    + rewrite Z.mod_pow2_bits_low by lia.
      rewrite !Z.mul_pow2_bits by lia.
      replace (n - k) with (Z.succ (n - k - 1)) by lia.
      rewrite !Z.testbit_odd_succ by lia.
      rewrite Z.lnot_spec by lia. apply andb_negb_r.
    + rewrite Z.mod_pow2_bits_high by lia. apply andb_false_r.
Qed.

Lemma rotation_test_false (v : Z) :
  0 < v < 4294967296 -> v mod 2147483648 <> 0 -> rotation_test v = Ok false.
Proof.
  intros Hv Hmod.
  destruct (lowest_bit_decomp v) as (k & m & Hk & Hm & E); [lia |].
  assert (Hk30 : k <= 30).
  { destruct (Z_le_gt_dec k 30) as [H | H]; [exact H | exfalso; apply Hmod].
    rewrite E. replace k with (31 + (k - 31)) by lia.
    rewrite Z.pow_add_r by lia. change (2 ^ 31) with 2147483648.
    rewrite <- !Z.mul_assoc, Z.mul_comm. apply Z.mod_mul. lia. }
  assert (Hlow : Z.land v ((- v) mod 4294967296) = 2 ^ k)
    by (rewrite E; apply land_opp_lowest; lia).
  unfold rotation_test. cbv zeta. rewrite !Hlow.
  assert (Hpos : 0 < 2 ^ k) by (apply Z.pow_pos_nonneg; lia).
  destruct (Z.eqb_spec (2 ^ k) 0); [lia |].
  rewrite Z.log2_pow2 by lia.
  destruct (Z.leb_spec 32 (k + 1)); [lia |].
  f_equal. apply andb_false_iff. left. apply Z.eqb_neq. intros Hz.
  apply (f_equal (fun x => Z.testbit x k)) in Hz.
  rewrite Z.land_spec, Z.bits_0 in Hz.
  change 4294967296 with (2 ^ 32) in Hz.
  rewrite Z.mod_pow2_bits_low in Hz by lia.
  rewrite Z.lnot_spec, Z.shiftl_spec_low in Hz by lia.
  rewrite E in Hz. replace (2 ^ k * (2 * m + 1)) with ((2 * m + 1) * 2 ^ k) in Hz by ring.
  rewrite Z.mul_pow2_bits, Z.sub_diag, Z.testbit_odd_0 in Hz by lia.
  discriminate Hz.
Qed.

(** X7: [is_valid_immediate] accepts the values up to 255 and no others: the
    mask [0xff << highest_bit] starts one bit above the lowest set bit of
    the value, so this bit always survives the test.  For values above
    0xffffff what is used of [rotl32] is that its result is a 32-bit word
    whose low byte is the high byte of the argument. *)
Theorem is_valid_immediate_small_only (rotl32 : Z -> Z -> Z) (val : Z) :
  0 <= val < 4294967296 ->
  (16777215 < val ->
   0 <= rotl32 val 8 < 4294967296 /\ rotl32 val 8 mod 256 = val / 16777216) ->
  is_valid_immediate rotl32 val = Ok (val <=? 255).
Proof.
  intros Hval Hrot. unfold is_valid_immediate.
  destruct (Z.leb_spec val 255) as [Hs | Hs]; [reflexivity |].
  destruct (Z.leb_spec val 16777215) as [Hm | Hm].
  - apply rotation_test_false; [lia |].
    rewrite Z.mod_small by lia. lia.
  - destruct (Hrot Hm) as [Hrange Hlow].
    assert (Hq : 1 <= val / 16777216) by (apply Z.div_le_lower_bound; lia).
    apply rotation_test_false.
    + assert (rotl32 val 8 <> 0) by (intros E0; rewrite E0, Zmod_0_l in Hlow; lia).
      lia.
    + intros E0.
      assert (Hd : rotl32 val 8 = 2147483648 * (rotl32 val 8 / 2147483648))
        by (pose proof (Z.div_mod (rotl32 val 8) 2147483648); lia).
      rewrite Hd in Hlow.
      replace (2147483648 * (rotl32 val 8 / 2147483648))
        with ((8388608 * (rotl32 val 8 / 2147483648)) * 256) in Hlow by ring.
      rewrite Z.mod_mul in Hlow by lia. lia.
Qed.

Lemma is_valid_immediate_small_only_witness :
  is_valid_immediate rotl32_word 4278190080 = Ok false.
Proof.
  apply (is_valid_immediate_small_only rotl32_word 4278190080); [lia |].
  intros _. vm_compute. split; [split; [discriminate | reflexivity] | reflexivity].
Defined.

(** ** Constant data *)

Lemma append_assoc (a b c : string) : (a +:+ b) +:+ c = a +:+ b +:+ c.
Proof.
  induction a as [|x a IH]; [reflexivity |].
  change (String x a +:+ b) with (String x (a +:+ b)).
  change (String x (a +:+ b) +:+ c) with (String x ((a +:+ b) +:+ c)).
  rewrite IH. reflexivity.
Qed.

Lemma append_nil_r (a : string) : a +:+ EmptyString = a.
Proof.
  induction a as [|x a IH]; [reflexivity |].
  change (String x a +:+ EmptyString) with (String x (a +:+ EmptyString)).
  rewrite IH. reflexivity.
Qed.

Lemma words_step_same o w c j :
  fold_left words_step (replicate j w) (mkWordsLoop o w c false)
  = mkWordsLoop o w (c + Z.of_nat j) false.
Proof.
  revert c. induction j as [|j IH]; intros c; cbn [replicate fold_left].
  - f_equal. lia.
  - assert (Hstep : words_step (mkWordsLoop o w c false) w = mkWordsLoop o w (c + 1) false)
      by (unfold words_step; rewrite Z.eqb_refl; reflexivity).
    rewrite Hstep, IH. f_equal. lia.
Qed.

Lemma words_step_last st y : wl_last (words_step st y) = y.
Proof.
  destruct st as [o l c n]. unfold words_step.
  destruct n; destruct (y =? l); try reflexivity.
  destruct (c >? 1); reflexivity.
Qed.

Lemma fold_words_last rest : forall st,
  wl_last (fold_left words_step rest st) = default (wl_last st) (last rest).
Proof.
  induction rest as [|y rest IH]; intros st; [reflexivity |].
  cbn [fold_left]. rewrite IH, words_step_last, last_cons.
  destruct (last rest); reflexivity.
Qed.

(** X8: A vector of [n >= 2] equal words is written as one [.fill] directive
    of [n] words, followed by a second one for the missing words when the
    declared length is larger than [n]. *)
Theorem display_words_constant (len : option Z) (w : Z) (n : nat) :
  (2 <= n)%nat ->
  display_words len (replicate n w) =
    Ok (endl +:+ fill_line (Z.of_nat n) w +:+
        match len with
        | Some m => if Z.of_nat n <? m then fill_line (m - Z.of_nat n) w else EmptyString
        | None => EmptyString
        end).
Proof.
  intros Hn. destruct n as [|[|n]]; [lia | lia |]. cbn [replicate]. unfold display_words.
  cbn [fold_left].
  assert (Hstep : words_step (mkWordsLoop EmptyString w 1 true) w
                  = mkWordsLoop EmptyString w 2 false)
    by (unfold words_step; rewrite Z.eqb_refl; reflexivity).
  rewrite Hstep, words_step_same. cbn [wl_repeat_count wl_out wl_last].
  destruct (Z.gtb_spec (2 + Z.of_nat n) 1) as [_ | H]; [| lia].
  rewrite !length_cons, length_replicate.
  replace (2 + Z.of_nat n) with (Z.of_nat (S (S n))) by lia.
  unfold fill_line. f_equal.
  change (EmptyString +:+ ?x) with x.
  destruct len as [m|].
  - destruct (Z.of_nat (S (S n)) <? m).
    + rewrite !append_assoc. reflexivity.
    + rewrite !append_assoc. reflexivity.
  - rewrite !append_assoc. reflexivity.
Qed.

Lemma display_words_constant_witness :
  display_words (Some 5) [7; 7; 7] =
    Ok (endl +:+ fill_line 3 7 +:+ fill_line 2 7).
Proof. apply (display_words_constant (Some 5) 7 3). lia. Defined.

Lemma words_step_distinct rest : forall o last,
  adjacent_distinct (last :: rest) = true ->
  let st := fold_left words_step rest (mkWordsLoop o last 1 false) in
  wl_out st +:+ ", " +:+ pretty (wl_last st) = o +:+ comma_words (last :: rest) /\
  wl_repeat_count st = 1.
Proof.
  induction rest as [|y rest IH]; intros o last Hd.
  - cbn. split; [| reflexivity].
    unfold comma_words. cbn [fold_right]. rewrite append_nil_r. reflexivity.
  - cbn [adjacent_distinct] in Hd. apply andb_true_iff in Hd as [Hne Hd].
    rewrite Z.eqb_sym in Hne. apply negb_true_iff in Hne.
    assert (Hstep : words_step (mkWordsLoop o last 1 false) y
                    = mkWordsLoop (o +:+ ", " +:+ pretty last) y 1 false)
      by (unfold words_step; rewrite Hne; reflexivity).
    cbn [fold_left]. rewrite Hstep.
    destruct (IH (o +:+ ", " +:+ pretty last) y Hd) as (E1 & E2).
    cbv zeta in E1, E2. cbv zeta.
    split.
    + rewrite E1. unfold comma_words. cbn [fold_right].
      rewrite !append_assoc. reflexivity.
    + exact E2.
Qed.

(** X9: A vector of at least two words of which no two neighbours are equal
    is written as one [.word] directive that lists all its words in
    order, followed by a [.fill] of the last word for the missing words
    when the declared length is larger than the vector. *)
Theorem display_words_distinct (len : option Z) (x0 x1 : Z) (rest : list Z) :
  adjacent_distinct (x0 :: x1 :: rest) = true ->
  display_words len (x0 :: x1 :: rest) =
    Ok (endl +:+ tab +:+ ".word " +:+ pretty x0 +:+ comma_words (x1 :: rest) +:+ endl +:+
        match len with
        | Some m =>
            if Z.of_nat (length (x0 :: x1 :: rest)) <? m
            then fill_line (m - Z.of_nat (length (x0 :: x1 :: rest)))
                   (default x1 (last rest))
            else EmptyString
        | None => EmptyString
        end).
Proof.
  intros Hd. cbn [adjacent_distinct] in Hd.
  apply andb_true_iff in Hd as [Hne Hd].
  rewrite Z.eqb_sym in Hne. apply negb_true_iff in Hne.
  assert (Hstep : words_step (mkWordsLoop EmptyString x0 1 true) x1
                  = mkWordsLoop (EmptyString +:+ endl +:+ tab +:+ ".word " +:+ pretty x0)
                      x1 1 false)
    by (unfold words_step; rewrite Hne; reflexivity).
  unfold display_words. cbn [fold_left]. rewrite Hstep.
  destruct (words_step_distinct rest
              (EmptyString +:+ endl +:+ tab +:+ ".word " +:+ pretty x0) x1 Hd)
    as (E1 & E2).
  cbv zeta in E1, E2. rewrite E2. change (1 >? 1) with false. cbv iota.
  pose proof (fold_words_last rest
                (mkWordsLoop (EmptyString +:+ endl +:+ tab +:+ ".word " +:+ pretty x0)
                   x1 1 false)) as Hl.
  cbn [wl_last] in Hl. rewrite <- Hl.
  f_equal.
  assert (Hre : forall a b c d, a +:+ b +:+ c +:+ d = (a +:+ b +:+ c) +:+ d)
    by (intros; rewrite !append_assoc; reflexivity).
  assert (Hbase : wl_out (fold_left words_step rest
                     (mkWordsLoop (EmptyString +:+ endl +:+ tab +:+ ".word " +:+ pretty x0)
                        x1 1 false)) +:+ ", " +:+
                  pretty (wl_last (fold_left words_step rest
                     (mkWordsLoop (EmptyString +:+ endl +:+ tab +:+ ".word " +:+ pretty x0)
                        x1 1 false))) +:+ endl
                  = endl +:+ tab +:+ ".word " +:+ pretty x0 +:+ comma_words (x1 :: rest)
                    +:+ endl).
  { rewrite Hre, E1. change (EmptyString +:+ ?x) with x.
    rewrite !append_assoc. reflexivity. }
  unfold fill_line.
  destruct len as [m|]; [destruct (_ <? m) |];
    rewrite Hbase; rewrite ?append_nil_r, ?append_assoc; reflexivity.
Qed.

Lemma display_words_distinct_witness :
  display_words (Some 5) [1; 2; 1] =
    Ok (endl +:+ tab +:+ ".word " +:+ pretty 1 +:+ comma_words [2; 1] +:+ endl +:+
        fill_line 2 1).
Proof. apply (display_words_distinct (Some 5) 1 2 [1]). reflexivity. Defined.

(** * Further properties of the allocator (reg_alloc.cpp) *)

(** ** The order of spill operations *)

(** X10: [operator<] of [SpillOperation] is a strict total order: irreflexive,
    transitive, and two operations neither of which is less than the other
    are equal. *)
Theorem SpillOperation_lt_strict_total :
  (forall a, SpillOperation_lt a a = false) /\
  (forall a b c, SpillOperation_lt a b = true -> SpillOperation_lt b c = true ->
                 SpillOperation_lt a c = true) /\
  (forall a b, SpillOperation_lt a b = false -> SpillOperation_lt b a = false -> a = b).
Proof.
  unfold SpillOperation_lt. split; [| split].
  - intros [i s r]; cbn. rewrite Z.eqb_refl, eqb_reflx. cbn. apply Z.ltb_irrefl.
  - intros [i1 s1 r1] [i2 s2 r2] [i3 s3 r3]; cbn.
    destruct (Z.eqb_spec i1 i2), (Z.eqb_spec i2 i3), (Z.eqb_spec i1 i3); cbn;
      try lia; destruct s1, s2, s3; cbn; lia.
  - intros [i1 s1 r1] [i2 s2 r2]; cbn.
    destruct (Z.eqb_spec i1 i2), (Z.eqb_spec i2 i1); cbn; try lia;
      destruct s1, s2; cbn; try discriminate; intros; f_equal; lia.
Qed.

(** ** Live intervals *)

Lemma fold_access_writes i r regs old :
  fold_left (access_lookup i r) (map (pair Write) regs) old =
    if decide (r ∈ regs) then Some (written_interval old i) else old.
Proof.
  revert old. induction regs as [|x regs IH]; intros old; cbn [map fold_left].
  - destruct (decide (r ∈ [])) as [H|H]; [by apply not_elem_of_nil in H | reflexivity].
  - rewrite IH. unfold access_lookup; cbn [fst snd].
    destruct (decide (r = x)) as [->|Hne].
    + rewrite written_interval_idem.
      destruct (decide (x ∈ x :: regs)) as [_|H]; [| exfalso; apply H; left].
      destruct (decide (x ∈ regs)); reflexivity.
    + destruct (decide (r ∈ regs)) as [Hin|Hnin];
        destruct (decide (r ∈ x :: regs)) as [Hin'|Hnin']; try reflexivity.
      * exfalso; apply Hnin'; right; assumption.
      * apply elem_of_cons in Hin'. tauto.
Qed.

Lemma fold_access_reads i r regs old :
  fold_left (access_lookup i r) (map (pair Read) regs) old =
    if decide (r ∈ regs) then Some (read_interval old i) else old.
Proof.
  revert old. induction regs as [|x regs IH]; intros old; cbn [map fold_left].
  - destruct (decide (r ∈ [])) as [H|H]; [by apply not_elem_of_nil in H | reflexivity].
  - rewrite IH. unfold access_lookup; cbn [fst snd].
    destruct (decide (r = x)) as [->|Hne].
    + rewrite read_interval_idem.
      destruct (decide (x ∈ x :: regs)) as [_|H]; [| exfalso; apply H; left].
      destruct (decide (x ∈ regs)); reflexivity.
    + destruct (decide (r ∈ regs)) as [Hin|Hnin];
        destruct (decide (r ∈ x :: regs)) as [Hin'|Hnin']; try reflexivity.
      * exfalso; apply Hnin'; right; assumption.
      * apply elem_of_cons in Hin'. tauto.
Qed.

Lemma add_reg_read_op2_lookup o i s r :
  live_intervals (add_reg_read_op2_state o i s) !! r =
    fold_left (access_lookup i r) (op2_accesses o) (live_intervals s !! r).
Proof.
  destruct o as [x | v]; cbn; [| reflexivity].
  rewrite add_reg_read_lookup. unfold access_lookup; cbn.
  case_decide; subst; reflexivity.
Qed.

Lemma add_reg_read_mem_lookup m i s r :
  live_intervals (add_reg_read_mem_state m i s) !! r =
    fold_left (access_lookup i r) (mem_accesses m) (live_intervals s !! r).
Proof.
  unfold add_reg_read_mem_state, mem_accesses.
  destruct (mo_offset m) as [x | v]; cbn [fold_left];
    rewrite ?add_reg_read_lookup; unfold access_lookup; cbn [fst snd];
    repeat case_decide; subst; rewrite ?add_reg_read_lookup;
    repeat case_decide; subst; congruence.
Qed.

(** The intervals after [live_step] are those obtained by recording the
    accesses of the instruction one after the other. *)
Lemma live_step_lookup x i s r :
  live_intervals (live_step_state x i s) !! r =
    fold_left (access_lookup i r) (accesses_of x) (live_intervals s !! r).
Proof.
  destruct x; cbn [live_step_state accesses_of]; try reflexivity.
  - (* Arith2Inst *)
    rewrite add_reg_read_op2_lookup. cbn [fold_left]. f_equal.
    case_bool_decide.
    + assert (Hw : forall s', live_intervals s' = live_intervals (add_reg_write_state r1 i s) ->
                live_intervals s' !! r = access_lookup i r (live_intervals s !! r) (Write, r1)).
      { intros s' ->. rewrite add_reg_write_lookup. unfold access_lookup; cbn.
        case_decide; subst; reflexivity. }
      apply Hw. destruct r2 as [ro | v]; [| reflexivity].
      destruct (bool_decide (op = OpMov) && (ro_shift_amount ro =? 0)); [| reflexivity].
      destruct (negb (is_virtual_register r1) && negb (is_virtual_register (ro_reg ro)));
        reflexivity.
    + rewrite add_reg_read_lookup. unfold access_lookup; cbn.
      case_decide; subst; reflexivity.
  - (* Arith3Inst *)
    assert (Hin : forall a,
              live_intervals (add_reg_read_op2_state r2 i (add_reg_read_state r1 i s)) !! a
              = fold_left (access_lookup i a) (op2_accesses r2)
                  (access_lookup i a (live_intervals s !! a) (Read, r1))).
    { intros a. rewrite add_reg_read_op2_lookup. f_equal.
      rewrite add_reg_read_lookup. unfold access_lookup; cbn.
      case_decide; subst; reflexivity. }
    cbn [fold_left]. rewrite fold_left_app. cbn [fold_left].
    rewrite add_reg_write_lookup. unfold access_lookup at 1; cbn [fst snd].
    rewrite !Hin. destruct (decide (r = rd)) as [-> | Hne]; reflexivity.
  - (* Arith4Inst *)
    rewrite add_reg_write_lookup. cbn [fold_left]. unfold access_lookup; cbn [fst snd].
    repeat (rewrite ?add_reg_read_lookup; case_decide; subst); congruence.
  - (* BrInst *)
    case_bool_decide; reflexivity.
  - (* LoadStoreInst *)
    assert (Hrd : forall a, live_intervals
                (if bool_decide (op = OpLdR) then add_reg_write_state rd i s
                 else add_reg_read_state rd i s) !! a
              = access_lookup i a (live_intervals s !! a)
                  (if bool_decide (op = OpLdR) then Write else Read, rd)).
    { intros a. destruct (bool_decide (op = OpLdR));
        rewrite ?add_reg_write_lookup, ?add_reg_read_lookup;
        unfold access_lookup; cbn; destruct (decide (a = rd)) as [-> | Hne]; reflexivity. }
    cbn [fold_left]. destruct mem as [l | m].
    + cbn [fold_left]. apply Hrd.
    + rewrite add_reg_read_mem_lookup. f_equal. apply Hrd.
  - (* MultLoadStoreInst *)
    rewrite add_reg_read_lookup, fold_left_app. cbn [fold_left].
    unfold access_lookup at 1; cbn [fst snd].
    assert (Hl : forall a, live_intervals
                (if bool_decide (op = OpLdM) then add_reg_writes_state rd i s
                 else add_reg_reads_state rd i s) !! a
              = fold_left (access_lookup i a)
                  (map (pair (if bool_decide (op = OpLdM) then Write else Read)) rd)
                  (live_intervals s !! a)).
    { intros a. destruct (bool_decide (op = OpLdM)).
      - rewrite add_reg_writes_lookup, fold_access_writes. reflexivity.
      - rewrite add_reg_reads_lookup, fold_access_reads. reflexivity. }
    rewrite !Hl. destruct (decide (r = rn)) as [-> | Hne]; reflexivity.
  - (* PushPopInst *)
    destruct (bool_decide (op = OpPush)).
    + rewrite add_reg_writes_lookup, fold_access_writes. reflexivity.
    + rewrite add_reg_reads_lookup, fold_access_reads. reflexivity.
Qed.

Lemma fold_access_Some i r l : forall iv,
  i_start iv <= i -> i_end iv <= i ->
  fold_left (access_lookup i r) l (Some iv) =
    Some (mkInterval (i_start iv)
            (if bool_decide ((Read, r) ∈ l) then i else i_end iv)).
Proof.
  induction l as [|[a reg] l IH]; intros [st en] Hs He; cbn [fold_left i_start i_end] in *.
  - rewrite bool_decide_eq_false_2 by apply not_elem_of_nil. reflexivity.
  - unfold access_lookup at 2; cbn [fst snd].
    destruct (decide (r = reg)) as [<- | Hne].
    + destruct a; cbn [read_interval written_interval i_start i_end].
      * rewrite IH by (cbn; lia). cbn [i_start i_end].
        rewrite (bool_decide_eq_true_2 ((Read, r) ∈ (Read, r) :: l)) by left.
        destruct (bool_decide ((Read, r) ∈ l)); f_equal; f_equal; lia.
      * rewrite IH by (cbn; lia). cbn [i_start i_end].
        assert (Hiff : (Read, r) ∈ (Write, r) :: l <-> (Read, r) ∈ l).
        { rewrite elem_of_cons. split; [intros [H | H]; [discriminate H | exact H] | tauto]. }
        rewrite (bool_decide_ext _ _ Hiff). f_equal. f_equal. lia.
    + rewrite IH by (cbn; lia). cbn [i_start i_end].
      assert (Hiff : (Read, r) ∈ (a, reg) :: l <-> (Read, r) ∈ l).
      { rewrite elem_of_cons. split; [intros [H | H]; [congruence | exact H] | tauto]. }
      rewrite (bool_decide_ext _ _ Hiff). reflexivity.
Qed.

Lemma fold_access_None i r l :
  fold_left (access_lookup i r) l None =
    if bool_decide (r ∈ map snd l) then Some (mkInterval i i) else None.
Proof.
  induction l as [|[a reg] l IH]; cbn [fold_left map snd].
  - rewrite bool_decide_eq_false_2 by apply not_elem_of_nil. reflexivity.
  - unfold access_lookup at 2; cbn [fst snd].
    destruct (decide (r = reg)) as [<- | Hne].
    + rewrite bool_decide_eq_true_2 by left.
      assert (E : match a with
                  | Read => read_interval None i
                  | Write => written_interval None i
                  end = mkInterval i i) by (destruct a; reflexivity).
      rewrite E, fold_access_Some by (cbn; lia). cbn [i_start i_end].
      destruct (bool_decide ((Read, r) ∈ l)); reflexivity.
    + rewrite IH.
      assert (Hiff : r ∈ reg :: map snd l <-> r ∈ map snd l).
      { rewrite elem_of_cons. split; [intros [H | H]; [congruence | exact H] | tauto]. }
      rewrite (bool_decide_ext _ _ Hiff). reflexivity.
Qed.

Lemma reads_mentions r x : reads r x = true -> mentions r x = true.
Proof.
  unfold reads, mentions. intros H. apply bool_decide_eq_true in H.
  apply bool_decide_eq_true. apply list_elem_of_fmap. exists (Read, r). split; [reflexivity | exact H].
Qed.

Lemma writes_mentions r x : writes r x = true -> mentions r x = true.
Proof.
  unfold writes, mentions. intros H. apply bool_decide_eq_true in H.
  apply bool_decide_eq_true. apply list_elem_of_fmap. exists (Write, r). split; [reflexivity | exact H].
Qed.

Lemma live_loop_lookup_Some r insts : forall i s iv,
  live_intervals s !! r = Some iv -> i_start iv <= i -> i_end iv <= i ->
  live_intervals (live_loop_state insts i s) !! r =
    Some (mkInterval (i_start iv) (default (i_end iv) (last_read r insts i))).
Proof.
  induction insts as [|x rest IH]; intros i s iv Hl Hs He; cbn [live_loop_state last_read].
  - rewrite Hl. destruct iv; reflexivity.
  - rewrite (IH (i + 1) (live_step_state x i s)
               (mkInterval (i_start iv)
                  (if bool_decide ((Read, r) ∈ accesses_of x) then i else i_end iv))).
    + cbn [i_start i_end]. unfold reads.
      destruct (last_read r rest (i + 1)); [reflexivity |].
      destruct (bool_decide ((Read, r) ∈ accesses_of x)); reflexivity.
    + rewrite live_step_lookup, Hl. apply fold_access_Some; assumption.
    + cbn. lia.
    + cbn. destruct (bool_decide ((Read, r) ∈ accesses_of x)); lia.
Qed.

Lemma live_loop_lookup_None r insts : forall i s,
  live_intervals s !! r = None ->
  live_intervals (live_loop_state insts i s) !! r =
    match first_mention r insts i with
    | Some a => Some (mkInterval a (default a (last_read r insts i)))
    | None => None
    end.
Proof.
  induction insts as [|x rest IH]; intros i s Hl; cbn [live_loop_state first_mention last_read].
  - exact Hl.
  - pose proof (live_step_lookup x i s r) as Hstep.
    rewrite Hl, fold_access_None in Hstep. fold (mentions r x) in Hstep.
    destruct (mentions r x) eqn:Hm.
    + rewrite (live_loop_lookup_Some r rest (i + 1) _ _ Hstep) by (cbn; lia).
      cbn [i_start i_end].
      destruct (last_read r rest (i + 1)); [reflexivity |].
      destruct (reads r x); reflexivity.
    + rewrite (IH (i + 1) _ Hstep).
      assert (Hr : reads r x = false).
      { destruct (reads r x) eqn:Hr; [| reflexivity].
        apply reads_mentions in Hr. congruence. }
      rewrite Hr. destruct (first_mention r rest (i + 1)); [| reflexivity].
      destruct (last_read r rest (i + 1)); reflexivity.
Qed.

Lemma first_mention_bounds r insts : forall i a,
  first_mention r insts i = Some a -> i <= a < i + Z.of_nat (length insts).
Proof.
  induction insts as [|x rest IH]; intros i a H; cbn [first_mention length] in *.
  - discriminate H.
  - destruct (mentions r x).
    + injection H as <-. lia.
    + apply IH in H. lia.
Qed.

Lemma last_read_bounds r insts : forall i b,
  last_read r insts i = Some b -> i <= b < i + Z.of_nat (length insts).
Proof.
  induction insts as [|x rest IH]; intros i b H; cbn [last_read length] in *.
  - discriminate H.
  - destruct (last_read r rest (i + 1)) as [j|] eqn:E.
    + injection H as <-. apply IH in E. lia.
    + destruct (reads r x); [| discriminate H]. injection H as <-. lia.
Qed.

Lemma first_mention_le r insts : forall i (n : nat) x,
  insts !! n = Some x -> mentions r x = true ->
  exists a, first_mention r insts i = Some a /\ a <= i + Z.of_nat n.
Proof.
  induction insts as [|y rest IH]; intros i n x Hn Hm; [discriminate Hn |].
  cbn [first_mention]. destruct (mentions r y) eqn:Hy.
  - exists i. split; [reflexivity | lia].
  - destruct n as [|n]; cbn in Hn.
    + injection Hn as ->. congruence.
    + destruct (IH (i + 1) n x Hn Hm) as (a & Ea & Ha). exists a. split; [exact Ea | lia].
Qed.

Lemma last_read_ge r insts : forall i (n : nat) x,
  insts !! n = Some x -> reads r x = true ->
  exists b, last_read r insts i = Some b /\ i + Z.of_nat n <= b.
Proof.
  induction insts as [|y rest IH]; intros i n x Hn Hr; [discriminate Hn |].
  cbn [last_read]. destruct n as [|n]; cbn in Hn.
  - injection Hn as ->. rewrite Hr.
    destruct (last_read r rest (i + 1)) as [j|] eqn:E.
    + exists j. split; [reflexivity |]. apply last_read_bounds in E. lia.
    + exists i. split; [reflexivity | lia].
  - destruct (IH (i + 1) n x Hn Hr) as (b & Eb & Hb). rewrite Eb.
    exists b. split; [reflexivity | lia].
Qed.

Lemma first_mention_before_read r insts : forall i b,
  last_read r insts i = Some b ->
  exists a, first_mention r insts i = Some a /\ a <= b.
Proof.
  induction insts as [|x rest IH]; intros i b H; cbn [last_read first_mention] in *.
  - discriminate H.
  - destruct (mentions r x) eqn:Hm.
    + exists i. split; [reflexivity |].
      destruct (last_read r rest (i + 1)) as [j|] eqn:E.
      * injection H as <-. apply last_read_bounds in E. lia.
      * destruct (reads r x); [| discriminate H]. injection H as <-. lia.
    + destruct (last_read r rest (i + 1)) as [j|] eqn:E.
      * injection H as <-. destruct (IH (i + 1) j E) as (a & Ea & Ha).
        exists a. split; assumption.
      * destruct (reads r x) eqn:Hr; [| discriminate H].
        apply reads_mentions in Hr. congruence.
Qed.

(** X11: When [calc_live_intervals] returns, the interval it has given a
    register runs from the first instruction that mentions the register to
    the last instruction that reads it, and is the single point of the
    first mention when no instruction reads the register; a register no
    instruction mentions has no interval.  A write after the last read
    does not extend the interval. *)
Theorem live_intervals_exact (insts : list Inst) (s s' : State) (r : Reg) :
  live_intervals s = ∅ ->
  calc_live_intervals insts s = Ok (tt, s') ->
  live_intervals s' !! r = mention_interval r insts.
Proof.
  intros He E. apply calc_live_intervals_Ok in E. subst s'.
  unfold calc_live_intervals_state, mention_interval.
  apply live_loop_lookup_None. rewrite He. apply lookup_empty.
Qed.

(** The code of [labelled_code], where [v66] is coloured [r4] and the
    label records the block 1 at index 0. *)
Lemma live_intervals_exact_witness :
  exists s',
    calc_live_intervals labelled_code coloured_66 = Ok (tt, s') /\
    live_intervals s' !! 64 = Some (mkInterval 1 2) /\
    live_intervals s' !! 66 = Some (mkInterval 2 2) /\
    used_regs s' = [4].
Proof.
  assert (Hrun : exists s',
            calc_live_intervals labelled_code coloured_66 = Ok (tt, s') /\ used_regs s' = [4])
    by (eexists; split; [vm_compute; reflexivity | reflexivity]).
  destruct Hrun as (s' & Hrun & Hused). exists s'. split; [exact Hrun |].
  rewrite !(live_intervals_exact _ coloured_66 s' _ eq_refl Hrun).
  split; [reflexivity |]. split; [reflexivity | exact Hused].
Defined.

(** X12: When [calc_live_intervals] returns, every read of a register lies
    within the interval of the register, and no write of it lies before
    the start of the interval. *)
Theorem live_interval_covers (insts : list Inst) (s s' : State) (r : Reg)
    (n : nat) (x : Inst) :
  live_intervals s = ∅ ->
  calc_live_intervals insts s = Ok (tt, s') ->
  insts !! n = Some x ->
  mentions r x = true ->
  exists iv,
    live_intervals s' !! r = Some iv /\
    i_start iv <= Z.of_nat n /\
    (reads r x = true -> Z.of_nat n <= i_end iv).
Proof.
  intros He E Hn Hm. apply calc_live_intervals_Ok in E. subst s'.
  unfold calc_live_intervals_state.
  rewrite (live_loop_lookup_None r insts 0 s) by (rewrite He; apply lookup_empty).
  destruct (first_mention_le r insts 0 n x Hn Hm) as (a & Ea & Ha). rewrite Ea.
  eexists. split; [reflexivity |]. cbn [i_start i_end]. split; [lia |].
  intros Hr. destruct (last_read_ge r insts 0 n x Hn Hr) as (b & Eb & Hb).
  rewrite Eb. cbn. lia.
Qed.

Lemma live_interval_covers_witness :
  exists s' iv,
    calc_live_intervals labelled_code coloured_66 = Ok (tt, s') /\
    live_intervals s' !! 64 = Some iv /\
    i_start iv <= 2 /\
    (reads 64 (Arith3Inst OpAdd 65 64 (reg_op 66) Always) = true -> 2 <= i_end iv).
Proof.
  assert (Hrun : exists s', calc_live_intervals labelled_code coloured_66 = Ok (tt, s'))
    by (eexists; vm_compute; reflexivity).
  destruct Hrun as (s' & Hrun).
  destruct (live_interval_covers _ coloured_66 s' 64 2
              (Arith3Inst OpAdd 65 64 (reg_op 66) Always) eq_refl Hrun eq_refl eq_refl)
    as (iv & H1 & H2 & H3).
  exists s', iv. split; [exact Hrun |]. split; [exact H1 |]. split; [exact H2 | exact H3].
Defined.

(** X13: When [calc_live_intervals] returns, every interval is well formed
    and lies within the instruction list:
    [0 <= start <= end < f.inst.size()]. *)
Theorem live_interval_bounds (insts : list Inst) (s s' : State) (r : Reg) (iv : Interval) :
  live_intervals s = ∅ ->
  calc_live_intervals insts s = Ok (tt, s') ->
  live_intervals s' !! r = Some iv ->
  0 <= i_start iv <= i_end iv /\ i_end iv < Z.of_nat (length insts).
Proof.
  intros He E. apply calc_live_intervals_Ok in E. subst s'.
  unfold calc_live_intervals_state.
  rewrite (live_loop_lookup_None r insts 0 s) by (rewrite He; apply lookup_empty).
  destruct (first_mention r insts 0) as [a|] eqn:Ea; [| discriminate].
  intros [= <-]. cbn [i_start i_end].
  pose proof (first_mention_bounds _ _ _ _ Ea) as Ha.
  destruct (last_read r insts 0) as [b|] eqn:Eb; cbn.
  - pose proof (last_read_bounds _ _ _ _ Eb).
    destruct (first_mention_before_read _ _ _ _ Eb) as (a' & Ea' & Ha').
    rewrite Ea in Ea'. injection Ea' as <-. lia.
  - lia.
Qed.

Lemma live_interval_bounds_witness :
  exists s' iv,
    calc_live_intervals labelled_code coloured_66 = Ok (tt, s') /\
    live_intervals s' !! 64 = Some iv /\
    0 <= i_start iv <= i_end iv /\ i_end iv < 4.
Proof.
  assert (Hrun : exists s' iv,
            calc_live_intervals labelled_code coloured_66 = Ok (tt, s') /\
            live_intervals s' !! 64 = Some iv)
    by (eexists _, _; split; [vm_compute; reflexivity | reflexivity]).
  destruct Hrun as (s' & iv & Hrun & Hiv).
  exists s', iv. split; [exact Hrun |]. split; [exact Hiv |].
  exact (live_interval_bounds _ coloured_66 s' 64 iv eq_refl Hrun Hiv).
Defined.

(** ** Call points, assignment counts and copy candidates *)

Lemma add_reg_read_other reg i s :
  bl_points (add_reg_read_state reg i s) = bl_points s /\
  reg_affine (add_reg_read_state reg i s) = reg_affine s /\
  reg_assign_count (add_reg_read_state reg i s) = reg_assign_count s.
Proof.
  unfold add_reg_read_state, add_reg_use_in_bb_at_point_state. cbn.
  destruct (reg_map s !! reg); cbn; auto.
Qed.

Lemma add_reg_write_other reg i s :
  bl_points (add_reg_write_state reg i s) = bl_points s /\
  reg_affine (add_reg_write_state reg i s) = reg_affine s.
Proof.
  unfold add_reg_write_state, add_reg_use_in_bb_at_point_state. cbn.
  destruct (reg_map s !! reg); cbn; auto.
Qed.

Lemma add_reg_reads_other regs i : forall s,
  bl_points (add_reg_reads_state regs i s) = bl_points s /\
  reg_affine (add_reg_reads_state regs i s) = reg_affine s /\
  reg_assign_count (add_reg_reads_state regs i s) = reg_assign_count s.
Proof.
  unfold add_reg_reads_state. induction regs as [|x regs IH]; intros s; cbn [fold_left]; [auto |].
  destruct (IH (add_reg_read_state x i s)) as (E1 & E2 & E3).
  destruct (add_reg_read_other x i s) as (F1 & F2 & F3).
  rewrite E1, E2, E3. auto.
Qed.

Lemma add_reg_writes_other regs i : forall s,
  bl_points (add_reg_writes_state regs i s) = bl_points s /\
  reg_affine (add_reg_writes_state regs i s) = reg_affine s.
Proof.
  unfold add_reg_writes_state. induction regs as [|x regs IH]; intros s; cbn [fold_left]; [auto |].
  destruct (IH (add_reg_write_state x i s)) as (E1 & E2).
  destruct (add_reg_write_other x i s) as (F1 & F2).
  rewrite E1, E2. auto.
Qed.

Lemma add_reg_read_op2_other o i s :
  bl_points (add_reg_read_op2_state o i s) = bl_points s /\
  reg_affine (add_reg_read_op2_state o i s) = reg_affine s /\
  reg_assign_count (add_reg_read_op2_state o i s) = reg_assign_count s.
Proof. destruct o; cbn; [apply add_reg_read_other | auto]. Qed.

Lemma add_reg_read_mem_other m i s :
  bl_points (add_reg_read_mem_state m i s) = bl_points s /\
  reg_affine (add_reg_read_mem_state m i s) = reg_affine s /\
  reg_assign_count (add_reg_read_mem_state m i s) = reg_assign_count s.
Proof.
  unfold add_reg_read_mem_state.
  destruct (add_reg_read_other (mo_r1 m) i s) as (E1 & E2 & E3).
  destruct (mo_offset m) as [x | v]; [| auto].
  destruct (add_reg_read_other (ro_reg x) i (add_reg_read_state (mo_r1 m) i s)) as (F1 & F2 & F3).
  rewrite F1, F2, F3. auto.
Qed.

Ltac other_fields :=
  repeat first
    [ rewrite (proj1 (add_reg_read_op2_other _ _ _))
    | rewrite (proj1 (add_reg_read_mem_other _ _ _))
    | rewrite (proj1 (add_reg_read_other _ _ _))
    | rewrite (proj1 (add_reg_write_other _ _ _))
    | rewrite (proj1 (add_reg_reads_other _ _ _))
    | rewrite (proj1 (add_reg_writes_other _ _ _))
    | rewrite (proj1 (proj2 (add_reg_read_op2_other _ _ _)))
    | rewrite (proj1 (proj2 (add_reg_read_mem_other _ _ _)))
    | rewrite (proj1 (proj2 (add_reg_read_other _ _ _)))
    | rewrite (proj2 (add_reg_write_other _ _ _))
    | rewrite (proj1 (proj2 (add_reg_reads_other _ _ _)))
    | rewrite (proj2 (add_reg_writes_other _ _ _)) ].

Lemma live_step_bl_points x i s :
  bl_points (live_step_state x i s) =
    match x with
    | BrInst OpBl _ _ _ => sset_insert i (bl_points s)
    | _ => bl_points s
    end.
Proof.
  destruct x; cbn [live_step_state]; try reflexivity.
  - other_fields.
    destruct (bool_decide (op = OpMov \/ op = OpMovT \/ op = OpMvn)); other_fields;
      [| reflexivity].
    destruct r2 as [ro | v]; other_fields; [| reflexivity].
    destruct (bool_decide (op = OpMov) && (ro_shift_amount ro =? 0));
      other_fields; [| reflexivity].
    destruct (negb (is_virtual_register r1) && negb (is_virtual_register (ro_reg ro)));
      cbn [bl_points set_reg_affine]; other_fields; reflexivity.
  - other_fields. reflexivity.
  - other_fields. reflexivity.
  - destruct op; cbn; reflexivity.
  - destruct mem as [l | m]; other_fields;
      destruct (bool_decide (op = OpLdR)); other_fields; reflexivity.
  - other_fields. destruct (bool_decide (op = OpLdM)); other_fields; reflexivity.
  - destruct (bool_decide (op = OpPush)); other_fields; reflexivity.
Qed.

Lemma sset_insert_last i l : Forall (fun p => p < i) l -> sset_insert i l = l ++ [i].
Proof.
  induction 1 as [|y l Hy Hl IH]; [reflexivity |]. cbn.
  destruct (Z.ltb_spec i y); [lia |].
  destruct (Z.eqb_spec i y); [lia |]. rewrite IH. reflexivity.
Qed.

Lemma live_loop_bl_points insts : forall i s,
  Forall (fun p => p < i) (bl_points s) ->
  bl_points (live_loop_state insts i s) = bl_points s ++ bl_indices insts i.
Proof.
  induction insts as [|x rest IH]; intros i s Hs; cbn [live_loop_state bl_indices].
  - rewrite app_nil_r. reflexivity.
  - assert (Hmono : Forall (fun p => p < i + 1) (bl_points s))
      by (eapply Forall_impl; [exact Hs | cbv beta; intros; lia]).
    assert (Hnew : Forall (fun p => p < i + 1) (bl_points s ++ [i]))
      by (apply Forall_app; split; [exact Hmono | repeat constructor; lia]).
    rewrite IH; rewrite live_step_bl_points.
    + destruct x; try reflexivity. destruct op; try reflexivity.
      rewrite sset_insert_last by exact Hs. rewrite <- app_assoc. reflexivity.
    + destruct x; try exact Hmono. destruct op; try exact Hmono.
      rewrite sset_insert_last by exact Hs. exact Hnew.
Qed.

(** X14: When [calc_live_intervals] returns, [bl_points] holds exactly the
    indices of the [bl] instructions, in ascending order. *)
Theorem bl_points_exact (insts : list Inst) (s s' : State) :
  bl_points s = [] ->
  calc_live_intervals insts s = Ok (tt, s') ->
  bl_points s' = bl_indices insts 0.
Proof.
  intros He E. apply calc_live_intervals_Ok in E. subst s'.
  unfold calc_live_intervals_state.
  rewrite live_loop_bl_points; rewrite He; [reflexivity | constructor].
Qed.

Lemma bl_points_exact_witness :
  exists s',
    calc_live_intervals
      [ BrInst OpBl "f" 0 Always; PureInst OpNop Always; BrInst OpBl "g" 1 Always ]
      (init_state 0) = Ok (tt, s') /\
    bl_points s' = [0; 2].
Proof.
  assert (Hrun : exists s',
            calc_live_intervals
              [ BrInst OpBl "f" 0 Always; PureInst OpNop Always; BrInst OpBl "g" 1 Always ]
              (init_state 0) = Ok (tt, s'))
    by (eexists; vm_compute; reflexivity).
  destruct Hrun as (s' & Hrun). exists s'. split; [exact Hrun |].
  exact (bl_points_exact _ (init_state 0) s' eq_refl Hrun).
Defined.

Lemma add_reg_write_count reg i s r :
  reg_assign_count (add_reg_write_state reg i s) !! r =
    count_step r (reg_assign_count s !! r) (Write, reg).
Proof.
  unfold add_reg_write_state. rewrite add_reg_use_assign_count. cbn. unfold count_step.
  destruct (decide ((Write, reg) = (Write, r))) as [E | Hne].
  - injection E as ->.
    destruct (reg_assign_count s !! r) as [c|]; rewrite lookup_insert;
      rewrite decide_True by reflexivity; reflexivity.
  - assert (reg <> r) by congruence.
    destruct (reg_assign_count s !! reg) as [c|]; rewrite lookup_insert_ne by assumption;
      reflexivity.
Qed.

Lemma count_step_read r old reg : count_step r old (Read, reg) = old.
Proof. unfold count_step. rewrite decide_False by discriminate. reflexivity. Qed.

Lemma fold_count_reads r regs old :
  fold_left (count_step r) (map (pair Read) regs) old = old.
Proof.
  revert old. induction regs as [|x regs IH]; intros old; cbn [map fold_left]; [reflexivity |].
  rewrite count_step_read. apply IH.
Qed.

Lemma add_reg_writes_count regs i r : forall s,
  reg_assign_count (add_reg_writes_state regs i s) !! r =
    fold_left (count_step r) (map (pair Write) regs) (reg_assign_count s !! r).
Proof.
  unfold add_reg_writes_state. induction regs as [|x regs IH]; intros s; cbn [map fold_left];
    [reflexivity |].
  rewrite IH, add_reg_write_count. reflexivity.
Qed.

Ltac count_fields :=
  repeat first
    [ rewrite (proj2 (proj2 (add_reg_read_op2_other _ _ _)))
    | rewrite (proj2 (proj2 (add_reg_read_mem_other _ _ _)))
    | rewrite (proj2 (proj2 (add_reg_read_other _ _ _)))
    | rewrite (proj2 (proj2 (add_reg_reads_other _ _ _))) ].

Lemma fold_count_op2 r o old : fold_left (count_step r) (op2_accesses o) old = old.
Proof. destruct o; cbn; [apply count_step_read | reflexivity]. Qed.

Lemma fold_count_mem r m old : fold_left (count_step r) (mem_accesses m) old = old.
Proof.
  unfold mem_accesses. destruct (mo_offset m); cbn [fold_left];
    rewrite !count_step_read; reflexivity.
Qed.

Lemma live_step_count x i s r :
  reg_assign_count (live_step_state x i s) !! r =
    fold_left (count_step r) (accesses_of x) (reg_assign_count s !! r).
Proof.
  destruct x; cbn [live_step_state accesses_of]; try reflexivity.
  - cbn [fold_left]. rewrite fold_count_op2. count_fields.
    destruct (bool_decide (op = OpMov \/ op = OpMovT \/ op = OpMvn)).
    + cbv zeta.
      assert (E : forall s', reg_assign_count s' = reg_assign_count (add_reg_write_state r1 i s) ->
                  reg_assign_count s' !! r = count_step r (reg_assign_count s !! r) (Write, r1))
        by (intros s' ->; apply add_reg_write_count).
      apply E. destruct r2 as [ro | v]; [| reflexivity].
      destruct (bool_decide (op = OpMov) && (ro_shift_amount ro =? 0)); [| reflexivity].
      destruct (negb (is_virtual_register r1) && negb (is_virtual_register (ro_reg ro)));
        reflexivity.
    + count_fields. rewrite count_step_read. reflexivity.
  - cbn [fold_left]. rewrite fold_left_app, fold_count_op2, count_step_read. cbn [fold_left].
    rewrite add_reg_write_count. count_fields. reflexivity.
  - cbn [fold_left]. rewrite !count_step_read, add_reg_write_count. count_fields.
    reflexivity.
  - destruct (bool_decide (op = OpBl)); reflexivity.
  - cbn [fold_left].
    assert (E : forall t, reg_assign_count t = reg_assign_count
                  (if bool_decide (op = OpLdR) then add_reg_write_state rd i s
                   else add_reg_read_state rd i s) ->
                reg_assign_count t !! r =
                count_step r (reg_assign_count s !! r)
                  (if bool_decide (op = OpLdR) then Write else Read, rd)).
    { intros t ->. destruct (bool_decide (op = OpLdR)).
      - apply add_reg_write_count.
      - count_fields. rewrite count_step_read. reflexivity. }
    destruct mem as [l | m]; cbn [fold_left].
    + apply E. reflexivity.
    + rewrite fold_count_mem. apply E. count_fields. reflexivity.
  - rewrite fold_left_app. cbn [fold_left]. rewrite count_step_read. count_fields.
    destruct (bool_decide (op = OpLdM)).
    + apply add_reg_writes_count.
    + count_fields. rewrite fold_count_reads. reflexivity.
  - destruct (bool_decide (op = OpPush)).
    + apply add_reg_writes_count.
    + count_fields. rewrite fold_count_reads. reflexivity.
Qed.

Lemma fold_count_step r l : forall old,
  fold_left (count_step r) l old =
    let k := Z.of_nat (length (filter (fun e : Access * Reg => e = (Write, r)) l)) in
    if k =? 0 then old else Some (default 0 old + k).
Proof.
  induction l as [|e l IH]; intros old; cbn [fold_left]; [reflexivity |].
  rewrite IH. cbv zeta. unfold count_step.
  destruct (decide (e = (Write, r))) as [E | Hne].
  - rewrite filter_cons_True by exact E. cbn [length].
    set (k := length (filter (fun e0 : Access * Reg => e0 = (Write, r)) l)).
    destruct (Z.eqb_spec (Z.of_nat k) 0) as [E0 | E0];
      destruct (Z.eqb_spec (Z.of_nat (S k)) 0); try lia;
      destruct old as [c|]; cbn [default]; unfold id; f_equal; lia.
  - rewrite filter_cons_False by exact Hne. reflexivity.
Qed.

Lemma live_loop_count r insts : forall i s,
  reg_assign_count (live_loop_state insts i s) !! r =
    fold_left (count_step r) (concat (map accesses_of insts)) (reg_assign_count s !! r).
Proof.
  induction insts as [|x rest IH]; intros i s; cbn [live_loop_state map concat]; [reflexivity |].
  rewrite IH, live_step_count, fold_left_app. reflexivity.
Qed.

(** X15: When [calc_live_intervals] returns, [reg_assign_count] holds, for
    every register that is written, the number of writes the analysis
    records for it, and nothing for a register that is never written. *)
Theorem reg_assign_count_exact (insts : list Inst) (s s' : State) (r : Reg) :
  reg_assign_count s = ∅ ->
  calc_live_intervals insts s = Ok (tt, s') ->
  reg_assign_count s' !! r =
    if write_count r insts =? 0 then None else Some (write_count r insts).
Proof.
  intros He E. apply calc_live_intervals_Ok in E. subst s'.
  unfold calc_live_intervals_state, write_count.
  rewrite live_loop_count, fold_count_step, He, lookup_empty. cbv zeta. cbn [default].
  reflexivity.
Qed.

Lemma reg_assign_count_exact_witness :
  exists s',
    calc_live_intervals labelled_code coloured_66 = Ok (tt, s') /\
    reg_assign_count s' !! 64 = Some 2 /\ reg_assign_count s' !! 66 = None.
Proof.
  assert (Hrun : exists s', calc_live_intervals labelled_code coloured_66 = Ok (tt, s'))
    by (eexists; vm_compute; reflexivity).
  destruct Hrun as (s' & Hrun). exists s'. split; [exact Hrun |].
  rewrite !(reg_assign_count_exact _ coloured_66 s' _ eq_refl Hrun).
  split; reflexivity.
Defined.

Lemma live_step_reg_affine x i s :
  reg_affine (live_step_state x i s) = reg_affine s \/
  exists op r1 ro c,
    x = Arith2Inst op r1 (O2Reg ro) c /\ op = OpMov /\ ro_shift_amount ro = 0 /\
    is_phys r1 /\ is_phys (ro_reg ro) /\
    reg_affine (live_step_state x i s) = affine_insert r1 (ro_reg ro) (reg_affine s).
Proof.
  destruct x; cbn [live_step_state]; try (left; reflexivity).
  - other_fields.
    destruct (bool_decide (op = OpMov \/ op = OpMovT \/ op = OpMvn)); other_fields;
      [| left; reflexivity].
    destruct r2 as [ro | v]; other_fields; [| left; reflexivity].
    destruct (bool_decide (op = OpMov) && (ro_shift_amount ro =? 0)) eqn:E1;
      other_fields; [| left; reflexivity].
    destruct (negb (is_virtual_register r1) && negb (is_virtual_register (ro_reg ro)))
      eqn:E2; other_fields; [| left; reflexivity].
    right. exists op, r1, ro, cond.
    apply andb_true_iff in E1 as [Eop Esh]. apply bool_decide_eq_true in Eop.
    apply Z.eqb_eq in Esh.
    apply andb_true_iff in E2 as [Ea Eb].
    apply negb_true_iff in Ea, Eb. apply is_virtual_register_false in Ea, Eb.
    cbn [reg_affine set_reg_affine]. other_fields. auto 8.
  - left. other_fields. reflexivity.
  - left. other_fields. reflexivity.
  - left. destruct (bool_decide (op = OpBl)); reflexivity.
  - left. destruct mem as [l | m]; other_fields;
      destruct (bool_decide (op = OpLdR)); other_fields; reflexivity.
  - left. other_fields. destruct (bool_decide (op = OpLdM)); other_fields; reflexivity.
  - left. destruct (bool_decide (op = OpPush)); other_fields; reflexivity.
Qed.

Lemma affine_insert_keys k v l :
  NoDup (map fst l) -> NoDup (map fst (affine_insert k v l)).
Proof.
  intros Hnd. unfold affine_insert.
  destruct (existsb (fun e : Reg * Reg => fst e =? k) l) eqn:E; [exact Hnd |].
  rewrite map_app. cbn. apply NoDup_app. split; [exact Hnd |]. split.
  - intros x Hx Hk. apply list_elem_of_singleton in Hk. subst x.
    apply list_elem_of_fmap in Hx as ([k' v'] & Ek & Hin). cbn in Ek. subst k'.
    assert (existsb (fun e : Reg * Reg => fst e =? k) l = true).
    { apply existsb_exists. exists (k, v'). split; [| apply Z.eqb_refl].
      apply list_elem_of_In. exact Hin. }
    congruence.
  - apply NoDup_singleton.
Qed.

Lemma affine_insert_Forall (P : Reg * Reg -> Prop) k v l :
  Forall P l -> P (k, v) -> Forall P (affine_insert k v l).
Proof.
  intros Hl Hkv. unfold affine_insert.
  destruct (existsb _ l); [exact Hl |]. apply Forall_app. split; [exact Hl |].
  repeat constructor. exact Hkv.
Qed.

Lemma live_loop_reg_affine (all : list Inst) insts : forall i s,
  insts ⊆ all ->
  Forall (fun e => is_phys e.1 /\ is_phys e.2 /\
                   exists x, x ∈ all /\ is_plain_copy e.1 e.2 x) (reg_affine s) ->
  NoDup (map fst (reg_affine s)) ->
  Forall (fun e => is_phys e.1 /\ is_phys e.2 /\
                   exists x, x ∈ all /\ is_plain_copy e.1 e.2 x)
    (reg_affine (live_loop_state insts i s)) /\
  NoDup (map fst (reg_affine (live_loop_state insts i s))).
Proof.
  induction insts as [|x rest IH]; intros i s Hsub Hall Hnd; cbn [live_loop_state].
  - split; assumption.
  - assert (Hx : x ∈ all) by (apply Hsub; left).
    assert (Hrest : rest ⊆ all) by (intros y Hy; apply Hsub; right; exact Hy).
    destruct (live_step_reg_affine x i s)
      as [E | (op & r1 & ro & c & -> & -> & Esh & Hp1 & Hp2 & E)];
      apply IH; rewrite ?E; try assumption.
    + apply affine_insert_Forall; [exact Hall |]. cbn [fst snd].
      split; [exact Hp1 |]. split; [exact Hp2 |].
      eexists. split; [exact Hx |]. exists ro, c. auto.
    + apply affine_insert_keys. exact Hnd.
Qed.



(** ** Copy coalescing *)

Lemma get_collapse_reg_fuel_phys n rc : forall r r',
  phys_pairs rc -> is_phys r -> get_collapse_reg_fuel n rc r = Some r' -> is_phys r'.
Proof.
  induction n as [|n IH]; intros r r' Hrc Hr; cbn; [discriminate |].
  destruct (rc !! r) as [rd|] eqn:E.
  - apply IH; [exact Hrc |]. apply (Hrc _ _ E).
  - intros [= <-]. exact Hr.
Qed.

Lemma wp_get_collapse_reg_phys r (Q : Reg -> State -> Prop) s :
  phys_pairs (reg_collapse s) -> is_phys r ->
  (forall r', is_phys r' -> Q r' s) -> wp (get_collapse_reg r) Q s.
Proof.
  intros Hrc Hr HQ. unfold wp, get_collapse_reg.
  destruct (get_collapse_reg_fuel _ _ r) as [r'|] eqn:E; [| exact I].
  apply HQ. eapply get_collapse_reg_fuel_phys; eassumption.
Qed.

Lemma phys_pairs_insert_new k v m :
  phys_pairs m -> is_phys k -> is_phys v -> phys_pairs (map_insert_new k v m).
Proof.
  intros Hm Hk Hv. unfold map_insert_new. destruct (m !! k); [exact Hm |].
  apply map_Forall_insert_2; [split; assumption | exact Hm].
Qed.

Lemma affinity_step_collapse d src s :
  is_phys d -> is_phys src -> phys_pairs (reg_collapse s) ->
  wp (affinity_step (d, src)) (fun _ s' => phys_pairs (reg_collapse s')) s.
Proof.
  intros Hd Hsrc Hrc. unfold affinity_step. wp_steps. unfold id.
  assert (Hb2 : wp
    match reg_map s !! d with
    | Some phys =>
        if negb (has_key (reg_map s) src) && negb (is_cross_block s src) then
          let* li_src := map_at (live_intervals s) src in
          let* ov := colour_conflict (reg_reverse_map s) phys src li_src in
          if ov then ret tt
          else modify (fun s => set_reg_collapse (map_insert_new src d (reg_collapse s)) s)
        else ret tt
    | None =>
        if negb (has_key (reg_map s) src) && negb (is_cross_block s src) &&
           negb (is_cross_block s d)
        then
          let* reg_src_ := get_collapse_reg src in
          let* reg_dst_ := get_collapse_reg d in
          let* li_src := map_at (live_intervals s) reg_src_ in
          let* li_dst := map_at (live_intervals s) reg_dst_ in
          if overlaps li_src li_dst then ret tt
          else
            let li_src' :=
              add_ending_point (i_end li_dst) (add_starting_point (i_start li_dst) li_src) in
            modify (fun s =>
              set_reg_collapse (map_insert_new reg_dst_ reg_src_ (reg_collapse s))
                (set_live_intervals (<[reg_src_ := li_src']> (live_intervals s)) s))
        else ret tt
    end (fun _ s' => phys_pairs (reg_collapse s')) s).
  { destruct (reg_map s !! d) as [phys|].
    - destruct (negb (has_key (reg_map s) src) && negb (is_cross_block s src));
        [| wp_steps; exact Hrc].
      wp_steps. apply colour_conflict_state. intros [|]; wp_steps; [exact Hrc |].
      cbn. apply phys_pairs_insert_new; assumption.
    - destruct (negb (has_key (reg_map s) src) && negb (is_cross_block s src) &&
                negb (is_cross_block s d)); [| wp_steps; exact Hrc].
      apply wp_bind. apply wp_get_collapse_reg_phys; [exact Hrc | exact Hsrc |].
      intros rs Hrs. apply wp_bind.
      apply wp_get_collapse_reg_phys; [exact Hrc | exact Hd |].
      intros rd Hrd. wp_steps.
      destruct (overlaps _ _); wp_steps; [exact Hrc |].
      cbn. apply phys_pairs_insert_new; assumption. }
  destruct (reg_map s !! src) as [phys|]; [| exact Hb2].
  destruct (negb (has_key (reg_map s) d) && negb (is_cross_block s d)); [| exact Hb2].
  wp_steps. destruct (_ =? 1); [| exact Hb2].
  wp_steps. apply colour_conflict_state. intros [|]; wp_steps; [exact Hrc |].
  cbn. apply phys_pairs_insert_new; assumption.
Qed.

Lemma affinity_loop_collapse l : forall s,
  Forall (fun e : Reg * Reg => is_phys e.1 /\ is_phys e.2) l ->
  phys_pairs (reg_collapse s) ->
  wp (affinity_loop l) (fun _ s' => phys_pairs (reg_collapse s')) s.
Proof.
  induction l as [|[d src] l IH]; intros s Hl Hrc; cbn [affinity_loop].
  - wp_steps. exact Hrc.
  - inversion Hl as [|? ? [Hd Hsrc] Hl']; subst. cbn in Hd, Hsrc.
    wp_step. eapply wp_mono; [apply affinity_step_collapse; assumption |].
    intros [] s1 H1. apply IH; assumption.
Qed.

(** ** Invariants of the rewriting pass *)

Create HintDb inv_lemmas.

Section RewritingInvariant.

Variable TEMP_REGS GLOB_REGS : list Reg.

(** A property of the allocator state that the assignments made by the
    rewriting pass and the allocation of a spill slot do not disturb. *)
Variable Inv : State -> Prop.

Hypothesis Inv_active : forall v s, Inv s -> Inv (set_active v s).
Hypothesis Inv_active_reg_map : forall v s, Inv s -> Inv (set_active_reg_map v s).
Hypothesis Inv_spilled_regs : forall v s, Inv s -> Inv (set_spilled_regs v s).
Hypothesis Inv_inst_sink : forall v s, Inv s -> Inv (set_inst_sink v s).
Hypothesis Inv_wrote_to : forall v s, Inv s -> Inv (set_wrote_to v s).
Hypothesis Inv_delayed_store : forall v s, Inv s -> Inv (set_delayed_store v s).
Hypothesis Inv_bb_reset : forall v s, Inv s -> Inv (set_bb_reset v s).
Hypothesis Inv_is_leaf_func : forall v s, Inv s -> Inv (set_is_leaf_func v s).
Hypothesis Inv_cur_cond : forall v s, Inv s -> Inv (set_cur_cond v s).
Hypothesis Inv_used_regs_temp : forall v s, Inv s -> Inv (set_used_regs_temp v s).
Hypothesis Inv_stack_offset : forall v s, Inv s -> Inv (set_stack_offset v s).
Hypothesis Inv_spill_pos : forall r s,
  Inv s -> wp (get_or_alloc_spill_pos r) (fun _ s' => Inv s') s.

Ltac inv_solve :=
  solve [ repeat first
            [ assumption
            | apply Inv_active | apply Inv_active_reg_map | apply Inv_spilled_regs
            | apply Inv_inst_sink | apply Inv_wrote_to | apply Inv_delayed_store
            | apply Inv_bb_reset | apply Inv_is_leaf_func | apply Inv_cur_cond
            | apply Inv_used_regs_temp | apply Inv_stack_offset ] ].

(** One step through a computation: a primitive of the monad, a call of a
    function whose lemma is among the hints, or a case distinction. *)
Ltac inv_call :=
  eapply wp_mono;
  [ solve [ eauto with nocore inv_lemmas ]
  | cbv beta; let a := fresh "a" in let s' := fresh "s" in let H := fresh "HInv" in
    intros a s' H ].

Ltac inv_step :=
  cbv beta;
  first
    [ wp_step
    | lazymatch goal with
      | |- wp (match ?x with _ => _ end) _ _ => destruct x
      end
    | inv_call
    | inv_solve ].

Ltac inv_auto := unfold id in *; repeat inv_step.

#[local] Hint Extern 1 (Inv _) => inv_solve : inv_lemmas.

Lemma force_free_inv r e wb s :
  Inv s -> wp (force_free r e wb) (fun _ s' => Inv s') s.
Proof.
  intros H. unfold force_free. wp_steps. unfold id.
  destruct (active s !! r); [| wp_steps; exact H].
  destruct (find_phys r (active_reg_map s)) as [y|]; [| wp_steps; exact H].
  wp_step. eapply wp_mono; [apply Inv_spill_pos; exact H |].
  intros pos s1 H1. cbv beta. destruct wb, e; wp_steps; inv_solve.
Qed.
#[local] Hint Resolve force_free_inv : inv_lemmas.
#[local] Hint Resolve Inv_spill_pos : inv_lemmas.

Lemma alloc_using_temp_inv r s r' s' :
  Inv s -> alloc_using_temp TEMP_REGS (r, s) = (r', s') -> Inv s'.
Proof.
  intros H. unfold alloc_using_temp.
  destruct (r =? NO_REG); [| intros [= <- <-]; exact H].
  destruct (first_free_temp TEMP_REGS s); intros [= <- <-]; exact H.
Qed.

Lemma alloc_using_glob_inv r s r' s' :
  Inv s -> alloc_using_glob GLOB_REGS (r, s) = (r', s') -> Inv s'.
Proof.
  intros H. unfold alloc_using_glob.
  destruct (r =? NO_REG); [| intros [= <- <-]; exact H].
  destruct (first_free_glob GLOB_REGS s); intros [= <- <-]; [inv_solve | exact H].
Qed.

Lemma evict_inv i orig s :
  Inv s -> wp (evict i orig) (fun _ s' => Inv s') s.
Proof.
  intros H. unfold evict. wp_steps. unfold id.
  destruct (active_reg_map s) as [|[spill_virt spill_phys] rest]; [exact I |].
  wp_steps. inv_call. wp_steps. destruct orig; wp_steps; inv_solve.
Qed.
#[local] Hint Resolve evict_inv : inv_lemmas.

Lemma alloc_transient_reg_inv i orig s :
  Inv s -> wp (alloc_transient_reg TEMP_REGS GLOB_REGS i orig) (fun _ s' => Inv s') s.
Proof.
  intros H. unfold alloc_transient_reg. wp_steps. unfold id.
  destruct (match orig with Some o => find_virt o (active_reg_map s) | None => None end);
    [wp_steps; inv_solve |].
  destruct (if crosses_bl i s
            then alloc_using_temp TEMP_REGS (alloc_using_glob GLOB_REGS (NO_REG, s))
            else alloc_using_glob GLOB_REGS (alloc_using_temp TEMP_REGS (NO_REG, s)))
    as [r s1] eqn:E.
  assert (H1 : Inv s1).
  { destruct (crosses_bl i s).
    - destruct (alloc_using_glob GLOB_REGS (NO_REG, s)) as [r0 s0] eqn:E0.
      eapply alloc_using_temp_inv; [| exact E]. eapply alloc_using_glob_inv; eassumption.
    - destruct (alloc_using_temp TEMP_REGS (NO_REG, s)) as [r0 s0] eqn:E0.
      eapply alloc_using_glob_inv; [| exact E]. eapply alloc_using_temp_inv; eassumption. }
  wp_steps. destruct (r =? NO_REG).
  - inv_call. wp_steps. destruct orig; wp_steps; inv_solve.
  - wp_steps. destruct orig; wp_steps; inv_solve.
Qed.
#[local] Hint Resolve alloc_transient_reg_inv : inv_lemmas.

Lemma replace_read_inv r i pre s :
  Inv s -> wp (replace_read TEMP_REGS GLOB_REGS r i pre) (fun _ s' => Inv s') s.
Proof.
  intros H. unfold replace_read. wp_steps.
  destruct (negb (is_virtual_register _)); [wp_steps; exact H |].
  wp_steps. unfold id.
  destruct (reg_map s !! _); [wp_steps; exact H |].
  destruct (spilled_regs s !! _).
  - inv_auto.
  - inv_auto.
Qed.
#[local] Hint Resolve replace_read_inv : inv_lemmas.

Lemma replace_read_op2_inv o i s :
  Inv s -> wp (replace_read_op2 TEMP_REGS GLOB_REGS o i) (fun _ s' => Inv s') s.
Proof. intros H. unfold replace_read_op2. destruct o; inv_auto. Qed.
#[local] Hint Resolve replace_read_op2_inv : inv_lemmas.

Lemma replace_read_mem_inv m i s :
  Inv s -> wp (replace_read_mem TEMP_REGS GLOB_REGS m i) (fun _ s' => Inv s') s.
Proof. intros H. unfold replace_read_mem. inv_auto. Qed.
#[local] Hint Resolve replace_read_mem_inv : inv_lemmas.

Lemma pre_replace_write_inv r i pre s :
  Inv s -> wp (pre_replace_write TEMP_REGS GLOB_REGS r i pre) (fun _ s' => Inv s') s.
Proof.
  intros H. unfold pre_replace_write. wp_steps.
  destruct (negb (is_virtual_register _)); [inv_auto |].
  wp_steps. unfold id.
  destruct (reg_map s !! _); [wp_steps; exact H |].
  destruct (is_cross_block s _).
  - destruct pre; [inv_auto |].
    destruct (find_virt _ (active_reg_map s)); inv_auto.
  - destruct (spilled_regs s !! _); inv_auto.
Qed.
#[local] Hint Resolve pre_replace_write_inv : inv_lemmas.

Lemma replace_write_inv a i s :
  Inv s -> wp (replace_write a i) (fun _ s' => Inv s') s.
Proof. intros H. unfold replace_write. destruct (kind a); inv_auto. Qed.
#[local] Hint Resolve replace_write_inv : inv_lemmas.

Lemma invalidate_read_inv pos s :
  Inv s -> wp (invalidate_read pos) (fun _ s' => Inv s') s.
Proof. intros H. unfold invalidate_read. inv_auto. Qed.
#[local] Hint Resolve invalidate_read_inv : inv_lemmas.

Lemma commit_delayed_store_inv i s :
  Inv s -> wp (commit_delayed_store i) (fun _ s' => Inv s') s.
Proof.
  intros H. unfold commit_delayed_store. wp_steps.
  destruct (delayed_store s) as [[r rd]|]; inv_auto.
Qed.
#[local] Hint Resolve commit_delayed_store_inv : inv_lemmas.

Lemma bb_reset_loop_inv rest : forall kept s,
  Inv s -> wp (bb_reset_loop kept rest) (fun _ s' => Inv s') s.
Proof.
  induction rest as [|[v p] rest IH]; intros kept s H; cbn [bb_reset_loop].
  - wp_steps. exact H.
  - wp_steps. unfold id. destruct (is_cross_block s v).
    + wp_step. inv_call. wp_steps. apply IH. inv_solve.
    + apply IH. exact H.
Qed.
#[local] Hint Resolve bb_reset_loop_inv : inv_lemmas.

Lemma bb_reset_block_inv s :
  Inv s -> wp bb_reset_block (fun _ s' => Inv s') s.
Proof. intros H. unfold bb_reset_block. inv_auto. Qed.
#[local] Hint Resolve bb_reset_block_inv : inv_lemmas.

Lemma force_free_all_inv rs : forall s,
  Inv s -> wp (force_free_all rs) (fun _ s' => Inv s') s.
Proof.
  induction rs as [|r rs IH]; intros s H; cbn [force_free_all].
  - wp_steps. exact H.
  - wp_step. inv_call. apply IH. exact HInv.
Qed.
#[local] Hint Resolve force_free_all_inv : inv_lemmas.

Lemma active_erase_all_inv rs s :
  Inv s -> wp (active_erase_all rs) (fun _ s' => Inv s') s.
Proof. intros H. unfold active_erase_all. inv_auto. Qed.
#[local] Hint Resolve active_erase_all_inv : inv_lemmas.

Lemma wrote_to_insert_inv r s :
  Inv s -> wp (wrote_to_insert r) (fun _ s' => Inv s') s.
Proof. intros H. unfold wrote_to_insert. inv_auto. Qed.
#[local] Hint Resolve wrote_to_insert_inv : inv_lemmas.

Lemma rewrite_step_inv x i s :
  Inv s -> wp (rewrite_step TEMP_REGS GLOB_REGS x i) (fun _ s' => Inv s') s.
Proof.
  intros H. unfold rewrite_step. wp_step. wp_step. wp_step.
  assert (H0 : Inv (set_cur_cond (inst_cond x) s)) by inv_solve.
  revert H0. generalize (set_cur_cond (inst_cond x) s). clear H s. intros s H.
  destruct x.
  - inv_auto.
  - destruct (bool_decide (op = OpMov \/ op = OpMvn)); [inv_auto |].
    destruct (bool_decide (op = OpMovT)); inv_auto.
  - inv_auto.
  - inv_auto.
  - wp_step. inv_call. wp_step. inv_call.
    destruct (bool_decide (op = OpBl)); [inv_auto |].
    destruct (bool_decide (op = OpB)); [| inv_auto].
    wp_steps. destruct (bb_reset _); inv_auto.
  - wp_step.
    assert (Hmem : wp match mem with
                      | MemOp m =>
                          let* m' := replace_read_mem TEMP_REGS GLOB_REGS m i in ret (MemOp m')
                      | MemLabel l => ret (MemLabel l)
                      end (fun _ s' => Inv s') s) by (destruct mem; inv_auto).
    eapply wp_mono; [exact Hmem |]. cbv beta. intros mem' s1 H1.
    destruct (bool_decide (op = OpLdR)); inv_auto.
  - exact I.
  - inv_auto.
  - wp_step. inv_call. wp_step. wp_step. wp_step. wp_step.
    match goal with
    | |- wp _ _ ?st => assert (H1 : Inv st)
    end.
    { destruct (_ && _ && _); inv_solve. }
    revert H1. match goal with |- Inv ?st -> _ => generalize st end. intros s2 H2.
    destruct (size_t_truth _); inv_auto.
  - wp_step.
    assert (Hoff : wp (if String.eqb key "offset_stack"
                       then match val with
                            | AnyInt offset =>
                                modify (fun s => set_stack_offset (stack_offset s + offset) s)
                            | AnyOther _ => throw BadAnyCast
                            end
                       else ret tt) (fun _ s' => Inv s') s).
    { destruct (String.eqb key "offset_stack"); [destruct val |]; inv_auto. }
    eapply wp_mono; [exact Hoff |]. cbv beta. intros [] s1 H1. inv_auto.
Qed.

Lemma rewrite_loop_inv insts : forall i s,
  Inv s -> wp (rewrite_loop TEMP_REGS GLOB_REGS insts i) (fun _ s' => Inv s') s.
Proof.
  induction insts as [|x rest IH]; intros i s H; cbn [rewrite_loop].
  - wp_steps. exact H.
  - wp_step. eapply wp_mono; [apply rewrite_step_inv; exact H |].
    intros [] s1 H1. apply IH. exact H1.
Qed.

Lemma perform_load_stores_inv insts s :
  Inv s ->
  wp (perform_load_stores TEMP_REGS GLOB_REGS insts) (fun _ s' => Inv s') s.
Proof. apply rewrite_loop_inv. Qed.

End RewritingInvariant.

(** ** Invariants of the whole allocation *)

Section AllocateInvariant.

Variable TEMP_REGS GLOB_REGS : list Reg.
Variable affine_order : list (Reg * Reg) -> list (Reg * Reg).

Variable Inv : State -> Prop.

Hypothesis Inv_used_regs : forall v s, Inv s -> Inv (set_used_regs v s).
Hypothesis Inv_live_intervals : forall v s, Inv s -> Inv (set_live_intervals v s).
Hypothesis Inv_reg_assign_count : forall v s, Inv s -> Inv (set_reg_assign_count v s).
Hypothesis Inv_reg_affine : forall v s, Inv s -> Inv (set_reg_affine v s).
Hypothesis Inv_bl_points : forall v s, Inv s -> Inv (set_bl_points v s).
Hypothesis Inv_reg_collapse : forall v s, Inv s -> Inv (set_reg_collapse v s).
Hypothesis Inv_reg_map : forall v s, Inv s -> Inv (set_reg_map v s).
Hypothesis Inv_reg_reverse_map : forall v s, Inv s -> Inv (set_reg_reverse_map v s).
Hypothesis Inv_cross_block : forall v s, Inv s -> Inv (set_spilled_cross_block_reg v s).
Hypothesis Inv_active : forall v s, Inv s -> Inv (set_active v s).
Hypothesis Inv_active_reg_map : forall v s, Inv s -> Inv (set_active_reg_map v s).
Hypothesis Inv_spilled_regs : forall v s, Inv s -> Inv (set_spilled_regs v s).
Hypothesis Inv_inst_sink : forall v s, Inv s -> Inv (set_inst_sink v s).
Hypothesis Inv_wrote_to : forall v s, Inv s -> Inv (set_wrote_to v s).
Hypothesis Inv_delayed_store : forall v s, Inv s -> Inv (set_delayed_store v s).
Hypothesis Inv_bb_reset : forall v s, Inv s -> Inv (set_bb_reset v s).
Hypothesis Inv_is_leaf_func : forall v s, Inv s -> Inv (set_is_leaf_func v s).
Hypothesis Inv_cur_cond : forall v s, Inv s -> Inv (set_cur_cond v s).
Hypothesis Inv_used_regs_temp : forall v s, Inv s -> Inv (set_used_regs_temp v s).
Hypothesis Inv_stack_offset : forall v s, Inv s -> Inv (set_stack_offset v s).
Hypothesis Inv_point_bb_map : forall v s, Inv s -> Inv (set_point_bb_map v s).
Hypothesis Inv_spill_pos : forall r s,
  Inv s -> wp (get_or_alloc_spill_pos r) (fun _ s' => Inv s') s.
(** The slot [construct_reg_map] gives a register the colouring spilled. *)
Hypothesis Inv_static_slot : forall r s,
  Inv s ->
  Inv (set_stack_size (stack_size s + 4)
         (set_spill_positions (map_insert_new r (stack_size s) (spill_positions s)) s)).

Lemma add_reg_use_inv reg point s : Inv s -> Inv (add_reg_use_in_bb_at_point_state reg point s).
Proof. intros H. unfold add_reg_use_in_bb_at_point_state. destruct (reg_map s !! reg); auto. Qed.

Lemma add_reg_read_inv reg point s : Inv s -> Inv (add_reg_read_state reg point s).
Proof. intros H. unfold add_reg_read_state. apply add_reg_use_inv. auto. Qed.

Lemma add_reg_write_inv reg point s : Inv s -> Inv (add_reg_write_state reg point s).
Proof. intros H. unfold add_reg_write_state. apply add_reg_use_inv. auto. Qed.

Lemma add_reg_reads_inv regs point : forall s, Inv s -> Inv (add_reg_reads_state regs point s).
Proof.
  unfold add_reg_reads_state. induction regs as [|x regs IH]; intros s H; cbn; [exact H |].
  apply IH, add_reg_read_inv, H.
Qed.

Lemma add_reg_writes_inv regs point : forall s, Inv s -> Inv (add_reg_writes_state regs point s).
Proof.
  unfold add_reg_writes_state. induction regs as [|x regs IH]; intros s H; cbn; [exact H |].
  apply IH, add_reg_write_inv, H.
Qed.

Lemma add_reg_read_op2_inv o point s : Inv s -> Inv (add_reg_read_op2_state o point s).
Proof. intros H. destruct o; cbn; [apply add_reg_read_inv |]; exact H. Qed.

Lemma add_reg_read_mem_inv m point s : Inv s -> Inv (add_reg_read_mem_state m point s).
Proof.
  intros H. unfold add_reg_read_mem_state.
  destruct (mo_offset m); repeat apply add_reg_read_inv; exact H.
Qed.

Lemma live_step_inv x i s : Inv s -> Inv (live_step_state x i s).
Proof.
  intros H. destruct x; cbn [live_step_state]; try exact H.
  - apply add_reg_read_op2_inv.
    destruct (bool_decide (op = OpMov \/ op = OpMovT \/ op = OpMvn));
      [| apply add_reg_read_inv; exact H].
    cbv zeta. pose proof (add_reg_write_inv r1 i s H) as Hw.
    destruct r2 as [ro | v]; [| exact Hw].
    destruct (bool_decide (op = OpMov) && (ro_shift_amount ro =? 0)); [| exact Hw].
    destruct (negb (is_virtual_register r1) && negb (is_virtual_register (ro_reg ro)));
      auto.
  - apply add_reg_write_inv, add_reg_read_op2_inv, add_reg_read_inv, H.
  - repeat first [apply add_reg_write_inv | apply add_reg_read_inv]. exact H.
  - destruct (bool_decide (op = OpBl)); auto.
  - assert (H1 : Inv (if bool_decide (op = OpLdR) then add_reg_write_state rd i s
                      else add_reg_read_state rd i s))
      by (destruct (bool_decide (op = OpLdR));
          [apply add_reg_write_inv | apply add_reg_read_inv]; exact H).
    destruct mem; [exact H1 | apply add_reg_read_mem_inv; exact H1].
  - apply add_reg_read_inv.
    destruct (bool_decide (op = OpLdM));
      [apply add_reg_writes_inv | apply add_reg_reads_inv]; exact H.
  - destruct (bool_decide (op = OpPush));
      [apply add_reg_writes_inv | apply add_reg_reads_inv]; exact H.
  - auto.
Qed.

Lemma live_loop_inv insts : forall i s, Inv s -> Inv (live_loop_state insts i s).
Proof.
  induction insts as [|x rest IH]; intros i s H; cbn [live_loop_state]; [exact H |].
  apply IH, live_step_inv, H.
Qed.

Lemma construct_step_inv color_map item s :
  Inv s -> wp (construct_step GLOB_REGS color_map item) (fun _ s' => Inv s') s.
Proof.
  intros H. unfold construct_step. destruct item as [var_id vreg_id].
  destruct (color_map !! var_id) as [color|]; [| wp_steps; exact H].
  destruct (negb (color =? -1)).
  - destruct (if 0 <=? color then GLOB_REGS !! Z.to_nat color else None); [| exact I].
    wp_steps. auto.
  - wp_steps. apply Inv_cross_block, Inv_static_slot, H.
Qed.

Lemma construct_reg_map_inv color_map mir_to_arm : forall s,
  Inv s -> wp (construct_reg_map GLOB_REGS color_map mir_to_arm) (fun _ s' => Inv s') s.
Proof.
  induction mir_to_arm as [|item rest IH]; intros s H; cbn.
  - wp_steps. exact H.
  - wp_step. eapply wp_mono; [apply construct_step_inv; exact H |].
    intros [] s1 H1. apply IH. exact H1.
Qed.

Lemma affinity_step_inv e s :
  Inv s -> wp (affinity_step e) (fun _ s' => Inv s') s.
Proof.
  intros H. destruct e as [d src]. unfold affinity_step. wp_steps. unfold id.
  assert (Hb2 : wp
    match reg_map s !! d with
    | Some phys =>
        if negb (has_key (reg_map s) src) && negb (is_cross_block s src) then
          let* li_src := map_at (live_intervals s) src in
          let* ov := colour_conflict (reg_reverse_map s) phys src li_src in
          if ov then ret tt
          else modify (fun s => set_reg_collapse (map_insert_new src d (reg_collapse s)) s)
        else ret tt
    | None =>
        if negb (has_key (reg_map s) src) && negb (is_cross_block s src) &&
           negb (is_cross_block s d)
        then
          let* reg_src_ := get_collapse_reg src in
          let* reg_dst_ := get_collapse_reg d in
          let* li_src := map_at (live_intervals s) reg_src_ in
          let* li_dst := map_at (live_intervals s) reg_dst_ in
          if overlaps li_src li_dst then ret tt
          else
            let li_src' :=
              add_ending_point (i_end li_dst) (add_starting_point (i_start li_dst) li_src) in
            modify (fun s =>
              set_reg_collapse (map_insert_new reg_dst_ reg_src_ (reg_collapse s))
                (set_live_intervals (<[reg_src_ := li_src']> (live_intervals s)) s))
        else ret tt
    end (fun _ s' => Inv s') s).
  { destruct (reg_map s !! d) as [phys|].
    - destruct (negb (has_key (reg_map s) src) && negb (is_cross_block s src));
        [| wp_steps; exact H].
      wp_steps. apply colour_conflict_state. intros [|]; wp_steps; auto.
    - destruct (negb (has_key (reg_map s) src) && negb (is_cross_block s src) &&
                negb (is_cross_block s d)); [| wp_steps; exact H].
      wp_steps. destruct (overlaps _ _); cbv zeta; wp_steps; auto. }
  destruct (reg_map s !! src) as [phys|]; [| exact Hb2].
  destruct (negb (has_key (reg_map s) d) && negb (is_cross_block s d)); [| exact Hb2].
  wp_steps. destruct (_ =? 1); [| exact Hb2].
  wp_steps. apply colour_conflict_state. intros [|]; wp_steps; auto.
Qed.

Lemma affinity_loop_inv l : forall s,
  Inv s -> wp (affinity_loop l) (fun _ s' => Inv s') s.
Proof.
  induction l as [|e l IH]; intros s H; cbn [affinity_loop].
  - wp_steps. exact H.
  - wp_step. eapply wp_mono; [apply affinity_step_inv; exact H |].
    intros [] s1 H1. apply IH. exact H1.
Qed.

Lemma allocate_inv f color_map mir_to_arm s :
  Inv s ->
  wp (allocate TEMP_REGS GLOB_REGS affine_order f color_map mir_to_arm)
     (fun _ s' => Inv s') s.
Proof.
  intros H. unfold allocate.
  wp_step. eapply wp_mono; [apply construct_reg_map_inv; exact H |].
  intros [] s1 H1. wp_step.
  pose proof (live_loop_inv (f_inst f) 0 s1 H1) as H2.
  fold (calc_live_intervals_state (f_inst f) s1) in H2.
  eapply wp_as_state; [apply calc_live_intervals_returns |].
  wp_step. unfold calc_reg_affinity. wp_steps.
  eapply wp_mono; [apply affinity_loop_inv; exact H2 |].
  intros [] s3 H3. cbv beta.
  apply perform_load_stores_inv; auto.
Qed.

End AllocateInvariant.

Lemma wp_Ok {A} (m : M A) (Q : A -> State -> Prop) s a s' :
  wp m Q s -> m s = Ok (a, s') -> Q a s'.
Proof. unfold wp. intros H E. rewrite E in H. exact H. Qed.

Lemma slots_ok_spill_pos base r s :
  slots_ok base s -> wp (get_or_alloc_spill_pos r) (fun _ s' => slots_ok base s') s.
Proof.
  intros (Hb & Hin & Hdis). unfold wp, get_or_alloc_spill_pos.
  destruct (spill_positions s !! r) as [pos|] eqn:E;
    [exact (conj Hb (conj Hin Hdis)) |].
  unfold slots_ok; cbn. split; [lia |]. split.
  - intros r0 p Hl. destruct (decide (r0 = r)) as [-> | Hne].
    + rewrite lookup_insert_eq in Hl. injection Hl as <-. lia.
    + rewrite lookup_insert_ne in Hl by congruence. apply Hin in Hl. lia.
  - intros r1 r2 p1 p2 Hne H1 H2.
    destruct (decide (r1 = r)) as [-> | Hne1]; destruct (decide (r2 = r)) as [-> | Hne2];
      try congruence.
    + rewrite lookup_insert_eq in H1. rewrite lookup_insert_ne in H2 by congruence.
      injection H1 as <-. apply Hin in H2. lia.
    + rewrite lookup_insert_eq in H2. rewrite lookup_insert_ne in H1 by congruence.
      injection H2 as <-. apply Hin in H1. lia.
    + rewrite lookup_insert_ne in H1, H2 by congruence. exact (Hdis _ _ _ _ Hne H1 H2).
Qed.

Lemma slots_ok_static_slot base r s :
  slots_ok base s ->
  slots_ok base
    (set_stack_size (stack_size s + 4)
       (set_spill_positions (map_insert_new r (stack_size s) (spill_positions s)) s)).
Proof.
  intros (Hb & Hin & Hdis). unfold slots_ok; cbn. unfold map_insert_new.
  destruct (spill_positions s !! r) as [pos|] eqn:E.
  - split; [lia |]. split; [| exact Hdis].
    intros r0 p Hl. apply Hin in Hl. lia.
  - split; [lia |]. split.
    + intros r0 p Hl. destruct (decide (r0 = r)) as [-> | Hne].
      * rewrite lookup_insert_eq in Hl. injection Hl as <-. lia.
      * rewrite lookup_insert_ne in Hl by congruence. apply Hin in Hl. lia.
    + intros r1 r2 p1 p2 Hne H1 H2.
      destruct (decide (r1 = r)) as [-> | Hne1]; destruct (decide (r2 = r)) as [-> | Hne2];
        try congruence.
      * rewrite lookup_insert_eq in H1. rewrite lookup_insert_ne in H2 by congruence.
        injection H1 as <-. apply Hin in H2. lia.
      * rewrite lookup_insert_eq in H2. rewrite lookup_insert_ne in H1 by congruence.
        injection H2 as <-. apply Hin in H1. lia.
      * rewrite lookup_insert_ne in H1, H2 by congruence. exact (Hdis _ _ _ _ Hne H1 H2).
Qed.

(** X17: Whenever the allocation returns, the spill slots it has handed out
    are pairwise disjoint four-byte ranges, all of them between the
    [stack_size] the function came with and the final [stack_size]. *)
Theorem spill_slots_disjoint (TEMP_REGS GLOB_REGS : list Reg)
    (affine_order : list (Reg * Reg) -> list (Reg * Reg))
    (f : Function) (color_map : gmap Z Z) (mir_to_arm : list (Z * Reg)) (s' : State) :
  allocate TEMP_REGS GLOB_REGS affine_order f color_map mir_to_arm
    (init_state (f_stack_size f)) = Ok (tt, s') ->
  slots_ok (f_stack_size f) s'.
Proof.
  intros E.
  refine (wp_Ok _ (fun _ s1 => slots_ok (f_stack_size f) s1) _ _ _ _ E).
  apply (allocate_inv TEMP_REGS GLOB_REGS affine_order (slots_ok (f_stack_size f)));
    try (intros v s H; exact H).
  - apply slots_ok_spill_pos.
  - apply slots_ok_static_slot.
  - unfold slots_ok; cbn. split; [lia |]. split; intros *; rewrite ?lookup_empty; discriminate.
Qed.

(** X18: The rewriting pass only reads what the analyses have computed: the
    live intervals, the colouring, the collapse map, the assignment
    counts, the copy candidates, the call points, the set of cross-block
    registers and [used_regs] are the same after [perform_load_stores] as
    before. *)
Theorem rewriting_keeps_analyses (TEMP_REGS GLOB_REGS : list Reg)
    (insts : list Inst) (s s' : State) :
  perform_load_stores TEMP_REGS GLOB_REGS insts s = Ok (tt, s') ->
  analysis_results s' = analysis_results s.
Proof.
  intros E.
  refine (wp_Ok _ (fun _ s1 => analysis_results s1 = analysis_results s) _ _ _ _ E).
  apply (perform_load_stores_inv TEMP_REGS GLOB_REGS
           (fun s1 => analysis_results s1 = analysis_results s));
    try (intros v s0 H; exact H); [| reflexivity].
  intros r s0 H. unfold wp, get_or_alloc_spill_pos.
  destruct (spill_positions s0 !! r); exact H.
Qed.

(** ** Roots of the collapse map *)

Lemma get_collapse_reg_fuel_root n rc : forall r r',
  get_collapse_reg_fuel n rc r = Some r' -> rc !! r' = None.
Proof.
  induction n as [|n IH]; intros r r'; cbn; [discriminate |].
  destruct (rc !! r) as [rd|] eqn:E; [apply IH |].
  intros [= <-]. exact E.
Qed.

(** X19: When [get_collapse_reg] returns, it leaves the allocator as it was,
    its result has no entry in [reg_collapse], and it is its own
    representative. *)
Theorem get_collapse_reg_root (r r' : Reg) (s s' : State) :
  get_collapse_reg r s = Ok (r', s') ->
  s' = s /\ reg_collapse s !! r' = None /\ get_collapse_reg r' s = Ok (r', s).
Proof.
  unfold get_collapse_reg.
  destruct (get_collapse_reg_fuel _ _ r) as [x|] eqn:E; [| discriminate].
  intros [= <- <-]. apply get_collapse_reg_fuel_root in E.
  split; [reflexivity |]. split; [exact E |].
  cbn [get_collapse_reg_fuel]. rewrite E. reflexivity.
Qed.

(** In [chain_function] the two copies are coalesced into the chain
    [r5 -> r6 -> r7]. *)
Lemma get_collapse_reg_root_witness :
  exists s,
    run_analyses chain_function ∅ [] = Ok (tt, s) /\
    reg_collapse s !! 5 = Some 6 /\ reg_collapse s !! 6 = Some 7 /\
    get_collapse_reg 5 s = Ok (7, s) /\
    reg_collapse s !! 7 = None /\ get_collapse_reg 7 s = Ok (7, s).
Proof.
  assert (Hrun : exists s,
            run_analyses chain_function ∅ [] = Ok (tt, s) /\
            reg_collapse s !! 5 = Some 6 /\ reg_collapse s !! 6 = Some 7 /\
            get_collapse_reg 5 s = Ok (7, s)).
  { eexists. split; [vm_compute; reflexivity |]. split; [reflexivity |].
    split; [reflexivity |]. vm_compute. reflexivity. }
  destruct Hrun as (s & E & H5 & H6 & Hc). exists s.
  split; [exact E |]. split; [exact H5 |]. split; [exact H6 |]. split; [exact Hc |].
  apply (get_collapse_reg_root 5 7 s s Hc).
Defined.

(** X20: Only physical registers are ever collapsed: after the analyses,
    every entry of [reg_collapse] maps a physical register to a physical
    register, and [get_collapse_reg] returns every virtual register
    unchanged.  The order in which the copy candidates are visited is any
    rearrangement of [reg_affine]. *)
Theorem coalescing_physical_only (GLOB_REGS : list Reg)
    (affine_order : list (Reg * Reg) -> list (Reg * Reg))
    (insts : list Inst) (color_map : gmap Z Z) (mir_to_arm : list (Z * Reg))
    (sz : Z) (s' : State) :
  (forall l, affine_order l ≡ₚ l) ->
  analyses GLOB_REGS affine_order insts color_map mir_to_arm (init_state sz) = Ok (tt, s') ->
  phys_pairs (reg_collapse s') /\
  forall r, is_virtual_register r = true -> get_collapse_reg r s' = Ok (r, s').
Proof.
  intros Hperm E.
  assert (Hphys : phys_pairs (reg_collapse s')).
  { refine (wp_Ok _ (fun _ s1 => phys_pairs (reg_collapse s1)) _ _ _ _ E).
    unfold analyses. wp_step.
    eapply wp_mono;
      [ apply (construct_reg_map_inv GLOB_REGS
                 (fun s => reg_affine s = [] /\ reg_collapse s = ∅));
        try (intros v s H; exact H); split; reflexivity |].
    intros [] s1 [Haff Hcol]. wp_step.
    eapply wp_as_state; [apply calc_live_intervals_returns |]. cbv beta.
    unfold calc_reg_affinity. wp_steps.
    destruct (live_loop_reg_affine insts insts 0 s1) as [Hall _];
      [reflexivity | rewrite Haff; constructor | rewrite Haff; constructor |].
    fold (calc_live_intervals_state insts s1) in Hall.
    apply affinity_loop_collapse.
    - rewrite (Hperm _). eapply Forall_impl; [exact Hall |].
      cbv beta. intros e (H1 & H2 & _). split; assumption.
    - pose proof (live_loop_inv (fun s => reg_collapse s = ∅)) as Hkeep.
      unfold calc_live_intervals_state. rewrite Hkeep; try (intros v s H; exact H); [| exact Hcol].
      intros k v Hl. rewrite lookup_empty in Hl. discriminate Hl. }
  split; [exact Hphys |].
  intros r Hr. unfold get_collapse_reg. cbn [get_collapse_reg_fuel].
  destruct (reg_collapse s' !! r) as [rd|] eqn:El; [| reflexivity].
  exfalso. destruct (Hphys _ _ El) as [Hk _].
  unfold is_virtual_register in Hr. unfold is_phys in Hk. apply Z.leb_le in Hr. lia.
Qed.

Lemma coalescing_physical_only_witness :
  exists s',
    analyses GLOB_REGS_arm (fun l => l) (f_inst chain_function) ∅ [] (init_state 0)
      = Ok (tt, s') /\
    reg_collapse s' !! 5 = Some 6 /\ reg_collapse s' !! 6 = Some 7 /\
    phys_pairs (reg_collapse s') /\
    forall r, is_virtual_register r = true -> get_collapse_reg r s' = Ok (r, s').
Proof.
  assert (Hrun : exists s',
            analyses GLOB_REGS_arm (fun l => l) (f_inst chain_function) ∅ [] (init_state 0)
              = Ok (tt, s') /\
            reg_collapse s' !! 5 = Some 6 /\ reg_collapse s' !! 6 = Some 7).
  { eexists. split; [vm_compute; reflexivity |]. split; reflexivity. }
  destruct Hrun as (s' & Hrun & H5 & H6). exists s'.
  split; [exact Hrun |]. split; [exact H5 |]. split; [exact H6 |].
  exact (coalescing_physical_only GLOB_REGS_arm (fun l => l) _ _ _ 0 s'
           (fun l => reflexivity l) Hrun).
Defined.

(** In [pressure_function] the cross-block register [v64] has the slot 0
    from the start and [v65] gets the slot 4 when it is evicted. *)
Lemma spill_slots_disjoint_witness :
  exists s',
    allocate TEMP_REGS_arm GLOB_REGS_arm (fun l => l) pressure_function
      {[ 1 := -1 ]} [(1, 64)] (init_state (f_stack_size pressure_function)) = Ok (tt, s') /\
    spill_positions s' !! 64 = Some 0 /\ spill_positions s' !! 65 = Some 4 /\
    stack_size s' = 8 /\
    slots_ok (f_stack_size pressure_function) s'.
Proof.
  assert (Hrun : exists s',
            allocate TEMP_REGS_arm GLOB_REGS_arm (fun l => l) pressure_function
              {[ 1 := -1 ]} [(1, 64)] (init_state (f_stack_size pressure_function))
            = Ok (tt, s') /\
            spill_positions s' !! 64 = Some 0 /\ spill_positions s' !! 65 = Some 4 /\
            stack_size s' = 8).
  { eexists. split; [vm_compute; reflexivity |]. split; [reflexivity |].
    split; reflexivity. }
  destruct Hrun as (s' & Hrun & H64 & H65 & Hsz). exists s'.
  split; [exact Hrun |]. split; [exact H64 |]. split; [exact H65 |]. split; [exact Hsz |].
  exact (spill_slots_disjoint _ _ _ _ _ _ s' Hrun).
Defined.

Lemma rewriting_keeps_analyses_witness :
  exists s',
    perform_load_stores TEMP_REGS_arm GLOB_REGS_arm
      [Arith2Inst OpMov 0 (O2Imm 1) Always] (init_state 0) = Ok (tt, s') /\
    analysis_results s' = analysis_results (init_state 0).
Proof.
  assert (Hrun : exists s',
            perform_load_stores TEMP_REGS_arm GLOB_REGS_arm
              [Arith2Inst OpMov 0 (O2Imm 1) Always] (init_state 0) = Ok (tt, s'))
    by (eexists; vm_compute; reflexivity).
  destruct Hrun as (s' & Hrun). exists s'. split; [exact Hrun |].
  exact (rewriting_keeps_analyses _ _ _ _ s' Hrun).
Defined.

(** ** Code whose registers are all coloured *)

Lemma tp_bind {A B} (m : M A) (k : A -> M B) Q s :
  tp m (fun a s' => tp (k a) Q s') s -> tp (bind m k) Q s.
Proof. unfold tp, bind. destruct (m s) as [[a s']| |]; auto. Qed.

Lemma tp_mono {A} (m : M A) (Q Q' : A -> State -> Prop) s :
  tp m Q s -> (forall a s', Q a s' -> Q' a s') -> tp m Q' s.
Proof. unfold tp. destruct (m s) as [[a s']| |]; auto. Qed.

Lemma tp_ret {A} (a : A) (Q : A -> State -> Prop) s : Q a s -> tp (ret a) Q s.
Proof. auto. Qed.

Lemma tp_gets {A} (f : State -> A) (Q : A -> State -> Prop) s :
  Q (f s) s -> tp (gets f) Q s.
Proof. auto. Qed.

Lemma tp_modify (f : State -> State) (Q : unit -> State -> Prop) s :
  Q tt (f s) -> tp (modify f) Q s.
Proof. auto. Qed.

Lemma tp_emit x (Q : unit -> State -> Prop) s :
  Q tt (set_inst_sink (inst_sink s ++ [x]) s) -> tp (emit x) Q s.
Proof. auto. Qed.

Lemma tp_Ok {A} (m : M A) (Q : A -> State -> Prop) s :
  tp m Q s -> exists a s', m s = Ok (a, s') /\ Q a s'.
Proof. unfold tp. destruct (m s) as [[a s']| |]; [eauto | contradiction | contradiction]. Qed.

Ltac tp_step :=
  cbv beta;
  lazymatch goal with
  | |- tp (bind _ _) _ _ => apply tp_bind
  | |- tp (ret _) _ _ => apply tp_ret
  | |- tp (gets _) _ _ => apply tp_gets
  | |- tp (modify _) _ _ => apply tp_modify
  | |- tp (emit _) _ _ => apply tp_emit
  end.

Ltac tp_steps := repeat tp_step; cbv beta.

Section Coloured.

Variable TEMP_REGS GLOB_REGS : list Reg.
Variable sigma : gmap Reg Reg.

Lemma tp_replace_read r i (Q : Reg -> State -> Prop) s :
  quiet sigma s -> coloured sigma r ->
  Q (colour sigma r) s ->
  tp (replace_read TEMP_REGS GLOB_REGS r i None) Q s.
Proof.
  intros (Hmap & Hcol & _) Hr HQ. unfold replace_read.
  apply tp_bind. unfold tp at 1, get_collapse_reg.
  cbn [get_collapse_reg_fuel]. rewrite Hcol, lookup_empty.
  unfold colour in HQ. destruct (is_virtual_register r) eqn:Ev; cbn [negb].
  - apply tp_bind, tp_gets. unfold id. rewrite Hmap.
    destruct (Hr Ev) as [phys Ephys]. rewrite Ephys in HQ |- *.
    apply tp_ret. exact HQ.
  - apply tp_ret. exact HQ.
Qed.

Lemma tp_replace_read_op2 o i (Q : Operand2 -> State -> Prop) s :
  quiet sigma s -> Forall (coloured sigma) (map snd (op2_accesses o)) ->
  Q (colour_op2 sigma o) s ->
  tp (replace_read_op2 TEMP_REGS GLOB_REGS o i) Q s.
Proof.
  intros Hq Hr HQ. destruct o as [ro | v]; cbn.
  - apply tp_bind. apply tp_replace_read; [exact Hq | |].
    + inversion Hr; assumption.
    + apply tp_ret. exact HQ.
  - apply tp_ret. exact HQ.
Qed.

Lemma tp_replace_read_mem m i (Q : MemoryOperand -> State -> Prop) s :
  quiet sigma s -> Forall (coloured sigma) (map snd (mem_accesses m)) ->
  Q (colour_mem sigma m) s ->
  tp (replace_read_mem TEMP_REGS GLOB_REGS m i) Q s.
Proof.
  intros Hq Hr HQ. unfold replace_read_mem, colour_mem, mem_accesses in *.
  inversion Hr as [|? ? H1 Hrest]; subst.
  apply tp_bind. apply tp_replace_read; [exact Hq | exact H1 |].
  destruct (mo_offset m) as [ro | v].
  - apply tp_bind. apply tp_replace_read; [exact Hq | |].
    + inversion Hrest; assumption.
    + apply tp_ret. exact HQ.
  - apply tp_ret. exact HQ.
Qed.

Lemma fold_remove_nil (dead : list (Reg * Interval)) :
  fold_left (fun arm kv => remove_first_phys kv.1 arm) dead [] = [].
Proof. induction dead as [|kv dead IH]; [reflexivity | exact IH]. Qed.

Lemma tp_invalidate_read pos (Q : unit -> State -> Prop) s :
  quiet sigma s ->
  (forall s', quiet sigma s' -> inst_sink s' = inst_sink s ->
              stack_offset s' = stack_offset s -> bb_reset s' = bb_reset s -> Q tt s') ->
  tp (invalidate_read pos) Q s.
Proof.
  intros (Hmap & Hcol & Harm & Hdel) HQ. unfold invalidate_read.
  apply tp_modify. apply HQ; try reflexivity.
  unfold quiet; cbn. rewrite Harm, fold_remove_nil. auto.
Qed.

Lemma tp_wrote_to_insert r (Q : unit -> State -> Prop) s :
  quiet sigma s ->
  (forall s', quiet sigma s' -> inst_sink s' = inst_sink s ->
              stack_offset s' = stack_offset s -> bb_reset s' = bb_reset s -> Q tt s') ->
  tp (wrote_to_insert r) Q s.
Proof.
  intros Hq HQ. unfold wrote_to_insert. apply tp_modify. apply HQ; try reflexivity.
  exact Hq.
Qed.

Lemma tp_force_free r e wb (Q : unit -> State -> Prop) s :
  quiet sigma s -> Q tt s -> tp (force_free r e wb) Q s.
Proof.
  intros (Hmap & Hcol & Harm & Hdel) HQ. unfold force_free.
  apply tp_bind, tp_gets. unfold id.
  destruct (active s !! r); [| apply tp_ret; exact HQ].
  rewrite Harm. cbn. apply tp_ret. exact HQ.
Qed.

Lemma tp_pre_replace_write r i pre (Q : ReplaceWriteAction -> State -> Prop) s :
  quiet sigma s -> coloured sigma r ->
  (forall a, replace_with a = colour sigma r -> (kind a = Phys \/ kind a = Graph) ->
             Q a s) ->
  tp (pre_replace_write TEMP_REGS GLOB_REGS r i pre) Q s.
Proof.
  intros Hq Hr HQ. pose proof Hq as (Hmap & Hcol & _). unfold pre_replace_write.
  apply tp_bind. unfold tp at 1, get_collapse_reg.
  cbn [get_collapse_reg_fuel]. rewrite Hcol, lookup_empty.
  unfold colour in HQ. destruct (is_virtual_register r) eqn:Ev; cbn [negb].
  - apply tp_bind, tp_gets. unfold id. rewrite Hmap.
    destruct (Hr Ev) as [phys Ephys]. rewrite Ephys in HQ |- *.
    apply tp_ret. apply HQ; [reflexivity | right; reflexivity].
  - apply tp_bind. apply tp_force_free; [exact Hq |].
    apply tp_ret. apply HQ; [reflexivity | left; reflexivity].
Qed.

Lemma tp_replace_write a i (Q : unit -> State -> Prop) s :
  quiet sigma s -> (kind a = Phys \/ kind a = Graph) ->
  (forall s', quiet sigma s' -> inst_sink s' = inst_sink s ->
              stack_offset s' = stack_offset s -> bb_reset s' = bb_reset s -> Q tt s') ->
  tp (replace_write a i) Q s.
Proof.
  intros Hq Hk HQ. unfold replace_write. destruct Hk as [-> | ->].
  - apply tp_modify. apply HQ; try reflexivity. exact Hq.
  - apply tp_ret. apply HQ; try reflexivity. exact Hq.
Qed.

Lemma tp_commit_delayed_store i (Q : unit -> State -> Prop) s :
  quiet sigma s -> Q tt s -> tp (commit_delayed_store i) Q s.
Proof.
  intros (Hmap & Hcol & Harm & Hdel) HQ. unfold commit_delayed_store.
  apply tp_bind, tp_gets. rewrite Hdel. apply tp_ret. exact HQ.
Qed.

Lemma quiet_set_cur_cond c s : quiet sigma s -> quiet sigma (set_cur_cond c s).
Proof. intros H. exact H. Qed.

Lemma quiet_emit x s : quiet sigma s -> quiet sigma (set_inst_sink (inst_sink s ++ [x]) s).
Proof. intros H. exact H. Qed.

Lemma tp_force_free_all rs (Q : unit -> State -> Prop) : forall s,
  quiet sigma s -> Q tt s -> tp (force_free_all rs) Q s.
Proof.
  induction rs as [|r rs IH]; intros s Hq HQ; cbn [force_free_all].
  - apply tp_ret. exact HQ.
  - apply tp_bind. apply tp_force_free; [exact Hq |]. apply IH; assumption.
Qed.

Lemma colour_physical r : is_virtual_register r = false -> colour sigma r = r.
Proof. intros H. unfold colour. rewrite H. reflexivity. Qed.

Lemma colour_op2_physical o : op2_physical o -> colour_op2 sigma o = o.
Proof.
  destruct o as [[r sh am] | v]; cbn; [| reflexivity].
  intros H. rewrite (colour_physical _ H). reflexivity.
Qed.

Lemma map_colour_physical regs :
  Forall (fun r => is_virtual_register r = false) regs -> map (colour sigma) regs = regs.
Proof.
  induction 1 as [|r regs Hr _ IH]; cbn; [reflexivity |].
  rewrite (colour_physical _ Hr), IH. reflexivity.
Qed.

(** One instruction: the rewriting returns, and what it has emitted is
    the instruction with its registers renamed. *)
Lemma rewrite_step_coloured x i s :
  quiet sigma s -> colourable sigma x ->
  tp (rewrite_step TEMP_REGS GLOB_REGS x i)
     (fun _ s' => quiet sigma s' /\
                  inst_sink s' = inst_sink s ++ [colour_inst sigma x]) s.
Proof.
  intros Hq [Hregs Hplain]. unfold rewrite_step.
  apply tp_bind, tp_modify.
  pose proof (quiet_set_cur_cond (inst_cond x) s Hq) as Hq0.
  assert (Hsink0 : inst_sink (set_cur_cond (inst_cond x) s) = inst_sink s) by reflexivity.
  revert Hq0 Hsink0. generalize (set_cur_cond (inst_cond x) s). intros s0 Hq0 Hsink0.
  rewrite <- Hsink0. clear Hsink0 Hq s. rename s0 into s. rename Hq0 into Hq.
  apply tp_bind.
  assert (Hfin : forall s1, quiet sigma s1 ->
            inst_sink s1 = inst_sink s ++ [colour_inst sigma x] ->
            tp (commit_delayed_store i)
               (fun _ s' => quiet sigma s' /\
                            inst_sink s' = inst_sink s ++ [colour_inst sigma x]) s1).
  { intros s1 H1 E1. apply tp_commit_delayed_store; [exact H1 | split; assumption]. }
  remember (colour_inst sigma x) as y eqn:Ey.
  destruct x; cbn [accesses_of map snd] in Hregs; cbn [colour_inst] in Ey.
  - (* PureInst *)
    apply tp_bind. apply tp_invalidate_read; [exact Hq |]. intros s1 H1 E1 _ _.
    apply tp_emit. apply Hfin; [exact H1 | cbn; rewrite E1; try subst y; reflexivity].
  - (* Arith2Inst *)
    inversion Hregs as [|? ? Hr1 Hr2]; subst.
    destruct (bool_decide (op = OpMov \/ op = OpMvn)).
    + apply tp_bind. apply tp_replace_read_op2; [exact Hq | exact Hr2 |].
      apply tp_bind. apply tp_invalidate_read; [exact Hq |]. intros s1 H1 E1 _ _.
      apply tp_bind. apply tp_wrote_to_insert; [exact H1 |]. intros s2 H2 E2 _ _.
      apply tp_bind. apply tp_pre_replace_write; [exact H2 | exact Hr1 |].
      intros a Ea Hk. apply tp_bind, tp_emit.
      apply tp_replace_write; [exact H2 | exact Hk |]. intros s3 H3 E3 _ _.
      apply Hfin; [exact H3 |]. rewrite E3. cbn. rewrite E2, E1, Ea. try subst y. reflexivity.
    + destruct (bool_decide (op = OpMovT)) eqn:Emt.
      * apply bool_decide_eq_true in Emt.
        rewrite (colour_op2_physical _ (Hplain Emt)) in Hfin |- *.
        apply tp_bind. apply tp_replace_read; [exact Hq | exact Hr1 |].
        apply tp_bind. apply tp_invalidate_read; [exact Hq |]. intros s1 H1 E1 _ _.
        apply tp_bind. apply tp_wrote_to_insert; [exact H1 |]. intros s2 H2 E2 _ _.
        apply tp_bind. apply tp_pre_replace_write; [exact H2 | exact Hr1 |].
        intros a Ea Hk. apply tp_bind, tp_emit.
        apply tp_replace_write; [exact H2 | exact Hk |]. intros s3 H3 E3 _ _.
        apply Hfin; [exact H3 |]. rewrite E3. cbn. rewrite E2, E1. try subst y. reflexivity.
      * apply tp_bind. apply tp_replace_read; [exact Hq | exact Hr1 |].
        apply tp_bind. apply tp_replace_read_op2; [exact Hq | exact Hr2 |].
        apply tp_bind. apply tp_invalidate_read; [exact Hq |]. intros s1 H1 E1 _ _.
        apply tp_emit. apply Hfin; [exact H1 | cbn; rewrite E1; try subst y; reflexivity].
  - (* Arith3Inst *)
    inversion Hregs as [|? ? Hr1 Hrest]; subst.
    rewrite map_app in Hrest.
    apply Forall_app in Hrest as [Hr2 Hrd]. inversion Hrd as [|? ? Hrd' _]; subst.
    apply tp_bind. apply tp_replace_read; [exact Hq | exact Hr1 |].
    apply tp_bind. apply tp_replace_read_op2; [exact Hq | exact Hr2 |].
    apply tp_bind. apply tp_invalidate_read; [exact Hq |]. intros s1 H1 E1 _ _.
    apply tp_bind. apply tp_wrote_to_insert; [exact H1 |]. intros s2 H2 E2 _ _.
    apply tp_bind. apply tp_pre_replace_write; [exact H2 | exact Hrd' |].
    intros a Ea Hk. apply tp_bind, tp_emit.
    apply tp_replace_write; [exact H2 | exact Hk |]. intros s3 H3 E3 _ _.
    apply Hfin; [exact H3 |]. rewrite E3. cbn. rewrite E2, E1, Ea. try subst y. reflexivity.
  - (* Arith4Inst *)
    inversion Hregs as [|? ? Hr1 Hx]; subst. inversion Hx as [|? ? Hr2 Hy]; subst.
    inversion Hy as [|? ? Hr3 Hz]; subst. inversion Hz as [|? ? Hrd _]; subst.
    apply tp_bind. apply tp_replace_read; [exact Hq | exact Hr1 |].
    apply tp_bind. apply tp_replace_read; [exact Hq | exact Hr2 |].
    apply tp_bind. apply tp_replace_read; [exact Hq | exact Hr3 |].
    apply tp_bind. apply tp_invalidate_read; [exact Hq |]. intros s1 H1 E1 _ _.
    apply tp_bind. apply tp_wrote_to_insert; [exact H1 |]. intros s2 H2 E2 _ _.
    apply tp_bind. apply tp_pre_replace_write; [exact H2 | exact Hrd |].
    intros a Ea Hk. apply tp_bind, tp_emit.
    apply tp_replace_write; [exact H2 | exact Hk |]. intros s3 H3 E3 _ _.
    apply Hfin; [exact H3 |]. rewrite E3. cbn. rewrite E2, E1, Ea. try subst y. reflexivity.
  - (* BrInst *)
    apply tp_bind. apply tp_commit_delayed_store; [exact Hq |].
    apply tp_bind. apply tp_invalidate_read; [exact Hq |]. intros s1 H1 E1 _ _.
    destruct (bool_decide (op = OpBl)).
    + apply tp_bind, tp_modify. apply tp_bind, tp_modify.
      apply tp_bind. apply tp_force_free_all; [exact H1 |].
      apply tp_bind. apply tp_force_free; [exact H1 |].
      apply tp_bind. apply tp_force_free; [exact H1 |].
      apply tp_bind, tp_emit. apply tp_modify.
      apply Hfin; [exact H1 | cbn; rewrite E1; try subst y; reflexivity].
    + destruct (bool_decide (op = OpB)).
      * apply tp_bind, tp_gets. apply tp_bind.
        -- destruct (bb_reset s1).
           ++ unfold bb_reset_block. apply tp_bind, tp_gets.
              destruct H1 as (Hm1 & Hc1 & Ha1 & Hd1). rewrite Ha1. cbn [bb_reset_loop].
              apply tp_bind, tp_ret. apply tp_bind, tp_modify. apply tp_modify.
              apply tp_emit. apply Hfin; [repeat split; assumption |].
              cbn. rewrite E1. try subst y. reflexivity.
           ++ apply tp_ret. apply tp_emit.
              apply Hfin; [exact H1 | cbn; rewrite E1; try subst y; reflexivity].
      * apply tp_emit. apply Hfin; [exact H1 | cbn; rewrite E1; try subst y; reflexivity].
  - (* LoadStoreInst *)
    inversion Hregs as [|? ? Hrd Hmem]; subst.
    apply tp_bind.
    assert (Hm : forall Q : LSMem -> State -> Prop,
              Q match mem with
                | MemOp m => MemOp (colour_mem sigma m)
                | MemLabel l => MemLabel l
                end s ->
              tp match mem with
                 | MemOp m =>
                     let* m' := replace_read_mem TEMP_REGS GLOB_REGS m i in ret (MemOp m')
                 | MemLabel l => ret (MemLabel l)
                 end Q s).
    { intros Q HQ. destruct mem as [l | m].
      - apply tp_ret. exact HQ.
      - apply tp_bind. apply tp_replace_read_mem; [exact Hq | exact Hmem |].
        apply tp_ret. exact HQ. }
    apply Hm. destruct (bool_decide (op = OpLdR)).
    + apply tp_bind. apply tp_invalidate_read; [exact Hq |]. intros s1 H1 E1 _ _.
      apply tp_bind. apply tp_wrote_to_insert; [exact H1 |]. intros s2 H2 E2 _ _.
      apply tp_bind. apply tp_pre_replace_write; [exact H2 | exact Hrd |].
      intros a Ea Hk. apply tp_bind, tp_emit.
      apply tp_replace_write; [exact H2 | exact Hk |]. intros s3 H3 E3 _ _.
      apply Hfin; [exact H3 |]. rewrite E3. cbn. rewrite E2, E1, Ea. try subst y. reflexivity.
    + apply tp_bind. apply tp_replace_read; [exact Hq | exact Hrd |].
      apply tp_bind. apply tp_invalidate_read; [exact Hq |]. intros s1 H1 E1 _ _.
      apply tp_emit. apply Hfin; [exact H1 | cbn; rewrite E1; try subst y; reflexivity].
  - (* MultLoadStoreInst *)
    contradiction.
  - (* PushPopInst *)
    rewrite (map_colour_physical _ Hplain) in Ey.
    apply tp_bind. apply tp_invalidate_read; [exact Hq |]. intros s1 H1 E1 _ _.
    apply tp_emit. apply Hfin; [exact H1 | cbn; rewrite E1; try subst y; reflexivity].
  - (* LabelInst *)
    apply tp_bind. apply tp_invalidate_read; [exact Hq |]. intros s1 H1 E1 _ _.
    apply tp_bind, tp_emit. apply tp_bind, tp_modify. rewrite Hplain. cbn [andb].
    destruct (size_t_truth _); [apply tp_modify | apply tp_ret];
      (apply Hfin; [exact H1 | cbn; rewrite E1; try subst y; reflexivity]).
  - (* CtrlInst *)
    apply tp_bind.
    destruct (String.eqb key "offset_stack") eqn:Ek.
    + destruct (Hplain eq_refl) as [v ->]. apply tp_modify.
      apply tp_bind. apply tp_invalidate_read; [exact Hq |]. intros s1 H1 E1 _ _.
      apply tp_emit. apply Hfin; [exact H1 | cbn; rewrite E1; try subst y; reflexivity].
    + apply tp_ret.
      apply tp_bind. apply tp_invalidate_read; [exact Hq |]. intros s1 H1 E1 _ _.
      apply tp_emit. apply Hfin; [exact H1 | cbn; rewrite E1; try subst y; reflexivity].
Qed.

Lemma rewrite_loop_coloured insts : forall i s,
  quiet sigma s -> Forall (colourable sigma) insts ->
  tp (rewrite_loop TEMP_REGS GLOB_REGS insts i)
     (fun _ s' => quiet sigma s' /\
                  inst_sink s' = inst_sink s ++ map (colour_inst sigma) insts) s.
Proof.
  induction insts as [|x rest IH]; intros i s Hq Hall; cbn [rewrite_loop map].
  - apply tp_ret. split; [exact Hq | rewrite app_nil_r; reflexivity].
  - inversion Hall as [|? ? Hx Hrest]; subst.
    apply tp_bind. eapply tp_mono; [apply rewrite_step_coloured; assumption |].
    cbv beta. intros [] s1 [H1 E1].
    eapply tp_mono; [apply IH; assumption |].
    cbv beta. intros [] s2 [H2 E2]. split; [exact H2 |].
    rewrite E2, E1, <- app_assoc. reflexivity.
Qed.

End Coloured.

(** X21: When no register is collapsed, no virtual register holds a transient
    register, no store is pending, every virtual register of the code has
    a colour and none stands in the list of a [push] or [pop] or in the
    second operand of a [movt], [perform_load_stores] returns and emits the
    instructions one for one with every virtual register replaced by its
    colour: no load, no store and no other instruction is added. *)
Theorem perform_load_stores_coloured (TEMP_REGS GLOB_REGS : list Reg)
    (insts : list Inst) (s : State) :
  quiet (reg_map s) s ->
  Forall (colourable (reg_map s)) insts ->
  exists s',
    perform_load_stores TEMP_REGS GLOB_REGS insts s = Ok (tt, s') /\
    inst_sink s' = inst_sink s ++ map (colour_inst (reg_map s)) insts.
Proof.
  intros Hq Hall.
  destruct (tp_Ok _ _ _ (rewrite_loop_coloured TEMP_REGS GLOB_REGS (reg_map s)
                           insts 0 s Hq Hall)) as ([] & s' & E & _ & Hs).
  exists s'. split; assumption.
Qed.

Lemma perform_load_stores_coloured_witness :
  exists s',
    perform_load_stores TEMP_REGS_arm GLOB_REGS_arm coloured_code state_coloured
      = Ok (tt, s') /\
    inst_sink s' =
      inst_sink state_coloured ++ map (colour_inst (reg_map state_coloured)) coloured_code.
Proof.
  apply (perform_load_stores_coloured TEMP_REGS_arm GLOB_REGS_arm coloured_code
           state_coloured).
  - repeat split; reflexivity.
  - assert (H64 : coloured (reg_map state_coloured) 64)
      by (intros _; exists 4; reflexivity).
    assert (H0 : coloured (reg_map state_coloured) 0) by (intros H; discriminate H).
    unfold coloured_code.
    repeat (apply Forall_cons; split);
      try apply Forall_nil_2;
      try (split; [cbn; repeat constructor; assumption
                  | cbn; first [exact I | reflexivity | discriminate
                               | intros _; exact I | repeat constructor]]).
Defined.

(** ** The register handed out by [alloc_transient_reg] *)

Section Handout.

Variable TEMP_REGS GLOB_REGS : list Reg.

Lemma alloc_using_temp_selected s rs :
  selected TEMP_REGS GLOB_REGS s rs ->
  selected TEMP_REGS GLOB_REGS s (alloc_using_temp TEMP_REGS rs).
Proof.
  destruct rs as [r s1]. intros (Ha & Hm & Hr). unfold alloc_using_temp. cbn in *.
  destruct (r =? NO_REG); [| repeat split; assumption].
  destruct (first_free_temp TEMP_REGS s1) as [t|] eqn:E; [| repeat split; assumption].
  apply first_free_temp_Some in E as [Hin Hfree]. rewrite Ha in Hfree.
  repeat split; cbn; auto.
Qed.

Lemma alloc_using_glob_selected s rs :
  selected TEMP_REGS GLOB_REGS s rs ->
  selected TEMP_REGS GLOB_REGS s (alloc_using_glob GLOB_REGS rs).
Proof.
  destruct rs as [r s1]. intros (Ha & Hm & Hr). unfold alloc_using_glob. cbn in *.
  destruct (r =? NO_REG); [| repeat split; assumption].
  destruct (first_free_glob GLOB_REGS s1) as [g|] eqn:E; [| repeat split; assumption].
  apply first_free_glob_Some in E as (Hin & Hfree & _). rewrite Ha in Hfree.
  repeat split; cbn; auto.
Qed.

Lemma evict_post i orig s :
  wp (evict i orig)
     (fun r s' => r ∈ map snd (active_reg_map s) /\ active s' !! r = None) s.
Proof.
  unfold evict. wp_steps. unfold id.
  destruct (active_reg_map s) as [|[sv sp] rest]; [exact I |].
  wp_steps. unfold wp at 1, get_or_alloc_spill_pos. cbn.
  destruct (spill_positions s !! sv); cbn;
    destruct orig; wp_steps; cbn; (split; [left | apply lookup_delete_eq]).
Qed.

(** X22: Whenever [alloc_transient_reg] returns, its result is a register of
    one of the two pools or a register that an entry of [active_reg_map]
    held before the call; and when the virtual register it is called for
    held no register, the result is active afterwards over exactly the
    requested window, and the pair of the two is the newest entry of
    [active_reg_map]. *)
Theorem alloc_transient_reg_result (i : Interval) (orig : option Reg)
    (s s' : State) (r : Reg) :
  alloc_transient_reg TEMP_REGS GLOB_REGS i orig s = Ok (r, s') ->
  (r ∈ TEMP_REGS \/ r ∈ GLOB_REGS \/ r ∈ map snd (active_reg_map s)) /\
  (not_in_arm orig s ->
   active s' !! r = Some i /\
   forall o, orig = Some o -> last (active_reg_map s') = Some (o, r)).
Proof.
  intros E.
  refine (wp_Ok _ (fun r s' =>
            (r ∈ TEMP_REGS \/ r ∈ GLOB_REGS \/ r ∈ map snd (active_reg_map s)) /\
            (not_in_arm orig s ->
             active s' !! r = Some i /\
             forall o, orig = Some o -> last (active_reg_map s') = Some (o, r)))
            _ _ _ _ E).
  clear E. unfold alloc_transient_reg. wp_steps. unfold id.
  destruct (match orig with Some o => find_virt o (active_reg_map s) | None => None end)
    as [x|] eqn:Ef.
  - wp_steps. split.
    + right. right. destruct orig as [o|]; [| discriminate Ef].
      apply find_virt_elem in Ef. apply list_elem_of_fmap. exists x. split; [reflexivity | exact Ef].
    + intros Hni. destruct orig as [o|]; [| discriminate Ef].
      unfold not_in_arm in Hni. congruence.
  - assert (Hsel : selected TEMP_REGS GLOB_REGS s
                     (if crosses_bl i s
                      then alloc_using_temp TEMP_REGS (alloc_using_glob GLOB_REGS (NO_REG, s))
                      else alloc_using_glob GLOB_REGS (alloc_using_temp TEMP_REGS (NO_REG, s)))).
    { assert (H0 : selected TEMP_REGS GLOB_REGS s (NO_REG, s))
        by (repeat split; left; reflexivity).
      destruct (crosses_bl i s);
        auto using alloc_using_temp_selected, alloc_using_glob_selected. }
    destruct (if crosses_bl i s then _ else _) as [r0 s1].
    destruct Hsel as (Ha & Hm & Hr). cbn [fst snd] in Ha, Hm, Hr.
    wp_steps. destruct (Z.eqb_spec r0 NO_REG) as [-> | Hne].
    + eapply wp_mono; [apply evict_post |]. cbv beta. intros r1 s2 [Hin Hfree].
      rewrite Hm in Hin.
      wp_steps. destruct orig as [o|]; wp_steps; cbn; (split; [auto |]); intros _;
        rewrite map_insert_new_absent by exact Hfree; rewrite lookup_insert_eq;
        (split; [reflexivity |]); intros o' [=]; subst.
      apply last_snoc.
    + destruct Hr as [Hr | [Hin Hfree]]; [contradiction |]. rewrite <- Ha in Hfree.
      wp_steps. destruct orig as [o|]; wp_steps; cbn;
        (split; [tauto |]); intros _;
        rewrite map_insert_new_absent by exact Hfree; rewrite lookup_insert_eq;
        (split; [reflexivity |]); intros o' [=]; subst.
      apply last_snoc.
Qed.

End Handout.

Lemma alloc_transient_reg_result_witness :
  (0 ∈ TEMP_REGS_arm \/ 0 ∈ GLOB_REGS_arm \/
   0 ∈ map snd (active_reg_map (init_state 0))) /\
  (not_in_arm (Some 64) (init_state 0) ->
   active (allocated 0 (mkInterval 2 5) (Some 64) (init_state 0)) !! 0
     = Some (mkInterval 2 5) /\
   forall o, Some 64 = Some o ->
     last (active_reg_map (allocated 0 (mkInterval 2 5) (Some 64) (init_state 0)))
       = Some (o, 0)).
Proof.
  apply (alloc_transient_reg_result TEMP_REGS_arm GLOB_REGS_arm (mkInterval 2 5)
           (Some 64) (init_state 0)).
  vm_compute. reflexivity.
Defined.

(** ** Expiry of windows *)







(** ** Calls *)

Lemma find_phys_remove_first_virt v r q l :
  NoDup (map fst l) -> (v, r) ∈ l -> q <> r ->
  find_phys q (remove_first_virt v l) = find_phys q l.
Proof.
  intros Hnd Hin Hq. induction l as [|[a b] l IH]; [reflexivity |].
  cbn [map fst] in Hnd. apply NoDup_cons in Hnd as [Ha Hnd].
  cbn [remove_first_virt fst]. unfold find_phys in *. cbn [find snd].
  destruct (Z.eqb_spec a v) as [-> | Hne].
  - assert (b = r).
    { apply elem_of_cons in Hin as [[= <-] | Hin]; [reflexivity |].
      exfalso. apply Ha. apply list_elem_of_fmap. exists (v, r). split; [reflexivity | exact Hin]. }
    subst b. destruct (Z.eqb_spec r q); [congruence | reflexivity].
  - cbn [find snd]. destruct (b =? q); [reflexivity |].
    apply IH; [exact Hnd |].
    apply elem_of_cons in Hin as [[= <- <-] | Hin]; [congruence | exact Hin].
Qed.

Lemma NoDup_remove_first_virt v l :
  NoDup (map fst l) -> NoDup (map fst (remove_first_virt v l)).
Proof.
  induction l as [|[a b] l IH]; intros Hnd; [constructor |].
  cbn [map fst] in Hnd. apply NoDup_cons in Hnd as [Ha Hnd].
  cbn [remove_first_virt fst]. destruct (a =? v); [exact Hnd |].
  cbn [map fst]. apply NoDup_cons. split; [| apply IH; exact Hnd].
  intros Hin. apply Ha. apply list_elem_of_fmap in Hin as ([a' b'] & Ee & Hin). cbn in Ee. subst a'.
  apply list_elem_of_fmap. exists (a, b'). split; [reflexivity |].
  clear -Hin. induction l as [|[c d] l IH]; cbn in Hin; [inversion Hin |].
  destruct (c =? v); [right; exact Hin |].
  apply elem_of_cons in Hin as [E | Hin]; [rewrite E; left | right; apply IH; exact Hin].
Qed.

Lemma NoDup_remove_first_phys p l :
  NoDup (map fst l) -> NoDup (map fst (remove_first_phys p l)).
Proof.
  induction l as [|[a b] l IH]; intros Hnd; [constructor |].
  cbn [map fst] in Hnd. apply NoDup_cons in Hnd as [Ha Hnd].
  cbn [remove_first_phys snd]. destruct (b =? p); [exact Hnd |].
  cbn [map fst]. apply NoDup_cons. split; [| apply IH; exact Hnd].
  intros Hin. apply Ha. apply list_elem_of_fmap in Hin as ([a' b'] & Ee & Hin). cbn in Ee. subst a'.
  apply list_elem_of_fmap. exists (a, b'). split; [reflexivity |].
  clear -Hin. induction l as [|[c d] l IH]; cbn in Hin; [inversion Hin |].
  destruct (d =? p); [right; exact Hin |].
  apply elem_of_cons in Hin as [E | Hin]; [rewrite E; left | right; apply IH; exact Hin].
Qed.

(** [force_free] as it is called before a [bl]: with write-back, and
    erasing the entry of [active_reg_map]. *)
Lemma force_free_call r s :
  NoDup (map fst (active_reg_map s)) ->
  exists s' stores,
    force_free r true true s = Ok (tt, s') /\
    inst_sink s' = inst_sink s ++ stores /\
    same_frame s s' /\
    is_leaf_func s' = is_leaf_func s /\
    Forall (is_spill_store (cur_cond s)) stores /\
    NoDup (map fst (active_reg_map s')) /\
    (forall q, q <> r -> active s' !! q = active s !! q) /\
    (forall v q, q <> r -> live_in s v q -> live_in s' v q) /\
    (forall v, live_in s v r ->
       exists pos, spill_positions s' !! v = Some pos /\
                   str_sp r (pos + stack_offset s) (cur_cond s) ∈ stores).
Proof.
  intros Hnd.
  unfold force_free. unfold bind at 1, gets at 1, id. cbv beta iota.
  destruct (active s !! r) as [x|] eqn:Ea.
  2:{ exists s, []. rewrite app_nil_r.
      split; [reflexivity |]. split; [reflexivity |].
      split; [apply same_frame_refl |]. split; [reflexivity |].
      split; [constructor |]. split; [exact Hnd |]. split; [reflexivity |].
      split; [auto |].
      intros v [[iv Hiv] _]. congruence. }
  destruct (find_phys r (active_reg_map s)) as [y|] eqn:Ef.
  2:{ exists s, []. rewrite app_nil_r.
      split; [reflexivity |]. split; [reflexivity |].
      split; [apply same_frame_refl |]. split; [reflexivity |].
      split; [constructor |]. split; [exact Hnd |]. split; [reflexivity |].
      split; [auto |].
      intros v [_ Hf]. congruence. }
  pose proof (find_phys_snd _ _ _ Ef) as Hy. pose proof (find_phys_elem _ _ _ Ef) as Hyin.
  destruct y as [vr r']. cbn in Hy. subst r'.
  assert (Hlive : forall s', active_reg_map s' = remove_first_virt vr (active_reg_map s) ->
            (forall q, q <> r -> active s' !! q = active s !! q) ->
            forall v q, q <> r -> live_in s v q -> live_in s' v q).
  { intros s' Harm Hact v q Hq [Hiv Hf]. split; [rewrite Hact by exact Hq; exact Hiv |].
    rewrite Harm, (find_phys_remove_first_virt vr r) by assumption. exact Hf. }
  unfold get_or_alloc_spill_pos, bind, gets, modify, emit, ret, id. cbn [fst].
  destruct (spill_positions s !! vr) as [pos|] eqn:Ep; cbn.
  - eexists _, [_]. split; [reflexivity |]. cbn.
    split; [reflexivity |].
    split; [unfold same_frame; cbn; repeat split; auto |].
    split; [reflexivity |].
    split; [repeat constructor; eexists _, _; reflexivity |].
    split; [apply NoDup_remove_first_virt; exact Hnd |].
    split; [intros q Hq; apply lookup_delete_ne; congruence |].
    split.
    + apply Hlive; [reflexivity |]. intros q Hq. cbn. apply lookup_delete_ne. congruence.
    + intros v [_ Hf]. rewrite Ef in Hf. injection Hf as <-.
      exists pos. split; [exact Ep | left].
  - eexists _, [_]. split; [reflexivity |]. cbn.
    split; [reflexivity |].
    split; [unfold same_frame; cbn; repeat split; auto |].
    { intros v pos' Hv. rewrite lookup_insert_ne; [assumption | congruence]. }
    split; [reflexivity |].
    split; [repeat constructor; eexists _, _; reflexivity |].
    split; [apply NoDup_remove_first_virt; exact Hnd |].
    split; [intros q Hq; apply lookup_delete_ne; congruence |].
    split.
    + apply Hlive; [reflexivity |]. intros q Hq. cbn. apply lookup_delete_ne. congruence.
    + intros v [_ Hf]. rewrite Ef in Hf. injection Hf as <-.
      exists (stack_size s). split; [apply lookup_insert_eq | left].
Qed.

Lemma force_free_all_call rs : forall s,
  NoDup rs -> NoDup (map fst (active_reg_map s)) ->
  exists s' stores,
    force_free_all rs s = Ok (tt, s') /\
    inst_sink s' = inst_sink s ++ stores /\
    same_frame s s' /\
    is_leaf_func s' = is_leaf_func s /\
    Forall (is_spill_store (cur_cond s)) stores /\
    NoDup (map fst (active_reg_map s')) /\
    (forall q, q ∉ rs -> active s' !! q = active s !! q) /\
    (forall v q, q ∉ rs -> live_in s v q -> live_in s' v q) /\
    (forall v p, p ∈ rs -> live_in s v p ->
       exists pos, spill_positions s' !! v = Some pos /\
                   str_sp p (pos + stack_offset s) (cur_cond s) ∈ stores).
Proof.
  induction rs as [|r rs IH]; intros s Hrs Hnd; cbn [force_free_all].
  - exists s, []. rewrite app_nil_r.
    split; [reflexivity |]. split; [reflexivity |]. split; [apply same_frame_refl |].
    split; [reflexivity |]. split; [constructor |]. split; [exact Hnd |].
    split; [reflexivity |]. split; [auto |].
    intros v p Hp. inversion Hp.
  - apply NoDup_cons in Hrs as [Hr Hrs].
    destruct (force_free_call r s Hnd)
      as (s1 & st1 & E1 & Hs1 & Hf1 & Hl1 & Hst1 & Hnd1 & Ha1 & Hk1 & Hw1).
    destruct (IH s1 Hrs Hnd1)
      as (s2 & st2 & E2 & Hs2 & Hf2 & Hl2 & Hst2 & Hnd2 & Ha2 & Hk2 & Hw2).
    pose proof Hf1 as (_ & Hc1 & Ho1 & _ & _ & _ & Hp1).
    pose proof Hf2 as (_ & Hc2 & Ho2 & _ & _ & _ & Hp2).
    exists s2, (st1 ++ st2). unfold bind. rewrite E1, E2.
    split; [reflexivity |].
    split; [rewrite Hs2, Hs1, app_assoc; reflexivity |].
    split; [eapply same_frame_trans; eassumption |].
    split; [congruence |].
    split; [apply Forall_app; split; [exact Hst1 | rewrite <- Hc1; exact Hst2] |].
    split; [exact Hnd2 |].
    split.
    { intros q Hq. apply not_elem_of_cons in Hq as [Hq1 Hq2].
      rewrite Ha2 by exact Hq2. apply Ha1. exact Hq1. }
    split.
    { intros v q Hq Hlive. apply not_elem_of_cons in Hq as [Hq1 Hq2].
      apply Hk2; [exact Hq2 |]. apply Hk1; assumption. }
    intros v p Hp Hlive. apply elem_of_cons in Hp as [-> | Hp].
    + destruct (Hw1 v Hlive) as (pos & Epos & Hin).
      exists pos. split; [apply Hp2; exact Epos |].
      apply elem_of_app. left. exact Hin.
    + assert (p <> r) by (intros ->; contradiction).
      destruct (Hw2 v p Hp (Hk1 v p H Hlive)) as (pos & Epos & Hin).
      exists pos. split; [exact Epos |].
      apply elem_of_app. right. rewrite <- Hc1, <- Ho1. exact Hin.
Qed.

Lemma bind_assoc {A B C} (m : M A) (f : A -> M B) (g : B -> M C) s :
  bind (bind m f) g s = bind m (fun a => bind (f a) g) s.
Proof. unfold bind. destruct (m s) as [[a s']| |]; reflexivity. Qed.

Lemma force_free_all_app a b {B} (k : unit -> M B) : forall s,
  bind (force_free_all (a ++ b)) k s =
  bind (force_free_all a) (fun _ => bind (force_free_all b) k) s.
Proof.
  induction a as [|r a IH]; intros s; cbn [app force_free_all].
  - reflexivity.
  - rewrite !bind_assoc. unfold bind at 1 3.
    destruct (force_free r true true s) as [[[] s']| |]; [apply IH | reflexivity | reflexivity].
Qed.

Lemma fold_delete_lookup (rs : list Reg) : forall (m : gmap Reg Interval) p,
  fold_left (fun m r => delete r m) rs m !! p =
    if decide (p ∈ rs) then None else m !! p.
Proof.
  induction rs as [|r rs IH]; intros m p; cbn [fold_left].
  - rewrite decide_False by apply not_elem_of_nil. reflexivity.
  - rewrite IH. destruct (decide (p ∈ rs)) as [Hin | Hnin].
    + rewrite decide_True by (right; exact Hin). reflexivity.
    + destruct (decide (p = r)) as [-> | Hne].
      * rewrite decide_True by left. apply lookup_delete_eq.
      * rewrite decide_False by (rewrite not_elem_of_cons; tauto).
        apply lookup_delete_ne. congruence.
Qed.

Lemma NoDup_fold_remove_first_phys (dead : list (Reg * Interval)) : forall l,
  NoDup (map fst l) ->
  NoDup (map fst (fold_left (fun arm kv => remove_first_phys kv.1 arm) dead l)).
Proof.
  induction dead as [|kv dead IH]; intros l Hnd; cbn [fold_left]; [exact Hnd |].
  apply IH, NoDup_remove_first_phys, Hnd.
Qed.

Lemma freed_at_call_spec n :
  0 <= n ->
  NoDup (freed_at_call n) /\
  (forall p, p ∈ freed_at_call n <-> (Z.min n 4 <= p < 4 \/ p = 12 \/ p = REG_LR)) /\
  (forall p, p ∈ map to_Reg (seqZ 0 (Z.min n 4)) -> 0 <= p < Z.min n 4).
Proof.
  intros Hn. unfold freed_at_call, REG_LR.
  assert (Hc : Z.min n 4 = 0 \/ Z.min n 4 = 1 \/ Z.min n 4 = 2 \/ Z.min n 4 = 3 \/
               Z.min n 4 = 4) by lia.
  destruct Hc as [-> | [-> | [-> | [-> | ->]]]];
    (split; [vm_compute; repeat constructor;
             intros H; repeat (apply elem_of_cons in H as [H | H]; [discriminate H |]);
             inversion H |]);
    (split;
     [ intros p; vm_compute (map to_Reg _ ++ _); split;
       [ intros H; repeat (apply elem_of_cons in H as [-> | H]; [lia |]); inversion H
       | intros H;
         assert (Hp : p = 0 \/ p = 1 \/ p = 2 \/ p = 3 \/ p = 12 \/ p = 14) by lia;
         decompose [or] Hp; subst p; try lia; repeat first [left; fail | constructor] ]
     | intros p; vm_compute (map to_Reg _);
       intros H; repeat (apply elem_of_cons in H as [-> | H]; [lia |]); inversion H ]).
Qed.

Lemma tp_of_eq {A} (m : M A) (Q : A -> State -> Prop) s a s' :
  m s = Ok (a, s') -> Q a s' -> tp m Q s.
Proof. unfold tp. intros ->. auto. Qed.

Lemma tp_commit_none i (Q : unit -> State -> Prop) s :
  delayed_store s = None -> Q tt s -> tp (commit_delayed_store i) Q s.
Proof.
  intros Hd HQ. unfold commit_delayed_store. apply tp_bind, tp_gets.
  rewrite Hd. apply tp_ret. exact HQ.
Qed.

Lemma tp_force_free_chain rs r1 r2 (R : State -> Prop) : forall s,
  tp (force_free_all (rs ++ [r1; r2])) (fun _ s' => R s') s ->
  tp (force_free_all rs)
     (fun _ s' => tp (force_free r1 true true)
                    (fun _ s'' => tp (force_free r2 true true) (fun _ s3 => R s3) s'') s') s.
Proof.
  induction rs as [|r rs IH]; intros s; cbn [app force_free_all].
  - unfold tp, bind, ret.
    destruct (force_free r1 true true s) as [[[] s1]| |]; try contradiction.
    destruct (force_free r2 true true s1) as [[[] s2]| |]; try contradiction. auto.
  - unfold tp at 1 2, bind.
    destruct (force_free r true true s) as [[[] s1]| |]; try contradiction.
    apply IH.
Qed.

Section Calls.

Variable TEMP_REGS GLOB_REGS : list Reg.

(** X26: At a [bl] with [param_cnt >= 0] parameters, reached with no store
    pending and with at most one entry per virtual register in
    [active_reg_map]: the step returns; what it emits before the call are
    stores to stack slots under the condition code of the call; for
    every virtual register that is live in one of the registers freed at
    the call (those of [r0]..[r3] that carry no argument, [r12], [lr]),
    the store of that register to the slot of the virtual register, at the
    offset [slot + stack_offset] narrowed to the [int16_t] of the operand,
    is among them; afterwards none of [r0]..[r3], [r12], [lr] is active and
    the function is no leaf function.  [s1] is the state in which the
    registers are freed, after [invalidate_read]. *)
Theorem call_write_back (l : string) (param_cnt : Z) (c : ConditionCode)
    (i : Z) (s s1 : State) :
  0 <= param_cnt ->
  delayed_store s = None ->
  NoDup (map fst (active_reg_map s)) ->
  invalidate_read i (set_cur_cond c s) = Ok (tt, s1) ->
  exists s' stores,
    rewrite_step TEMP_REGS GLOB_REGS (BrInst OpBl l param_cnt c) i s = Ok (tt, s') /\
    inst_sink s' = inst_sink s ++ stores ++ [BrInst OpBl l param_cnt c] /\
    Forall (is_spill_store c) stores /\
    (forall v p,
       Z.min param_cnt 4 <= p < 4 \/ p = 12 \/ p = REG_LR ->
       live_in s1 v p ->
       exists pos, spill_positions s' !! v = Some pos /\
                   str_sp p (pos + stack_offset s) c ∈ stores) /\
    (forall p, p ∈ [0; 1; 2; 3; 12; REG_LR] -> active s' !! p = None) /\
    is_leaf_func s' = false.
Proof.
  intros Hn Hdel Hnd Hinv.
  destruct (freed_at_call_spec param_cnt Hn) as (Hfnd & Hfmem & Hargs).
  pose proof Hinv as Hs1. unfold invalidate_read, modify in Hs1. injection Hs1 as Hs1.
  assert (Hnd1 : NoDup (map fst (active_reg_map s1)))
    by (rewrite <- Hs1; cbn; apply NoDup_fold_remove_first_phys; exact Hnd).
  assert (Hc1 : cur_cond s1 = c) by (rewrite <- Hs1; reflexivity).
  assert (Ho1 : stack_offset s1 = stack_offset s) by (rewrite <- Hs1; reflexivity).
  assert (Hd1 : delayed_store s1 = None) by (rewrite <- Hs1; exact Hdel).
  assert (Hk1 : inst_sink s1 = inst_sink s) by (rewrite <- Hs1; reflexivity).
  clear Hs1.
  set (s2 := set_active
               (fold_left (fun m r => delete r m)
                  (map to_Reg (seqZ 0 (Z.min param_cnt 4)))
                  (active (set_is_leaf_func false s1)))
               (set_is_leaf_func false s1)).
  destruct (force_free_all_call (freed_at_call param_cnt) s2 Hfnd Hnd1)
    as (s3 & stores & E3 & Hs3 & Hf3 & Hl3 & Hst3 & Hnd3 & Ha3 & _ & Hw3).
  pose proof Hf3 as (_ & Hc3 & Ho3 & _ & _ & Hd3 & Hp3).
  assert (Hgoal : tp (rewrite_step TEMP_REGS GLOB_REGS (BrInst OpBl l param_cnt c) i)
            (fun _ s' =>
               inst_sink s' = inst_sink s ++ stores ++ [BrInst OpBl l param_cnt c] /\
               spill_positions s' = spill_positions s3 /\
               (forall p, p ∈ [0; 1; 2; 3; 12; REG_LR] -> active s' !! p = None) /\
               is_leaf_func s' = false) s).
  { unfold rewrite_step. cbn [inst_cond].
    apply tp_bind, tp_modify. apply tp_bind.
    { apply tp_bind. apply tp_commit_none; [exact Hdel |].
      apply tp_bind. eapply tp_of_eq; [exact Hinv |].
      rewrite bool_decide_eq_true_2 by reflexivity.
      apply tp_bind, tp_modify. apply tp_bind. unfold active_erase_all at 1.
      apply tp_modify. fold s2.
      apply tp_bind. cbv beta.
      assert (Hchain :
        tp (force_free_all
              (map to_Reg (seqZ (Z.min param_cnt 4) (4 - Z.min param_cnt 4))))
           (fun _ s' =>
              tp (force_free 12 true true)
                 (fun _ s'' =>
                    tp (force_free REG_LR true true)
                       (fun _ s5 =>
                          tp (emit (BrInst OpBl l param_cnt c) >>
                              active_erase_all [0; 1; 2; 3; 12; REG_LR])
                             (fun _ s' => tp (commit_delayed_store i)
                                (fun _ s'' =>
                                   inst_sink s'' =
                                     inst_sink s ++ stores ++ [BrInst OpBl l param_cnt c] /\
                                   spill_positions s'' = spill_positions s3 /\
                                   (forall p, p ∈ [0; 1; 2; 3; 12; REG_LR] ->
                                              active s'' !! p = None) /\
                                   is_leaf_func s'' = false) s') s5) s'') s') s2).
      { apply tp_force_free_chain. fold (freed_at_call param_cnt).
        eapply tp_of_eq; [exact E3 |]. cbv beta.
        apply tp_bind, tp_emit. unfold active_erase_all. apply tp_modify.
        apply tp_commit_none; [cbn; rewrite Hd3; exact Hd1 |].
        cbv beta.
        split; [cbn; rewrite Hs3; unfold s2; cbn; rewrite Hk1, <- app_assoc; reflexivity |].
        split; [reflexivity |]. split.
        - intros p Hp. cbn [active set_active]. rewrite fold_delete_lookup.
          rewrite decide_True by exact Hp. reflexivity.
        - cbn. rewrite Hl3. reflexivity. }
      eapply tp_mono; [exact Hchain |].
      cbv beta. intros [] s4 H4. apply tp_bind.
      eapply tp_mono; [exact H4 |]. cbv beta. intros [] s5 H5.
      apply tp_bind. exact H5. } }
  apply tp_Ok in Hgoal as ([] & s' & E & Hsink & Hsp & Hact & Hleaf).
  exists s', stores. split; [exact E |]. split; [exact Hsink |].
  split; [rewrite <- Hc1; exact Hst3 |]. split; [| split; assumption].
  intros v p Hp Hlive. apply Hfmem in Hp.
  assert (Hlive2 : live_in s2 v p).
  { destruct Hlive as [Hiv Hf]. split; [| exact Hf].
    unfold s2. cbn. rewrite fold_delete_lookup.
    rewrite decide_False; [exact Hiv |].
    intros Hin. apply Hargs in Hin. apply Hfmem in Hp. unfold REG_LR in Hp. lia. }
  destruct (Hw3 v p Hp Hlive2) as (pos & Epos & Hin).
  exists pos. rewrite Hsp. split; [exact Epos |].
  replace (stack_offset s) with (stack_offset s2) by exact Ho1.
  rewrite <- Hc1. exact Hin.
Qed.

End Calls.

(** In [call_function] eight registers are live across the call: seven
    are in the callee-saved registers and [v71] is in [r0], which is freed
    at the call with a store to the slot of [v71]. *)
Lemma call_write_back_witness :
  exists s0 s s1 s' stores,
    run_analyses call_function ∅ [] = Ok (tt, s0) /\
    rewrite_loop TEMP_REGS_arm GLOB_REGS_arm (take 8 (f_inst call_function)) 0 s0
      = Ok (tt, s) /\
    invalidate_read 8 (set_cur_cond Always s) = Ok (tt, s1) /\
    live_in s1 71 0 /\
    rewrite_step TEMP_REGS_arm GLOB_REGS_arm (BrInst OpBl "f" 0 Always) 8 s = Ok (tt, s') /\
    inst_sink s' = inst_sink s ++ stores ++ [BrInst OpBl "f" 0 Always] /\
    Forall (is_spill_store Always) stores /\
    (exists pos, spill_positions s' !! 71 = Some pos /\
                 str_sp 0 (pos + stack_offset s) Always ∈ stores) /\
    (forall p, p ∈ [0; 1; 2; 3; 12; REG_LR] -> active s' !! p = None) /\
    is_leaf_func s' = false.
Proof.
  assert (Hrun : exists s0 s s1,
            run_analyses call_function ∅ [] = Ok (tt, s0) /\
            rewrite_loop TEMP_REGS_arm GLOB_REGS_arm (take 8 (f_inst call_function)) 0 s0
              = Ok (tt, s) /\
            delayed_store s = None /\
            NoDup (map fst (active_reg_map s)) /\
            invalidate_read 8 (set_cur_cond Always s) = Ok (tt, s1) /\
            live_in s1 71 0).
  { eexists _, _, _.
    split; [vm_compute; reflexivity |]. split; [vm_compute; reflexivity |].
    split; [reflexivity |].
    split; [apply (bool_decide_unpack _); vm_compute; reflexivity |].
    split; [reflexivity |].
    split; [eexists; vm_compute; reflexivity | vm_compute; reflexivity]. }
  destruct Hrun as (s0 & s & s1 & E0 & E & Hd & Hnd & Hinv & Hlive).
  destruct (call_write_back TEMP_REGS_arm GLOB_REGS_arm "f" 0 Always 8 s s1)
    as (s' & stores & Hstep & Hsink & Hst & Hwb & Hact & Hleaf);
    [lia | exact Hd | exact Hnd | exact Hinv |].
  exists s0, s, s1, s', stores.
  split; [exact E0 |]. split; [exact E |]. split; [exact Hinv |]. split; [exact Hlive |].
  split; [exact Hstep |]. split; [exact Hsink |]. split; [exact Hst |].
  split; [apply (Hwb 71 0); [left; cbn; lia | exact Hlive] |].
  split; [exact Hact | exact Hleaf].
Defined.

(** ** Termination of [get_collapse_reg] *)

(** X27: [get_collapse_reg] returns exactly when following [reg_collapse]
    from the register reaches a register without an entry, and then it
    returns that register and leaves the allocator as it was; it recurses
    for ever exactly when there is no such register; it never throws. *)
Theorem get_collapse_reg_chase (r : Reg) (s : State) :
  (forall r' s', get_collapse_reg r s = Ok (r', s') <->
                 s' = s /\ exists p, chase (reg_collapse s) r p r') /\
  (get_collapse_reg r s = Diverge <-> ~ exists p r', chase (reg_collapse s) r p r') /\
  (forall e, get_collapse_reg r s <> Throw e).
Proof.
  split; [| split].
  - intros r' s'. rewrite get_collapse_reg_Ok. split; intros [-> H]; (split; [reflexivity |]).
    + destruct H as [n Hn]. apply fuel_chase in Hn as (p & Hp & _). eauto.
    + destruct H as [p Hp]. apply chase_fuel in Hp. eauto.
  - rewrite get_collapse_reg_Diverge. split.
    + intros Hn (p & r' & Hp). apply chase_fuel in Hp. rewrite Hn in Hp. discriminate Hp.
    + intros Hno n. destruct (get_collapse_reg_fuel n (reg_collapse s) r) as [r'|] eqn:E;
        [| reflexivity].
      exfalso. apply Hno. apply fuel_chase in E as (p & Hp & _). eauto.
  - intros e. unfold get_collapse_reg. destruct (get_collapse_reg_fuel _ _ r); discriminate.
Qed.

(** ** Construction of the register map *)

Lemma sset_insert_elem x y l : x ∈ sset_insert y l <-> x = y \/ x ∈ l.
Proof.
  induction l as [|z l IH]; cbn.
  - rewrite list_elem_of_singleton. split; [auto | intros [H | H]; [exact H | inversion H]].
  - destruct (Z.ltb_spec y z).
    + rewrite elem_of_cons. tauto.
    + destruct (Z.eqb_spec y z) as [-> | Hne].
      * rewrite elem_of_cons. tauto.
      * rewrite !elem_of_cons, IH. tauto.
Qed.

Section Construct.

Variable GLOB_REGS : list Reg.
Variable color_map : gmap Z Z.

Lemma construct_step_keeps base item s s' var vreg :
  construct_step GLOB_REGS color_map item s = Ok (tt, s') ->
  recorded GLOB_REGS color_map base s var vreg -> recorded GLOB_REGS color_map base s' var vreg.
Proof.
  unfold construct_step. destruct item as [var0 vreg0].
  unfold recorded. destruct (color_map !! var) as [color|]; [| auto].
  destruct (color_map !! var0) as [color0|]; [| intros [= <-]; auto].
  destruct (negb (color0 =? -1)).
  - destruct (if 0 <=? color0 then GLOB_REGS !! Z.to_nat color0 else None) as [reg0|];
      [| discriminate].
    intros [= <-]. cbn. destruct (color =? -1); [auto |].
    intros (reg & Hc & Hg & Hm & Hu & Hr). exists reg.
    split; [exact Hc |]. split; [exact Hg |].
    split; [unfold map_insert_new; destruct (reg_map s !! vreg0) eqn:E; [exact Hm |];
            rewrite lookup_insert_ne by congruence; exact Hm |].
    split; [apply sset_insert_elem; right; exact Hu |].
    apply elem_of_app. left. exact Hr.
  - intros [= <-]. cbn. destruct (color =? -1); [| auto].
    intros (Hin & pos & Hp & Hb & Hs). split; [set_solver |].
    exists pos. split; [| lia].
    unfold map_insert_new. destruct (spill_positions s !! vreg0) eqn:E; [exact Hp |].
    rewrite lookup_insert_ne by congruence. exact Hp.
Qed.

Lemma construct_step_fresh item s s' vreg :
  construct_step GLOB_REGS color_map item s = Ok (tt, s') ->
  vreg <> item.2 ->
  reg_map s' !! vreg = reg_map s !! vreg /\
  spill_positions s' !! vreg = spill_positions s !! vreg /\
  stack_size s <= stack_size s'.
Proof.
  unfold construct_step. destruct item as [var0 vreg0]. cbn [snd]. intros E Hne.
  destruct (color_map !! var0) as [color0|]; [| injection E as <-; repeat split; lia].
  destruct (negb (color0 =? -1)).
  - destruct (if 0 <=? color0 then GLOB_REGS !! Z.to_nat color0 else None) as [reg0|];
      [| discriminate].
    injection E as <-. cbn. split; [| split; [reflexivity | lia]].
    unfold map_insert_new. destruct (reg_map s !! vreg0); [reflexivity |].
    apply lookup_insert_ne. congruence.
  - injection E as <-. cbn. split; [reflexivity |]. split; [| lia].
    unfold map_insert_new. destruct (spill_positions s !! vreg0); [reflexivity |].
    apply lookup_insert_ne. congruence.
Qed.

Lemma construct_step_records base var vreg s s' :
  construct_step GLOB_REGS color_map (var, vreg) s = Ok (tt, s') ->
  reg_map s !! vreg = None -> spill_positions s !! vreg = None ->
  base <= stack_size s ->
  recorded GLOB_REGS color_map base s' var vreg.
Proof.
  unfold construct_step, recorded. intros E Hm Hp Hb.
  destruct (color_map !! var) as [color|]; [| exact I].
  destruct (Z.eqb_spec color (-1)) as [Heq | Hne]; cbn [negb] in E.
  - subst color. injection E as <-. cbn. split; [set_solver |].
    exists (stack_size s). unfold map_insert_new. rewrite Hp, lookup_insert_eq.
    split; [reflexivity | lia].
  - destruct (Z.leb_spec 0 color) as [Hc | Hc]; [| discriminate].
    destruct (GLOB_REGS !! Z.to_nat color) as [reg|] eqn:Eg; [| discriminate].
    injection E as <-. cbn. exists reg.
    split; [exact Hc |]. split; [reflexivity |].
    split; [unfold map_insert_new; rewrite Hm; apply lookup_insert_eq |].
    split; [apply sset_insert_elem; left; reflexivity |].
    apply elem_of_app. right. left.
Qed.

Lemma construct_reg_map_records base mir_to_arm : forall s s',
  NoDup (map snd mir_to_arm) ->
  (forall vreg, vreg ∈ map snd mir_to_arm ->
     reg_map s !! vreg = None /\ spill_positions s !! vreg = None) ->
  base <= stack_size s ->
  construct_reg_map GLOB_REGS color_map mir_to_arm s = Ok (tt, s') ->
  forall var vreg, (var, vreg) ∈ mir_to_arm -> recorded GLOB_REGS color_map base s' var vreg.
Proof.
  induction mir_to_arm as [|[var0 vreg0] rest IH]; intros s s' Hnd Hfresh Hb E var vreg Hin.
  - inversion Hin.
  - cbn [map snd] in Hnd. apply NoDup_cons in Hnd as [Hv0 Hnd].
    cbn [construct_reg_map] in E. unfold bind in E.
    destruct (construct_step GLOB_REGS color_map (var0, vreg0) s) as [[[] s1]| |] eqn:E1;
      try discriminate.
    assert (Hkeep : forall var1 vreg1, recorded GLOB_REGS color_map base s1 var1 vreg1 ->
              recorded GLOB_REGS color_map base s' var1 vreg1).
    { clear -E. revert s1 E. induction rest as [|it rest IHr]; intros s1 E var1 vreg1 H.
      - cbn in E. injection E as <-. exact H.
      - cbn [construct_reg_map] in E. unfold bind in E.
        destruct (construct_step GLOB_REGS color_map it s1) as [[[] s2]| |] eqn:E2;
          try discriminate.
        eapply IHr; [exact E |]. eapply construct_step_keeps; eassumption. }
    apply elem_of_cons in Hin as [[= -> ->] | Hin].
    + apply Hkeep. destruct (Hfresh vreg0) as [Hm Hp]; [left |].
      eapply construct_step_records; eassumption.
    + apply (IH s1 s' Hnd); try assumption.
      * intros vreg1 Hv1.
        assert (Hne : vreg1 <> vreg0) by (intros ->; contradiction).
        destruct (construct_step_fresh _ _ _ vreg1 E1 Hne) as (Em & Ep & _).
        rewrite Em, Ep. apply Hfresh. right. exact Hv1.
      * assert (Hne : vreg0 + 1 <> vreg0) by lia.
        destruct (construct_step_fresh _ _ _ (vreg0 + 1) E1 Hne) as (_ & _ & Hle). lia.
Qed.

End Construct.

(** X28: [construct_reg_map], run where the virtual registers of the variable
    map are distinct and have no register and no slot yet, gives every
    variable with a colour other than -1 the global register at that
    index, recorded in [used_regs] and in the reverse map, and every
    variable of colour -1 a stack slot of its own above the old stack
    size and a place in [spilled_cross_block_reg]. *)
Theorem construct_reg_map_coloured (GLOB_REGS : list Reg) (color_map : gmap Z Z)
    (mir_to_arm : list (Z * Reg)) (s s' : State) :
  NoDup (map snd mir_to_arm) ->
  (forall vreg, vreg ∈ map snd mir_to_arm ->
     reg_map s !! vreg = None /\ spill_positions s !! vreg = None) ->
  construct_reg_map GLOB_REGS color_map mir_to_arm s = Ok (tt, s') ->
  forall var vreg, (var, vreg) ∈ mir_to_arm ->
    recorded GLOB_REGS color_map (stack_size s) s' var vreg.
Proof.
  intros Hnd Hfresh E. eapply construct_reg_map_records; try eassumption. lia.
Qed.

Lemma construct_reg_map_coloured_witness :
  exists s',
    construct_reg_map GLOB_REGS_arm {[ 1 := -1; 2 := 0 ]} [(1, 64); (2, 65)] (init_state 8)
      = Ok (tt, s') /\
    recorded GLOB_REGS_arm {[ 1 := -1; 2 := 0 ]} 8 s' 1 64 /\
    recorded GLOB_REGS_arm {[ 1 := -1; 2 := 0 ]} 8 s' 2 65.
Proof.
  assert (Hrun : exists s',
            construct_reg_map GLOB_REGS_arm {[ 1 := -1; 2 := 0 ]} [(1, 64); (2, 65)]
              (init_state 8) = Ok (tt, s'))
    by (eexists; vm_compute; reflexivity).
  destruct Hrun as (s' & Hrun). exists s'. split; [exact Hrun |].
  assert (Hnd : NoDup (map snd [(1, 64); (2, 65)])).
  { cbn. apply NoDup_cons. split; [| apply NoDup_singleton].
    intros H. apply list_elem_of_singleton in H. discriminate H. }
  assert (Hfresh : forall vreg, vreg ∈ map snd [(1, 64); (2, 65)] ->
            reg_map (init_state 8) !! vreg = None /\
            spill_positions (init_state 8) !! vreg = None).
  { intros vreg _. split; apply lookup_empty. }
  split.
  - apply (construct_reg_map_coloured _ _ _ _ s' Hnd Hfresh Hrun). left.
  - apply (construct_reg_map_coloured _ _ _ _ s' Hnd Hfresh Hrun). right. left.
Defined.
(** ** Cross-block registers at a block boundary *)

(** Every write to an uncoloured cross-block register is stored in the
    iteration of the rewriting loop that handles the writing instruction:
    [replace_write] erases from [wrote_to] what the iteration has inserted.
    The lemmas of this section follow [eager_but] through the functions of
    the loop. *)

Lemma wp_conj {A} (m : M A) (Q1 Q2 : A -> State -> Prop) s :
  wp m Q1 s -> wp m Q2 s -> wp m (fun a s' => Q1 a s' /\ Q2 a s') s.
Proof. unfold wp. destruct (m s) as [[a s']| |]; auto. Qed.



Section Eager.

Variable TEMP_REGS GLOB_REGS : list Reg.
Hypothesis TEMP_phys : Forall is_phys TEMP_REGS.
Hypothesis GLOB_phys : Forall is_phys GLOB_REGS.
Variable s0 : State.
Hypothesis virtual_roots :
  forall v, is_virtual_register v = true -> reg_collapse s0 !! v = None.
Hypothesis colours_phys : map_Forall (fun _ p => is_phys p) (reg_map s0).



































End Eager.

(** The loop over a list of instructions is the loop over a prefix
    followed by the loop over the rest. *)
Lemma rewrite_loop_app TEMP_REGS GLOB_REGS pre : forall rest i s,
  rewrite_loop TEMP_REGS GLOB_REGS (pre ++ rest) i s =
  (rewrite_loop TEMP_REGS GLOB_REGS pre i >>
   rewrite_loop TEMP_REGS GLOB_REGS rest (i + Z.of_nat (length pre))) s.
Proof.
  induction pre as [|x pre IH]; intros rest i s; cbn [app rewrite_loop length].
  - unfold bind, ret. rewrite Z.add_0_r. reflexivity.
  - unfold bind. specialize (IH rest (i + 1)). unfold bind in IH.
    destruct (rewrite_step TEMP_REGS GLOB_REGS x i s) as [[[] s1]| |]; [| reflexivity ..].
    rewrite IH.
    destruct (rewrite_loop TEMP_REGS GLOB_REGS pre (i + 1) s1) as [[[] s2]| |];
      [| reflexivity ..].
    f_equal. lia.
Qed.

Section BlockBoundary.

Variable TEMP_REGS GLOB_REGS : list Reg.
Variable affine_order : list (Reg * Reg) -> list (Reg * Reg).
Hypothesis TEMP_phys : Forall is_phys TEMP_REGS.
Hypothesis GLOB_phys : Forall is_phys GLOB_REGS.
Hypothesis affine_order_perm : forall l, affine_order l ≡ₚ l.



End BlockBoundary.


